(** * Vanaheimr: the VIR instruction model and the PTX to VIR translator

    A shallow embedding of
    - [vanaheimr/ir/implementation/Instruction.cpp] (module [ir]),
    - [vanaheimr/translation/implementation/PTXToVIRTranslator.cpp]
      (module [translation]),
    together with the parts of the PTX front end that the translator
    reads (modules [PTXOperand], [PTXInstruction] and [PTXKernel]). *)

From Stdlib Require Import ZArith NArith String List Lia.
From stdpp Require Import base option list strings gmap pretty.

Open Scope string_scope.

(** ** The PTX front end, as far as the translator reads it *)

Module PTXOperand.

(** [PTXOperand::DataType].  The translator names fifteen members (see
    [translateTypeName]); [f16] and [TypeSpecifier_invalid] are the
    members that only its [default] branches can see. *)
Inductive DataType : Type :=
| TypeSpecifier_invalid
| s8 | s16 | s32 | s64
| u8 | u16 | u32 | u64
| f16 | f32 | f64
| b8 | b16 | b32 | b64
| pred.

#[global] Instance DataType_eq_dec : EqDecision DataType.
Proof. solve_decision. Defined.

(** Modelled from the spec: [PTXOperand::isFloat] belongs to the PTX
    front end and is not part of PTXToVIRTranslator.cpp; with [isSigned]
    and [bytes] it gives the type class (float, signed integer, anything
    else) and the width that key the conversion table. *)
Definition isFloat (t : DataType) : bool :=
  match t with
  | f16 | f32 | f64 => true
  | _ => false
  end.

(** Modelled from the spec: [PTXOperand::isSigned], of the PTX front end;
    the signed integer types. *)
Definition isSigned (t : DataType) : bool :=
  match t with
  | s8 | s16 | s32 | s64 => true
  | _ => false
  end.

(** Modelled from the spec: [PTXOperand::bytes], of the PTX front end; the
    width of a type in bytes. *)
Definition bytes (t : DataType) : N :=
  match t with
  | pred | b8 | u8 | s8 => 1
  | u16 | f16 | b16 | s16 => 2
  | u32 | f32 | b32 | s32 => 4
  | f64 | u64 | b64 | s64 => 8
  | TypeSpecifier_invalid => 0
  end%N.

(** [PTXOperand::AddressMode]; [OtherAddressMode] stands for the members
    that [_newTranslatedOperand] leaves to its [default] branch. *)
Inductive AddressMode : Type :=
| Register | Indirect | Immediate | Address | Label | Special | BitBucket
| OtherAddressMode.

Inductive PredicateCondition : Type := PT | nPT | Pred | InvPred.

#[global] Instance PredicateCondition_eq_dec : EqDecision PredicateCondition.
Proof. solve_decision. Defined.

Record t : Type := mk {
  addressMode : AddressMode;
  type        : DataType;
  reg         : N;
  offset      : Z;
  imm_uint    : N;
  identifier  : string;
  isArgument  : bool;
  special     : N;
  vIndex      : N;
  condition   : PredicateCondition
}.

End PTXOperand.

Module PTXInstruction.

(** [PTXInstruction::Opcode]; [OtherOpcode n] stands for the members
    that the translator never names (abs, bra, setp, ...). *)
Inductive Opcode : Type :=
| Add | And | Cvt | Div | Ld | Ldu | Mov | Mul | Not | Or | Rem | Shl
| St | Sub | Xor
| OtherOpcode (n : nat).

#[global] Instance Opcode_eq_dec : EqDecision Opcode.
Proof. solve_decision. Defined.

(** [PTXInstruction::Modifier] is a bit set; [Modifier_invalid] is the
    empty one, carried by a convert that neither rounds nor saturates.
    The translator only compares against it. *)
Definition Modifier_invalid : N := 0.

Inductive AddressSpace : Type :=
| AddressSpace_Invalid | Const | Global | Local | Param | Shared | Generic.

#[global] Instance AddressSpace_eq_dec : EqDecision AddressSpace.
Proof. solve_decision. Defined.

Record t : Type := mk {
  opcode       : Opcode;
  modifier     : N;
  type         : PTXOperand.DataType;
  addressSpace : AddressSpace;
  pg           : PTXOperand.t;
  d            : PTXOperand.t;
  a            : PTXOperand.t;
  b            : PTXOperand.t
}.

End PTXInstruction.

(** The enumerator values and the printing functions of the PTX front end
    are declared outside this repository; the translator only reads them.
    [special] and [vIndex] reach the translator as [unsigned int]. *)
Class PTXFrontEnd : Type := {
  (* PTXOperand::SpecialRegister members named by the translator *)
  tid : N; ntid : N; ctaId : N; nctaId : N;
  smId : N; nsmId : N; gridId : N;
  (* PTXOperand::v1, the width of a scalar *)
  v1 : N;
  (* PTXOperand::toString on SpecialRegister and on VectorIndex *)
  SpecialRegister_toString : N -> string;
  VectorIndex_toString : N -> string;
  (* PTXOperand::toString() and PTXInstruction::toString() *)
  PTXOperand_toString : PTXOperand.t -> string;
  PTXInstruction_toString : PTXInstruction.t -> string
}.

(** A PTX basic block of the control-flow graph: [id] is the identity
    (address) that [_translateKernel] compares against the entry and exit
    blocks. *)
Record PTXBasicBlock : Type := {
  ptx_block_id : nat;
  ptx_label : string;
  ptx_instructions : list PTXInstruction.t
}.

Record ControlFlowGraph : Type := {
  get_entry_block : nat;
  get_exit_block : nat;
  executable_sequence : list PTXBasicBlock
}.

Module PTXKernel.
Inductive LinkingDirective : Type := Extern | Visible | InternalHidden.

Record t : Type := mk {
  name : string;
  linkingDirective : LinkingDirective;          (* getPrototype() *)
  getReferencedRegisters : list (N * PTXOperand.DataType);
  cfg : ControlFlowGraph
}.
End PTXKernel.

(** A global of the PTX module: the fields of its [statement] that the
    translator reads.  [OtherAttribute n] stands for the attributes that
    the translator never names. *)
Module PTXGlobal.
Inductive Attribute : Type := Extern | OtherAttribute (n : nat).

#[global] Instance Attribute_eq_dec : EqDecision Attribute.
Proof. solve_decision. Defined.

Record t : Type := mk {
  name : string;
  type : PTXOperand.DataType;
  attribute : Attribute;
  initializedBytes : N
}.
End PTXGlobal.

(** A PTX module: its path, and its globals and kernels in the order in
    which their maps are iterated. *)
Record PTXModule : Type := {
  path : string;
  globals : list PTXGlobal.t;
  kernels : list PTXKernel.t
}.


(** ** The VIR instruction model (Instruction.cpp) *)

Module ir.

(** *** Operands and the free store

    Operands are heap objects that instructions refer to by address.
    [ptr] is an [Operand*]; [None] is [nullptr]. *)

Abbreviation loc := positive (only parsing).
Abbreviation ptr := (option loc) (only parsing).

(** [BasicBlock*], [VirtualRegister*], [Argument*] and [Variable*] are kept
    as the position of the object in the list that owns it; a [Variable*]
    points to a global of the module or to a basic block. *)
Definition BasicBlockPtr : Type := option nat.

Inductive VariablePtr : Type :=
| GlobalVariable (position : nat)
| BasicBlockVariable (position : nat).

Inductive PredicateModifier : Type :=
| StraightPredicate | InversePredicate | PredicateTrue | PredicateFalse.

(** The operand classes, with the fields that the translator passes to
    their constructors.  The back-reference to the instruction is a
    diagnostic aid and is left out. *)
Inductive Operand : Type :=
| RegisterOperand (reg : nat)
| IndirectOperand (reg : nat) (offset : Z)
| ImmediateOperand (uint : N)
| ArgumentOperand (argument : nat)
| AddressOperand (globalValue : VariablePtr)
| PredicateOperand (reg : option nat) (modifier : PredicateModifier).

(** [Operand::toString] and [PredicateOperand::isAlwaysTrue] are defined
    with the operand classes, not in Instruction.cpp. *)
Class OperandInterface : Type := {
  Operand_toString : Operand -> string;
  isAlwaysTrue : Operand -> bool
}.

Abbreviation Heap := (gmap loc Operand) (only parsing).

(** Computations on the free store.  [None] is undefined behaviour: a null
    or dangling dereference, a double delete, an index out of range. *)
Definition M (A : Type) : Type := Heap -> option (A * Heap).

Definition ret {A} (a : A) : M A := fun h => Some (a, h).

Definition bind {A B} (m : M A) (k : A -> M B) : M B :=
  fun h => match m h with
           | Some (a, h') => k a h'
           | None => None
           end.

Definition undefined {A} : M A := fun _ => None.

Definition lift {A} (o : option A) : M A :=
  fun h => match o with Some a => Some (a, h) | None => None end.

#[global] Instance M_ret : MRet M := @ret.
#[global] Instance M_bind : MBind M := fun A B k m => bind m k.
#[global] Instance M_fmap : FMap M :=
  fun A B f m => bind m (fun a => ret (f a)).

(** [new T(...)]: a fresh address holding the object. *)
Definition new (o : Operand) : M ptr :=
  fun h => let l := fresh (dom h) in Some (Some l, <[l := o]> h).

(** [delete p]: nothing for [nullptr], release of a live object
    otherwise. *)
Definition operator_delete (p : ptr) : M unit :=
  fun h => match p with
           | None => Some (tt, h)
           | Some l => match h !! l with
                       | Some _ => Some (tt, delete l h)
                       | None => None
                       end
           end.

(** [*p] *)
Definition deref (p : ptr) : M Operand :=
  fun h => match p with
           | Some l => match h !! l with
                       | Some o => Some (o, h)
                       | None => None
                       end
           | None => None
           end.

(** Modelled from the spec: [Operand::clone] is defined with the operand
    classes; copying an instruction deep-clones every operand, so the
    clone is a new object with the fields of the old one. *)
Definition Operand_clone (p : ptr) : M ptr :=
  o ← deref p; new o.

(** [v[n]] and [v[n] = x] on a [std::vector]; [v.back()]; [v.erase(v.begin() + n)] *)
Definition at_ {A} (v : list A) (n : nat) : option A := v !! n.

Definition store {A} (v : list A) (n : nat) (x : A) : option (list A) :=
  if decide (n < length v) then Some (<[n := x]> v) else None.

Definition back {A} (v : list A) : option A := last v.

Definition erase {A} (v : list A) (n : nat) : option (list A) :=
  if decide (n < length v) then Some (delete n v) else None.

(** The index loop [for(k = 0; k < count; ++k) out.push_back(v[from++])]. *)
Definition replay {A} (v : list A) (from count : nat) : option (list A) :=
  mapM (fun k => at_ v k) (seq from count).

(** *** The base class *)

Module Instruction.

Inductive Opcode : Type :=
| Add | And | Ashr | Atom | Bar | Bitcast | Bra | Call | Fdiv | Fmul
| Fpext | Fptosi | Fptoui | Fptrunc | Frem | Launch | Ld | Lshr | Membar
| Mul | Or | Ret | Setp | Sext | Sdiv | Shl | Sitofp | Srem | St | Sub
| Trunc | Udiv | Uitofp | Urem | Xor | Zext | Phi | Psi
| InvalidOpcode.

#[global] Instance Opcode_eq_dec : EqDecision Opcode.
Proof. solve_decision. Defined.

(** The data members of [Instruction]; [_metadata] is never read. *)
Record t : Type := mk {
  opcode : Opcode;
  guard  : ptr;
  block  : BasicBlockPtr;
  _id    : N;
  reads  : list ptr;
  writes : list ptr
}.

(** Assignment to the two operand lists, used by the member functions of
    the derived classes. *)
Definition with_reads (rs : list ptr) (i : t) : t :=
  {| opcode := opcode i; guard := guard i; block := block i; _id := _id i;
     reads := rs; writes := writes i |}.

Definition with_writes (ws : list ptr) (i : t) : t :=
  {| opcode := opcode i; guard := guard i; block := block i; _id := _id i;
     reads := reads i; writes := ws |}.

Definition push_read (p : ptr) (i : t) : t := with_reads (reads i ++ [p]) i.
Definition push_write (p : ptr) (i : t) : t := with_writes (writes i ++ [p]) i.

(** [Instruction::Instruction(Opcode o, BasicBlock* b, Id id)] *)
Definition new (o : Opcode) (b : BasicBlockPtr) (id : N) : t :=
  let guard := None in
  {| opcode := o; guard := guard; block := b; _id := id;
     reads := [] ++ [guard]; writes := [] |}.

(** The loop shared by the copy constructor and the assignment:
    every non-null operand is cloned, in order. *)
Fixpoint clone_operands (operands : list ptr) : M (list ptr) :=
  match operands with
  | [] => mret []
  | operand :: rest =>
      c ← (if decide (operand <> None) then Operand_clone operand
           else mret None);
      cs ← clone_operands rest;
      mret (c :: cs)
  end.

(** [Instruction::Instruction(const Instruction& i)] *)
Definition copy (i : t) : M t :=
  rs ← clone_operands (reads i);
  g ← lift (at_ rs 0);
  ws ← clone_operands (writes i);
  mret {| opcode := opcode i; guard := g; block := block i; _id := _id i;
          reads := rs; writes := ws |}.

Fixpoint delete_all (operands : list ptr) : M unit :=
  match operands with
  | [] => mret tt
  | operand :: rest => operator_delete operand;; delete_all rest
  end.

(** [Instruction::clear] *)
Definition clear (i : t) : M t :=
  delete_all (reads i);;
  delete_all (writes i);;
  mret {| opcode := opcode i; guard := guard i; block := block i;
          _id := _id i; reads := []; writes := [] |}.

(** [Instruction::operator=], for [this] and [i] two distinct objects (on
    [this == &i] the operator returns at once). *)
Definition assign (this i : t) : M t :=
  this' ← clear this;
  rs ← clone_operands (reads i);
  g ← lift (at_ rs 0);
  ws ← clone_operands (writes i);
  mret {| opcode := opcode i; guard := g; block := block i; _id := _id i;
          reads := reads this' ++ rs; writes := writes this' ++ ws |}.

(** [Instruction::setGuard] *)
Definition setGuard (p : ptr) (i : t) : M t :=
  operator_delete (guard i);;
  rs ← lift (store (reads i) 0 p);
  mret {| opcode := opcode i; guard := p; block := block i; _id := _id i;
          reads := rs; writes := writes i |}.

Definition id (i : t) : N := _id i.

Definition isLoad (i : t) : bool :=
  bool_decide (opcode i = Ld) || bool_decide (opcode i = Atom).
Definition isStore (i : t) : bool :=
  bool_decide (opcode i = St) || bool_decide (opcode i = Atom).
Definition isBranch (i : t) : bool :=
  bool_decide (opcode i = Bra) || bool_decide (opcode i = Call).
Definition isCall (i : t) : bool := bool_decide (opcode i = Call).

(** [Instruction::toString(Opcode)] *)
Definition Opcode_toString (o : Opcode) : string :=
  match o with
  | Add => "Add" | And => "And" | Ashr => "Ashr" | Atom => "Atom"
  | Bar => "Bar" | Bitcast => "Bitcast" | Bra => "Bra" | Call => "Call"
  | Fdiv => "Fdiv" | Fmul => "Fmul" | Fpext => "Fpext"
  | Fptosi => "Fptosi" | Fptoui => "Fptoui" | Fptrunc => "Fptrunc"
  | Frem => "Frem" | Launch => "Launch" | Ld => "Ld" | Lshr => "Lshr"
  | Membar => "Membar" | Mul => "Mul" | Or => "Or" | Ret => "Ret"
  | Setp => "Setp" | Sext => "Sext" | Sdiv => "Sdiv" | Shl => "Shl"
  | Sitofp => "Sitofp" | Srem => "Srem" | St => "St" | Sub => "Sub"
  | Trunc => "Trunc" | Udiv => "Udiv" | Uitofp => "Uitofp"
  | Urem => "Urem" | Xor => "Xor" | Zext => "Zext" | Phi => "Phi"
  | Psi => "Psi"
  | InvalidOpcode => "InvalidOpcode"
  end.

Section Rendering.
Context `{OperandInterface}.

(** The loop over [writes]: a separator before every pointer that
    differs from the first one. *)
Fixpoint writes_toString (begin : option ptr) (ws : list ptr) : M string :=
  match ws with
  | [] => mret ""
  | write :: rest =>
      o ← deref write;
      s ← writes_toString begin rest;
      mret ((if decide (Some write <> begin) then ", " else "")
              +:+ Operand_toString o +:+ s)
  end.

(** The loop over [reads]: every pointer equal to the first one is
    skipped, and a separator precedes all printed reads but the first. *)
Fixpoint reads_toString (begin : option ptr) (first : bool) (rs : list ptr)
  : M string :=
  match rs with
  | [] => mret ""
  | read :: rest =>
      if decide (Some read = begin) then reads_toString begin first rest
      else
        o ← deref read;
        s ← reads_toString begin false rest;
        mret ((if first then "" else ", ") +:+ Operand_toString o +:+ s)
  end.

(** [Instruction::toString() const] *)
Definition toString (i : t) : M string :=
  g ← deref (guard i);
  let s0 := if negb (isAlwaysTrue g) then Operand_toString g +:+ " " else "" in
  let s1 := Opcode_toString (opcode i) +:+ " " in
  s2 ← writes_toString (head (writes i)) (writes i);
  let s3 := if bool_decide (writes i <> []) && bool_decide (1 < length (reads i))
            then ", " else "" in
  s4 ← reads_toString (head (reads i)) true (reads i);
  mret (s0 +:+ s1 +:+ s2 +:+ s3 +:+ s4).

End Rendering.

End Instruction.

(** *** The fixed-arity shapes

    A derived class is the record of its base-class part and its own data
    members; an inherited member function works on the base part. *)

Module UnaryInstruction.

Record t : Type := mk { base : Instruction.t; d : ptr; a : ptr }.

(** [UnaryInstruction::UnaryInstruction(Opcode o, BasicBlock* b)]; the
    base constructor takes its default [id], written 0 here and in the
    other derived classes. *)
Definition new (o : Instruction.Opcode) (b : BasicBlockPtr) : t :=
  let d := None in
  let a := None in
  {| base := Instruction.push_read a
               (Instruction.push_write d (Instruction.new o b 0));
     d := d; a := a |}.

(** [UnaryInstruction(const UnaryInstruction& i)] *)
Definition copy (i : t) : M t :=
  i' ← Instruction.copy (base i);
  d ← lift (at_ (Instruction.writes i') 0);
  a ← lift (at_ (Instruction.reads i') 1);
  mret {| base := i'; d := d; a := a |}.

Definition assign (this i : t) : M t :=
  i' ← Instruction.assign (base this) (base i);
  d ← lift (at_ (Instruction.writes i') 0);
  a ← lift (at_ (Instruction.reads i') 1);
  mret {| base := i'; d := d; a := a |}.

Definition setGuard (p : ptr) (u : t) : M t :=
  i' ← Instruction.setGuard p (base u);
  mret {| base := i'; d := d u; a := a u |}.

Definition setD (o : ptr) (u : t) : M t :=
  operator_delete (d u);;
  ws ← lift (store (Instruction.writes (base u)) 0 o);
  mret {| base := Instruction.with_writes ws (base u); d := o; a := a u |}.

Definition setA (o : ptr) (u : t) : M t :=
  operator_delete (a u);;
  rs ← lift (store (Instruction.reads (base u)) 1 o);
  mret {| base := Instruction.with_reads rs (base u); d := d u; a := o |}.

End UnaryInstruction.

Module BinaryInstruction.

Record t : Type := mk { base : Instruction.t; d : ptr; a : ptr; b : ptr }.

Definition new (o : Instruction.Opcode) (bb : BasicBlockPtr) : t :=
  let d := None in
  let a := None in
  let b := None in
  {| base := Instruction.push_read b
               (Instruction.push_read a
                  (Instruction.push_write d (Instruction.new o bb 0)));
     d := d; a := a; b := b |}.

(** [BinaryInstruction(const BinaryInstruction& i)]: [d] is taken from
    [writes.back()]. *)
Definition copy (i : t) : M t :=
  i' ← Instruction.copy (base i);
  d ← lift (back (Instruction.writes i'));
  a ← lift (at_ (Instruction.reads i') 1);
  b ← lift (at_ (Instruction.reads i') 2);
  mret {| base := i'; d := d; a := a; b := b |}.

Definition assign (this i : t) : M t :=
  i' ← Instruction.assign (base this) (base i);
  d ← lift (at_ (Instruction.writes i') 0);
  a ← lift (at_ (Instruction.reads i') 1);
  b ← lift (at_ (Instruction.reads i') 2);
  mret {| base := i'; d := d; a := a; b := b |}.

Definition setGuard (p : ptr) (u : t) : M t :=
  i' ← Instruction.setGuard p (base u);
  mret {| base := i'; d := d u; a := a u; b := b u |}.

Definition setD (o : ptr) (u : t) : M t :=
  operator_delete (d u);;
  ws ← lift (store (Instruction.writes (base u)) 0 o);
  mret {| base := Instruction.with_writes ws (base u);
          d := o; a := a u; b := b u |}.

Definition setA (o : ptr) (u : t) : M t :=
  operator_delete (a u);;
  rs ← lift (store (Instruction.reads (base u)) 1 o);
  mret {| base := Instruction.with_reads rs (base u);
          d := d u; a := o; b := b u |}.

Definition setB (o : ptr) (u : t) : M t :=
  operator_delete (b u);;
  rs ← lift (store (Instruction.reads (base u)) 2 o);
  mret {| base := Instruction.with_reads rs (base u);
          d := d u; a := a u; b := o |}.

End BinaryInstruction.

(** [ComparisonInstruction] has the implicit copy operations. *)
Module ComparisonInstruction.

Record t : Type := mk { base : BinaryInstruction.t; comparison : N }.

Definition new (o : Instruction.Opcode) (c : N) (b : BasicBlockPtr) : t :=
  {| base := BinaryInstruction.new o b; comparison := c |}.

Definition copy (i : t) : M t :=
  i' ← BinaryInstruction.copy (base i);
  mret {| base := i'; comparison := comparison i |}.

Definition assign (this i : t) : M t :=
  i' ← BinaryInstruction.assign (base this) (base i);
  mret {| base := i'; comparison := comparison i |}.

End ComparisonInstruction.

(** [Atom]: neither copy operation touches [operation]; a copy-constructed
    object has none ([None]). *)
Module Atom.

Record t : Type := mk {
  base : BinaryInstruction.t; operation : option N; c : ptr
}.

Definition lift_base (f : Instruction.t -> Instruction.t)
    (u : BinaryInstruction.t) : BinaryInstruction.t :=
  {| BinaryInstruction.base := f (BinaryInstruction.base u);
     BinaryInstruction.d := BinaryInstruction.d u;
     BinaryInstruction.a := BinaryInstruction.a u;
     BinaryInstruction.b := BinaryInstruction.b u |}.

Definition new (o : N) (b : BasicBlockPtr) : t :=
  let c := None in
  {| base := lift_base (Instruction.push_read c)
               (BinaryInstruction.new Instruction.Atom b);
     operation := Some o; c := c |}.

Definition copy (i : t) : M t :=
  i' ← BinaryInstruction.copy (base i);
  c ← lift (at_ (Instruction.reads (BinaryInstruction.base i')) 3);
  mret {| base := i'; operation := None; c := c |}.

Definition assign (this i : t) : M t :=
  i' ← BinaryInstruction.assign (base this) (base i);
  c ← lift (at_ (Instruction.reads (BinaryInstruction.base i')) 3);
  mret {| base := i'; operation := operation this; c := c |}.

End Atom.

Module Bra.

Record t : Type := mk { base : Instruction.t; target : ptr; modifier : N }.

Definition new (m : N) (b : BasicBlockPtr) : t :=
  {| base := Instruction.push_read None (Instruction.new Instruction.Bra b 0);
     target := None; modifier := m |}.

Definition copy (i : t) : M t :=
  i' ← Instruction.copy (base i);
  target ← lift (at_ (Instruction.reads i') 1);
  mret {| base := i'; target := target; modifier := modifier i |}.

Definition assign (this i : t) : M t :=
  i' ← Instruction.assign (base this) (base i);
  target ← lift (at_ (Instruction.reads i') 1);
  mret {| base := i'; target := target; modifier := modifier i |}.

Definition setTarget (o : ptr) (u : t) : M t :=
  operator_delete (target u);;
  rs ← lift (store (Instruction.reads (base u)) 1 o);
  mret {| base := Instruction.with_reads rs (base u);
          target := o; modifier := modifier u |}.

End Bra.

Module Call.

Record t : Type := mk {
  base : Instruction.t; target : ptr;
  returned : list ptr; arguments : list ptr
}.

Definition new (b : BasicBlockPtr) : t :=
  {| base := Instruction.push_read None (Instruction.new Instruction.Call b 0);
     target := None; returned := []; arguments := [] |}.

(** [Call::Call(const Call& i)]: the views are rebuilt by replaying the
    counts of [i] against the cloned lists. *)
Definition copy (i : t) : M t :=
  i' ← Instruction.copy (base i);
  target ← lift (at_ (Instruction.reads i') 1);
  returned ← lift (replay (Instruction.writes i') 0 (length (returned i)));
  target ← lift (at_ (Instruction.reads i') 1);
  arguments ← lift (replay (Instruction.reads i') 2 (length (arguments i)));
  mret {| base := i'; target := target;
          returned := returned; arguments := arguments |}.

Definition assign (this i : t) : M t :=
  i' ← Instruction.assign (base this) (base i);
  returned ← lift (replay (Instruction.writes i') 0 (length (returned i)));
  target ← lift (at_ (Instruction.reads i') 1);
  arguments ← lift (replay (Instruction.reads i') 2 (length (arguments i)));
  mret {| base := i'; target := target;
          returned := [] ++ returned; arguments := [] ++ arguments |}.

Definition setTarget (o : ptr) (u : t) : M t :=
  operator_delete (target u);;
  rs ← lift (store (Instruction.reads (base u)) 1 o);
  mret {| base := Instruction.with_reads rs (base u); target := o;
          returned := returned u; arguments := arguments u |}.

Definition addReturn (o : ptr) (u : t) : t :=
  {| base := Instruction.push_write o (base u); target := target u;
     returned := returned u ++ [o]; arguments := arguments u |}.

Definition addArgument (o : ptr) (u : t) : t :=
  {| base := Instruction.push_read o (base u); target := target u;
     returned := returned u; arguments := arguments u ++ [o] |}.

End Call.

(** [Membar] has the implicit copy operations. *)
Module Membar.

Record t : Type := mk { base : Instruction.t; level : N }.

Definition new (l : N) (b : BasicBlockPtr) : t :=
  {| base := Instruction.new Instruction.Membar b 0; level := l |}.

Definition copy (i : t) : M t :=
  i' ← Instruction.copy (base i);
  mret {| base := i'; level := level i |}.

Definition assign (this i : t) : M t :=
  i' ← Instruction.assign (base this) (base i);
  mret {| base := i'; level := level i |}.

End Membar.

Module St.

Record t : Type := mk { base : Instruction.t; d : ptr; a : ptr }.

(** [St::St(BasicBlock* b)]: [d] and [a] are read back from the two slots
    just pushed. *)
Definition new (b : BasicBlockPtr) : t :=
  let i := Instruction.push_read None
             (Instruction.push_read None (Instruction.new Instruction.St b 0)) in
  {| base := i;
     d := default None (at_ (Instruction.reads i) 1);
     a := default None (at_ (Instruction.reads i) 2) |}.

Definition copy (s : t) : M t :=
  i' ← Instruction.copy (base s);
  d ← lift (at_ (Instruction.reads i') 1);
  a ← lift (at_ (Instruction.reads i') 2);
  mret {| base := i'; d := d; a := a |}.

Definition assign (this s : t) : M t :=
  i' ← Instruction.assign (base this) (base s);
  d ← lift (at_ (Instruction.reads i') 1);
  a ← lift (at_ (Instruction.reads i') 2);
  mret {| base := i'; d := d; a := a |}.

Definition setD (o : ptr) (u : t) : M t :=
  operator_delete (d u);;
  rs ← lift (store (Instruction.reads (base u)) 1 o);
  mret {| base := Instruction.with_reads rs (base u); d := o; a := a u |}.

Definition setA (o : ptr) (u : t) : M t :=
  operator_delete (a u);;
  rs ← lift (store (Instruction.reads (base u)) 2 o);
  mret {| base := Instruction.with_reads rs (base u); d := d u; a := o |}.

End St.

(** *** The join forms *)

Module Phi.

Record t : Type := mk {
  base : Instruction.t; d : ptr;
  sources : list ptr; blocks : list BasicBlockPtr
}.

Definition new (b : BasicBlockPtr) : t :=
  {| base := Instruction.push_write None (Instruction.new Instruction.Phi b 0);
     d := None; sources := []; blocks := [] |}.

(** [Phi::Phi(const Phi& i)]: [sources] receives every pointer of the
    cloned [reads], [blocks] every block of [i]. *)
Definition copy (i : t) : M t :=
  i' ← Instruction.copy (base i);
  d ← lift (back (Instruction.writes i'));
  mret {| base := i'; d := d;
          sources := [] ++ Instruction.reads i';
          blocks := [] ++ blocks i |}.

Definition assign (this i : t) : M t :=
  i' ← Instruction.assign (base this) (base i);
  d ← lift (back (Instruction.writes i'));
  mret {| base := i'; d := d;
          sources := [] ++ Instruction.reads i';
          blocks := [] ++ blocks i |}.

Definition setD (o : ptr) (u : t) : M t :=
  operator_delete (d u);;
  ws ← lift (store (Instruction.writes (base u)) 0 o);
  mret {| base := Instruction.with_writes ws (base u); d := o;
          sources := sources u; blocks := blocks u |}.

Definition addSource (source : ptr) (predecessor : BasicBlockPtr) (u : t) : t :=
  {| base := Instruction.push_read source (base u); d := d u;
     sources := sources u ++ [source];
     blocks := blocks u ++ [predecessor] |}.

(** [Phi::removeSource]: the three iterators advance in lock-step,
    [readPosition] one slot ahead, so at the first block equal to
    [predecessor], found at offset [k], the erased elements are
    [reads[k+1]], [sources[k]] and [blocks[k]].  The iterators are only
    used by [erase]; without a match nothing changes. *)
Definition removeSource (predecessor : BasicBlockPtr) (u : t) : option t :=
  match list_find (fun blk => blk = predecessor) (blocks u) with
  | None => Some u
  | Some (k, _) =>
      rs ← erase (Instruction.reads (base u)) (S k);
      ss ← erase (sources u) k;
      bs ← erase (blocks u) k;
      Some {| base := Instruction.with_reads rs (base u); d := d u;
              sources := ss; blocks := bs |}
  end.

End Phi.

Module Psi.

Record t : Type := mk {
  base : Instruction.t; d : ptr;
  sources : list ptr; predicates : list ptr
}.

Definition new (b : BasicBlockPtr) : t :=
  {| base := Instruction.push_write None (Instruction.new Instruction.Psi b 0);
     d := None; sources := []; predicates := [] |}.

Definition copy (i : t) : M t :=
  i' ← Instruction.copy (base i);
  d ← lift (back (Instruction.writes i'));
  mret {| base := i'; d := d;
          sources := [] ++ Instruction.reads i';
          predicates := [] ++ predicates i |}.

Definition assign (this i : t) : M t :=
  i' ← Instruction.assign (base this) (base i);
  d ← lift (back (Instruction.writes i'));
  mret {| base := i'; d := d;
          sources := [] ++ Instruction.reads i';
          predicates := [] ++ predicates i |}.

Definition setD (o : ptr) (u : t) : M t :=
  operator_delete (d u);;
  ws ← lift (store (Instruction.writes (base u)) 0 o);
  mret {| base := Instruction.with_writes ws (base u); d := o;
          sources := sources u; predicates := predicates u |}.

Definition addSource (predicate : ptr) (source : ptr) (u : t) : t :=
  {| base := Instruction.push_read source (base u); d := d u;
     sources := sources u ++ [source];
     predicates := predicates u ++ [predicate] |}.

Definition removeSource (predicate : ptr) (u : t) : option t :=
  match list_find (fun p => p = predicate) (predicates u) with
  | None => Some u
  | Some (k, _) =>
      rs ← erase (Instruction.reads (base u)) (S k);
      ss ← erase (sources u) k;
      ps ← erase (predicates u) k;
      Some {| base := Instruction.with_reads rs (base u); d := d u;
              sources := ss; predicates := ps |}
  end.

End Psi.

(** *** Instructions of any class

    An [Instruction*] points to an object of one of the concrete classes.
    [Bar], [Launch] and [Ret] add nothing to the base class; the unary and
    binary opcodes add nothing to their shape. *)
Inductive Object : Type :=
| Plain (i : Instruction.t)
| Unary (u : UnaryInstruction.t)
| Binary (u : BinaryInstruction.t)
| Setp (u : ComparisonInstruction.t)
| AtomObject (u : Atom.t)
| BraObject (u : Bra.t)
| CallObject (u : Call.t)
| MembarObject (u : Membar.t)
| StObject (u : St.t)
| PhiObject (u : Phi.t)
| PsiObject (u : Psi.t).

(** The [Instruction] subobject. *)
Definition base (o : Object) : Instruction.t :=
  match o with
  | Plain i => i
  | Unary u => UnaryInstruction.base u
  | Binary u => BinaryInstruction.base u
  | Setp u => BinaryInstruction.base (ComparisonInstruction.base u)
  | AtomObject u => BinaryInstruction.base (Atom.base u)
  | BraObject u => Bra.base u
  | CallObject u => Call.base u
  | MembarObject u => Membar.base u
  | StObject u => St.base u
  | PhiObject u => Phi.base u
  | PsiObject u => Psi.base u
  end.

(** The virtual [clone()]: every class returns a new object built by
    its own copy constructor. *)
Definition clone (o : Object) : M Object :=
  match o with
  | Plain i => Plain <$> Instruction.copy i
  | Unary u => Unary <$> UnaryInstruction.copy u
  | Binary u => Binary <$> BinaryInstruction.copy u
  | Setp u => Setp <$> ComparisonInstruction.copy u
  | AtomObject u => AtomObject <$> Atom.copy u
  | BraObject u => BraObject <$> Bra.copy u
  | CallObject u => CallObject <$> Call.copy u
  | MembarObject u => MembarObject <$> Membar.copy u
  | StObject u => StObject <$> St.copy u
  | PhiObject u => PhiObject <$> Phi.copy u
  | PsiObject u => PsiObject <$> Psi.copy u
  end.

(** The objects that the constructors build. *)
Inductive constructed : Object -> Prop :=
| new_Plain o b : constructed (Plain (Instruction.new o b 0))
| new_Unary o b : constructed (Unary (UnaryInstruction.new o b))
| new_Binary o b : constructed (Binary (BinaryInstruction.new o b))
| new_Setp c b :
    constructed (Setp (ComparisonInstruction.new Instruction.Setp c b))
| new_Atom o b : constructed (AtomObject (Atom.new o b))
| new_Bra m b : constructed (BraObject (Bra.new m b))
| new_Call b : constructed (CallObject (Call.new b))
| new_Membar l b : constructed (MembarObject (Membar.new l b))
| new_St b : constructed (StObject (St.new b))
| new_Phi b : constructed (PhiObject (Phi.new b))
| new_Psi b : constructed (PsiObject (Psi.new b)).

(** The member functions that change an instruction. *)
Inductive Operation : Type :=
| setGuard (p : ptr)
| setD (o : ptr) | setA (o : ptr) | setB (o : ptr)
| setTarget (o : ptr)
| addReturn (o : ptr) | addArgument (o : ptr)
| Phi_addSource (source : ptr) (predecessor : BasicBlockPtr)
| Phi_removeSource (predecessor : BasicBlockPtr)
| Psi_addSource (predicate : ptr) (source : ptr)
| Psi_removeSource (predicate : ptr)
| assign (i : Object).

(** [setGuard] is inherited by every class. *)
Definition Object_setGuard (p : ptr) (o : Object) : M Object :=
  match o with
  | Plain i => Plain <$> Instruction.setGuard p i
  | Unary u => Unary <$> UnaryInstruction.setGuard p u
  | Binary u => Binary <$> BinaryInstruction.setGuard p u
  | Setp u =>
      b ← BinaryInstruction.setGuard p (ComparisonInstruction.base u);
      mret (Setp {| ComparisonInstruction.base := b;
                    ComparisonInstruction.comparison :=
                      ComparisonInstruction.comparison u |})
  | AtomObject u =>
      b ← BinaryInstruction.setGuard p (Atom.base u);
      mret (AtomObject {| Atom.base := b; Atom.operation := Atom.operation u;
                          Atom.c := Atom.c u |})
  | BraObject u =>
      i ← Instruction.setGuard p (Bra.base u);
      mret (BraObject {| Bra.base := i; Bra.target := Bra.target u;
                         Bra.modifier := Bra.modifier u |})
  | CallObject u =>
      i ← Instruction.setGuard p (Call.base u);
      mret (CallObject {| Call.base := i; Call.target := Call.target u;
                          Call.returned := Call.returned u;
                          Call.arguments := Call.arguments u |})
  | MembarObject u =>
      i ← Instruction.setGuard p (Membar.base u);
      mret (MembarObject {| Membar.base := i; Membar.level := Membar.level u |})
  | StObject u =>
      i ← Instruction.setGuard p (St.base u);
      mret (StObject {| St.base := i; St.d := St.d u; St.a := St.a u |})
  | PhiObject u =>
      i ← Instruction.setGuard p (Phi.base u);
      mret (PhiObject {| Phi.base := i; Phi.d := Phi.d u;
                         Phi.sources := Phi.sources u;
                         Phi.blocks := Phi.blocks u |})
  | PsiObject u =>
      i ← Instruction.setGuard p (Psi.base u);
      mret (PsiObject {| Psi.base := i; Psi.d := Psi.d u;
                         Psi.sources := Psi.sources u;
                         Psi.predicates := Psi.predicates u |})
  end.

Definition Setp_with (u : ComparisonInstruction.t) (b : BinaryInstruction.t)
  : Object :=
  Setp {| ComparisonInstruction.base := b;
          ComparisonInstruction.comparison :=
            ComparisonInstruction.comparison u |}.

Definition Atom_with (u : Atom.t) (b : BinaryInstruction.t) : Object :=
  AtomObject {| Atom.base := b; Atom.operation := Atom.operation u;
                Atom.c := Atom.c u |}.

(** One call of a member function on an object; a call that the class of
    the object does not offer is not a step. *)
Definition perform (op : Operation) (o : Object) : M Object :=
  match op, o with
  | setGuard p, _ => Object_setGuard p o
  | setD x, Unary u => Unary <$> UnaryInstruction.setD x u
  | setD x, Binary u => Binary <$> BinaryInstruction.setD x u
  | setD x, Setp u =>
      Setp_with u <$> BinaryInstruction.setD x (ComparisonInstruction.base u)
  | setD x, AtomObject u =>
      Atom_with u <$> BinaryInstruction.setD x (Atom.base u)
  | setD x, StObject u => StObject <$> St.setD x u
  | setD x, PhiObject u => PhiObject <$> Phi.setD x u
  | setD x, PsiObject u => PsiObject <$> Psi.setD x u
  | setA x, Unary u => Unary <$> UnaryInstruction.setA x u
  | setA x, Binary u => Binary <$> BinaryInstruction.setA x u
  | setA x, Setp u =>
      Setp_with u <$> BinaryInstruction.setA x (ComparisonInstruction.base u)
  | setA x, AtomObject u =>
      Atom_with u <$> BinaryInstruction.setA x (Atom.base u)
  | setA x, StObject u => StObject <$> St.setA x u
  | setB x, Binary u => Binary <$> BinaryInstruction.setB x u
  | setB x, Setp u =>
      Setp_with u <$> BinaryInstruction.setB x (ComparisonInstruction.base u)
  | setB x, AtomObject u =>
      Atom_with u <$> BinaryInstruction.setB x (Atom.base u)
  | setTarget x, BraObject u => BraObject <$> Bra.setTarget x u
  | setTarget x, CallObject u => CallObject <$> Call.setTarget x u
  | addReturn x, CallObject u => mret (CallObject (Call.addReturn x u))
  | addArgument x, CallObject u => mret (CallObject (Call.addArgument x u))
  | Phi_addSource x b, PhiObject u => mret (PhiObject (Phi.addSource x b u))
  | Phi_removeSource b, PhiObject u => PhiObject <$> lift (Phi.removeSource b u)
  | Psi_addSource p x, PsiObject u => mret (PsiObject (Psi.addSource p x u))
  | Psi_removeSource p, PsiObject u => PsiObject <$> lift (Psi.removeSource p u)
  | assign (Plain i), Plain this => Plain <$> Instruction.assign this i
  | assign (Unary i), Unary this => Unary <$> UnaryInstruction.assign this i
  | assign (Binary i), Binary this => Binary <$> BinaryInstruction.assign this i
  | assign (Setp i), Setp this => Setp <$> ComparisonInstruction.assign this i
  | assign (AtomObject i), AtomObject this => AtomObject <$> Atom.assign this i
  | assign (BraObject i), BraObject this => BraObject <$> Bra.assign this i
  | assign (CallObject i), CallObject this => CallObject <$> Call.assign this i
  | assign (MembarObject i), MembarObject this =>
      MembarObject <$> Membar.assign this i
  | assign (StObject i), StObject this => StObject <$> St.assign this i
  | assign (PhiObject i), PhiObject this => PhiObject <$> Phi.assign this i
  | assign (PsiObject i), PsiObject this => PsiObject <$> Psi.assign this i
  | _, _ => undefined
  end.

(** The states an instruction object goes through: it is built by a
    constructor or by [clone()] from a living object, and then changed by
    member-function calls.  [clear] is the body of the destructor and a
    step of the assignment; it is not a step of its own. *)
Inductive lifetime : Object -> Prop :=
| lifetime_constructed o : constructed o -> lifetime o
| lifetime_clone o h o' h' :
    lifetime o -> clone o h = Some (o', h') -> lifetime o'
| lifetime_perform o op h o' h' :
    lifetime o -> perform op o h = Some (o', h') -> lifetime o'.

(** *** The factory and the shape queries *)

(** [instruction->block = b] on an instruction of any class. *)
Definition Instruction_with_block (b : BasicBlockPtr) (i : Instruction.t)
  : Instruction.t :=
  {| Instruction.opcode := Instruction.opcode i;
     Instruction.guard := Instruction.guard i;
     Instruction.block := b;
     Instruction._id := Instruction._id i;
     Instruction.reads := Instruction.reads i;
     Instruction.writes := Instruction.writes i |}.

Definition Binary_with_block (b : BasicBlockPtr) (u : BinaryInstruction.t)
  : BinaryInstruction.t :=
  {| BinaryInstruction.base :=
       Instruction_with_block b (BinaryInstruction.base u);
     BinaryInstruction.d := BinaryInstruction.d u;
     BinaryInstruction.a := BinaryInstruction.a u;
     BinaryInstruction.b := BinaryInstruction.b u |}.

Definition with_block (b : BasicBlockPtr) (o : Object) : Object :=
  match o with
  | Plain i => Plain (Instruction_with_block b i)
  | Unary u =>
      Unary {| UnaryInstruction.base :=
                 Instruction_with_block b (UnaryInstruction.base u);
               UnaryInstruction.d := UnaryInstruction.d u;
               UnaryInstruction.a := UnaryInstruction.a u |}
  | Binary u => Binary (Binary_with_block b u)
  | Setp u => Setp_with u (Binary_with_block b (ComparisonInstruction.base u))
  | AtomObject u => Atom_with u (Binary_with_block b (Atom.base u))
  | BraObject u =>
      BraObject {| Bra.base := Instruction_with_block b (Bra.base u);
                   Bra.target := Bra.target u; Bra.modifier := Bra.modifier u |}
  | CallObject u =>
      CallObject {| Call.base := Instruction_with_block b (Call.base u);
                    Call.target := Call.target u;
                    Call.returned := Call.returned u;
                    Call.arguments := Call.arguments u |}
  | MembarObject u =>
      MembarObject {| Membar.base := Instruction_with_block b (Membar.base u);
                      Membar.level := Membar.level u |}
  | StObject u =>
      StObject {| St.base := Instruction_with_block b (St.base u);
                  St.d := St.d u; St.a := St.a u |}
  | PhiObject u =>
      PhiObject {| Phi.base := Instruction_with_block b (Phi.base u);
                   Phi.d := Phi.d u; Phi.sources := Phi.sources u;
                   Phi.blocks := Phi.blocks u |}
  | PsiObject u =>
      PsiObject {| Psi.base := Instruction_with_block b (Psi.base u);
                   Psi.d := Psi.d u; Psi.sources := Psi.sources u;
                   Psi.predicates := Psi.predicates u |}
  end.

(** The default arguments of the constructors of [Atom], [Setp], [Bra]
    and [Membar], which Instruction.h declares. *)
Class ConstructorDefaults : Type := {
  default_operation : N;
  default_comparison : N;
  default_modifier : N;
  default_level : N
}.

(** [Instruction::create]: [new ir::C] with the default arguments of the
    class of the opcode, then [instruction->block = b]; for
    [InvalidOpcode] the pointer is still null at that assignment. *)
Definition create `{ConstructorDefaults} (o : Instruction.Opcode)
    (b : BasicBlockPtr) : option Object :=
  let unary := Some (Unary (UnaryInstruction.new o None)) in
  let binary := Some (Binary (BinaryInstruction.new o None)) in
  let plain := Some (Plain (Instruction.new o None 0)) in
  let instruction :=
    match o with
    | Instruction.Add | Instruction.And | Instruction.Ashr => binary
    | Instruction.Atom => Some (AtomObject (Atom.new default_operation None))
    | Instruction.Bar => plain
    | Instruction.Bitcast => unary
    | Instruction.Bra => Some (BraObject (Bra.new default_modifier None))
    | Instruction.Call => Some (CallObject (Call.new None))
    | Instruction.Fdiv | Instruction.Fmul => binary
    | Instruction.Fpext | Instruction.Fptosi | Instruction.Fptoui
    | Instruction.Fptrunc => unary
    | Instruction.Frem => binary
    | Instruction.Launch => plain
    | Instruction.Ld => unary
    | Instruction.Lshr => binary
    | Instruction.Membar => Some (MembarObject (Membar.new default_level None))
    | Instruction.Mul | Instruction.Or => binary
    | Instruction.Ret => plain
    | Instruction.Setp =>
        Some (Setp (ComparisonInstruction.new Instruction.Setp
                      default_comparison None))
    | Instruction.Sext => unary
    | Instruction.Sdiv | Instruction.Shl => binary
    | Instruction.Sitofp => unary
    | Instruction.Srem => binary
    | Instruction.St => Some (StObject (St.new None))
    | Instruction.Sub => binary
    | Instruction.Trunc => unary
    | Instruction.Udiv => binary
    | Instruction.Uitofp => unary
    | Instruction.Urem | Instruction.Xor => binary
    | Instruction.Zext => unary
    | Instruction.Phi => Some (PhiObject (Phi.new None))
    | Instruction.Psi => Some (PsiObject (Psi.new None))
    | Instruction.InvalidOpcode => None
    end in
  i ← instruction; Some (with_block b i).

(** [Instruction::isUnary] and [Instruction::isBinary]: the dynamic
    casts succeed on the classes derived from [UnaryInstruction] and from
    [BinaryInstruction]. *)
Definition isUnary (o : Object) : bool :=
  match o with
  | Unary _ => true
  | _ => false
  end.

Definition isBinary (o : Object) : bool :=
  match o with
  | Binary _ | Setp _ | AtomObject _ => true
  | _ => false
  end.

(** The lifetime of objects that are only ever assigned from living
    objects. *)
Inductive living : Object -> Prop :=
| living_constructed o : constructed o -> living o
| living_clone o h o' h' :
    living o -> clone o h = Some (o', h') -> living o'
| living_perform o op h o' h' :
    living o -> (forall i, op = assign i -> living i) ->
    perform op o h = Some (o', h') -> living o'.

(** The states of an object that is built by a constructor and changed
    by its setters and by [addSource], [removeSource], [addReturn] and
    [addArgument], but never copied or assigned. *)
Inductive edited : Object -> Prop :=
| edited_constructed o : constructed o -> edited o
| edited_perform o op h o' h' :
    edited o -> (forall i, op <> assign i) ->
    perform op o h = Some (o', h') -> edited o'.

(** *** Containers (Module.cpp, and what the translator calls on
    functions and blocks) *)

(** [const Type*]: the compiler owns the types and finds them by name. *)
Definition Type_ : Type := string.

(** [Variable::Linkage] *)
Inductive Linkage : Type := ExternalLinkage | PrivateLinkage.

Record VirtualRegister : Type := {
  vr_id : N; vr_type : Type_; vr_name : string
}.

Record Argument : Type := { argument_name : string }.

Record BasicBlock : Type := {
  block_name : string;
  instructions : list Object
}.

(** A function: its registers and arguments, and the blocks that precede
    its terminal block, in order. *)
Record Function : Type := {
  function_name : string;
  function_linkage : Linkage;
  registers : list VirtualRegister;
  arguments : list Argument;
  blocks : list BasicBlock
}.

Record Global : Type := {
  global_name : string;
  global_type : Type_;
  global_linkage : Linkage
}.

Record Module_ : Type := {
  module_name : string;
  _functions : list Function;
  _globals : list Global
}.

(** [Module::Module] *)
Definition Module_new (n : string) : Module_ :=
  {| module_name := n; _functions := []; _globals := [] |}.

(** Modelled from the spec: the constructor of [Function] is not in
    Module.cpp; a new function has a name and a linkage, and no register,
    argument or block of the translated kernel yet. *)
Definition Function_new (n : string) (l : Linkage) : Function :=
  {| function_name := n; function_linkage := l;
     registers := []; arguments := []; blocks := [] |}.

(** [Module::getFunction] and [Module::getGlobal]: a linear search;
    [None] is [end()]. *)
Definition getFunction (n : string) (m : Module_) : option nat :=
  fst <$> list_find (fun f => function_name f = n) (_functions m).

Definition getGlobal (n : string) (m : Module_) : option nat :=
  fst <$> list_find (fun g => global_name g = n) (_globals m).

(** [Module::newFunction] and [Module::newGlobal]: insertion at [end()];
    the result is the position of the new element. *)
Definition newFunction (n : string) (l : Linkage) (m : Module_)
  : nat * Module_ :=
  (length (_functions m),
   {| module_name := module_name m;
      _functions := _functions m ++ [Function_new n l];
      _globals := _globals m |}).

Definition newGlobal (n : string) (t : Type_) (l : Linkage) (m : Module_)
  : nat * Module_ :=
  (length (_globals m),
   {| module_name := module_name m;
      _functions := _functions m;
      _globals := _globals m ++
                  [{| global_name := n; global_type := t;
                      global_linkage := l |}] |}).

(** Modelled from the spec: [Function::newVirtualRegister] is not under
    src/; a virtual register is (id, type, name) with an id unique within
    its function, so the new register takes an id that no register of the
    function has.  The result is the iterator to the new register. *)
Definition newVirtualRegister (t : Type_) (n : string) (f : Function)
  : nat * Function :=
  (length (registers f),
   {| function_name := function_name f;
      function_linkage := function_linkage f;
      registers := registers f ++
                   [{| vr_id := fresh (vr_id <$> registers f);
                       vr_type := t; vr_name := n |}];
      arguments := arguments f;
      blocks := blocks f |}).

(** Modelled from the spec: [Function::newBasicBlock(exit_block(), name)]
    is not under src/; the new block is inserted immediately before the
    terminal block of the function, that is, after every block created so
    far. *)
Definition newBasicBlock (n : string) (f : Function) : nat * Function :=
  (length (blocks f),
   {| function_name := function_name f;
      function_linkage := function_linkage f;
      registers := registers f;
      arguments := arguments f;
      blocks := blocks f ++ [{| block_name := n; instructions := [] |}] |}).

(** Modelled from the spec: [BasicBlock::push_back] is not under src/; the
    block owns an ordered instruction sequence and the instruction is
    appended to it. *)
Definition push_back (i : Object) (b : BasicBlock) : BasicBlock :=
  {| block_name := block_name b; instructions := instructions b ++ [i] |}.

Definition Function_with_block (k : nat) (b : BasicBlock) (f : Function)
  : Function :=
  {| function_name := function_name f;
     function_linkage := function_linkage f;
     registers := registers f;
     arguments := arguments f;
     blocks := <[k := b]> (blocks f) |}.

Definition Module_with_function (k : nat) (f : Function) (m : Module_)
  : Module_ :=
  {| module_name := module_name m;
     _functions := <[k := f]> (_functions m);
     _globals := _globals m |}.

(** [std::list::insert(position, x)]: [x] is placed before [position],
    an iterator of the list or its [end()]; the result points to [x]. *)
Definition insert_before {A} (position : nat) (x : A) (l : list A)
  : option (nat * list A) :=
  if decide (position <= length l)
  then Some (position, (take position l ++ x :: drop position l)%list)
  else None.

(** [Module::insertFunction], [Module::removeFunction]: the erased
    iterator has to point to an element; the result points to the element
    that followed it. *)
Definition insertFunction (position : nat) (f : Function) (m : Module_)
  : option (nat * Module_) :=
  '(at_f, fs) ← insert_before position f (_functions m);
  Some (at_f, {| module_name := module_name m; _functions := fs;
                 _globals := _globals m |}).

Definition removeFunction (f : nat) (m : Module_) : option (nat * Module_) :=
  fs ← erase (_functions m) f;
  Some (f, {| module_name := module_name m; _functions := fs;
              _globals := _globals m |}).

(** [Module::insertGlobal], [Module::removeGlobal] *)
Definition insertGlobal (position : nat) (g : Global) (m : Module_)
  : option (nat * Module_) :=
  '(at_g, gs) ← insert_before position g (_globals m);
  Some (at_g, {| module_name := module_name m; _functions := _functions m;
                 _globals := gs |}).

Definition removeGlobal (g : nat) (m : Module_) : option (nat * Module_) :=
  gs ← erase (_globals m) g;
  Some (g, {| module_name := module_name m; _functions := _functions m;
              _globals := gs |}).

(** [Module::begin], [end], [size], [empty] and their [global_]
    counterparts. *)
Definition begin (m : Module_) : nat := 0.
Definition end_ (m : Module_) : nat := length (_functions m).
Definition size (m : Module_) : nat := length (_functions m).
Definition empty (m : Module_) : bool := bool_decide (_functions m = []).
Definition global_begin (m : Module_) : nat := 0.
Definition global_end (m : Module_) : nat := length (_globals m).
Definition global_size (m : Module_) : nat := length (_globals m).
Definition global_empty (m : Module_) : bool := bool_decide (_globals m = []).

(** [ir::Constant] and [Global::setInitializer] are defined with the
    globals, outside Module.cpp and the translator. *)
Class GlobalInterface : Type := {
  Constant : Type;
  setInitializer : option Constant -> Global -> Global
}.

Definition Module_with_global (k : nat) (f : Global -> Global) (m : Module_)
  : Module_ :=
  {| module_name := module_name m;
     _functions := _functions m;
     _globals := alter f k (_globals m) |}.

End ir.


(** ** The translator (PTXToVIRTranslator.cpp) *)

Module translation.

(** [compiler::Compiler::getType]: the type of that name, or [None] for
    the null pointer. *)
Class Compiler : Type := { getType : string -> option ir.Type_ }.

(** The data members of [PTXToVIRTranslator].  [_function] and [_block]
    point into [_module]; a register iterator is the position of the
    register in the current function.  The back-pointer [_instruction] is
    only handed to operand constructors and is left out, and so are the
    [report] lines, which only log. *)
Record State : Type := {
  _module : ir.Module_;
  _function : option nat;
  _block : option nat;
  _registers : gmap N nat;
  _specialRegisters : gmap N nat;
  _blocks : gmap string nat;
  _ptxInstruction : option PTXInstruction.t;
  heap : ir.Heap
}.

(** How a call ends: it returns, it throws [std::runtime_error], it stops
    in [assertM(false, ...)] (assertions are compiled in), or its
    behaviour is undefined. *)
Inductive Outcome (A : Type) : Type :=
| Returns (a : A) (s : State)
| Throws (what : string)
| AssertionFailure (message : string)
| UndefinedBehaviour.

Arguments Returns {A} a s.
Arguments Throws {A} what.
Arguments AssertionFailure {A} message.
Arguments UndefinedBehaviour {A}.

Definition T (A : Type) : Type := State -> Outcome A.

Definition T_ret {A} (a : A) : T A := fun s => Returns a s.

Definition T_bind {A B} (m : T A) (k : A -> T B) : T B :=
  fun s => match m s with
           | Returns a s' => k a s'
           | Throws w => Throws w
           | AssertionFailure w => AssertionFailure w
           | UndefinedBehaviour => UndefinedBehaviour
           end.

#[global] Instance T_mret : MRet T := @T_ret.
#[global] Instance T_mbind : MBind T := fun A B k m => T_bind m k.
#[global] Instance T_fmap : FMap T :=
  fun A B f m => T_bind m (fun a => T_ret (f a)).

Definition throw {A} (what : string) : T A := fun _ => Throws what.
Definition assertM_false {A} (message : string) : T A :=
  fun _ => AssertionFailure message.
Definition undefined {A} : T A := fun _ => UndefinedBehaviour.
Definition get : T State := fun s => Returns s s.

(** A computation on the free store, run on the translator's heap. *)
Definition on_heap {A} (m : ir.M A) : T A :=
  fun s => match m (heap s) with
           | Some (a, h) =>
               Returns a {| _module := _module s; _function := _function s;
                            _block := _block s; _registers := _registers s;
                            _specialRegisters := _specialRegisters s;
                            _blocks := _blocks s;
                            _ptxInstruction := _ptxInstruction s;
                            heap := h |}
           | None => UndefinedBehaviour
           end.

(** [p->f(...)] for a member function [f]: undefined for a null [p]. *)
Definition arrow {A} (p : option A) (f : A -> ir.M A) : T (option A) :=
  match p with
  | Some x => Some <$> on_heap (f x)
  | None => undefined
  end.

(** A call through [_module]. *)
Definition on_module {A} (f : ir.Module_ -> A * ir.Module_) : T A :=
  fun s => let '(a, m) := f (_module s) in
           Returns a {| _module := m; _function := _function s;
                        _block := _block s; _registers := _registers s;
                        _specialRegisters := _specialRegisters s;
                        _blocks := _blocks s;
                        _ptxInstruction := _ptxInstruction s;
                        heap := heap s |}.

(** A call through [_function]: undefined when the pointer is not set. *)
Definition on_function {A} (f : ir.Function -> A * ir.Function) : T A :=
  fun s => match _function s with
           | Some k =>
               match ir._functions (_module s) !! k with
               | Some fn =>
                   let '(a, fn') := f fn in
                   on_module (fun m => (a, ir.Module_with_function k fn' m)) s
               | None => UndefinedBehaviour
               end
           | None => UndefinedBehaviour
           end.

(** A call through [_block]. *)
Definition on_block (f : ir.BasicBlock -> ir.BasicBlock) : T unit :=
  s ← get;
  match _block s with
  | Some k =>
      ok ← on_function
             (fun fn => match ir.blocks fn !! k with
                        | Some b => (true, ir.Function_with_block k (f b) fn)
                        | None => (false, fn)
                        end);
      if ok : bool then mret tt else undefined
  | None => undefined
  end.

(** Assignments to the data members. *)
Definition set_function (f : option nat) : T unit :=
  fun s => Returns tt {| _module := _module s; _function := f;
                         _block := _block s; _registers := _registers s;
                         _specialRegisters := _specialRegisters s;
                         _blocks := _blocks s;
                         _ptxInstruction := _ptxInstruction s;
                         heap := heap s |}.

Definition set_block (b : option nat) : T unit :=
  fun s => Returns tt {| _module := _module s; _function := _function s;
                         _block := b; _registers := _registers s;
                         _specialRegisters := _specialRegisters s;
                         _blocks := _blocks s;
                         _ptxInstruction := _ptxInstruction s;
                         heap := heap s |}.

Definition set_registers (r : gmap N nat) : T unit :=
  fun s => Returns tt {| _module := _module s; _function := _function s;
                         _block := _block s; _registers := r;
                         _specialRegisters := _specialRegisters s;
                         _blocks := _blocks s;
                         _ptxInstruction := _ptxInstruction s;
                         heap := heap s |}.

Definition set_specialRegisters (r : gmap N nat) : T unit :=
  fun s => Returns tt {| _module := _module s; _function := _function s;
                         _block := _block s; _registers := _registers s;
                         _specialRegisters := r;
                         _blocks := _blocks s;
                         _ptxInstruction := _ptxInstruction s;
                         heap := heap s |}.

Definition set_ptxInstruction (i : option PTXInstruction.t) : T unit :=
  fun s => Returns tt {| _module := _module s; _function := _function s;
                         _block := _block s; _registers := _registers s;
                         _specialRegisters := _specialRegisters s;
                         _blocks := _blocks s;
                         _ptxInstruction := i;
                         heap := heap s |}.

(** A range-based loop with a body that may throw. *)
Fixpoint for_each {A} (l : list A) (body : A -> T unit) : T unit :=
  match l with
  | [] => mret tt
  | x :: rest => body x;; for_each rest body
  end.

(** *** Instruction selection *)

(** [newUnaryInstruction]; [None] is the null pointer of the final
    [return 0]. *)
Definition newUnaryInstruction (ptx : PTXInstruction.t)
  : option ir.UnaryInstruction.t :=
  let d := PTXOperand.type (PTXInstruction.d ptx) in
  let a := PTXOperand.type (PTXInstruction.a ptx) in
  let new o := Some (ir.UnaryInstruction.new o None) in
  match PTXInstruction.opcode ptx with
  | PTXInstruction.Ld | PTXInstruction.Ldu => new ir.Instruction.Ld
  | PTXInstruction.Mov => new ir.Instruction.Bitcast
  | PTXInstruction.Cvt =>
      if PTXOperand.isFloat d then
        if PTXOperand.isFloat a then
          if decide (d = PTXOperand.f32) then
            if decide (a = PTXOperand.f32) then new ir.Instruction.Bitcast
            else new ir.Instruction.Fptrunc
          else
            if decide (a = PTXOperand.f32) then new ir.Instruction.Fpext
            else new ir.Instruction.Bitcast
        else if PTXOperand.isSigned a then new ir.Instruction.Sitofp
        else new ir.Instruction.Uitofp
      else if PTXOperand.isSigned d then
        if PTXOperand.isFloat a then new ir.Instruction.Fptosi
        else
          if decide (PTXOperand.bytes d < PTXOperand.bytes a)%N
          then new ir.Instruction.Trunc
          else if decide (PTXOperand.bytes d = PTXOperand.bytes a)
          then new ir.Instruction.Bitcast
          else if PTXOperand.isSigned a then new ir.Instruction.Sext
          else new ir.Instruction.Zext
      else
        if PTXOperand.isFloat a then new ir.Instruction.Fptoui
        else
          if decide (PTXOperand.bytes d < PTXOperand.bytes a)%N
          then new ir.Instruction.Trunc
          else if decide (PTXOperand.bytes d = PTXOperand.bytes a)
          then new ir.Instruction.Bitcast
          else new ir.Instruction.Zext
  | _ => None
  end.

Definition isSimpleUnaryInstruction (ptx : PTXInstruction.t) : bool :=
  match PTXInstruction.opcode ptx with
  | PTXInstruction.Ld | PTXInstruction.Ldu | PTXInstruction.Mov
  | PTXInstruction.St => true
  | PTXInstruction.Cvt =>
      if decide (PTXInstruction.modifier ptx = PTXInstruction.Modifier_invalid)
      then true else false
  | _ => false
  end.

Definition isSimpleBinaryInstruction (ptx : PTXInstruction.t) : bool :=
  match PTXInstruction.opcode ptx with
  | PTXInstruction.Add | PTXInstruction.And | PTXInstruction.Div
  | PTXInstruction.Mul | PTXInstruction.Not | PTXInstruction.Or
  | PTXInstruction.Rem | PTXInstruction.Shl | PTXInstruction.Sub
  | PTXInstruction.Xor => true
  | _ => false
  end.

Definition newBinaryInstruction (ptx : PTXInstruction.t)
  : option ir.BinaryInstruction.t :=
  let type := PTXInstruction.type ptx in
  let new o := Some (ir.BinaryInstruction.new o None) in
  match PTXInstruction.opcode ptx with
  | PTXInstruction.Add => new ir.Instruction.Add
  | PTXInstruction.And => new ir.Instruction.And
  | PTXInstruction.Div =>
      if PTXOperand.isFloat type then new ir.Instruction.Fdiv
      else if PTXOperand.isSigned type then new ir.Instruction.Sdiv
      else new ir.Instruction.Udiv
  | PTXInstruction.Mul =>
      if PTXOperand.isFloat type then new ir.Instruction.Fmul
      else new ir.Instruction.Mul
  | PTXInstruction.Or => new ir.Instruction.Or
  | PTXInstruction.Rem =>
      if PTXOperand.isFloat type then new ir.Instruction.Frem
      else if PTXOperand.isSigned type then new ir.Instruction.Srem
      else new ir.Instruction.Urem
  | PTXInstruction.Shl => new ir.Instruction.Shl
  | PTXInstruction.Sub => new ir.Instruction.Sub
  | PTXInstruction.Xor => new ir.Instruction.Xor
  | _ => None
  end.

(** *** Types, registers and operands *)

Definition translateTypeName (type : PTXOperand.DataType) : string :=
  match type with
  | PTXOperand.b8 | PTXOperand.s8 | PTXOperand.u8 => "i8"
  | PTXOperand.s16 | PTXOperand.u16 | PTXOperand.b16 => "i16"
  | PTXOperand.s32 | PTXOperand.b32 | PTXOperand.u32 => "i32"
  | PTXOperand.s64 | PTXOperand.b64 | PTXOperand.u64 => "i64"
  | PTXOperand.f32 => "f32"
  | PTXOperand.f64 => "f64"
  | PTXOperand.pred => "i1"
  | _ => ""
  end.

Definition translatePredicateCondition (c : PTXOperand.PredicateCondition)
  : ir.PredicateModifier :=
  match c with
  | PTXOperand.PT => ir.PredicateTrue
  | PTXOperand.nPT => ir.PredicateFalse
  | PTXOperand.Pred => ir.StraightPredicate
  | PTXOperand.InvPred => ir.InversePredicate
  end.

Definition _translateLinkingDirective (d : PTXKernel.LinkingDirective)
  : ir.Linkage :=
  match d with
  | PTXKernel.Extern => ir.ExternalLinkage
  | _ => ir.PrivateLinkage
  end.

Definition _translateLinkage (attr : PTXGlobal.Attribute) : ir.Linkage :=
  if decide (attr = PTXGlobal.Extern) then ir.ExternalLinkage
  else ir.PrivateLinkage.

(** The name that [std::stringstream] builds from ["r"] and a register
    id. *)
Definition register_name (reg : N) : string := "r" +:+ pretty reg.

Section Translator.
Context `{Compiler} `{PTXFrontEnd}.

(** [_getType(const std::string&)] *)
Definition _getType (typeName : string) : T ir.Type_ :=
  match getType typeName with
  | Some type => mret type
  | None => throw ("PTX translated type name '" +:+ typeName
                     +:+ "' is not a valid Vanaheimr type.")
  end.

(** [_translateRegisterValue] *)
Definition _translateRegisterValue (reg : N) (type : PTXOperand.DataType)
  : T unit :=
  let name := register_name reg in
  s ← get;
  if decide (is_Some (_registers s !! reg)) then
    throw ("Added duplicate virtual register '" +:+ name +:+ "'")
  else
    t ← _getType (translateTypeName type);
    newRegister ← on_function (ir.newVirtualRegister t name);
    s ← get;
    set_registers (<[reg := newRegister]> (_registers s)).

(** [_getRegister] *)
Definition _getRegister (id : N) : T nat :=
  s ← get;
  match _registers s !! id with
  | Some reg => mret reg
  | None => throw ("PTX register " +:+ register_name id
                     +:+ " used without declaration.")
  end.

(** [_getSpecialVirtualRegister]; [id] and [vectorIndex] are
    [unsigned int], so the shift wraps at 32 bits. *)
Definition special_hash (id vectorIndex : N) : N :=
  N.lor (N.shiftl id 4 mod 2 ^ 32) vectorIndex.

Definition special_isScalar (id : N) : bool :=
  if decide (id = tid) then false
  else if decide (id = ntid) then false
  else if decide (id = ctaId) then false
  else if decide (id = nctaId) then false
  else if decide (id = smId) then false
  else if decide (id = nsmId) then false
  else if decide (id = gridId) then false
  else true.

Definition special_name (id vectorIndex : N) : string :=
  if bool_decide (vectorIndex <> v1) || special_isScalar id
  then SpecialRegister_toString id
  else SpecialRegister_toString id +:+ "_"
         +:+ VectorIndex_toString vectorIndex.

Definition _getSpecialVirtualRegister (id vectorIndex : N) : T nat :=
  let hash := special_hash id vectorIndex in
  s ← get;
  match _specialRegisters s !! hash with
  | Some reg => mret reg
  | None =>
      let name := special_name id vectorIndex in
      t ← _getType "i32";
      newRegister ← on_function (ir.newVirtualRegister t name);
      s ← get;
      set_specialRegisters (<[hash := newRegister]> (_specialRegisters s));;
      mret newRegister
  end.

(** [_getGlobal], [_getBasicBlock], [_getArgument] *)
Definition _getGlobal (name : string) : T ir.VariablePtr :=
  s ← get;
  match ir.getGlobal name (_module s) with
  | Some global => mret (ir.GlobalVariable global)
  | None => throw ("Global variable " +:+ name
                     +:+ " used without declaration.")
  end.

Definition _getBasicBlock (name : string) : T ir.VariablePtr :=
  s ← get;
  match _blocks s !! name with
  | Some block => mret (ir.BasicBlockVariable block)
  | None => throw ("Basic block " +:+ name
                     +:+ " was not declared in this function.")
  end.

Definition _getArgument (name : string) : T nat :=
  fn ← on_function (fun f => (f, f));
  match list_find (fun a => ir.argument_name a = name) (ir.arguments fn) with
  | Some (argument, _) => mret argument
  | None => throw ("Argument " +:+ name
                     +:+ " was not declared in this function.")
  end.

(** [_getSpecialValueOperand], [_newTemporaryRegister]; the temporary
    takes the default name of [newVirtualRegister]. *)
Definition _getSpecialValueOperand (id vIndex : N) : T ir.ptr :=
  reg ← _getSpecialVirtualRegister id vIndex;
  on_heap (ir.new (ir.RegisterOperand reg)).

Definition _newTemporaryRegister : T nat :=
  t ← _getType "i64";
  on_function (ir.newVirtualRegister t "").

(** [_newTranslatedOperand] *)
Definition _newTranslatedOperand (ptx : PTXOperand.t) : T ir.ptr :=
  match PTXOperand.addressMode ptx with
  | PTXOperand.Register =>
      reg ← _getRegister (PTXOperand.reg ptx);
      on_heap (ir.new (ir.RegisterOperand reg))
  | PTXOperand.Indirect =>
      reg ← _getRegister (PTXOperand.reg ptx);
      on_heap (ir.new (ir.IndirectOperand reg (PTXOperand.offset ptx)))
  | PTXOperand.Immediate =>
      on_heap (ir.new (ir.ImmediateOperand (PTXOperand.imm_uint ptx)))
  | PTXOperand.Address =>
      s ← get;
      match _ptxInstruction s with
      | None => undefined
      | Some i =>
          if bool_decide (PTXInstruction.addressSpace i = PTXInstruction.Param)
             && PTXOperand.isArgument ptx
          then
            argument ← _getArgument (PTXOperand.identifier ptx);
            on_heap (ir.new (ir.ArgumentOperand argument))
          else
            global ← _getGlobal (PTXOperand.identifier ptx);
            on_heap (ir.new (ir.AddressOperand global))
      end
  | PTXOperand.Label =>
      block ← _getBasicBlock (PTXOperand.identifier ptx);
      on_heap (ir.new (ir.AddressOperand block))
  | PTXOperand.Special =>
      _getSpecialValueOperand (PTXOperand.special ptx) (PTXOperand.vIndex ptx)
  | PTXOperand.BitBucket =>
      reg ← _newTemporaryRegister;
      on_heap (ir.new (ir.RegisterOperand reg))
  | PTXOperand.OtherAddressMode =>
      throw ("No translation implemented for " +:+ PTXOperand_toString ptx)
  end.

(** [_translatePredicateOperand] *)
Definition _translatePredicateOperand (ptx : PTXOperand.t) : T ir.ptr :=
  predicateRegister ←
    (if bool_decide (PTXOperand.condition ptx <> PTXOperand.PT)
        && bool_decide (PTXOperand.condition ptx <> PTXOperand.nPT)
     then Some <$> _getRegister (PTXOperand.reg ptx)
     else mret None);
  on_heap (ir.new (ir.PredicateOperand predicateRegister
             (translatePredicateCondition (PTXOperand.condition ptx)))).

(** *** Instructions, blocks and kernels *)

Definition _translateComplexInstruction (ptx : PTXInstruction.t) : T bool :=
  mret false.

(** [_translateSimpleUnaryInstruction]: the argument of each setter is
    evaluated before the call through [vir]. *)
Definition _translateSimpleUnaryInstruction (ptx : PTXInstruction.t) : T bool :=
  if negb (isSimpleUnaryInstruction ptx) then mret false
  else
    let vir := newUnaryInstruction ptx in
    p ← _translatePredicateOperand (PTXInstruction.pg ptx);
    vir ← arrow vir (ir.UnaryInstruction.setGuard p);
    d ← _newTranslatedOperand (PTXInstruction.d ptx);
    vir ← arrow vir (ir.UnaryInstruction.setD d);
    a ← _newTranslatedOperand (PTXInstruction.a ptx);
    vir ← arrow vir (ir.UnaryInstruction.setA a);
    match vir with
    | Some u => on_block (ir.push_back (ir.Unary u));; mret true
    | None => undefined
    end.

(** [_translateSimpleBinaryInstruction] *)
Definition _translateSimpleBinaryInstruction (ptx : PTXInstruction.t)
  : T bool :=
  if negb (isSimpleBinaryInstruction ptx) then mret false
  else
    let vir := newBinaryInstruction ptx in
    p ← _translatePredicateOperand (PTXInstruction.pg ptx);
    vir ← arrow vir (ir.BinaryInstruction.setGuard p);
    d ← _newTranslatedOperand (PTXInstruction.d ptx);
    vir ← arrow vir (ir.BinaryInstruction.setD d);
    a ← _newTranslatedOperand (PTXInstruction.a ptx);
    vir ← arrow vir (ir.BinaryInstruction.setA a);
    b ← _newTranslatedOperand (PTXInstruction.b ptx);
    vir ← arrow vir (ir.BinaryInstruction.setB b);
    match vir with
    | Some u => on_block (ir.push_back (ir.Binary u));; mret true
    | None => undefined
    end.

(** [_translateInstruction] *)
Definition _translateInstruction (ptx : PTXInstruction.t) : T unit :=
  set_ptxInstruction (Some ptx);;
  complex ← _translateComplexInstruction ptx;
  if complex : bool then mret tt
  else
    binary ← _translateSimpleBinaryInstruction ptx;
    if binary : bool then mret tt
    else
      unary ← _translateSimpleUnaryInstruction ptx;
      if unary : bool then mret tt
      else assertM_false ("No translation implemented for instruction "
                            +:+ PTXInstruction_toString ptx).

(** [_translateBasicBlock] *)
Definition _translateBasicBlock (basicBlock : PTXBasicBlock) : T unit :=
  block ← on_function (ir.newBasicBlock (ptx_label basicBlock));
  set_block (Some block);;
  for_each (ptx_instructions basicBlock) _translateInstruction.

(** [_translateKernel] *)
Definition _translateKernel (kernel : PTXKernel.t) : T unit :=
  function ← on_module
    (ir.newFunction (PTXKernel.name kernel)
       (_translateLinkingDirective (PTXKernel.linkingDirective kernel)));
  set_function (Some function);;
  (* Translate Values *)
  for_each (PTXKernel.getReferencedRegisters kernel)
    (fun reg => _translateRegisterValue reg.1 reg.2);;
  let sequence := executable_sequence (PTXKernel.cfg kernel) in
  (* Keep a record of blocks *)
  for_each sequence
    (fun block =>
       if decide (ptx_block_id block = get_entry_block (PTXKernel.cfg kernel))
       then mret tt
       else if decide (ptx_block_id block
                         = get_exit_block (PTXKernel.cfg kernel))
       then mret tt
       else _translateBasicBlock block);;
  (* Translate blocks *)
  for_each sequence
    (fun block =>
       if decide (ptx_block_id block = get_entry_block (PTXKernel.cfg kernel))
       then mret tt
       else if decide (ptx_block_id block
                         = get_exit_block (PTXKernel.cfg kernel))
       then mret tt
       else _translateBasicBlock block).

(** *** Globals and modules *)

Context `{ir.GlobalInterface}.

(** [_translateInitializer]: the assertion stops it before its
    [return 0]. *)
Definition _translateInitializer (g : PTXGlobal.t) : T (option ir.Constant) :=
  @assertM_false unit "Not implemented.";;
  mret None.

(** [_translateGlobal]; the type is looked up before the call through
    [_module]. *)
Definition _translateGlobal (global : PTXGlobal.t) : T unit :=
  type ← _getType (translateTypeName (PTXGlobal.type global));
  virGlobal ← on_module
    (ir.newGlobal (PTXGlobal.name global) type
       (_translateLinkage (PTXGlobal.attribute global)));
  if decide (PTXGlobal.initializedBytes global <> 0%N) then
    initializer ← _translateInitializer global;
    on_module (fun m => (tt, ir.Module_with_global virGlobal
                               (ir.setInitializer initializer) m))
  else mret tt.

(** Modelled from the spec: [Compiler::newModule] is not under src/;
    [translate] builds one fresh target module, named after the path of
    the PTX module. *)
Definition newModule (name : string) : T unit :=
  on_module (fun _ => (tt, ir.Module_new name)).

(** [translate] *)
Definition translate (m : PTXModule) : T unit :=
  newModule (path m);;
  (* Translate globals *)
  for_each (globals m) _translateGlobal;;
  (* Translate kernel functions *)
  for_each (kernels m) _translateKernel.

End Translator.

End translation.


(** ** The conversion decision table, as the specification words it

    Keyed by the class of the destination and of the source type and by
    their bit widths, over the 8/16/32/64-bit integers and the 32/64-bit
    floats. *)

Module ConversionTable.

Inductive TypeClass : Type := Float | SignedInt | UnsignedInt.

Definition class (t : PTXOperand.DataType) : option TypeClass :=
  match t with
  | PTXOperand.f32 | PTXOperand.f64 => Some Float
  | PTXOperand.s8 | PTXOperand.s16 | PTXOperand.s32 | PTXOperand.s64 =>
      Some SignedInt
  | PTXOperand.u8 | PTXOperand.u16 | PTXOperand.u32 | PTXOperand.u64 =>
      Some UnsignedInt
  | _ => None
  end.

Definition bits (t : PTXOperand.DataType) : N :=
  match t with
  | PTXOperand.s8 | PTXOperand.u8 => 8
  | PTXOperand.s16 | PTXOperand.u16 => 16
  | PTXOperand.s32 | PTXOperand.u32 | PTXOperand.f32 => 32
  | PTXOperand.s64 | PTXOperand.u64 | PTXOperand.f64 => 64
  | _ => 0
  end%N.

Definition in_domain (t : PTXOperand.DataType) : bool :=
  match class t with Some _ => true | None => false end.

(** One row of the table per branch; [wider] says that the source is
    wider than the destination, [equal] that the widths agree. *)
Definition rule (destination source : PTXOperand.DataType)
  : option ir.Instruction.Opcode :=
  dc ← class destination;
  sc ← class source;
  let wider := bool_decide (bits destination < bits source)%N in
  let equal := bool_decide (bits destination = bits source) in
  Some
    match dc, sc with
    | Float, Float =>
        if equal then ir.Instruction.Bitcast
        else if wider then ir.Instruction.Fptrunc
        else ir.Instruction.Fpext
    | Float, SignedInt => ir.Instruction.Sitofp
    | Float, UnsignedInt => ir.Instruction.Uitofp
    | SignedInt, Float => ir.Instruction.Fptosi
    | SignedInt, SignedInt =>
        if wider then ir.Instruction.Trunc
        else if equal then ir.Instruction.Bitcast
        else ir.Instruction.Sext
    | SignedInt, UnsignedInt =>
        if wider then ir.Instruction.Trunc
        else if equal then ir.Instruction.Bitcast
        else ir.Instruction.Zext
    | UnsignedInt, Float => ir.Instruction.Fptoui
    | UnsignedInt, _ =>
        if wider then ir.Instruction.Trunc
        else if equal then ir.Instruction.Bitcast
        else ir.Instruction.Zext
    end.

End ConversionTable.

(** ** Concrete collaborators, for closed examples *)

Module Examples.

(** The types of the fixed width/class table. *)
Definition vir_types : list string :=
  ["i1"; "i8"; "i16"; "i32"; "i64"; "f32"; "f64"].

#[local] Instance compiler : translation.Compiler :=
  {| translation.getType :=
       fun n => if bool_decide (n ∈ vir_types) then Some n else None |}.

Definition special_name (id : N) : string :=
  match id with
  | 0 => "%tid" | 1 => "%ntid" | 2 => "%ctaid" | 3 => "%nctaid"
  | 4 => "%smid" | 5 => "%nsmid" | 6 => "%gridid"
  | _ => "%special"
  end%N.

Definition lane_name (vectorIndex : N) : string :=
  match vectorIndex with
  | 0 => "all" | 1 => "x" | 2 => "y" | 3 => "z" | _ => "w"
  end%N.

#[local] Instance front_end : PTXFrontEnd :=
  {| tid := 0; ntid := 1; ctaId := 2; nctaId := 3;
     smId := 4; nsmId := 5; gridId := 6;
     v1 := 1;
     SpecialRegister_toString := special_name;
     VectorIndex_toString := lane_name;
     PTXOperand_toString := fun _ => "operand";
     PTXInstruction_toString := fun _ => "instruction" |}.

(** Operands print their fields; a guard is always true when its modifier
    is [PredicateTrue]. *)
Definition print_operand (o : ir.Operand) : string :=
  match o with
  | ir.RegisterOperand r => "r" +:+ pretty r
  | ir.IndirectOperand r off => "[r" +:+ pretty r +:+ "+" +:+ pretty off +:+ "]"
  | ir.ImmediateOperand n => pretty n
  | ir.ArgumentOperand a => "arg" +:+ pretty a
  | ir.AddressOperand (ir.GlobalVariable g) => "global" +:+ pretty g
  | ir.AddressOperand (ir.BasicBlockVariable b) => "block" +:+ pretty b
  | ir.PredicateOperand (Some r) ir.InversePredicate => "@!r" +:+ pretty r
  | ir.PredicateOperand (Some r) _ => "@r" +:+ pretty r
  | ir.PredicateOperand None _ => "@pt"
  end.

#[local] Instance operands : ir.OperandInterface :=
  {| ir.Operand_toString := print_operand;
     ir.isAlwaysTrue := fun o =>
       match o with
       | ir.PredicateOperand _ ir.PredicateTrue => true
       | _ => false
       end |}.

(** PTX operands and instructions: a register operand, the guard [@pt],
    and an instruction without modifier. *)
Definition register (type : PTXOperand.DataType) (reg : N) : PTXOperand.t :=
  PTXOperand.mk PTXOperand.Register type reg 0 0 "" false 0 0 PTXOperand.Pred.

Definition pt : PTXOperand.t :=
  PTXOperand.mk PTXOperand.Register PTXOperand.pred 0 0 0 "" false 0 0
    PTXOperand.PT.

Definition instruction (opcode : PTXInstruction.Opcode)
    (type : PTXOperand.DataType) (d a b : PTXOperand.t) : PTXInstruction.t :=
  PTXInstruction.mk opcode PTXInstruction.Modifier_invalid type
    PTXInstruction.AddressSpace_Invalid pt d a b.

(** A translator that has just created the function of a kernel. *)
Definition in_kernel : translation.State :=
  {| translation._module :=
       (ir.newFunction "kernel" ir.PrivateLinkage (ir.Module_new "module")).2;
     translation._function := Some 0%nat;
     translation._block := None;
     translation._registers := ∅;
     translation._specialRegisters := ∅;
     translation._blocks := ∅;
     translation._ptxInstruction := None;
     translation.heap := ∅ |}.

(** [not.b32 %r1, %r2] and [abs.s32 %r1, %r2] *)
Definition not_b32 : PTXInstruction.t :=
  instruction PTXInstruction.Not PTXOperand.b32
    (register PTXOperand.b32 1) (register PTXOperand.b32 2)
    (register PTXOperand.b32 0).

Definition abs_s32 : PTXInstruction.t :=
  instruction (PTXInstruction.OtherOpcode 0) PTXOperand.s32
    (register PTXOperand.s32 1) (register PTXOperand.s32 2)
    (register PTXOperand.s32 0).

(** A translator that has just created its module. *)
Definition in_module : translation.State :=
  {| translation._module := ir.Module_new "module";
     translation._function := None;
     translation._block := None;
     translation._registers := ∅;
     translation._specialRegisters := ∅;
     translation._blocks := ∅;
     translation._ptxInstruction := None;
     translation.heap := ∅ |}.

(** A kernel with one executable block between the entry and the exit
    block of its control-flow graph:
    [BB0: add.s32 %r1, %r1, %r1]. *)
Definition add_s32 : PTXInstruction.t :=
  instruction PTXInstruction.Add PTXOperand.s32
    (register PTXOperand.s32 1) (register PTXOperand.s32 1)
    (register PTXOperand.s32 1).

Definition one_block_kernel : PTXKernel.t :=
  PTXKernel.mk "kernel" PTXKernel.Visible [(1%N, PTXOperand.s32)]
    {| get_entry_block := 0; get_exit_block := 2;
       executable_sequence :=
         [ {| ptx_block_id := 0; ptx_label := "entry";
              ptx_instructions := [] |};
           {| ptx_block_id := 1; ptx_label := "BB0";
              ptx_instructions := [add_s32] |};
           {| ptx_block_id := 2; ptx_label := "exit";
              ptx_instructions := [] |} ] |}.

(** A phi with one source, the operand at address 1, for predecessor
    block 0; a psi with one source selected by the predicate at address
    3. *)
Definition phi_of_block_0 : ir.Phi.t :=
  ir.Phi.addSource (Some 1%positive) (Some 0%nat) (ir.Phi.new None).

Definition psi_of_predicate_3 : ir.Psi.t :=
  ir.Psi.addSource (Some 3%positive) (Some 1%positive) (ir.Psi.new None).

(** A free store with a guard [@pt] and two register operands, and the
    [Bitcast] that the three setters build over it. *)
Definition operand_heap : gmap positive ir.Operand :=
  {[ 1%positive := ir.PredicateOperand None ir.PredicateTrue;
     2%positive := ir.RegisterOperand 0;
     3%positive := ir.RegisterOperand 1 ]}.

Definition bitcast_0 : ir.Object :=
  ir.Unary (ir.UnaryInstruction.new ir.Instruction.Bitcast None).

Definition bitcast_1 : ir.Object :=
  ir.Unary
    {| ir.UnaryInstruction.base :=
         ir.Instruction.mk ir.Instruction.Bitcast (Some 1%positive) None 0
           [Some 1%positive; None] [None];
       ir.UnaryInstruction.d := None; ir.UnaryInstruction.a := None |}.

Definition bitcast_2 : ir.Object :=
  ir.Unary
    {| ir.UnaryInstruction.base :=
         ir.Instruction.mk ir.Instruction.Bitcast (Some 1%positive) None 0
           [Some 1%positive; None] [Some 2%positive];
       ir.UnaryInstruction.d := Some 2%positive;
       ir.UnaryInstruction.a := None |}.

Definition bitcast : ir.Object :=
  ir.Unary
    {| ir.UnaryInstruction.base :=
         ir.Instruction.mk ir.Instruction.Bitcast (Some 1%positive) None 0
           [Some 1%positive; Some 3%positive] [Some 2%positive];
       ir.UnaryInstruction.d := Some 2%positive;
       ir.UnaryInstruction.a := Some 3%positive |}.

(** The [Bitcast] after [setA] was given the guard operand instead: the
    operand at address 1 sits in the read slots 0 and 1. *)
Definition bitcast_shared : ir.Object :=
  ir.Unary
    {| ir.UnaryInstruction.base :=
         ir.Instruction.mk ir.Instruction.Bitcast (Some 1%positive) None 0
           [Some 1%positive; Some 1%positive] [Some 2%positive];
       ir.UnaryInstruction.d := Some 2%positive;
       ir.UnaryInstruction.a := Some 1%positive |}.

(** The translator inside a block of the kernel, with [%r1] declared as
    a 32-bit float and [%r2] as a 64-bit float. *)
Definition in_block : translation.State :=
  match
    (translation._translateRegisterValue 1 PTXOperand.f32;;
     translation._translateRegisterValue 2 PTXOperand.f64;;
     block ← translation.on_function (ir.newBasicBlock "BB0");
     translation.set_block (Some block)) in_kernel
  with
  | translation.Returns _ s => s
  | _ => in_kernel
  end.

(** [cvt.f64.f32 %r2, %r1] *)
Definition cvt_f64_f32 : PTXInstruction.t :=
  instruction PTXInstruction.Cvt PTXOperand.f64
    (register PTXOperand.f64 2) (register PTXOperand.f32 1)
    (register PTXOperand.f32 0).

(** A module with one uninitialised external global and the kernel
    above, and a translator that has not been used. *)
#[local] Instance no_initializers : ir.GlobalInterface :=
  {| ir.Constant := unit; ir.setInitializer := fun _ g => g |}.

Definition a_module : PTXModule :=
  {| path := "module.ptx";
     globals := [PTXGlobal.mk "table" PTXOperand.u32 PTXGlobal.Extern 0];
     kernels := [one_block_kernel] |}.

Definition new_translator : translation.State :=
  {| translation._module := ir.Module_new "";
     translation._function := None;
     translation._block := None;
     translation._registers := ∅;
     translation._specialRegisters := ∅;
     translation._blocks := ∅;
     translation._ptxInstruction := None;
     translation.heap := ∅ |}.

(** [st.u32 [%r1], %r2], and [mov.u32 %r1, %tid.x] in a kernel of its
    own. *)
Definition st_u32 : PTXInstruction.t :=
  instruction PTXInstruction.St PTXOperand.u32
    (register PTXOperand.u32 1) (register PTXOperand.u32 2)
    (register PTXOperand.u32 0).

Definition tid_x : PTXOperand.t :=
  PTXOperand.mk PTXOperand.Special PTXOperand.u32 0 0 0 "" false 0 1
    PTXOperand.Pred.

Definition mov_tid : PTXInstruction.t :=
  instruction PTXInstruction.Mov PTXOperand.u32
    (register PTXOperand.u32 1) tid_x (register PTXOperand.u32 0).

Definition tid_kernel : PTXKernel.t :=
  PTXKernel.mk "first" PTXKernel.Visible [(1%N, PTXOperand.u32)]
    {| get_entry_block := 0; get_exit_block := 2;
       executable_sequence :=
         [ {| ptx_block_id := 1; ptx_label := "BB0";
              ptx_instructions := [mov_tid] |} ] |}.

(** A kernel that references [%r1] twice, with [%r2] in between. *)
Definition r1_r2_r1_kernel : PTXKernel.t :=
  PTXKernel.mk "twice" PTXKernel.Visible
    [(1%N, PTXOperand.s32); (2%N, PTXOperand.f32); (1%N, PTXOperand.u32)]
    {| get_entry_block := 0; get_exit_block := 2;
       executable_sequence := [] |}.

Definition empty_kernel : PTXKernel.t :=
  PTXKernel.mk "second" PTXKernel.Extern []
    {| get_entry_block := 0; get_exit_block := 2;
       executable_sequence := [] |}.

Definition after_tid_kernel : translation.State :=
  match translation._translateKernel tid_kernel new_translator with
  | translation.Returns _ s => s
  | _ => new_translator
  end.

(** Default constructor arguments. *)
#[local] Instance constructor_defaults : ir.ConstructorDefaults :=
  {| ir.default_operation := 0; ir.default_comparison := 0;
     ir.default_modifier := 0; ir.default_level := 0 |}.

End Examples.


(** ** Views used by the statements *)

Module Views.

Import translation.

(** The opcode of the instruction that the selection functions build. *)
Definition unary_opcode (ptx : PTXInstruction.t)
  : option ir.Instruction.Opcode :=
  (fun u => ir.Instruction.opcode (ir.UnaryInstruction.base u))
    <$> newUnaryInstruction ptx.

Definition binary_opcode (ptx : PTXInstruction.t)
  : option ir.Instruction.Opcode :=
  (fun u => ir.Instruction.opcode (ir.BinaryInstruction.base u))
    <$> newBinaryInstruction ptx.

(** The instruction's type selects the opcode [o] for the PTX opcode
    [op] on the types that satisfy [class]. *)
Definition selects (op : PTXInstruction.Opcode)
    (class : PTXOperand.DataType -> bool) (o : ir.Instruction.Opcode) : Prop :=
  forall ptx,
    PTXInstruction.opcode ptx = op ->
    class (PTXInstruction.type ptx) = true ->
    isSimpleBinaryInstruction ptx = true /\ binary_opcode ptx = Some o.

Definition any_type (t : PTXOperand.DataType) : bool := true.
Definition signed_integer (t : PTXOperand.DataType) : bool :=
  negb (PTXOperand.isFloat t) && PTXOperand.isSigned t.
Definition unsigned_integer (t : PTXOperand.DataType) : bool :=
  negb (PTXOperand.isFloat t) && negb (PTXOperand.isSigned t).
Definition integer (t : PTXOperand.DataType) : bool :=
  negb (PTXOperand.isFloat t).

(** The operand type splits [op] into a float, a signed-integer and an
    unsigned-integer variant. *)
Definition three_variants (op : PTXInstruction.Opcode) : Prop :=
  exists f s u,
    f <> s /\ f <> u /\ s <> u /\
    selects op PTXOperand.isFloat f /\
    selects op signed_integer s /\
    selects op unsigned_integer u.

(** The register that a register iterator of the current function points
    to. *)
Definition current_function (s : State) : option ir.Function :=
  k ← _function s; ir._functions (_module s) !! k.

Definition register_at (s : State) (r : nat) : option ir.VirtualRegister :=
  fn ← current_function s; ir.registers fn !! r.

(** The labels of the blocks of the current function, in order. *)
Definition block_labels (s : State) : option (list string) :=
  fn ← current_function s; Some (ir.block_name <$> ir.blocks fn).

(** A translator step that, when it returns, leaves the current function
    in place with the blocks it had (their contents may change). *)
Definition same_blocks (s s' : State) : Prop :=
  _function s' = _function s /\ block_labels s' = block_labels s.

Definition keeps_blocks {A} (m : T A) : Prop :=
  forall s a s', m s = Returns a s' -> same_blocks s s'.

(** The executable blocks of a kernel that [_translateKernel] hands to
    [_translateBasicBlock]. *)
Definition translated_blocks (kernel : PTXKernel.t) : list PTXBasicBlock :=
  filter (fun block =>
            ptx_block_id block <> get_entry_block (PTXKernel.cfg kernel) /\
            ptx_block_id block <> get_exit_block (PTXKernel.cfg kernel))
         (executable_sequence (PTXKernel.cfg kernel)).

(** The parity of a join instruction:
    [reads.size() - 1 == sources.size() == blocks.size()], and the same
    with [predicates] for a psi. *)
Definition Phi_parity (u : ir.Phi.t) : Prop :=
  (Z.of_nat (length (ir.Instruction.reads (ir.Phi.base u))) - 1
   = Z.of_nat (length (ir.Phi.sources u)))%Z /\
  length (ir.Phi.sources u) = length (ir.Phi.blocks u).

Definition Psi_parity (u : ir.Psi.t) : Prop :=
  (Z.of_nat (length (ir.Instruction.reads (ir.Psi.base u))) - 1
   = Z.of_nat (length (ir.Psi.sources u)))%Z /\
  length (ir.Psi.sources u) = length (ir.Psi.predicates u).

(** The guard field aliases the first read slot. *)
Definition aliased (i : ir.Instruction.t) : Prop :=
  ir.Instruction.reads i !! 0 = Some (ir.Instruction.guard i).

(** An operand slot is populated when it points to a live object. *)
Definition live (h : ir.Heap) (p : ir.ptr) : Prop :=
  exists l, p = Some l /\ is_Some (h !! l).

Definition populated (h : ir.Heap) (i : ir.Instruction.t) : Prop :=
  Forall (live h) (ir.Instruction.reads i) /\
  Forall (live h) (ir.Instruction.writes i).

(** Exclusive ownership: no operand sits in two slots. *)
Definition exclusive (i : ir.Instruction.t) : Prop :=
  NoDup (ir.Instruction.reads i ++ ir.Instruction.writes i).

(** [p'] points to a clone of the operand of [p]: an object that did not
    exist in the heap [h] and that has, in the heap [h'], the fields that
    [p] had in [h]. *)
Definition clone_of (h h' : ir.Heap) (p p' : ir.ptr) : Prop :=
  exists l l' x,
    p = Some l /\ p' = Some l' /\
    h !! l = Some x /\ h !! l' = None /\ h' !! l' = Some x.

(** The named fields of an object are the pointers in their slots. *)
Definition views_in_slots (o : ir.Object) : Prop :=
  let rs := ir.Instruction.reads (ir.base o) in
  let ws := ir.Instruction.writes (ir.base o) in
  match o with
  | ir.Plain _ | ir.MembarObject _ => True
  | ir.Unary u =>
      ws !! 0 = Some (ir.UnaryInstruction.d u) /\
      rs !! 1 = Some (ir.UnaryInstruction.a u)
  | ir.Binary u =>
      last ws = Some (ir.BinaryInstruction.d u) /\
      rs !! 1 = Some (ir.BinaryInstruction.a u) /\
      rs !! 2 = Some (ir.BinaryInstruction.b u)
  | ir.Setp u =>
      let b := ir.ComparisonInstruction.base u in
      last ws = Some (ir.BinaryInstruction.d b) /\
      rs !! 1 = Some (ir.BinaryInstruction.a b) /\
      rs !! 2 = Some (ir.BinaryInstruction.b b)
  | ir.AtomObject u =>
      let b := ir.Atom.base u in
      last ws = Some (ir.BinaryInstruction.d b) /\
      rs !! 1 = Some (ir.BinaryInstruction.a b) /\
      rs !! 2 = Some (ir.BinaryInstruction.b b) /\
      rs !! 3 = Some (ir.Atom.c u)
  | ir.BraObject u => rs !! 1 = Some (ir.Bra.target u)
  | ir.CallObject u =>
      rs !! 1 = Some (ir.Call.target u) /\
      ir.Call.returned u = take (length (ir.Call.returned u)) ws /\
      ir.Call.arguments u = take (length (ir.Call.arguments u)) (drop 2 rs)
  | ir.StObject u =>
      rs !! 1 = Some (ir.St.d u) /\ rs !! 2 = Some (ir.St.a u)
  | ir.PhiObject u => last ws = Some (ir.Phi.d u)
  | ir.PsiObject u => last ws = Some (ir.Psi.d u)
  end.

(** The slots that the copy constructor of the class of [o] reads
    exist. *)
Definition shape (o : ir.Object) : Prop :=
  let rs := length (ir.Instruction.reads (ir.base o)) in
  let ws := length (ir.Instruction.writes (ir.base o)) in
  match o with
  | ir.Plain _ | ir.MembarObject _ => True
  | ir.Unary _ => 1 <= ws /\ 2 <= rs
  | ir.Binary _ | ir.Setp _ => 1 <= ws /\ 3 <= rs
  | ir.AtomObject _ => 1 <= ws /\ 4 <= rs
  | ir.BraObject _ => 2 <= rs
  | ir.CallObject u =>
      length (ir.Call.returned u) <= ws /\
      2 + length (ir.Call.arguments u) <= rs
  | ir.StObject _ => 3 <= rs
  | ir.PhiObject _ | ir.PsiObject _ => 1 <= ws
  end.

(** What the copy constructor of each class makes of the data members
    that are not operand slots: [o'] has the class of [o]; the comparison,
    the branch modifier and the barrier level are copied; a copied atomic
    operation has no [operation]; a call keeps the number of its returned
    values and of its arguments; a join form takes all its reads as
    [sources] and has the blocks, or the predicate operands, of the
    original: the predicates are in neither operand list and are not
    cloned. *)
Definition clone_views (o o' : ir.Object) : Prop :=
  match o, o' with
  | ir.Plain _, ir.Plain _ | ir.Unary _, ir.Unary _
  | ir.Binary _, ir.Binary _ | ir.StObject _, ir.StObject _ => True
  | ir.Setp u, ir.Setp u' =>
      ir.ComparisonInstruction.comparison u'
      = ir.ComparisonInstruction.comparison u
  | ir.AtomObject u, ir.AtomObject u' => ir.Atom.operation u' = None
  | ir.BraObject u, ir.BraObject u' => ir.Bra.modifier u' = ir.Bra.modifier u
  | ir.CallObject u, ir.CallObject u' =>
      length (ir.Call.returned u') = length (ir.Call.returned u) /\
      length (ir.Call.arguments u') = length (ir.Call.arguments u)
  | ir.MembarObject u, ir.MembarObject u' =>
      ir.Membar.level u' = ir.Membar.level u
  | ir.PhiObject u, ir.PhiObject u' =>
      ir.Phi.sources u' = ir.Instruction.reads (ir.Phi.base u') /\
      ir.Phi.blocks u' = ir.Phi.blocks u
  | ir.PsiObject u, ir.PsiObject u' =>
      ir.Psi.sources u' = ir.Instruction.reads (ir.Psi.base u') /\
      ir.Psi.predicates u' = ir.Psi.predicates u
  | _, _ => False
  end.

(** The same, for an operand list cloned into a heap [h] that already
    extends the heap [h0] of the originals. *)
Definition cloned (h0 h h' : ir.Heap) (p p' : ir.ptr) : Prop :=
  exists l l' x,
    p = Some l /\ p' = Some l' /\
    h0 !! l = Some x /\ h !! l' = None /\ h' !! l' = Some x.

(** Two slots hold operands with the same fields, and each is the first
    slot of its list when the other is. *)
Definition same_content (h h' : ir.Heap) (p p' : ir.ptr) : Prop :=
  exists l l' x,
    p = Some l /\ p' = Some l' /\ h !! l = Some x /\ h' !! l' = Some x.

Definition same_slot (h h' : ir.Heap) (b b' : option ir.ptr)
    (p p' : ir.ptr) : Prop :=
  same_content h h' p p' /\ (Some p = b <-> Some p' = b').

(** The objects that an instruction holds: its non-null operand
    pointers, reads first. *)
Definition held (operands : list ir.ptr) : list positive := omap id operands.

Definition operands (i : ir.Instruction.t) : list positive :=
  held (ir.Instruction.reads i ++ ir.Instruction.writes i).

(** The operand lists hold the named fields of the class of the object,
    in the order in which its constructor pushed them, and nothing
    else. *)
Definition layout (o : ir.Object) : Prop :=
  let guard := ir.Instruction.guard (ir.base o) in
  let rs := ir.Instruction.reads (ir.base o) in
  let ws := ir.Instruction.writes (ir.base o) in
  match o with
  | ir.Plain _ | ir.MembarObject _ => rs = [guard] /\ ws = []
  | ir.Unary u =>
      rs = [guard; ir.UnaryInstruction.a u] /\ ws = [ir.UnaryInstruction.d u]
  | ir.Binary u =>
      rs = [guard; ir.BinaryInstruction.a u; ir.BinaryInstruction.b u] /\
      ws = [ir.BinaryInstruction.d u]
  | ir.Setp u =>
      let b := ir.ComparisonInstruction.base u in
      rs = [guard; ir.BinaryInstruction.a b; ir.BinaryInstruction.b b] /\
      ws = [ir.BinaryInstruction.d b]
  | ir.AtomObject u =>
      let b := ir.Atom.base u in
      rs = [guard; ir.BinaryInstruction.a b; ir.BinaryInstruction.b b;
            ir.Atom.c u] /\
      ws = [ir.BinaryInstruction.d b]
  | ir.BraObject u => rs = [guard; ir.Bra.target u] /\ ws = []
  | ir.CallObject u =>
      rs = guard :: ir.Call.target u :: ir.Call.arguments u /\
      ws = ir.Call.returned u
  | ir.StObject u => rs = [guard; ir.St.d u; ir.St.a u] /\ ws = []
  | ir.PhiObject u => head rs = Some guard /\ ws = [ir.Phi.d u]
  | ir.PsiObject u => head rs = Some guard /\ ws = [ir.Psi.d u]
  end.

(** The views of a join form mirror its reads: one source per read after
    the guard, and one block or predicate per source. *)
Definition mirrored (o : ir.Object) : Prop :=
  match o with
  | ir.PhiObject u =>
      ir.Instruction.reads (ir.Phi.base u)
      = ir.Instruction.guard (ir.Phi.base u) :: ir.Phi.sources u /\
      length (ir.Phi.blocks u) = length (ir.Phi.sources u)
  | ir.PsiObject u =>
      ir.Instruction.reads (ir.Psi.base u)
      = ir.Instruction.guard (ir.Psi.base u) :: ir.Psi.sources u /\
      length (ir.Psi.predicates u) = length (ir.Psi.sources u)
  | _ => True
  end.

(** The slot that a setter overwrites, as (it is a read, its index), and
    the pointer that it installs. *)
Definition slot (op : ir.Operation) (o : ir.Object)
  : option (bool * nat * ir.ptr) :=
  match op, o with
  | ir.setGuard p, _ => Some (true, 0, p)
  | ir.setD x, ir.StObject _ => Some (true, 1, x)
  | ir.setD x, _ => Some (false, 0, x)
  | ir.setA x, ir.StObject _ => Some (true, 2, x)
  | ir.setA x, _ => Some (true, 1, x)
  | ir.setB x, _ => Some (true, 2, x)
  | ir.setTarget x, _ => Some (true, 1, x)
  | _, _ => None
  end.

Definition slots (is_read : bool) (i : ir.Instruction.t) : list ir.ptr :=
  if is_read then ir.Instruction.reads i else ir.Instruction.writes i.

(** Two objects of the same class. *)
Definition same_class (o o' : ir.Object) : bool :=
  match o, o' with
  | ir.Plain _, ir.Plain _ | ir.Unary _, ir.Unary _
  | ir.Binary _, ir.Binary _ | ir.Setp _, ir.Setp _
  | ir.AtomObject _, ir.AtomObject _ | ir.BraObject _, ir.BraObject _
  | ir.CallObject _, ir.CallObject _
  | ir.MembarObject _, ir.MembarObject _
  | ir.StObject _, ir.StObject _ | ir.PhiObject _, ir.PhiObject _
  | ir.PsiObject _, ir.PsiObject _ => true
  | _, _ => false
  end.

(** The object [c], with the [operation] of [this] when both are atomic
    operations. *)
Definition keep_operation (this c : ir.Object) : ir.Object :=
  match this, c with
  | ir.AtomObject t, ir.AtomObject u =>
      ir.AtomObject {| ir.Atom.base := ir.Atom.base u;
                       ir.Atom.operation := ir.Atom.operation t;
                       ir.Atom.c := ir.Atom.c u |}
  | _, _ => c
  end.

Section Texts.
Context `{ir.OperandInterface}.

(** The text of the operand that [p] points to, and the text that a
    guard contributes: nothing when it is always true. *)
Definition operand_text (h : ir.Heap) (p : ir.ptr) : string :=
  match p ≫= (fun l => h !! l) with
  | Some o => ir.Operand_toString o
  | None => ""
  end.

Definition guard_text (h : ir.Heap) (p : ir.ptr) : string :=
  match p ≫= (fun l => h !! l) with
  | Some g => if ir.isAlwaysTrue g then "" else ir.Operand_toString g +:+ " "
  | None => ""
  end.

(** The guard, the opcode, and the writes followed by the reads after the
    guard, separated by commas. *)
Definition rendering (h : ir.Heap) (i : ir.Instruction.t) : string :=
  guard_text h (ir.Instruction.guard i)
    +:+ ir.Instruction.Opcode_toString (ir.Instruction.opcode i) +:+ " "
    +:+ String.concat ", "
          (operand_text h
             <$> (ir.Instruction.writes i
                    ++ tail (ir.Instruction.reads i))%list).

End Texts.

(** *** Frame conditions of the translator *)

(** A computation that, when it returns, leaves the two states
    related. *)
Definition respects {A} (R : State -> State -> Prop) (m : T A) : Prop :=
  forall s a s', m s = Returns a s' -> R s s'.

(** The part of the state that the translation of a kernel body leaves
    alone: the recorded blocks, the name of the module, its globals, and
    the name and linkage of every function. *)
Definition outline (s : State) :=
  (_blocks s, ir.module_name (_module s), ir._globals (_module s),
   (fun f => (ir.function_name f, ir.function_linkage f))
     <$> ir._functions (_module s)).

Definition same_outline (s s' : State) : Prop := outline s' = outline s.

(** The part that the lowering of an operand leaves alone: the current
    function and block, and the arguments and blocks of every function. *)
Definition code (s : State) :=
  (_function s, _block s,
   (fun f => (ir.arguments f, ir.blocks f)) <$> ir._functions (_module s)).

Definition same_code (s s' : State) : Prop := code s' = code s.

Definition same_registers (s s' : State) : Prop :=
  _registers s' = _registers s.

Definition same_heap (s s' : State) : Prop := heap s' = heap s.

Definition same_labels (s s' : State) : Prop := _blocks s' = _blocks s.

Definition same_function (s s' : State) : Prop :=
  _function s' = _function s.

(** The current function stays, and its register list only grows at
    its end. *)
Definition registers_extend (s s' : State) : Prop :=
  _function s' = _function s /\
  forall rs, (ir.registers <$> current_function s) = Some rs ->
             exists more,
               (ir.registers <$> current_function s')
               = Some (rs ++ more)%list.

(** The two register tables only gain entries. *)
Definition tables_grow (s s' : State) : Prop :=
  _registers s ⊆ _registers s' /\
  _specialRegisters s ⊆ _specialRegisters s'.

(** The blocks of the current function, and the current block. *)
Definition current_blocks (s : State) : option (list ir.BasicBlock) :=
  ir.blocks <$> current_function s.

Definition current_registers (s : State)
  : option (list ir.VirtualRegister) :=
  ir.registers <$> current_function s.

(** The instruction [o] is what the simple lowering builds for [ptx]: a
    binary instruction when the binary classifier accepts [ptx], a unary
    one when only the unary classifier does, with the opcode that the
    selection function gives. *)
Definition lowered (ptx : PTXInstruction.t) (o : ir.Object) : Prop :=
  match o with
  | ir.Binary u =>
      isSimpleBinaryInstruction ptx = true /\
      binary_opcode ptx
      = Some (ir.Instruction.opcode (ir.BinaryInstruction.base u))
  | ir.Unary u =>
      isSimpleBinaryInstruction ptx = false /\
      isSimpleUnaryInstruction ptx = true /\
      unary_opcode ptx
      = Some (ir.Instruction.opcode (ir.UnaryInstruction.base u))
  | _ => False
  end.

(** The arguments of every function, and the PTX instruction that is
    being translated. *)
Definition same_arguments (s s' : State) : Prop :=
  ir.arguments <$> ir._functions (_module s')
  = ir.arguments <$> ir._functions (_module s).

Definition same_instruction (s s' : State) : Prop :=
  _ptxInstruction s' = _ptxInstruction s.

(** What the translation of a kernel body leaves in place once an operand
    is built: the names that an operand can refer to keep their
    meaning. *)
Definition settled (s s' : State) : Prop :=
  same_outline s s' /\ same_registers s s' /\ tables_grow s s' /\
  registers_extend s s' /\ same_arguments s s'.

Section Operands.
Context `{Compiler}.

(** The operand object [v] is what [_newTranslatedOperand] builds for the
    PTX operand [ptx] of an instruction with the address space [space],
    with the names resolved in the state [s]: the virtual register that
    the table has for a register id, the argument of the current function
    or the global of that name, the recorded block of a label, the
    memoised register of a special register and lane, and a register
    without a name, of the 64-bit integer type, for a discarded result. *)
Definition operand_lowered (s : State) (space : PTXInstruction.AddressSpace)
    (ptx : PTXOperand.t) (v : ir.Operand) : Prop :=
  match PTXOperand.addressMode ptx with
  | PTXOperand.Register =>
      exists reg,
        _registers s !! PTXOperand.reg ptx = Some reg /\
        v = ir.RegisterOperand reg
  | PTXOperand.Indirect =>
      exists reg,
        _registers s !! PTXOperand.reg ptx = Some reg /\
        v = ir.IndirectOperand reg (PTXOperand.offset ptx)
  | PTXOperand.Immediate => v = ir.ImmediateOperand (PTXOperand.imm_uint ptx)
  | PTXOperand.Address =>
      if bool_decide (space = PTXInstruction.Param)
         && PTXOperand.isArgument ptx
      then
        exists fn argument a,
          current_function s = Some fn /\
          list_find (fun a => ir.argument_name a = PTXOperand.identifier ptx)
            (ir.arguments fn) = Some (argument, a) /\
          v = ir.ArgumentOperand argument
      else
        exists global,
          ir.getGlobal (PTXOperand.identifier ptx) (_module s) = Some global /\
          v = ir.AddressOperand (ir.GlobalVariable global)
  | PTXOperand.Label =>
      exists block,
        _blocks s !! PTXOperand.identifier ptx = Some block /\
        v = ir.AddressOperand (ir.BasicBlockVariable block)
  | PTXOperand.Special =>
      exists reg,
        _specialRegisters s
          !! special_hash (PTXOperand.special ptx) (PTXOperand.vIndex ptx)
        = Some reg /\
        v = ir.RegisterOperand reg
  | PTXOperand.BitBucket =>
      exists reg vr,
        register_at s reg = Some vr /\ ir.vr_name vr = "" /\
        getType "i64" = Some (ir.vr_type vr) /\
        v = ir.RegisterOperand reg
  | PTXOperand.OtherAddressMode => False
  end.

(** The same for the guard that [_translatePredicateOperand] builds: the
    register of the predicate, unless the condition is [PT] or [nPT], and
    the translated condition. *)
Definition guard_lowered (s : State) (ptx : PTXOperand.t) (v : ir.Operand)
  : Prop :=
  if bool_decide (PTXOperand.condition ptx <> PTXOperand.PT)
     && bool_decide (PTXOperand.condition ptx <> PTXOperand.nPT)
  then
    exists reg,
      _registers s !! PTXOperand.reg ptx = Some reg /\
      v = ir.PredicateOperand (Some reg)
            (translatePredicateCondition (PTXOperand.condition ptx))
  else
    v = ir.PredicateOperand None
          (translatePredicateCondition (PTXOperand.condition ptx)).

(** The pointer [p] points to a live object that satisfies [P]. *)
Definition holds (h : ir.Heap) (p : ir.ptr) (P : ir.Operand -> Prop) : Prop :=
  exists l v, p = Some l /\ h !! l = Some v /\ P v.

(** The fields of the instruction [o] hold the lowering of the operands
    of [ptx]: the guard that of [pg], [d] that of [d], [a] that of [a]
    and, in a binary instruction, [b] that of [b]. *)
Definition operands_lowered (s : State) (ptx : PTXInstruction.t)
    (o : ir.Object) : Prop :=
  let space := PTXInstruction.addressSpace ptx in
  match o with
  | ir.Unary u =>
      holds (heap s) (ir.Instruction.guard (ir.UnaryInstruction.base u))
        (guard_lowered s (PTXInstruction.pg ptx)) /\
      holds (heap s) (ir.UnaryInstruction.d u)
        (operand_lowered s space (PTXInstruction.d ptx)) /\
      holds (heap s) (ir.UnaryInstruction.a u)
        (operand_lowered s space (PTXInstruction.a ptx))
  | ir.Binary u =>
      holds (heap s) (ir.Instruction.guard (ir.BinaryInstruction.base u))
        (guard_lowered s (PTXInstruction.pg ptx)) /\
      holds (heap s) (ir.BinaryInstruction.d u)
        (operand_lowered s space (PTXInstruction.d ptx)) /\
      holds (heap s) (ir.BinaryInstruction.a u)
        (operand_lowered s space (PTXInstruction.a ptx)) /\
      holds (heap s) (ir.BinaryInstruction.b u)
        (operand_lowered s space (PTXInstruction.b ptx))
  | _ => False
  end.

End Operands.

Section Calls.
Context `{Compiler} `{PTXFrontEnd}.

(** The member functions that the translation of a kernel calls, as
    values, so that a statement can range over the calls made between two
    others; the operand that a lowering returns is dropped.  [declares c]
    are the PTX register ids that the call [c] hands to
    [_translateRegisterValue]. *)
Inductive Step : Type :=
| RegisterDeclaration (reg : N) (type : PTXOperand.DataType)
| LowerOperand (ptx : PTXOperand.t)
| LowerPredicate (ptx : PTXOperand.t)
| LowerInstruction (ptx : PTXInstruction.t)
| LowerBlock (basicBlock : PTXBasicBlock)
| TranslateKernel (kernel : PTXKernel.t).

Definition step (c : Step) : T unit :=
  match c with
  | RegisterDeclaration reg type => _translateRegisterValue reg type
  | LowerOperand ptx => _newTranslatedOperand ptx;; mret tt
  | LowerPredicate ptx => _translatePredicateOperand ptx;; mret tt
  | LowerInstruction ptx => _translateInstruction ptx
  | LowerBlock basicBlock => _translateBasicBlock basicBlock
  | TranslateKernel kernel => _translateKernel kernel
  end.

Definition declares (c : Step) : list N :=
  match c with
  | RegisterDeclaration reg _ => [reg]
  | TranslateKernel kernel => (PTXKernel.getReferencedRegisters kernel).*1
  | _ => []
  end.

End Calls.

(** The block [b] is the lowering of the PTX block: it has its label and
    one instruction per PTX instruction, in order, each with its fields in
    its slots and all of them populated in the free store [h] by operands
    of its own. *)
Definition block_lowered (h : ir.Heap) (basicBlock : PTXBasicBlock)
    (b : ir.BasicBlock) : Prop :=
  ir.block_name b = ptx_label basicBlock /\
  Forall2 lowered (ptx_instructions basicBlock) (ir.instructions b) /\
  Forall (fun o => layout o /\ populated h (ir.base o) /\
                   exclusive (ir.base o)) (ir.instructions b).

End Views.


(** * Properties *)

(** ** Laws of the translator monad *)

Section MonadLaws.

Import translation Views.

Lemma T_bind_inv {A B} (m : T A) (k : A -> T B) s b s'' :
  (m ≫= k) s = Returns b s'' ->
  exists a s', m s = Returns a s' /\ k a s' = Returns b s''.
Proof.
  unfold mbind, T_mbind, T_bind. destruct (m s); try discriminate. eauto.
Qed.

Lemma T_bind_Returns {A B} (m : T A) (k : A -> T B) s a s' :
  m s = Returns a s' -> (m ≫= k) s = k a s'.
Proof. unfold mbind, T_mbind, T_bind. intros ->. reflexivity. Qed.

Lemma T_bind_Throws {A B} (m : T A) (k : A -> T B) s what :
  m s = Throws what -> (m ≫= k) s = Throws what.
Proof. unfold mbind, T_mbind, T_bind. intros ->. reflexivity. Qed.

Lemma T_bind_outcome {A B} (m : T A) (k : A -> T B) s :
  (m ≫= k) s = match m s with
               | Returns a s' => k a s'
               | Throws what => Throws what
               | AssertionFailure message => AssertionFailure message
               | UndefinedBehaviour => UndefinedBehaviour
               end.
Proof. reflexivity. Qed.

Lemma T_bind_get {A} (k : State -> T A) s : (get ≫= k) s = k s s.
Proof. reflexivity. Qed.

Lemma T_fmap_inv {A B} (f : A -> B) (m : T A) s b s' :
  (f <$> m) s = Returns b s' -> exists a, m s = Returns a s' /\ b = f a.
Proof.
  unfold fmap, T_fmap, T_bind, T_ret. destruct (m s); try discriminate.
  intros [= <- <-]. eauto.
Qed.

Lemma on_function_inv {A} (f : ir.Function -> A * ir.Function) s a s' :
  on_function f s = Returns a s' ->
  exists k fn,
    _function s = Some k /\
    ir._functions (_module s) !! k = Some fn /\
    a = (f fn).1 /\
    _module s' = ir.Module_with_function k (f fn).2 (_module s) /\
    _function s' = _function s /\ _block s' = _block s /\
    _registers s' = _registers s /\
    _specialRegisters s' = _specialRegisters s /\
    _blocks s' = _blocks s /\
    _ptxInstruction s' = _ptxInstruction s /\
    heap s' = heap s.
Proof.
  unfold on_function. destruct (_function s) as [k|] eqn:Ek; [|discriminate].
  destruct (_ !! k) as [fn|] eqn:E; [|discriminate].
  destruct (f fn) as [a' fn'] eqn:Ef. unfold on_module. cbn.
  intros [= <- <-]. exists k, fn. rewrite Ef. cbn. repeat split; auto.
Qed.

Lemma arrow_inv {A} (p : option A) (f : A -> ir.M A) s r s' :
  arrow p f s = Returns r s' ->
  exists x x', p = Some x /\ r = Some x' /\ f x (heap s) = Some (x', heap s').
Proof.
  unfold arrow. destruct p as [x |]; [| discriminate].
  intros (x' & Hx & ->)%T_fmap_inv. unfold on_heap in Hx.
  destruct (f x (heap s)) as [[y h] |] eqn:E; [| discriminate].
  injection Hx as <- <-. exists x, y. done.
Qed.

Lemma on_block_inv f s s' :
  on_block f s = Returns tt s' ->
  exists k fn b,
    _block s = Some k /\ current_function s = Some fn /\
    ir.blocks fn !! k = Some b /\
    _block s' = Some k /\
    current_function s' = Some (ir.Function_with_block k (f b) fn).
Proof.
  unfold on_block. rewrite T_bind_get.
  destruct (_block s) as [k |] eqn:Hk; [| discriminate].
  intros ([] & s1 & Hf & Hok)%T_bind_inv; [| discriminate Hok].
  injection Hok as <-.
  apply on_function_inv in Hf
    as (kf & fn & Hkf & Hfn & Hb & Hm & Hf' & Hb' & _).
  destruct (ir.blocks fn !! k) as [b |] eqn:Eb; [| discriminate Hb].
  exists k, fn, b. cbn in Hm.
  split; [done |]. split; [unfold current_function; rewrite Hkf; exact Hfn |].
  split; [done |]. split; [congruence |].
  unfold current_function. rewrite Hf', Hkf, Hm. cbn.
  apply list_lookup_insert_eq. eapply lookup_lt_Some, Hfn.
Qed.

End MonadLaws.

(** ** Laws of the free-store monad *)

Section HeapMonad.

Import ir.

Lemma M_bind_inv {A B} (m : M A) (k : A -> M B) h b h'' :
  (m ≫= k) h = Some (b, h'') ->
  exists a h', m h = Some (a, h') /\ k a h' = Some (b, h'').
Proof.
  unfold mbind, M_bind, bind. destruct (m h) as [[a h'] |]; [| discriminate].
  eauto.
Qed.

Lemma M_bind_Some {A B} (m : M A) (k : A -> M B) h a h' :
  m h = Some (a, h') -> (m ≫= k) h = k a h'.
Proof. unfold mbind, M_bind, bind. intros ->. reflexivity. Qed.

Lemma M_fmap_inv {A B} (f : A -> B) (m : M A) h b h' :
  (f <$> m) h = Some (b, h') -> exists a, m h = Some (a, h') /\ b = f a.
Proof.
  unfold fmap, M_fmap, bind, ret. destruct (m h) as [[a h1] |]; [| discriminate].
  intros [= <- <-]. eauto.
Qed.

Lemma M_ret_inv {A} (a b : A) h h' :
  (mret a : M A) h = Some (b, h') -> b = a /\ h' = h.
Proof. intros [= <- <-]. done. Qed.

Lemma lift_inv {A} (o : option A) h a h' :
  lift o h = Some (a, h') -> o = Some a /\ h' = h.
Proof. unfold lift. destruct o; [| discriminate]. intros [= <- <-]. done. Qed.

Lemma store_inv {A} (v : list A) n x v' :
  store v n x = Some v' -> n < length v /\ v' = <[n := x]> v.
Proof. unfold store. case_decide; [| discriminate]. intros [= <-]. done. Qed.

Lemma erase_inv {A} (v : list A) n v' :
  erase v n = Some v' -> n < length v /\ v' = delete n v.
Proof. unfold erase. case_decide; [| discriminate]. intros [= <-]. done. Qed.

End HeapMonad.

(** Inversion of a computation on the free store that returned. *)
Ltac M_inv H :=
  repeat match type of H with
    | (_ ≫= _) _ = Some _ =>
        let a := fresh "a" in let h := fresh "h" in
        let H1 := fresh "H" in
        apply M_bind_inv in H as (a & h & H1 & H); M_inv H1
    | (_ <$> _) _ = Some _ =>
        let a := fresh "a" in let H1 := fresh "H" in
        apply M_fmap_inv in H as (a & H1 & ->); M_inv H1
    | ir.lift _ _ = Some _ =>
        let H1 := fresh "H" in apply lift_inv in H as [H1 ->]
    | mret _ _ = Some _ => apply M_ret_inv in H as [-> ->]
    end.

(** * The translator *)

(** ** Instruction selection *)

Section InstructionSelection.

Import translation Views.

(** The selection itself: the binary classifier declines the convert,
    the unary one accepts it, and [newUnaryInstruction] builds an
    instruction with the opcode of the table. *)
Lemma cvt_selection (ptx : PTXInstruction.t) :
  PTXInstruction.opcode ptx = PTXInstruction.Cvt ->
  PTXInstruction.modifier ptx = PTXInstruction.Modifier_invalid ->
  ConversionTable.in_domain (PTXOperand.type (PTXInstruction.d ptx)) = true ->
  ConversionTable.in_domain (PTXOperand.type (PTXInstruction.a ptx)) = true ->
  isSimpleBinaryInstruction ptx = false /\
  isSimpleUnaryInstruction ptx = true /\
  is_Some (unary_opcode ptx) /\
  unary_opcode ptx =
    ConversionTable.rule (PTXOperand.type (PTXInstruction.d ptx))
                         (PTXOperand.type (PTXInstruction.a ptx)).
Proof.
  intros Hop Hmod Hd Ha.
  unfold isSimpleBinaryInstruction, isSimpleUnaryInstruction, unary_opcode,
    newUnaryInstruction.
  rewrite Hop, Hmod.
  destruct (PTXOperand.type (PTXInstruction.d ptx));
    try discriminate Hd;
    destruct (PTXOperand.type (PTXInstruction.a ptx));
    try discriminate Ha;
    vm_compute; repeat split; eauto.
Qed.

End InstructionSelection.

Section CvtLowering.

Import translation Views.
Context `{Compiler} `{PTXFrontEnd}.

Lemma Unary_setters_keep_opcode u h u' h' :
  (exists p, ir.UnaryInstruction.setGuard p u h = Some (u', h')) \/
  (exists p, ir.UnaryInstruction.setD p u h = Some (u', h')) \/
  (exists p, ir.UnaryInstruction.setA p u h = Some (u', h')) ->
  ir.Instruction.opcode (ir.UnaryInstruction.base u')
  = ir.Instruction.opcode (ir.UnaryInstruction.base u).
Proof.
  intros [[p Hp] | [[p Hp] | [p Hp]]];
    unfold ir.UnaryInstruction.setGuard, ir.UnaryInstruction.setD,
      ir.UnaryInstruction.setA, ir.Instruction.setGuard in Hp;
    M_inv Hp; reflexivity.
Qed.

(** C1. A convert with no modifier whose destination and source types are
    among the 8/16/32/64-bit integers and the 32/64-bit floats is taken by
    the unary lowering (not by the binary one); the instruction that
    [newUnaryInstruction] builds has the opcode of the conversion decision
    table, and when the translation of the instruction returns, the
    instruction appended to the current block is a unary instruction with
    that opcode. *)
Theorem cvt_follows_conversion_table (ptx : PTXInstruction.t) :
  PTXInstruction.opcode ptx = PTXInstruction.Cvt ->
  PTXInstruction.modifier ptx = PTXInstruction.Modifier_invalid ->
  ConversionTable.in_domain (PTXOperand.type (PTXInstruction.d ptx)) = true ->
  ConversionTable.in_domain (PTXOperand.type (PTXInstruction.a ptx)) = true ->
  isSimpleBinaryInstruction ptx = false /\
  isSimpleUnaryInstruction ptx = true /\
  is_Some (unary_opcode ptx) /\
  unary_opcode ptx =
    ConversionTable.rule (PTXOperand.type (PTXInstruction.d ptx))
                         (PTXOperand.type (PTXInstruction.a ptx)) /\
  forall s s',
    _translateInstruction ptx s = Returns tt s' ->
    exists k fn b u,
      _block s' = Some k /\ current_function s' = Some fn /\
      ir.blocks fn !! k = Some b /\
      last (ir.instructions b) = Some (ir.Unary u) /\
      Some (ir.Instruction.opcode (ir.UnaryInstruction.base u))
      = ConversionTable.rule (PTXOperand.type (PTXInstruction.d ptx))
                             (PTXOperand.type (PTXInstruction.a ptx)).
Proof.
  intros Hop Hmod Hd Ha.
  destruct (cvt_selection ptx Hop Hmod Hd Ha)
    as (Hb & Hu & Hsome & Hrule).
  split; [exact Hb |]. split; [exact Hu |]. split; [exact Hsome |].
  split; [exact Hrule |]. intros s s' Ht.
  unfold _translateInstruction, _translateComplexInstruction,
    _translateSimpleBinaryInstruction, _translateSimpleUnaryInstruction in Ht.
  rewrite Hb, Hu in Ht. cbn [negb] in Ht.
  rewrite (T_bind_outcome (set_ptxInstruction _)) in Ht.
  unfold set_ptxInstruction in Ht.
  rewrite (T_bind_outcome (mret false)) in Ht.
  unfold mret at 1, T_mret, T_ret in Ht.
  rewrite (T_bind_outcome (mret false)) in Ht.
  unfold mret at 1, T_mret, T_ret in Ht.
  apply T_bind_inv in Ht as (unary & s1 & Hun & Hret).
  apply T_bind_inv in Hun as (p & s2 & _ & Hun).
  apply T_bind_inv in Hun as (v1 & s3 & Hv1 & Hun).
  apply T_bind_inv in Hun as (d & s4 & _ & Hun).
  apply T_bind_inv in Hun as (v2 & s5 & Hv2 & Hun).
  apply T_bind_inv in Hun as (a & s6 & _ & Hun).
  apply T_bind_inv in Hun as (v3 & s7 & Hv3 & Hun).
  apply arrow_inv in Hv1 as (u0 & u1 & Hnew & -> & Hg).
  apply arrow_inv in Hv2 as (? & u2 & [= <-] & -> & Hsd).
  apply arrow_inv in Hv3 as (? & u3 & [= <-] & -> & Hsa).
  apply T_bind_inv in Hun as ([] & s8 & Hpush & Hun).
  injection Hun as <- <-. injection Hret as <-.
  apply on_block_inv in Hpush as (k & fn & b & _ & _ & Hbk & Hk' & Hfn').
  exists k, (ir.Function_with_block k (ir.push_back (ir.Unary u3) b) fn),
    (ir.push_back (ir.Unary u3) b), u3.
  split; [done |]. split; [done |].
  split.
  { cbn. apply list_lookup_insert_eq. eapply lookup_lt_Some, Hbk. }
  split; [cbn; apply last_snoc |].
  rewrite <- Hrule. unfold unary_opcode. rewrite Hnew. cbn. f_equal.
  rewrite (Unary_setters_keep_opcode u2 _ u3 _) by eauto 6.
  rewrite (Unary_setters_keep_opcode u1 _ u2 _) by eauto 6.
  rewrite (Unary_setters_keep_opcode u0 _ u1 _) by eauto 6.
  reflexivity.
Qed.

End CvtLowering.

Section CvtExample.

Import translation Views.
#[local] Existing Instances Examples.compiler Examples.front_end.

Lemma cvt_follows_conversion_table_witness :
  unary_opcode Examples.cvt_f64_f32 = Some ir.Instruction.Fpext /\
  ConversionTable.rule PTXOperand.f64 PTXOperand.f32
    = Some ir.Instruction.Fpext /\
  exists s' k fn b u,
    _translateInstruction Examples.cvt_f64_f32 Examples.in_block
      = Returns tt s' /\
    _block s' = Some k /\ current_function s' = Some fn /\
    ir.blocks fn !! k = Some b /\
    last (ir.instructions b) = Some (ir.Unary u) /\
    ir.Instruction.opcode (ir.UnaryInstruction.base u) = ir.Instruction.Fpext.
Proof.
  destruct (cvt_follows_conversion_table Examples.cvt_f64_f32
              eq_refl eq_refl eq_refl eq_refl) as (_ & _ & _ & Heq & Hrun).
  split; [rewrite Heq; reflexivity |]. split; [reflexivity |].
  destruct (_translateInstruction Examples.cvt_f64_f32 Examples.in_block)
    as [[] s' | | |] eqn:Hs'; try (vm_compute in Hs'; discriminate).
  destruct (Hrun _ _ Hs') as (k & fn & b & u & Hk & Hfn & Hb & Hlast & Hu).
  exists s', k, fn, b, u. repeat split; try assumption.
  injection Hu as ->. reflexivity.
Defined.

End CvtExample.

Section BinarySelection.

Import translation Views.

(** C4, as stated, fails on [mul]: a signed and an unsigned multiply get
    the same opcode, so the operand type does not split [mul] into three
    variants. *)
Lemma mul_has_no_signed_unsigned_variants :
  binary_opcode (Examples.instruction PTXInstruction.Mul PTXOperand.s32
                   Examples.pt Examples.pt Examples.pt)
  = binary_opcode (Examples.instruction PTXInstruction.Mul PTXOperand.u32
                     Examples.pt Examples.pt Examples.pt)
  /\ ~ three_variants PTXInstruction.Mul.
Proof.
  split; [reflexivity |].
  intros (f & s & u & _ & _ & Hsu & _ & Hs & Hu).
  destruct (Hs (Examples.instruction PTXInstruction.Mul PTXOperand.s32
                  Examples.pt Examples.pt Examples.pt) eq_refl eq_refl)
    as [_ Hs'].
  destruct (Hu (Examples.instruction PTXInstruction.Mul PTXOperand.u32
                  Examples.pt Examples.pt Examples.pt) eq_refl eq_refl)
    as [_ Hu'].
  vm_compute in Hs', Hu'. congruence.
Qed.

(** Case analysis on the type class of a binary instruction. *)
Ltac solve_selects :=
  intros ptx Hop Hclass;
  unfold isSimpleBinaryInstruction, binary_opcode, newBinaryInstruction;
  rewrite Hop;
  unfold any_type, signed_integer, unsigned_integer, integer in Hclass;
  destruct (PTXOperand.isFloat (PTXInstruction.type ptx));
  destruct (PTXOperand.isSigned (PTXInstruction.type ptx));
  try discriminate Hclass; split; reflexivity.

(** C4 (amended). add, and, or, shl, sub and xor lower 1:1; div and rem
    are split by the instruction type into a float, a signed and an
    unsigned variant; mul is split into a float variant and one integer
    variant only. *)
Theorem binary_opcode_selection :
  selects PTXInstruction.Add any_type ir.Instruction.Add /\
  selects PTXInstruction.And any_type ir.Instruction.And /\
  selects PTXInstruction.Or any_type ir.Instruction.Or /\
  selects PTXInstruction.Shl any_type ir.Instruction.Shl /\
  selects PTXInstruction.Sub any_type ir.Instruction.Sub /\
  selects PTXInstruction.Xor any_type ir.Instruction.Xor /\
  selects PTXInstruction.Div PTXOperand.isFloat ir.Instruction.Fdiv /\
  selects PTXInstruction.Div signed_integer ir.Instruction.Sdiv /\
  selects PTXInstruction.Div unsigned_integer ir.Instruction.Udiv /\
  selects PTXInstruction.Rem PTXOperand.isFloat ir.Instruction.Frem /\
  selects PTXInstruction.Rem signed_integer ir.Instruction.Srem /\
  selects PTXInstruction.Rem unsigned_integer ir.Instruction.Urem /\
  selects PTXInstruction.Mul PTXOperand.isFloat ir.Instruction.Fmul /\
  selects PTXInstruction.Mul integer ir.Instruction.Mul.
Proof. repeat apply conj; solve_selects. Qed.

Lemma binary_opcode_selection_witness :
  binary_opcode (Examples.instruction PTXInstruction.Div PTXOperand.s32
                   Examples.pt Examples.pt Examples.pt)
    = Some ir.Instruction.Sdiv /\
  binary_opcode (Examples.instruction PTXInstruction.Mul PTXOperand.u64
                   Examples.pt Examples.pt Examples.pt)
    = Some ir.Instruction.Mul.
Proof.
  destruct binary_opcode_selection
    as (_ & _ & _ & _ & _ & _ & _ & Hsdiv & _ & _ & _ & _ & _ & Hmul).
  split.
  - apply (Hsdiv (Examples.instruction PTXInstruction.Div PTXOperand.s32
                    Examples.pt Examples.pt Examples.pt)); reflexivity.
  - apply (Hmul (Examples.instruction PTXInstruction.Mul PTXOperand.u64
                   Examples.pt Examples.pt Examples.pt)); reflexivity.
Defined.

End BinarySelection.

(** ** Register declarations *)

Section Registers.

Import translation.
Context `{Compiler} `{PTXFrontEnd}.

Lemma declared_after_declaration s s' reg type :
  _translateRegisterValue reg type s = Returns tt s' ->
  is_Some (_registers s' !! reg).
Proof.
  unfold _translateRegisterValue. rewrite T_bind_get.
  destruct (decide _); [discriminate |].
  intros (ty & s1 & _ & Hrest)%T_bind_inv.
  apply T_bind_inv in Hrest as (r & s2 & _ & Hrest).
  rewrite T_bind_get in Hrest. injection Hrest as <-. cbn.
  rewrite lookup_insert_eq. eauto.
Qed.

Lemma redeclaration_throws s reg type :
  is_Some (_registers s !! reg) ->
  _translateRegisterValue reg type s = Throws ("Added duplicate virtual register '" +:+ register_name reg +:+ "'").
Proof.
  intros Hs. unfold _translateRegisterValue. rewrite T_bind_get.
  destruct (decide _); [reflexivity | contradiction].
Qed.

Lemma undeclared_register_throws s id :
  _registers s !! id = None ->
  _getRegister id s = Throws ("PTX register " +:+ register_name id
                          +:+ " used without declaration.").
Proof.
  intros Hs. unfold _getRegister. rewrite T_bind_get, Hs. reflexivity.
Qed.

Lemma undeclared_after_other_declaration s s' reg type id :
  reg <> id ->
  _translateRegisterValue reg type s = Returns tt s' ->
  _registers s !! id = None -> _registers s' !! id = None.
Proof.
  intros Hne. unfold _translateRegisterValue. rewrite T_bind_get.
  destruct (decide _); [discriminate |].
  intros (ty & s1 & Hty & Hrest)%T_bind_inv.
  apply T_bind_inv in Hrest as (r & s2 & Hr & Hrest).
  rewrite T_bind_get in Hrest. injection Hrest as <-. cbn.
  rewrite lookup_insert_ne by done.
  apply on_function_inv in Hr as (_ & _ & _ & _ & _ & _ & _ & _ & -> & _).
  unfold _getType in Hty. destruct (getType _); [| discriminate].
  injection Hty as _ <-. done.
Qed.

End Registers.


(** ** Instructions without a lowering rule *)

Section Unimplemented.

Import translation.
Context `{Compiler} `{PTXFrontEnd}.

(** An instruction that neither classifier accepts stops in the
    assertion of [_translateInstruction]. *)
Lemma declined_instruction_asserts ptx s :
  isSimpleBinaryInstruction ptx = false ->
  isSimpleUnaryInstruction ptx = false ->
  _translateInstruction ptx s
  = AssertionFailure ("No translation implemented for instruction "
                        +:+ PTXInstruction_toString ptx).
Proof.
  intros Hb Hu.
  unfold _translateInstruction, _translateComplexInstruction,
    _translateSimpleBinaryInstruction, _translateSimpleUnaryInstruction.
  rewrite Hb, Hu. reflexivity.
Qed.

Lemma other_opcode_asserts ptx s n :
  PTXInstruction.opcode ptx = PTXInstruction.OtherOpcode n ->
  _translateInstruction ptx s
  = AssertionFailure ("No translation implemented for instruction "
                        +:+ PTXInstruction_toString ptx).
Proof.
  intros Hop. apply declined_instruction_asserts;
    [unfold isSimpleBinaryInstruction | unfold isSimpleUnaryInstruction];
    rewrite Hop; reflexivity.
Qed.

Lemma predicate_operand_never_asserts ptx s message :
  _translatePredicateOperand ptx s <> AssertionFailure message.
Proof.
  unfold _translatePredicateOperand, _getRegister, on_heap, ir.new.
  unfold mbind, mret, fmap, T_mbind, T_mret, T_fmap, T_bind, T_ret, get, throw.
  destruct (_ && _); [destruct (_registers s !! _) |]; cbn; discriminate.
Qed.

(** A logical not is accepted by [isSimpleBinaryInstruction], but
    [newBinaryInstruction] has no case for it: the translation never
    reaches the assertion, and when the guard can be lowered it calls a
    member function through the null pointer. *)
Lemma not_outcome ptx s :
  PTXInstruction.opcode ptx = PTXInstruction.Not ->
  match _translateInstruction ptx s with
  | UndefinedBehaviour | Throws _ => True
  | Returns _ _ | AssertionFailure _ => False
  end.
Proof.
  intros Hop.
  unfold _translateInstruction, _translateComplexInstruction,
    _translateSimpleBinaryInstruction, isSimpleBinaryInstruction,
    newBinaryInstruction.
  rewrite Hop. cbn [negb].
  rewrite (T_bind_outcome (set_ptxInstruction _)).
  unfold set_ptxInstruction.
  rewrite (T_bind_outcome (mret false)).
  unfold mret at 1, T_mret, T_ret.
  rewrite T_bind_outcome.
  rewrite (T_bind_outcome (_translatePredicateOperand _)).
  match goal with
  | |- context [_translatePredicateOperand ?p ?s0] =>
      pose proof (predicate_operand_never_asserts p s0) as Hp;
      destruct (_translatePredicateOperand p s0)
  end; try exact I.
  now contradiction (Hp message).
Qed.

Lemma not_never_asserts ptx s message :
  PTXInstruction.opcode ptx = PTXInstruction.Not ->
  _translateInstruction ptx s <> AssertionFailure message.
Proof.
  intros Hop Heq. pose proof (not_outcome ptx s Hop) as Ho.
  rewrite Heq in Ho. exact Ho.
Qed.

End Unimplemented.

Section UnimplementedExamples.

Import translation.
#[local] Existing Instances Examples.compiler Examples.front_end.

(** C5, failing input. [not.b32 %r1, %r2] does not end in the
    "No translation implemented" assertion: the translator dereferences
    the null pointer that [newBinaryInstruction] returned.  An opcode that
    no classifier lists does end in the assertion. *)
Theorem not_instruction_dereferences_null :
  _translateInstruction Examples.not_b32 Examples.in_kernel
    = UndefinedBehaviour /\
  _translateInstruction Examples.abs_s32 Examples.in_kernel
    = AssertionFailure
        "No translation implemented for instruction instruction".
Proof. split; vm_compute; reflexivity. Qed.

End UnimplementedExamples.

(** ** Special registers *)

Section SpecialRegisters.

Import translation Views.
Context `{Compiler} `{PTXFrontEnd}.

(** A second request for the same (id, lane) pair finds the register of
    the first one and creates nothing. *)
Lemma special_register_memoized s id lane r s' :
  _getSpecialVirtualRegister id lane s = Returns r s' ->
  _getSpecialVirtualRegister id lane s' = Returns r s'.
Proof.
  unfold _getSpecialVirtualRegister. rewrite !T_bind_get.
  destruct (_specialRegisters s !! special_hash id lane) as [r0|] eqn:Hs.
  - intros [= <- <-]. rewrite Hs. reflexivity.
  - intros (ty & s1 & _ & Hrest)%T_bind_inv.
    apply T_bind_inv in Hrest as (r1 & s2 & _ & Hrest).
    rewrite T_bind_get in Hrest.
    apply T_bind_inv in Hrest as ([] & s3 & Hset & Hret).
    injection Hret as <- <-. injection Hset as <-. cbn.
    rewrite lookup_insert_eq. reflexivity.
Qed.

(** Requests for other pairs keep the cached register. *)
Lemma special_register_kept s id lane r s' hash cached :
  _getSpecialVirtualRegister id lane s = Returns r s' ->
  _specialRegisters s !! hash = Some cached ->
  _specialRegisters s' !! hash = Some cached.
Proof.
  unfold _getSpecialVirtualRegister. rewrite !T_bind_get.
  destruct (_specialRegisters s !! special_hash id lane) as [r0|] eqn:Hs.
  - intros [= <- <-]. done.
  - intros (ty & s1 & Hty & Hrest)%T_bind_inv.
    apply T_bind_inv in Hrest as (r1 & s2 & Hr & Hrest).
    rewrite T_bind_get in Hrest.
    apply T_bind_inv in Hrest as ([] & s3 & Hset & Hret).
    injection Hret as <- <-. injection Hset as <-. cbn.
    apply on_function_inv in Hr as (_ & _ & _ & _ & _ & _ & _ & _ & _ & -> & _).
    unfold _getType in Hty. destruct (getType _); [| discriminate].
    injection Hty as _ <-.
    intros Hc. rewrite lookup_insert_ne; [done |]. congruence.
Qed.

(** The hash separates the lanes of one special register. *)
Lemma special_hash_lane id lane :
  (lane < 16)%N -> N.land (special_hash id lane) 15 = lane.
Proof.
  intros Hlane. unfold special_hash.
  change 15%N with (N.ones 4). rewrite N.land_ones, N.lor_comm.
  apply N.bits_inj. intros n.
  destruct (N.lt_ge_cases n 4) as [Hn | Hn].
  - rewrite N.mod_pow2_bits_low, N.lor_spec by done.
    rewrite (N.mod_pow2_bits_low _ 32) by lia.
    rewrite N.shiftl_spec_low by done. apply orb_false_r.
  - rewrite N.mod_pow2_bits_high by done. symmetry.
    apply N.bits_above_log2.
    destruct (N.eq_dec lane 0%N) as [-> | Hz]; [cbn; lia |].
    apply N.lt_le_trans with 4%N; [| done].
    apply N.log2_lt_pow2; lia.
Qed.

Lemma special_hash_lanes_distinct id lane1 lane2 :
  (lane1 < 16)%N -> (lane2 < 16)%N -> lane1 <> lane2 ->
  special_hash id lane1 <> special_hash id lane2.
Proof.
  intros H1 H2 Hne Heq. apply Hne.
  rewrite <- (special_hash_lane id lane1 H1), <- (special_hash_lane id lane2 H2).
  congruence.
Qed.

(** Only the lane equal to [v1] gets a suffix: all other lanes of a
    special register are given the bare name of the register. *)
Lemma special_name_without_suffix id lane :
  lane <> v1 -> special_name id lane = SpecialRegister_toString id.
Proof.
  intros Hne. unfold special_name.
  rewrite bool_decide_eq_true_2 by done. reflexivity.
Qed.

Lemma special_names_collide id lane1 lane2 :
  lane1 <> v1 -> lane2 <> v1 -> special_name id lane1 = special_name id lane2.
Proof. intros H1 H2. rewrite !special_name_without_suffix by done. done. Qed.

End SpecialRegisters.

Section SpecialRegisterExamples.

Import translation Views.
#[local] Existing Instances Examples.compiler Examples.front_end.

(** C6, failing input. In one kernel, the requests for lanes y and z of
    the thread identifier create two different registers, and both are
    named after the bare special register; only lane x, whose index equals
    [v1], gets a suffix. *)
Theorem lanes_y_and_z_share_their_name :
  exists ry rz rx s1 s2 s3 vy vz vx,
    _getSpecialVirtualRegister tid 2 Examples.in_kernel = Returns ry s1 /\
    _getSpecialVirtualRegister tid 3 s1 = Returns rz s2 /\
    _getSpecialVirtualRegister tid 1 s2 = Returns rx s3 /\
    ry <> rz /\
    register_at s3 ry = Some vy /\
    register_at s3 rz = Some vz /\
    register_at s3 rx = Some vx /\
    ir.vr_id vy <> ir.vr_id vz /\
    ir.vr_name vy = "%tid" /\ ir.vr_name vz = "%tid" /\
    ir.vr_name vx = "%tid_x".
Proof.
  do 9 eexists.
  split; [vm_compute; reflexivity |].
  split; [vm_compute; reflexivity |].
  split; [vm_compute; reflexivity |].
  split; [discriminate |].
  split; [vm_compute; reflexivity |].
  split; [vm_compute; reflexivity |].
  split; [vm_compute; reflexivity |].
  split; [discriminate |].
  repeat split.
Qed.

End SpecialRegisterExamples.

(** ** Kernels *)

Section Blocks.

Import translation Views.

Lemma same_blocks_refl s : same_blocks s s.
Proof. split; reflexivity. Qed.

Lemma same_blocks_trans s1 s2 s3 :
  same_blocks s1 s2 -> same_blocks s2 s3 -> same_blocks s1 s3.
Proof. intros [? ?] [? ?]. split; congruence. Qed.

Lemma keeps_bind {A B} (m : T A) (k : A -> T B) :
  keeps_blocks m -> (forall a, keeps_blocks (k a)) -> keeps_blocks (m ≫= k).
Proof.
  intros Hm Hk s b s' (a & s1 & H1 & H2)%T_bind_inv.
  eapply same_blocks_trans; [eapply Hm | eapply Hk]; eassumption.
Qed.

Lemma keeps_fmap {A B} (f : A -> B) (m : T A) :
  keeps_blocks m -> keeps_blocks (f <$> m).
Proof. intros Hm s b s' (a & H1 & _)%T_fmap_inv. eapply Hm, H1. Qed.

Lemma keeps_ret {A} (a : A) : keeps_blocks (mret a).
Proof. intros s b s' [= <- <-]. apply same_blocks_refl. Qed.

Lemma keeps_throw {A} what : keeps_blocks (@throw A what).
Proof. intros s b s' [=]. Qed.

Lemma keeps_assert {A} what : keeps_blocks (@assertM_false A what).
Proof. intros s b s' [=]. Qed.

Lemma keeps_undefined {A} : keeps_blocks (@undefined A).
Proof. intros s b s' [=]. Qed.

Lemma keeps_get : keeps_blocks get.
Proof. intros s b s' [= <- <-]. apply same_blocks_refl. Qed.

Lemma keeps_on_heap {A} (m : ir.M A) : keeps_blocks (on_heap m).
Proof.
  intros s a s'. unfold on_heap. destruct (m (heap s)) as [[x h] |]; [| done].
  intros [= <- <-]. split; reflexivity.
Qed.

Lemma keeps_arrow {A} (p : option A) f : keeps_blocks (arrow p f).
Proof.
  destruct p; cbn; [apply keeps_fmap, keeps_on_heap | apply keeps_undefined].
Qed.

Lemma keeps_set_registers r : keeps_blocks (set_registers r).
Proof. intros s a s' [= <- <-]. split; reflexivity. Qed.

Lemma keeps_set_specialRegisters r : keeps_blocks (set_specialRegisters r).
Proof. intros s a s' [= <- <-]. split; reflexivity. Qed.

Lemma keeps_set_ptxInstruction i : keeps_blocks (set_ptxInstruction i).
Proof. intros s a s' [= <- <-]. split; reflexivity. Qed.

Lemma keeps_set_block b : keeps_blocks (set_block b).
Proof. intros s a s' [= <- <-]. split; reflexivity. Qed.

Lemma on_function_labels {A} (f : ir.Function -> A * ir.Function) s a s' :
  on_function f s = Returns a s' ->
  exists fn,
    current_function s = Some fn /\ a = (f fn).1 /\
    _function s' = _function s /\ _block s' = _block s /\
    current_function s' = Some (f fn).2.
Proof.
  intros (k & fn & Hk & Hfn & Ha & Hm & Hf & Hb & _)%on_function_inv.
  exists fn. unfold current_function. rewrite Hf, Hk, Hm. cbn.
  repeat split; try done.
  apply list_lookup_insert_eq. eapply lookup_lt_Some, Hfn.
Qed.

Lemma keeps_on_function {A} (f : ir.Function -> A * ir.Function) :
  (forall fn, ir.block_name <$> ir.blocks (f fn).2
              = ir.block_name <$> ir.blocks fn) ->
  keeps_blocks (on_function f).
Proof.
  intros Hf s a s' (fn & Hfn & _ & Hfun & _ & Hfn')%on_function_labels.
  split; [done |]. unfold block_labels. rewrite Hfn, Hfn'. cbn.
  by rewrite Hf.
Qed.

Lemma keeps_on_block f :
  (forall b, ir.block_name (f b) = ir.block_name b) ->
  keeps_blocks (on_block f).
Proof.
  intros Hf. unfold on_block. apply keeps_bind; [apply keeps_get |].
  intros s. destruct (_block s) as [k |]; [| apply keeps_undefined].
  apply keeps_bind.
  - apply keeps_on_function. intros fn.
    destruct (ir.blocks fn !! k) as [b |] eqn:Eb; cbn; [| done].
    rewrite list_fmap_insert, Hf. apply list_insert_id.
    rewrite list_lookup_fmap, Eb. reflexivity.
  - intros []; [apply keeps_ret | apply keeps_undefined].
Qed.

End Blocks.

Section Kernels.

Import translation Views.
Context `{Compiler} `{PTXFrontEnd}.

(** Every step of the translation of an instruction keeps the blocks. *)
Ltac keeps :=
  repeat first
    [ apply keeps_ret | apply keeps_throw | apply keeps_assert
    | apply keeps_undefined | apply keeps_get | apply keeps_on_heap
    | apply keeps_arrow | apply keeps_fmap
    | apply keeps_set_registers | apply keeps_set_specialRegisters
    | apply keeps_set_ptxInstruction
    | apply keeps_on_function; intros ?; reflexivity
    | apply keeps_on_block; intros ?; reflexivity
    | apply keeps_bind; [| intros ?]
    | match goal with
      | |- keeps_blocks (match ?x with _ => _ end) => destruct x
      | |- keeps_blocks (if ?x then _ else _) => destruct x
      end
    | solve [intros ? ? ? [= <- <-]; split; reflexivity] ].

Lemma keeps_getType n : keeps_blocks (_getType n).
Proof. unfold _getType. keeps. Qed.

Lemma keeps_getRegister id : keeps_blocks (_getRegister id).
Proof. unfold _getRegister. keeps. Qed.

Lemma keeps_translateRegisterValue reg type :
  keeps_blocks (_translateRegisterValue reg type).
Proof. unfold _translateRegisterValue. keeps. apply keeps_getType. Qed.

Lemma keeps_getSpecialVirtualRegister id lane :
  keeps_blocks (_getSpecialVirtualRegister id lane).
Proof. unfold _getSpecialVirtualRegister. keeps. apply keeps_getType. Qed.

Lemma keeps_newTranslatedOperand ptx : keeps_blocks (_newTranslatedOperand ptx).
Proof.
  unfold _newTranslatedOperand, _getSpecialValueOperand, _newTemporaryRegister,
    _getArgument, _getGlobal, _getBasicBlock.
  keeps; try apply keeps_getRegister; try apply keeps_getType;
    try apply keeps_getSpecialVirtualRegister.
Qed.

Lemma keeps_translatePredicateOperand ptx :
  keeps_blocks (_translatePredicateOperand ptx).
Proof.
  unfold _translatePredicateOperand. keeps; apply keeps_getRegister.
Qed.

Lemma keeps_translateInstruction ptx : keeps_blocks (_translateInstruction ptx).
Proof.
  unfold _translateInstruction, _translateComplexInstruction,
    _translateSimpleBinaryInstruction, _translateSimpleUnaryInstruction.
  keeps; try apply keeps_translatePredicateOperand;
    try apply keeps_newTranslatedOperand.
Qed.

Lemma keeps_for_each {A} (l : list A) (body : A -> T unit) :
  (forall x, keeps_blocks (body x)) -> keeps_blocks (for_each l body).
Proof.
  intros Hbody. induction l as [| x l IH]; cbn [for_each].
  - apply keeps_ret.
  - apply keeps_bind; [apply Hbody | intros _; exact IH].
Qed.

Lemma translateBasicBlock_labels basicBlock s s' labels :
  block_labels s = Some labels ->
  _translateBasicBlock basicBlock s = Returns tt s' ->
  _function s' = _function s /\
  block_labels s' = Some (labels ++ [ptx_label basicBlock])%list.
Proof.
  intros Hlabels. unfold _translateBasicBlock.
  intros (block & s1 & Hnew & Hrest)%T_bind_inv.
  apply T_bind_inv in Hrest as ([] & s2 & Hset & Hloop).
  apply on_function_labels in Hnew as (fn & Hfn & _ & Hf1 & _ & Hfn1).
  apply keeps_set_block in Hset as [Hf2 Hl2].
  apply (keeps_for_each _ _ keeps_translateInstruction) in Hloop as [Hf3 Hl3].
  split; [congruence |].
  rewrite Hl3, Hl2. unfold block_labels in *. rewrite Hfn1. rewrite Hfn in Hlabels.
  cbn in *. injection Hlabels as <-. rewrite fmap_app. reflexivity.
Qed.

Lemma block_loop_labels kernel sequence : forall s s' labels,
  block_labels s = Some labels ->
  for_each sequence
    (fun block =>
       if decide (ptx_block_id block = get_entry_block (PTXKernel.cfg kernel))
       then mret tt
       else if decide (ptx_block_id block
                         = get_exit_block (PTXKernel.cfg kernel))
       then mret tt
       else _translateBasicBlock block) s = Returns tt s' ->
  _function s' = _function s /\
  block_labels s' =
    Some (labels ++
          (ptx_label <$>
           filter (fun block =>
                     ptx_block_id block <> get_entry_block (PTXKernel.cfg kernel) /\
                     ptx_block_id block <> get_exit_block (PTXKernel.cfg kernel))
                  sequence))%list.
Proof.
  induction sequence as [| block rest IH]; intros s s' labels Hlabels;
    cbn [for_each].
  - intros [= <-]. rewrite app_nil_r. done.
  - intros ([] & s1 & Hbody & Hrest)%T_bind_inv.
    destruct (decide (ptx_block_id block = _)) as [He | He].
    { injection Hbody as <-. rewrite filter_cons_False by tauto. eauto. }
    destruct (decide (ptx_block_id block = _)) as [Hx | Hx].
    { injection Hbody as <-. rewrite filter_cons_False by tauto. eauto. }
    rewrite filter_cons_True by tauto.
    destruct (translateBasicBlock_labels _ _ _ _ Hlabels Hbody) as [Hf1 Hl1].
    destruct (IH _ _ _ Hl1 Hrest) as [Hf2 Hl2].
    split; [congruence |]. rewrite Hl2, <- app_assoc. reflexivity.
Qed.

(** For every kernel whose translation returns, the function has two
    blocks for each executable source block other than the entry and the
    exit block: the labels of these blocks, in order, twice. *)
Lemma kernel_blocks_are_doubled kernel s s' :
  _translateKernel kernel s = Returns tt s' ->
  block_labels s'
  = Some ((ptx_label <$> translated_blocks kernel)
            ++ (ptx_label <$> translated_blocks kernel))%list.
Proof.
  unfold _translateKernel.
  intros (function & s1 & Hnew & Hrest)%T_bind_inv.
  apply T_bind_inv in Hrest as ([] & s2 & Hset & Hrest).
  apply T_bind_inv in Hrest as ([] & s3 & Hregs & Hrest).
  apply T_bind_inv in Hrest as ([] & s4 & Hfirst & Hsecond).
  assert (Hl2 : block_labels s2 = Some []).
  { unfold on_module, ir.newFunction in Hnew. injection Hnew as <- <-.
    injection Hset as <-. unfold block_labels, current_function. cbn.
    rewrite lookup_app_r, Nat.sub_diag by done. reflexivity. }
  apply (keeps_for_each _ _
           (fun reg => keeps_translateRegisterValue reg.1 reg.2)) in Hregs
    as [_ Hl3].
  rewrite Hl2 in Hl3.
  destruct (block_loop_labels _ _ _ _ _ Hl3 Hfirst) as [_ Hl4].
  destruct (block_loop_labels _ _ _ _ _ Hl4 Hsecond) as [_ Hl5].
  rewrite Hl5. reflexivity.
Qed.

End Kernels.

Section KernelExamples.

Import translation Views.
#[local] Existing Instances Examples.compiler Examples.front_end.

(** C2, failing input. A kernel with a single executable block is
    translated into a function with two blocks of that label, each
    holding a lowering of the block's only instruction: both loops of
    [_translateKernel] call [_translateBasicBlock]. *)
Theorem single_block_is_translated_twice :
  exists s fn,
    _translateKernel Examples.one_block_kernel Examples.in_module
      = Returns tt s /\
    current_function s = Some fn /\
    ir.block_name <$> ir.blocks fn = ["BB0"; "BB0"] /\
    (fun b => ir.Instruction.opcode <$> (ir.base <$> ir.instructions b))
      <$> ir.blocks fn
    = [[ir.Instruction.Add]; [ir.Instruction.Add]].
Proof.
  do 2 eexists.
  split; [vm_compute; reflexivity |].
  split; [vm_compute; reflexivity |].
  split; vm_compute; reflexivity.
Qed.

End KernelExamples.

(** * The instruction model *)

(** ** Phi and psi *)

Section JoinForms.

Import ir Views.

Lemma Phi_new_parity b : Phi_parity (Phi.new b).
Proof. split; reflexivity. Qed.

Lemma Phi_addSource_parity source predecessor u :
  Phi_parity u -> Phi_parity (Phi.addSource source predecessor u).
Proof.
  intros [Hr Hs]. split; cbn; rewrite !length_app; cbn; lia.
Qed.

Lemma Phi_removeSource_parity predecessor u u' :
  Phi_parity u -> Phi.removeSource predecessor u = Some u' -> Phi_parity u'.
Proof.
  intros [Hr Hs]. unfold Phi.removeSource.
  destruct (list_find _ _) as [[k blk] |]; [| intros [= <-]; done].
  intros Hu. simplify_option_eq.
  repeat match goal with
         | H : erase _ _ = Some _ |- _ => apply erase_inv in H as [? ->]
         end.
  split; cbn; rewrite !length_delete by (eapply lookup_lt_is_Some_2; lia);
    lia.
Qed.

Lemma Psi_new_parity b : Psi_parity (Psi.new b).
Proof. split; reflexivity. Qed.

Lemma Psi_addSource_parity predicate source u :
  Psi_parity u -> Psi_parity (Psi.addSource predicate source u).
Proof.
  intros [Hr Hs]. split; cbn; rewrite !length_app; cbn; lia.
Qed.

Lemma Psi_removeSource_parity predicate u u' :
  Psi_parity u -> Psi.removeSource predicate u = Some u' -> Psi_parity u'.
Proof.
  intros [Hr Hs]. unfold Psi.removeSource.
  destruct (list_find _ _) as [[k p] |]; [| intros [= <-]; done].
  intros Hu. simplify_option_eq.
  repeat match goal with
         | H : erase _ _ = Some _ |- _ => apply erase_inv in H as [? ->]
         end.
  split; cbn; rewrite !length_delete by (eapply lookup_lt_is_Some_2; lia);
    lia.
Qed.

(** The copy constructor hands every cloned read, the guard included, to
    [sources]: a copy never has the parity. *)
Lemma Phi_copy_sources u h u' h' :
  Phi.copy u h = Some (u', h') ->
  Phi.sources u' = Instruction.reads (Phi.base u') /\
  Phi.blocks u' = Phi.blocks u.
Proof. unfold Phi.copy. intros Hc. M_inv Hc. done. Qed.

Lemma Phi_copy_breaks_parity u h u' h' :
  Phi.copy u h = Some (u', h') -> ~ Phi_parity u'.
Proof.
  intros [Hs _]%Phi_copy_sources [Hr _]. rewrite Hs in Hr. lia.
Qed.

Lemma Psi_copy_breaks_parity u h u' h' :
  Psi.copy u h = Some (u', h') -> ~ Psi_parity u'.
Proof.
  unfold Psi.copy. intros Hc [Hr _]. M_inv Hc. cbn in Hr. lia.
Qed.

Lemma Phi_assign_breaks_parity this u h u' h' :
  Phi.assign this u h = Some (u', h') -> ~ Phi_parity u'.
Proof.
  unfold Phi.assign. intros Hc [Hr _]. M_inv Hc. cbn in Hr. lia.
Qed.

(** C3, failing input. A phi with one source has the parity; its clone
    has two reads, two sources and one block.  The same holds for a
    psi. *)
Theorem clone_of_join_has_no_parity :
  Phi_parity Examples.phi_of_block_0 /\
  Psi_parity Examples.psi_of_predicate_3 /\
  exists (h : Heap) u' h' v' h'',
    clone (PhiObject Examples.phi_of_block_0) h = Some (PhiObject u', h') /\
    length (Instruction.reads (Phi.base u')) = 2 /\
    length (Phi.sources u') = 2 /\
    length (Phi.blocks u') = 1 /\
    ~ Phi_parity u' /\
    clone (PsiObject Examples.psi_of_predicate_3) h = Some (PsiObject v', h'') /\
    length (Instruction.reads (Psi.base v')) = 2 /\
    length (Psi.sources v') = 2 /\
    length (Psi.predicates v') = 1 /\
    ~ Psi_parity v'.
Proof.
  split; [split; reflexivity |]. split; [split; reflexivity |].
  exists {[ 1%positive := RegisterOperand 7 ]}.
  do 4 eexists.
  split; [vm_compute; reflexivity |].
  split; [reflexivity |]. split; [reflexivity |]. split; [reflexivity |].
  split; [intros [Hr _]; cbn in Hr; lia |].
  split; [vm_compute; reflexivity |].
  split; [reflexivity |]. split; [reflexivity |]. split; [reflexivity |].
  intros [Hr _]; cbn in Hr; lia.
Qed.

(** C7, as stated, fails when the predecessor already has a source:
    [removeSource] erases the first entry of that block, which is the old
    one, and the new source stays. *)
Lemma removeSource_erases_the_older_source :
  Phi_parity Examples.phi_of_block_0 /\
  Phi.removeSource (Some 0)
    (Phi.addSource (Some 2%positive) (Some 0) Examples.phi_of_block_0)
  <> Some Examples.phi_of_block_0 /\
  Phi.sources
    <$> Phi.removeSource (Some 0)
          (Phi.addSource (Some 2%positive) (Some 0) Examples.phi_of_block_0)
  = Some [Some 2%positive].
Proof.
  split; [split; reflexivity |]. split; [| reflexivity].
  vm_compute. discriminate.
Qed.

Lemma list_find_last {A} `{EqDecision A} (x : A) (l : list A) :
  x ∉ l -> list_find (fun y => y = x) (l ++ [x]) = Some (length l, x).
Proof.
  intros Hx. rewrite list_find_app_r.
  - cbn. rewrite decide_True by done. reflexivity.
  - apply list_find_None, Forall_forall. intros y Hy ->. done.
Qed.

Lemma erase_last {A} (l : list A) (x : A) n :
  n = length l -> erase (l ++ [x]) n = Some l.
Proof.
  intros ->. unfold erase. rewrite length_app. cbn.
  rewrite decide_True by lia.
  rewrite delete_middle, app_nil_r. reflexivity.
Qed.

(** C7 (amended). On a phi that has the parity and no source for the
    predecessor yet, [addSource] followed by [removeSource] of that
    predecessor gives back the phi, with the same reads, sources and
    blocks; likewise on a psi for a predicate that selects no source
    yet. *)
Theorem addSource_then_removeSource :
  (forall u source predecessor,
      Phi_parity u -> predecessor ∉ Phi.blocks u ->
      Phi.removeSource predecessor (Phi.addSource source predecessor u)
      = Some u) /\
  (forall u predicate source,
      Psi_parity u -> predicate ∉ Psi.predicates u ->
      Psi.removeSource predicate (Psi.addSource predicate source u)
      = Some u).
Proof.
  split.
  - intros [[o g b i rs ws] d ss bs] source predecessor [Hr Hs] Hnew.
    cbn in *. unfold Phi.removeSource, Phi.addSource. cbn.
    rewrite list_find_last by done.
    rewrite !erase_last by lia. reflexivity.
  - intros [[o g b i rs ws] d ss ps] predicate source [Hr Hs] Hnew.
    cbn in *. unfold Psi.removeSource, Psi.addSource. cbn.
    rewrite list_find_last by done.
    rewrite !erase_last by lia. reflexivity.
Qed.

Lemma addSource_then_removeSource_witness :
  Phi.removeSource (Some 5)
    (Phi.addSource (Some 2%positive) (Some 5) Examples.phi_of_block_0)
  = Some Examples.phi_of_block_0 /\
  Psi.removeSource (Some 9%positive)
    (Psi.addSource (Some 9%positive) (Some 2%positive)
       Examples.psi_of_predicate_3)
  = Some Examples.psi_of_predicate_3.
Proof.
  destruct addSource_then_removeSource as [Hphi Hpsi]. split.
  - apply Hphi; [split; reflexivity | compute_done].
  - apply Hpsi; [split; reflexivity | compute_done].
Defined.

End JoinForms.


(** ** The guard slot *)

(** The member functions of the derived classes, and inversion of all
    the calls in the context that returned. *)
Ltac unfold_members :=
  unfold ir.ComparisonInstruction.copy, ir.Atom.copy,
    ir.ComparisonInstruction.assign, ir.Atom.assign,
    ir.UnaryInstruction.copy, ir.BinaryInstruction.copy,
    ir.Bra.copy, ir.Call.copy, ir.Membar.copy,
    ir.St.copy, ir.Phi.copy, ir.Psi.copy,
    ir.UnaryInstruction.assign, ir.BinaryInstruction.assign,
    ir.Bra.assign, ir.Call.assign,
    ir.Membar.assign, ir.St.assign, ir.Phi.assign, ir.Psi.assign,
    ir.UnaryInstruction.setGuard, ir.BinaryInstruction.setGuard,
    ir.UnaryInstruction.setD, ir.UnaryInstruction.setA,
    ir.BinaryInstruction.setD, ir.BinaryInstruction.setA, ir.BinaryInstruction.setB,
    ir.Bra.setTarget, ir.Call.setTarget, ir.St.setD, ir.St.setA, ir.Phi.setD, ir.Psi.setD,
    ir.Setp_with, ir.Atom_with in *.

Ltac M_inv_all :=
  repeat match goal with
         | H : _ = Some _ |- _ => progress M_inv H
         end.

Section GuardSlot.

Import ir Views.

Lemma copy_aliased i h i' h' :
  Instruction.copy i h = Some (i', h') -> aliased i'.
Proof. unfold Instruction.copy. intros Hc. M_inv Hc. done. Qed.

Lemma clear_reads i h i' h' :
  Instruction.clear i h = Some (i', h') ->
  Instruction.reads i' = [] /\ Instruction.writes i' = [].
Proof. unfold Instruction.clear. intros Hc. M_inv Hc. done. Qed.

Lemma assign_aliased this i h i' h' :
  Instruction.assign this i h = Some (i', h') -> aliased i'.
Proof.
  unfold Instruction.assign. intros Hc. M_inv Hc.
  match goal with Hs : Instruction.clear _ _ = Some _ |- _ =>
    apply clear_reads in Hs as [Hr Hw] end.
  unfold aliased. cbn. rewrite Hr. done.
Qed.

Lemma setGuard_aliased p i h i' h' :
  Instruction.setGuard p i h = Some (i', h') -> aliased i'.
Proof.
  unfold Instruction.setGuard. intros Hc. M_inv Hc.
  match goal with Hs : store _ _ _ = Some _ |- _ =>
    apply store_inv in Hs as [Hlt ->] end.
  unfold aliased. cbn. by rewrite list_lookup_insert_eq.
Qed.

Lemma with_writes_aliased ws i : aliased i -> aliased (Instruction.with_writes ws i).
Proof. done. Qed.

Lemma store_read_aliased i n x rs :
  aliased i -> store (Instruction.reads i) n x = Some rs -> 0 < n ->
  aliased (Instruction.with_reads rs i).
Proof.
  intros Hi [_ ->]%store_inv Hn. unfold aliased. cbn.
  rewrite list_lookup_insert_ne by lia. done.
Qed.

Lemma erase_read_aliased i n rs :
  aliased i -> erase (Instruction.reads i) n = Some rs -> 0 < n ->
  aliased (Instruction.with_reads rs i).
Proof.
  intros Hi [_ ->]%erase_inv Hn. unfold aliased. cbn.
  rewrite list_lookup_delete_lt by lia. done.
Qed.

Lemma push_read_aliased i p : aliased i -> aliased (Instruction.push_read p i).
Proof.
  intros Hi. unfold aliased. cbn. rewrite lookup_app_l; [done |].
  eapply lookup_lt_Some, Hi.
Qed.

Lemma clone_aliased o h o' h' : clone o h = Some (o', h') -> aliased (base o').
Proof.
  destruct o; cbn; intros Hc; M_inv Hc; cbn.
  all: try (eapply copy_aliased; eassumption).
  all: unfold UnaryInstruction.copy, BinaryInstruction.copy, ComparisonInstruction.copy, Atom.copy, Bra.copy, Call.copy, Membar.copy, St.copy, Phi.copy, Psi.copy, BinaryInstruction.copy in *.
  all: repeat match goal with H : _ = Some _ |- _ => progress M_inv H end; cbn.
  all: try (eapply copy_aliased; eassumption).
Qed.

Lemma Phi_removeSource_aliased b u u' :
  aliased (Phi.base u) -> Phi.removeSource b u = Some u' ->
  aliased (Phi.base u').
Proof.
  intros Hi. unfold Phi.removeSource.
  destruct (list_find _ _) as [[k blk] |]; [| intros [= <-]; done].
  intros Hu. simplify_option_eq.
  eapply erase_read_aliased; [eassumption | eassumption | lia].
Qed.

Lemma Psi_removeSource_aliased p u u' :
  aliased (Psi.base u) -> Psi.removeSource p u = Some u' ->
  aliased (Psi.base u').
Proof.
  intros Hi. unfold Psi.removeSource.
  destruct (list_find _ _) as [[k blk] |]; [| intros [= <-]; done].
  intros Hu. simplify_option_eq.
  eapply erase_read_aliased; [eassumption | eassumption | lia].
Qed.

Lemma perform_aliased op o h o' h' :
  aliased (base o) -> perform op o h = Some (o', h') -> aliased (base o').
Proof.
  intros Hi Hp.
  destruct op as [p | x | x | x | x | x | x | x b | b | p x | p | []];
    destruct o; cbn in Hp; try discriminate Hp;
    unfold_members; M_inv_all; cbn in *.
  all: try (eapply setGuard_aliased; eassumption).
  all: try (eapply assign_aliased; eassumption).
  all: try (eapply store_read_aliased; [eassumption | eassumption | lia]).
  all: try (apply with_writes_aliased; assumption).
  all: try (apply push_read_aliased; assumption).
  all: try (eapply Phi_removeSource_aliased; eassumption).
  all: try (eapply Psi_removeSource_aliased; eassumption).
Qed.

Lemma lifetime_aliased o : lifetime o -> aliased (base o).
Proof.
  induction 1 as [o Hc | o h o' h' _ _ Hc | o op h o' h' _ IH Hp].
  - destruct Hc; reflexivity.
  - eapply clone_aliased, Hc.
  - eapply perform_aliased; eassumption.
Qed.



End GuardSlot.


(** ** Cloning *)

Section Cloning.

Import ir Views.

Lemma new_fresh o h p h' :
  new o h = Some (p, h') ->
  exists l, p = Some l /\ h !! l = None /\ h' = <[l := o]> h.
Proof.
  unfold new. intros [= <- <-]. eexists. split; [done |]. split; [| done].
  apply not_elem_of_dom, is_fresh.
Qed.

Lemma Operand_clone_spec h l x :
  h !! l = Some x ->
  exists l0, h !! l0 = None /\
    Operand_clone (Some l) h = Some (Some l0, <[l0 := x]> h).
Proof.
  intros Hx. exists (fresh (dom h)). split.
  - apply not_elem_of_dom, is_fresh.
  - unfold Operand_clone. erewrite M_bind_Some; [reflexivity |].
    cbn. rewrite Hx. reflexivity.
Qed.

Lemma clone_operands_spec h0 ps : forall h,
  h0 ⊆ h -> Forall (live h0) ps ->
  exists ps' h',
    Instruction.clone_operands ps h = Some (ps', h') /\
    h ⊆ h' /\ Forall2 (cloned h0 h h') ps ps' /\ NoDup ps'.
Proof.
  induction ps as [| p ps IH]; intros h Hsub Hlive.
  - exists [], h. repeat split; [done | constructor | constructor].
  - apply Forall_cons in Hlive as [(l & -> & [x Hx]) Hlive].
    assert (Hhx : h !! l = Some x) by (eapply lookup_weaken; eassumption).
    cbn [Instruction.clone_operands].
    rewrite decide_True by done.
    destruct (Operand_clone_spec h l x Hhx) as (l0 & Hl0 & Hclone).
    assert (Hsub1 : h ⊆ <[l0 := x]> h) by (apply insert_subseteq; done).
    destruct (IH (<[l0 := x]> h)) as (ps' & h' & Hps & Hsub' & Hall & Hnd);
      [etrans; eassumption | done |].
    exists (Some l0 :: ps'), h'.
    erewrite M_bind_Some by exact Hclone.
    erewrite M_bind_Some by exact Hps.
    split; [reflexivity |].
    split; [etrans; eassumption |].
    split; [| apply NoDup_cons; split; [| done]].
    + constructor.
      * exists l, l0, x. repeat split; try done.
        eapply lookup_weaken; [| exact Hsub']. apply lookup_insert_eq.
      * eapply Forall2_impl; [exact Hall |].
        intros q q' (m & m' & y & -> & -> & Hm & Hm' & Hy).
        exists m, m', y. repeat split; try done.
        destruct (h !! m') eqn:E; [| done].
        eapply lookup_weaken in E; [| exact Hsub1]. by rewrite E in Hm'.
    + intros Hin.
      apply list_elem_of_lookup in Hin as [k Hk].
      destruct (Forall2_lookup_r _ _ _ _ _ Hall Hk)
        as (q & _ & (m & m' & y & _ & [= <-] & _ & Hm' & _)).
      by rewrite lookup_insert_eq in Hm'.
Qed.

Lemma cloned_clone_of h h1 h2 p p' :
  h ⊆ h1 -> h1 ⊆ h2 -> cloned h h1 h2 p p' -> clone_of h h2 p p'.
Proof.
  intros H1 H2 (l & l' & x & -> & -> & Hl & Hl' & Hx).
  exists l, l', x. repeat split; try done.
  destruct (h !! l') eqn:E; [| done].
  eapply lookup_weaken in E; [| exact H1]. by rewrite E in Hl'.
Qed.

Lemma cloned_weaken h h1 h2 h3 p p' :
  h2 ⊆ h3 -> cloned h h1 h2 p p' -> cloned h h1 h3 p p'.
Proof.
  intros H3 (l & l' & x & -> & -> & Hl & Hl' & Hx).
  exists l, l', x. repeat split; try done. eapply lookup_weaken; eassumption.
Qed.

Lemma Instruction_copy_spec i h :
  populated h i -> aliased i ->
  exists i' h',
    Instruction.copy i h = Some (i', h') /\
    h ⊆ h' /\
    Forall2 (clone_of h h') (Instruction.reads i) (Instruction.reads i') /\
    Forall2 (clone_of h h') (Instruction.writes i) (Instruction.writes i') /\
    NoDup (Instruction.reads i' ++ Instruction.writes i') /\
    Instruction.opcode i' = Instruction.opcode i /\
    aliased i'.
Proof.
  intros [Hr Hw] Ha.
  destruct (clone_operands_spec h (Instruction.reads i) h)
    as (rs & h1 & Hrs & Hsub1 & Hallr & Hndr); [done | done |].
  destruct (clone_operands_spec h (Instruction.writes i) h1)
    as (ws & h2 & Hws & Hsub2 & Hallw & Hndw); [done | done |].
  assert (Hg : exists g, rs !! 0 = Some g).
  { destruct (Forall2_lookup_l _ _ _ _ _ Hallr Ha) as (g & Hg & _). eauto. }
  destruct Hg as [g Hg].
  exists {| Instruction.opcode := Instruction.opcode i;
            Instruction.guard := g; Instruction.block := Instruction.block i;
            Instruction._id := Instruction._id i;
            Instruction.reads := rs; Instruction.writes := ws |}, h2.
  split.
  { unfold Instruction.copy.
    erewrite M_bind_Some by exact Hrs.
    erewrite (M_bind_Some (lift _)) by (unfold lift, at_; rewrite Hg; reflexivity).
    erewrite M_bind_Some by exact Hws. reflexivity. }
  split; [etrans; eassumption |]. cbn.
  split.
  { eapply Forall2_impl; [exact Hallr |]. intros p p' Hp.
    eapply cloned_clone_of; [reflexivity | etrans; eassumption |].
    eapply cloned_weaken; eassumption. }
  split.
  { eapply Forall2_impl; [exact Hallw |]. intros p p' Hp.
    eapply cloned_clone_of; eassumption. }
  split; [| split; [reflexivity | exact Hg]].
  apply NoDup_app. split; [done |]. split; [| done].
  intros p Hpr Hpw.
  apply list_elem_of_lookup in Hpr as [k Hk].
  destruct (Forall2_lookup_r _ _ _ _ _ Hallr Hk)
    as (q & _ & (m & m' & y & _ & -> & _ & _ & Hy)).
  apply list_elem_of_lookup in Hpw as [k' Hk'].
  destruct (Forall2_lookup_r _ _ _ _ _ Hallw Hk')
    as (q' & _ & (n & n' & z & _ & [= <-] & _ & Hn' & _)).
  by rewrite Hy in Hn'.
Qed.

Section Rendering.
Context `{OperandInterface}.

Lemma deref_live h l x : h !! l = Some x -> deref (Some l) h = Some (x, h).
Proof. intros Hx. cbn. rewrite Hx. reflexivity. Qed.

Lemma writes_toString_same h h' b b' ws ws' :
  Forall2 (same_slot h h' b b') ws ws' ->
  exists s, Instruction.writes_toString b ws h = Some (s, h) /\
            Instruction.writes_toString b' ws' h' = Some (s, h').
Proof.
  induction 1 as [| w w' ws ws' [(l & l' & x & -> & -> & Hl & Hl') Hb] _ (s & Hs & Hs')].
  - exists "". split; reflexivity.
  - cbn [Instruction.writes_toString].
    erewrite !M_bind_Some by (first [apply deref_live; eassumption | eassumption]).
    eexists. split; [reflexivity |].
    repeat case_decide; try reflexivity; tauto.
Qed.

Lemma reads_toString_same h h' b b' rs rs' :
  Forall2 (same_slot h h' b b') rs rs' ->
  forall first,
  exists s, Instruction.reads_toString b first rs h = Some (s, h) /\
            Instruction.reads_toString b' first rs' h' = Some (s, h').
Proof.
  induction 1 as [| r r' rs rs' [(l & l' & x & -> & -> & Hl & Hl') Hb] _ IH];
    intros first.
  - exists "". split; reflexivity.
  - cbn [Instruction.reads_toString].
    repeat case_decide; try tauto.
    + apply IH.
    + destruct (IH false) as (s & Hs & Hs').
      erewrite !M_bind_Some by (first [apply deref_live; eassumption | eassumption]).
      eexists. split; reflexivity.
Qed.

Lemma same_slot_of_NoDup h h' ps ps' :
  NoDup ps -> NoDup ps' -> Forall2 (same_content h h') ps ps' ->
  Forall2 (same_slot h h' (head ps) (head ps')) ps ps'.
Proof.
  intros Hnd Hnd' Hall. destruct Hall as [| p p' ps ps' Hp Hall]; [constructor |].
  apply NoDup_cons in Hnd as [Hp1 _]. apply NoDup_cons in Hnd' as [Hp1' _].
  cbn. constructor; [split; [done | tauto] |].
  apply Forall2_same_length_lookup. split; [eapply Forall2_length, Hall |].
  intros k q q' Hq Hq'. split.
  - eapply Forall2_lookup_lr; eassumption.
  - apply list_elem_of_lookup_2 in Hq, Hq'. split; intros [= ->]; done.
Qed.

Lemma toString_same h h' i i' :
  Instruction.opcode i' = Instruction.opcode i ->
  aliased i -> aliased i' ->
  NoDup (Instruction.reads i) -> NoDup (Instruction.writes i) ->
  NoDup (Instruction.reads i') -> NoDup (Instruction.writes i') ->
  Forall2 (same_content h h') (Instruction.reads i) (Instruction.reads i') ->
  Forall2 (same_content h h') (Instruction.writes i) (Instruction.writes i') ->
  exists text,
    Instruction.toString i h = Some (text, h) /\
    Instruction.toString i' h' = Some (text, h').
Proof.
  intros Ho Ha Ha' Hr Hw Hr' Hw' Hrs Hws.
  destruct (Forall2_lookup_lr _ _ _ _ _ _ Hrs Ha Ha')
    as (l & l' & g & Hg & Hg' & Hl & Hl').
  destruct (writes_toString_same h h' _ _ _ _
              (same_slot_of_NoDup _ _ _ _ Hw Hw' Hws)) as (s2 & Hs2 & Hs2').
  destruct (reads_toString_same h h' _ _ _ _
              (same_slot_of_NoDup _ _ _ _ Hr Hr' Hrs) true) as (s4 & Hs4 & Hs4').
  unfold Instruction.toString. rewrite Hg, Hg', Ho.
  erewrite !M_bind_Some by (first [apply deref_live; eassumption | eassumption]).
  eexists. split; [reflexivity |].
  rewrite <- (Forall2_length _ _ _ Hrs).
  replace (bool_decide (Instruction.writes i' <> []))
    with (bool_decide (Instruction.writes i <> [])); [reflexivity |].
  apply bool_decide_ext. apply Forall2_length in Hws.
  destruct (Instruction.writes i), (Instruction.writes i'); cbn in Hws; try lia;
    split; done.
Qed.

End Rendering.

Lemma replay_defined {A} (v : list A) from count :
  from + count <= length v ->
  replay v from count = Some (take count (drop from v)).
Proof.
  unfold replay, at_. revert from.
  induction count as [| n IH]; intros from Hle; [reflexivity |].
  cbn [seq mapM].
  destruct (lookup_lt_is_Some_2 v from ltac:(lia)) as [x Hx].
  rewrite Hx. cbn. rewrite IH by lia. cbn.
  rewrite (drop_S _ _ _ Hx). reflexivity.
Qed.

Lemma replay_inv {A} (v l : list A) from count :
  replay v from count = Some l ->
  length l = count /\ (count = 0 \/ from + count <= length v).
Proof.
  unfold replay, at_. revert from l.
  induction count as [| n IH]; intros from l; cbn [seq mapM].
  - intros [= <-]. split; [reflexivity | left; reflexivity].
  - intros Hl. simplify_option_eq.
    match goal with Hx : v !! from = Some _ |- _ =>
      apply lookup_lt_Some in Hx end.
    match goal with Hm : mapM _ _ = Some _ |- _ =>
      apply IH in Hm as [<- Hn] end.
    split; [reflexivity |]. right. destruct Hn as [-> | Hn]; lia.
Qed.

(** Lengths after the vector operations of the member functions, and
    case analysis on the slots that a copy constructor reads. *)
Ltac lengths :=
  repeat match goal with
    | H : store _ _ _ = Some _ |- _ => apply store_inv in H as [? ->]
    | H : erase _ _ = Some _ |- _ => apply erase_inv in H as [? ->]
    | H : at_ _ _ = Some _ |- _ => apply lookup_lt_Some in H
    | H : back ?l = Some _ |- _ =>
        destruct l; [discriminate H | clear H]
    | H : replay _ _ _ = Some _ |- _ => apply replay_inv in H as [? ?]
    end;
  cbn in *;
  rewrite ?length_insert, ?length_app, ?length_delete in *; cbn in *.

Ltac lookups :=
  unfold at_, back in *;
  repeat match goal with
    | |- context [ ?l !! ?n ] =>
        let E := fresh "E" in
        destruct (l !! n) eqn:E;
        [| apply lookup_ge_None in E; lia]
    | |- context [ last ?l ] =>
        let E := fresh "E" in
        destruct (last l) eqn:E;
        [| apply last_None in E; rewrite E in *; cbn in *; lia]
    end.

Lemma copy_shape o h o' h' : clone o h = Some (o', h') -> shape o'.
Proof.
  destruct o; cbn; intros Hc; unfold_members; M_inv_all; cbn; try done.
  all: lengths; try lia.
Qed.

Lemma Instruction_setGuard_lengths p i h i' h' :
  Instruction.setGuard p i h = Some (i', h') ->
  length (Instruction.reads i') = length (Instruction.reads i) /\
  Instruction.writes i' = Instruction.writes i.
Proof.
  unfold Instruction.setGuard. intros Hs. M_inv Hs. lengths. done.
Qed.

Lemma Phi_removeSource_writes b u u' :
  Phi.removeSource b u = Some u' ->
  Instruction.writes (Phi.base u') = Instruction.writes (Phi.base u).
Proof.
  unfold Phi.removeSource.
  destruct (list_find _ _) as [[k blk] |]; [| intros [= <-]; done].
  intros Hu. simplify_option_eq. reflexivity.
Qed.

Lemma Psi_removeSource_writes p u u' :
  Psi.removeSource p u = Some u' ->
  Instruction.writes (Psi.base u') = Instruction.writes (Psi.base u).
Proof.
  unfold Psi.removeSource.
  destruct (list_find _ _) as [[k blk] |]; [| intros [= <-]; done].
  intros Hu. simplify_option_eq. reflexivity.
Qed.

Lemma perform_shape op o h o' h' :
  shape o -> perform op o h = Some (o', h') -> shape o'.
Proof.
  intros Hs Hp.
  destruct op as [p | x | x | x | x | x | x | x b | b | p x | p | []];
    destruct o; cbn in Hp; try discriminate Hp;
    unfold_members; M_inv_all; cbn in *; try done.
  all: repeat match goal with
         | H : Instruction.setGuard _ _ _ = Some _ |- _ =>
             apply Instruction_setGuard_lengths in H as [? ?]
         end.
  all: try (lengths; try lia; congruence).
  - apply Phi_removeSource_writes in H0. congruence.
  - apply Psi_removeSource_writes in H0. congruence.
Qed.

Lemma lifetime_shape o : lifetime o -> shape o.
Proof.
  induction 1 as [o Hc | o h o' h' _ _ Hc | o op h o' h' _ IH Hp].
  - destruct Hc; cbn; lia.
  - eapply copy_shape, Hc.
  - eapply perform_shape; eassumption.
Qed.

Lemma clone_defined o h i' h' :
  shape o ->
  Instruction.copy (base o) h = Some (i', h') ->
  length (Instruction.reads i') = length (Instruction.reads (base o)) ->
  length (Instruction.writes i') = length (Instruction.writes (base o)) ->
  exists o',
    clone o h = Some (o', h') /\ base o' = i' /\
    views_in_slots o' /\ clone_views o o'.
Proof.
  intros Hs Hc Hr Hw.
  destruct o; cbn in *; unfold_members;
    unfold fmap, M_fmap, mbind, M_bind, bind, mret, M_ret, ret, lift;
    rewrite Hc.
  1-6, 8-11: lookups; cbn; lookups; eexists; (split; [reflexivity |]);
    (split; [reflexivity |]); cbn; done.
  destruct Hs as [Hret Harg].
  rewrite !replay_defined by lia. lookups. cbn.
  eexists. split; [reflexivity |]. split; [reflexivity |]. cbn.
  rewrite !length_take, !length_drop.
  split; [| lia]. split; [done |].
  split; f_equal; lia.
Qed.

Lemma copy_fields i h i' h' :
  Instruction.copy i h = Some (i', h') ->
  Instruction.opcode i' = Instruction.opcode i /\
  Instruction.block i' = Instruction.block i /\
  Instruction.id i' = Instruction.id i.
Proof. unfold Instruction.copy. intros Hc. M_inv Hc. done. Qed.

Lemma clone_of_same_content h h' p p' :
  clone_of h h' p p' -> same_content h h' p p'.
Proof.
  intros (l & l' & x & -> & -> & Hl & _ & Hl'). exists l, l', x. done.
Qed.

Lemma clone_of_fresh h h' ps ps' l' :
  Forall2 (clone_of h h') ps ps' -> Some l' ∈ ps' -> h !! l' = None.
Proof.
  intros Hall [k Hk]%list_elem_of_lookup.
  destruct (Forall2_lookup_r _ _ _ _ _ Hall Hk)
    as (q & _ & (m & m' & y & _ & [= <-] & _ & Hm' & _)).
  exact Hm'.
Qed.

Lemma live_unchanged h h' ps l l' x :
  h ⊆ h' -> Forall (live h) ps -> Some l ∈ ps -> h !! l' = None ->
  <[l' := x]> h' !! l = h !! l.
Proof.
  intros Hsub Hlive Hl Hl'.
  apply (proj1 (Forall_forall _ _) Hlive) in Hl as (m & [= <-] & [y Hy]).
  rewrite lookup_insert_ne by (intros ->; by rewrite Hy in Hl').
  rewrite Hy. eapply lookup_weaken; eassumption.
Qed.

Lemma live_same_content h h'' ps :
  Forall (live h) ps ->
  (forall l, Some l ∈ ps -> h'' !! l = h !! l) ->
  Forall2 (same_content h h'') ps ps.
Proof.
  intros Hlive Hsame. apply Forall2_same_length_lookup. split; [done |].
  intros k p q Hp Hq. rewrite Hp in Hq. injection Hq as <-.
  pose proof (list_elem_of_lookup_2 _ _ _ Hp) as Hin.
  destruct (proj1 (Forall_forall _ _) Hlive _ Hin) as (l & -> & [x Hx]).
  exists l, l, x. repeat split; try done. rewrite Hsame; done.
Qed.

Section Fidelity.
Context `{OperandInterface}.

(** C8, as stated, fails when an operand sits in two slots.  After
    [setGuard] and [setA] were given the same operand, all slots of the
    [Bitcast] are populated; [toString] skips every read that is the
    pointer of slot 0, so the original prints no source operand, and the
    clone, whose slots hold two different copies, prints it. *)
Lemma shared_operand_renders_differently :
  perform (setA (Some 1%positive)) Examples.bitcast_2 Examples.operand_heap
  = Some (Examples.bitcast_shared, Examples.operand_heap) /\
  lifetime Examples.bitcast_shared /\
  populated Examples.operand_heap (base Examples.bitcast_shared) /\
  exists o' h',
    clone Examples.bitcast_shared Examples.operand_heap = Some (o', h') /\
    @Instruction.toString Examples.operands (base Examples.bitcast_shared)
      Examples.operand_heap
    = Some ("Bitcast r0, ", Examples.operand_heap) /\
    @Instruction.toString Examples.operands (base o') h'
    = Some ("Bitcast r0, @pt", h') /\
    ~ (forall o h c hc text text',
         lifetime o -> populated h (base o) ->
         clone o h = Some (c, hc) ->
         @Instruction.toString Examples.operands (base o) h
         = Some (text, h) ->
         @Instruction.toString Examples.operands (base c) hc
         = Some (text', hc) ->
         text' = text).
Proof.
  assert (Hp : perform (setA (Some 1%positive)) Examples.bitcast_2
                 Examples.operand_heap
               = Some (Examples.bitcast_shared, Examples.operand_heap))
    by reflexivity.
  assert (Hl : lifetime Examples.bitcast_shared).
  { eapply lifetime_perform; [| exact Hp].
    apply (lifetime_perform Examples.bitcast_1 (setD (Some 2%positive))
             Examples.operand_heap _ Examples.operand_heap); [| reflexivity].
    apply (lifetime_perform Examples.bitcast_0 (setGuard (Some 1%positive))
             Examples.operand_heap _ Examples.operand_heap); [| reflexivity].
    apply lifetime_constructed. constructor. }
  assert (Hpop : populated Examples.operand_heap
                   (base Examples.bitcast_shared)).
  { split; repeat constructor; eexists; (split; [reflexivity |]);
      vm_compute; eauto. }
  split; [exact Hp |]. split; [exact Hl |]. split; [exact Hpop |].
  eexists _, _.
  assert (Hc : clone Examples.bitcast_shared Examples.operand_heap = Some _)
    by (vm_compute; reflexivity).
  assert (Ht : @Instruction.toString Examples.operands
                 (base Examples.bitcast_shared) Examples.operand_heap
               = Some ("Bitcast r0, ", Examples.operand_heap))
    by (vm_compute; reflexivity).
  split; [exact Hc |]. split; [exact Ht |].
  split; [vm_compute; reflexivity |].
  intros Hall.
  specialize (Hall _ _ _ _ _ "Bitcast r0, @pt" Hl Hpop Hc Ht).
  discriminate Hall. vm_compute. reflexivity.
Qed.

(** C8 (amended). An instruction whose slots all hold live operands can
    be cloned.  The clone has the class of the original, the same opcode,
    block and id, and the other data members as the copy constructor of
    the class sets them; every read and write operand of the clone is a
    new object with the fields of the original operand in the same slot,
    no two slots of the clone share an object, and the named fields of
    the clone are the pointers in its own slots.  Overwriting a read or
    write operand of the clone changes no operand of the original; the
    predicate operands of a psi are not cloned but shared.  When no
    operand sits in two slots of the original, the clone renders to the
    text of the original, and overwriting an operand of the clone leaves
    that text as it was. *)
Theorem clone_renders_alike_and_shares_nothing (o : Object) (h : Heap) :
  lifetime o -> populated h (base o) ->
  exists o' h',
    clone o h = Some (o', h') /\
    clone_views o o' /\
    views_in_slots o' /\
    Instruction.opcode (base o') = Instruction.opcode (base o) /\
    Instruction.block (base o') = Instruction.block (base o) /\
    Instruction.id (base o') = Instruction.id (base o) /\
    Forall2 (clone_of h h')
      (Instruction.reads (base o)) (Instruction.reads (base o')) /\
    Forall2 (clone_of h h')
      (Instruction.writes (base o)) (Instruction.writes (base o')) /\
    exclusive (base o') /\
    (forall l' x,
        Some l' ∈ (Instruction.reads (base o')
                     ++ Instruction.writes (base o'))%list ->
        forall l,
          Some l ∈ (Instruction.reads (base o)
                      ++ Instruction.writes (base o))%list ->
          <[l' := x]> h' !! l = h !! l) /\
    (exclusive (base o) ->
     exists text,
       Instruction.toString (base o) h = Some (text, h) /\
       Instruction.toString (base o') h' = Some (text, h') /\
       forall l' x,
         Some l' ∈ (Instruction.reads (base o')
                      ++ Instruction.writes (base o'))%list ->
         Instruction.toString (base o) (<[l' := x]> h')
         = Some (text, <[l' := x]> h')).
Proof.
  intros Hl [Hpr Hpw].
  pose proof (lifetime_aliased o Hl) as Ha.
  pose proof (lifetime_shape o Hl) as Hs.
  destruct (Instruction_copy_spec (base o) h (conj Hpr Hpw) Ha)
    as (i' & h' & Hc & Hsub & Hrs & Hws & Hnd & Hop & Ha').
  destruct (copy_fields _ _ _ _ Hc) as (_ & Hblock & Hid).
  destruct (clone_defined o h i' h' Hs Hc)
    as (o' & Ho' & <- & Hviews & Hclass);
    [symmetry; eapply Forall2_length, Hrs
    | symmetry; eapply Forall2_length, Hws |].
  assert (Hkeep : forall l' x,
             Some l' ∈ (Instruction.reads (base o')
                          ++ Instruction.writes (base o'))%list ->
             forall l,
               Some l ∈ (Instruction.reads (base o)
                           ++ Instruction.writes (base o))%list ->
               <[l' := x]> h' !! l = h !! l).
  { intros l' x Hl' l Hin.
    assert (Hfresh : h !! l' = None).
    { apply elem_of_app in Hl' as [Hl' | Hl'].
      - eapply clone_of_fresh; [exact Hrs | exact Hl'].
      - eapply clone_of_fresh; [exact Hws | exact Hl']. }
    apply elem_of_app in Hin as [Hin | Hin].
    - eapply live_unchanged; [exact Hsub | exact Hpr | exact Hin | exact Hfresh].
    - eapply live_unchanged; [exact Hsub | exact Hpw | exact Hin | exact Hfresh]. }
  exists o', h'.
  split; [exact Ho' |]. split; [exact Hclass |]. split; [exact Hviews |].
  split; [exact Hop |]. split; [exact Hblock |]. split; [exact Hid |].
  split; [exact Hrs |]. split; [exact Hws |]. split; [exact Hnd |].
  split; [exact Hkeep |].
  intros Hex.
  apply NoDup_app in Hex as (Hndr & _ & Hndw).
  apply NoDup_app in Hnd as (Hndr' & _ & Hndw').
  destruct (toString_same h h' (base o) (base o') Hop Ha Ha'
              Hndr Hndw Hndr' Hndw')
    as (text & Ht & Ht').
  { eapply Forall2_impl; [exact Hrs |]. apply clone_of_same_content. }
  { eapply Forall2_impl; [exact Hws |]. apply clone_of_same_content. }
  exists text. split; [exact Ht |]. split; [exact Ht' |].
  intros l' x Hl'.
  destruct (toString_same h (<[l' := x]> h') (base o) (base o) eq_refl Ha Ha
              Hndr Hndw Hndr Hndw)
    as (text' & Ht0 & Ht1).
  { apply live_same_content; [done |]. intros l Hin. apply (Hkeep l' x Hl').
    apply elem_of_app. left. exact Hin. }
  { apply live_same_content; [done |]. intros l Hin. apply (Hkeep l' x Hl').
    apply elem_of_app. right. exact Hin. }
  rewrite Ht in Ht0. injection Ht0 as <-. exact Ht1.
Qed.

End Fidelity.

Lemma bitcast_lifetime : lifetime Examples.bitcast.
Proof.
  apply (lifetime_perform Examples.bitcast_2 (setA (Some 3%positive))
           Examples.operand_heap _ Examples.operand_heap); [| reflexivity].
  apply (lifetime_perform Examples.bitcast_1 (setD (Some 2%positive))
           Examples.operand_heap _ Examples.operand_heap); [| reflexivity].
  apply (lifetime_perform Examples.bitcast_0 (setGuard (Some 1%positive))
           Examples.operand_heap _ Examples.operand_heap); [| reflexivity].
  apply lifetime_constructed. constructor.
Defined.

Lemma clone_renders_alike_and_shares_nothing_witness :
  exists o' h' text,
    clone Examples.bitcast Examples.operand_heap = Some (o', h') /\
    clone_views Examples.bitcast o' /\
    @Instruction.toString Examples.operands (base Examples.bitcast)
      Examples.operand_heap = Some (text, Examples.operand_heap) /\
    @Instruction.toString Examples.operands (base o') h' = Some (text, h').
Proof.
  destruct (@clone_renders_alike_and_shares_nothing Examples.operands
              Examples.bitcast Examples.operand_heap)
    as (o' & h' & Hc & Hclass & _ & _ & _ & _ & _ & _ & _ & _ & Htext).
  - exact bitcast_lifetime.
  - split; repeat constructor; eexists; (split; [reflexivity |]);
      vm_compute; eauto.
  - destruct Htext as (text & Ht & Ht' & _).
    + unfold exclusive. compute_done.
    + exists o', h', text. auto.
Defined.

(** The texts in question: the guard [@pt] is always true and is not
    printed. *)
Example bitcast_and_its_clone_render :
  @Instruction.toString Examples.operands (base Examples.bitcast)
    Examples.operand_heap
  = Some ("Bitcast r0, r1", Examples.operand_heap) /\
  (o ← fst <$> clone Examples.bitcast Examples.operand_heap;
   Some (Instruction.reads (base o), Instruction.writes (base o)))
  = Some ([Some 4%positive; Some 5%positive], [Some 6%positive]).
Proof. split; vm_compute; reflexivity. Qed.

End Cloning.


(** * Further properties of the instruction model *)

(** ** Opcodes, the factory and the shape queries *)

Section Opcodes.

Import ir.

(** X1. [Instruction::toString(Opcode)] gives different opcodes different
    names, so the name printed by [toString] identifies the opcode. *)
Theorem opcode_names_are_distinct (o1 o2 : Instruction.Opcode) :
  o1 <> o2 ->
  Instruction.Opcode_toString o1 <> Instruction.Opcode_toString o2.
Proof.
  intros Hne Heq. apply Hne. clear Hne.
  destruct o1, o2; first [reflexivity | discriminate Heq].
Qed.

Lemma opcode_names_are_distinct_witness :
  Instruction.Opcode_toString Instruction.Sdiv
  <> Instruction.Opcode_toString Instruction.Udiv.
Proof. apply opcode_names_are_distinct. discriminate. Defined.

(** X4. The four opcode queries: a call is a branch, the atomic
    operation is the one instruction that both loads and stores, and no
    branch accesses memory. *)
Theorem memory_and_control_queries (i : Instruction.t) :
  (Instruction.isCall i = true -> Instruction.isBranch i = true) /\
  (Instruction.isLoad i && Instruction.isStore i
   = bool_decide (Instruction.opcode i = Instruction.Atom)) /\
  (Instruction.isBranch i && (Instruction.isLoad i || Instruction.isStore i)
   = false).
Proof.
  unfold Instruction.isCall, Instruction.isBranch, Instruction.isLoad,
    Instruction.isStore.
  destruct (Instruction.opcode i); repeat split; done.
Qed.

End Opcodes.

Section Factory.

Import ir.
Context `{ConstructorDefaults}.

(** X2. [Instruction::create] returns, for every opcode but
    [InvalidOpcode], a newly constructed object of that opcode that
    belongs to the block [b], with a null guard and only null operand
    slots; for [InvalidOpcode] no object is built and the assignment of
    the block dereferences the null pointer. *)
Theorem create_builds_an_empty_instruction
    (o : Instruction.Opcode) (b : BasicBlockPtr) :
  match create o b with
  | Some i =>
      o <> Instruction.InvalidOpcode /\
      constructed i /\
      Instruction.opcode (base i) = o /\
      Instruction.block (base i) = b /\
      Instruction.guard (base i) = None /\
      Forall (eq None)
        (Instruction.reads (base i) ++ Instruction.writes (base i))
  | None => o = Instruction.InvalidOpcode
  end.
Proof.
  destruct o; cbn; try reflexivity;
    (split; [discriminate |]);
    (split;
     [first [exact (new_Plain _ b) | exact (new_Unary _ b)
            | exact (new_Binary _ b) | exact (new_Setp _ b)
            | exact (new_Atom _ b) | exact (new_Bra _ b)
            | exact (new_Call b) | exact (new_Membar _ b)
            | exact (new_St b) | exact (new_Phi b) | exact (new_Psi b)] |]);
    repeat split; repeat constructor.
Qed.

(** X3. The classes that [Instruction::create] picks, as
    [isUnary] and [isBinary] see them: the conversions, the bitcast and the
    load are unary; the arithmetic and bitwise opcodes, the comparison
    and the atomic operation are binary; the store, the branch, the call,
    the barriers, the return, the launch and the join forms are
    neither. *)
Theorem created_classes (o : Instruction.Opcode) (b : BasicBlockPtr)
    (i : Object) :
  create o b = Some i ->
  (isUnary i = true <->
   o ∈ [Instruction.Bitcast; Instruction.Fpext; Instruction.Fptosi;
        Instruction.Fptoui; Instruction.Fptrunc; Instruction.Ld;
        Instruction.Sext; Instruction.Sitofp; Instruction.Trunc;
        Instruction.Uitofp; Instruction.Zext]) /\
  (isBinary i = true <->
   o ∈ [Instruction.Add; Instruction.And; Instruction.Ashr;
        Instruction.Atom; Instruction.Fdiv; Instruction.Fmul;
        Instruction.Frem; Instruction.Lshr; Instruction.Mul;
        Instruction.Or; Instruction.Sdiv; Instruction.Setp;
        Instruction.Shl; Instruction.Srem; Instruction.Sub;
        Instruction.Udiv; Instruction.Urem; Instruction.Xor]) /\
  (isUnary i = false \/ isBinary i = false).
Proof.
  destruct o; cbn; intros [= <-]; cbn;
    (split; [| split; [| auto]]);
    (split; [intros; first [discriminate | compute_done]
            | first [reflexivity | compute_done]]).
Qed.

End Factory.

Section FactoryExamples.

Import ir.
#[local] Existing Instance Examples.constructor_defaults.

Lemma created_classes_witness :
  (isUnary (StObject (St.new (Some 7))) = true <->
   Instruction.St ∈
     [Instruction.Bitcast; Instruction.Fpext; Instruction.Fptosi;
      Instruction.Fptoui; Instruction.Fptrunc; Instruction.Ld;
      Instruction.Sext; Instruction.Sitofp; Instruction.Trunc;
      Instruction.Uitofp; Instruction.Zext]) /\
  (isBinary (StObject (St.new (Some 7))) = true <->
   Instruction.St ∈
     [Instruction.Add; Instruction.And; Instruction.Ashr;
      Instruction.Atom; Instruction.Fdiv; Instruction.Fmul;
      Instruction.Frem; Instruction.Lshr; Instruction.Mul;
      Instruction.Or; Instruction.Sdiv; Instruction.Setp;
      Instruction.Shl; Instruction.Srem; Instruction.Sub;
      Instruction.Udiv; Instruction.Urem; Instruction.Xor]) /\
  (isUnary (StObject (St.new (Some 7))) = false \/
   isBinary (StObject (St.new (Some 7))) = false).
Proof. apply (created_classes Instruction.St (Some 7)). reflexivity. Defined.

End FactoryExamples.

(** ** Releasing the operands *)

Section Release.

Import ir Views.

Lemma delete_all_app ps qs h :
  Instruction.delete_all (ps ++ qs) h
  = (Instruction.delete_all ps;; Instruction.delete_all qs) h.
Proof.
  revert h. induction ps as [| p ps IH]; intros h; [reflexivity |].
  cbn [app Instruction.delete_all].
  unfold mbind, M_bind, bind in *.
  destruct (operator_delete p h) as [[[] h1] |]; [| reflexivity].
  apply IH.
Qed.

Lemma delete_all_inv ps : forall h u h',
  Instruction.delete_all ps h = Some (u, h') ->
  NoDup (held ps) /\
  (forall l, l ∈ held ps -> is_Some (h !! l)) /\
  (forall l, h' !! l = if decide (l ∈ held ps) then None else h !! l).
Proof.
  induction ps as [| p ps IH]; intros h u h' Hd.
  - injection Hd as _ <-. split; [constructor |].
    split; [intros l Hl; inversion Hl |]. intros l. reflexivity.
  - cbn [Instruction.delete_all] in Hd.
    apply M_bind_inv in Hd as ([] & h1 & Hp & Hd).
    apply IH in Hd as (Hnd & Hlive & Hpt).
    destruct p as [l0 |]; cbn in Hp.
    + destruct (h !! l0) as [x |] eqn:Hx; [| discriminate].
      injection Hp as <-.
      assert (Hnot : l0 ∉ held ps).
      { intros Hin. destruct (Hlive l0 Hin) as [y Hy].
        by rewrite lookup_delete_eq in Hy. }
      unfold held in *. cbn. split; [by apply NoDup_cons |]. split.
      * intros l [-> | Hin]%elem_of_cons; [by eexists |].
        destruct (Hlive l Hin) as [y Hy].
        apply lookup_delete_Some in Hy as [_ Hy]. by eexists.
      * intros l. rewrite Hpt.
        destruct (decide (l = l0)) as [-> | Hne].
        -- rewrite decide_False by done.
           rewrite decide_True by apply list_elem_of_here.
           apply lookup_delete_eq.
        -- rewrite lookup_delete_ne by done.
           destruct (decide (l ∈ omap id ps)) as [Hin | Hin].
           ++ rewrite decide_True by (by apply list_elem_of_further).
              reflexivity.
           ++ rewrite decide_False; [reflexivity |].
              intros [-> | Hin']%elem_of_cons; done.
    + injection Hp as <-. unfold held in *. cbn. done.
Qed.

Lemma delete_all_defined ps : forall h,
  NoDup (held ps) -> (forall l, l ∈ held ps -> is_Some (h !! l)) ->
  is_Some (Instruction.delete_all ps h).
Proof.
  induction ps as [| p ps IH]; intros h Hnd Hlive; [by eexists |].
  cbn [Instruction.delete_all]. destruct p as [l0 |].
  - unfold held in *. cbn in Hnd, Hlive.
    apply NoDup_cons in Hnd as [Hnot Hnd].
    destruct (Hlive l0) as [x Hx]; [apply list_elem_of_here |].
    erewrite M_bind_Some; [| cbn; rewrite Hx; reflexivity].
    apply IH; [done |]. intros l Hin.
    rewrite lookup_delete_ne by (intros ->; done).
    apply Hlive. by apply list_elem_of_further.
  - erewrite M_bind_Some; [| reflexivity]. apply IH; done.
Qed.

Lemma delete_all_None ps h :
  Instruction.delete_all ps h = None ->
  ~ NoDup (held ps) \/ exists l, l ∈ held ps /\ h !! l = None.
Proof.
  intros Hd.
  destruct (decide (NoDup (held ps))) as [Hnd | Hnd]; [| by left].
  destruct (decide (Exists (fun l => h !! l = None) (held ps)))
    as [Hex | Hex].
  - right. apply Exists_exists in Hex. exact Hex.
  - exfalso. apply not_Exists_Forall in Hex; [| intros l; apply _].
    destruct (delete_all_defined ps h Hnd) as [r Hr].
    + intros l Hl. rewrite Forall_forall in Hex.
      specialize (Hex l Hl). cbn in Hex.
      destruct (h !! l); [by eexists | done].
    + by rewrite Hd in Hr.
Qed.

Lemma clear_spec (i : Instruction.t) (h : Heap) :
  match Instruction.clear i h with
  | Some (i', h') =>
      NoDup (operands i) /\
      (forall l, l ∈ operands i -> is_Some (h !! l)) /\
      (forall l, h' !! l = if decide (l ∈ operands i) then None else h !! l) /\
      Instruction.reads i' = [] /\ Instruction.writes i' = [] /\
      Instruction.guard i' = Instruction.guard i
  | None =>
      ~ NoDup (operands i) \/ exists l, l ∈ operands i /\ h !! l = None
  end.
Proof.
  unfold Instruction.clear, operands.
  pose proof (delete_all_app (Instruction.reads i) (Instruction.writes i) h)
    as Happ.
  pose proof (delete_all_inv
                (Instruction.reads i ++ Instruction.writes i) h) as Hinv.
  pose proof (delete_all_None
                (Instruction.reads i ++ Instruction.writes i) h) as Hnone.
  rewrite Happ in Hinv, Hnone. clear Happ.
  unfold mbind, M_bind, bind, mret, M_ret, ret in *.
  destruct (Instruction.delete_all (Instruction.reads i) h)
    as [[[] h1] |] eqn:Hr; [| by apply Hnone].
  destruct (Instruction.delete_all (Instruction.writes i) h1)
    as [[[] h2] |] eqn:Hw; [| by apply Hnone].
  destruct (Hinv tt h2 eq_refl) as (Hnd & Hlive & Hpt). cbn. done.
Qed.

(** X5. [Instruction::clear], the body of the destructor, returns
    exactly when the non-null operands of the two lists are live and
    pairwise different objects: it then releases each of them, leaves every
    other object alone, empties both lists and keeps the guard field, which
    now dangles.  An operand that sits in two slots, or that was released
    before, makes the call undefined (a double delete). *)
Theorem clear_releases_each_operand_once (i : Instruction.t) (h : Heap) :
  match Instruction.clear i h with
  | Some (i', h') =>
      NoDup (operands i) /\
      (forall l, l ∈ operands i -> is_Some (h !! l)) /\
      (forall l, h' !! l = if decide (l ∈ operands i) then None else h !! l) /\
      Instruction.reads i' = [] /\ Instruction.writes i' = [] /\
      Instruction.guard i' = Instruction.guard i
  | None =>
      ~ NoDup (operands i) \/ exists l, l ∈ operands i /\ h !! l = None
  end.
Proof. exact (clear_spec i h). Qed.

Lemma held_app ps qs : held (ps ++ qs) = (held ps ++ held qs)%list.
Proof. unfold held. apply omap_app. Qed.

Lemma clone_operands_alloc ps : forall h ps' h',
  Instruction.clone_operands ps h = Some (ps', h') ->
  NoDup (held ps') /\
  (forall l, l ∈ held ps' -> h !! l = None /\ is_Some (h' !! l)) /\
  (forall l, l ∉ held ps' -> h' !! l = h !! l).
Proof.
  induction ps as [| p ps IH]; intros h ps' h' Hc.
  - injection Hc as <- <-. split; [constructor |].
    split; [intros l Hl; inversion Hl | done].
  - cbn [Instruction.clone_operands] in Hc.
    apply M_bind_inv in Hc as (c & h1 & Hp & Hc).
    apply M_bind_inv in Hc as (cs & h2 & Hcs & Hc).
    injection Hc as <- <-.
    apply IH in Hcs as (Hnd & Hfresh & Hrest).
    case_decide as Hnull.
    + unfold Operand_clone in Hp.
      apply M_bind_inv in Hp as (x & h0 & Hx & Hp).
      apply new_fresh in Hp as (l0 & -> & Hl0 & ->).
      assert (h0 = h) as ->.
      { unfold deref in Hx. destruct p as [l |]; [| discriminate].
        destruct (h !! l); [| discriminate]. by injection Hx. }
      assert (Hnot : l0 ∉ held cs).
      { intros Hin. destruct (Hfresh l0 Hin) as [Hn _].
        by rewrite lookup_insert_eq in Hn. }
      unfold held in *. cbn. split; [by apply NoDup_cons |]. split.
      * intros l [-> | Hin]%elem_of_cons.
        -- split; [done |]. rewrite Hrest by done.
           rewrite lookup_insert_eq. by eexists.
        -- destruct (Hfresh l Hin) as [Hn Hs]. split; [| done].
           destruct (decide (l = l0)) as [-> | Hne]; [done |].
           by rewrite lookup_insert_ne in Hn.
      * intros l Hl. apply not_elem_of_cons in Hl as [Hne Hl].
        rewrite Hrest by done. by rewrite lookup_insert_ne.
    + injection Hp as <- <-. unfold held in *. cbn. done.
Qed.

Lemma clone_base o h o' h' :
  clone o h = Some (o', h') ->
  Instruction.copy (base o) h = Some (base o', h').
Proof.
  intros Hc. destruct o; cbn in Hc; unfold_members; M_inv Hc; cbn;
    congruence.
Qed.

Lemma copy_alloc i h i' h' :
  Instruction.copy i h = Some (i', h') ->
  NoDup (operands i') /\
  (forall l, l ∈ operands i' -> h !! l = None /\ is_Some (h' !! l)) /\
  (forall l, l ∉ operands i' -> h' !! l = h !! l).
Proof.
  intros Hc. unfold Instruction.copy in Hc. M_inv Hc.
  match goal with
  | Hr : Instruction.clone_operands (Instruction.reads i) h = Some (?rs, ?h1),
    Hw : Instruction.clone_operands (Instruction.writes i) _ = Some (?ws, _)
    |- _ =>
      apply clone_operands_alloc in Hr as (Hndr & Hfr & Hor);
      apply clone_operands_alloc in Hw as (Hndw & Hfw & How)
  end.
  unfold operands. cbn. rewrite held_app. split; [| split].
  - apply NoDup_app. split; [done |]. split; [| done].
    intros l Hr Hw. destruct (Hfr l Hr) as [_ [x Hx]].
    destruct (Hfw l Hw) as [Hn _]. by rewrite Hx in Hn.
  - intros l [Hr | Hw]%elem_of_app.
    + destruct (Hfr l Hr) as [Hn [x Hx]]. split; [done |].
      destruct (decide (l ∈ held a1)) as [Hin | Hin].
      * by apply Hfw.
      * rewrite How by done. by eexists.
    + destruct (Hfw l Hw) as [Hn Hs]. split; [| done].
      destruct (decide (l ∈ held a)) as [Hin | Hin].
      * destruct (Hfr l Hin) as [_ [x Hx]]. by rewrite Hx in Hn.
      * by rewrite Hor in Hn.
  - intros l Hl. apply not_elem_of_app in Hl as [Hr Hw].
    rewrite How by done. by apply Hor.
Qed.

(** X6. Destroying a clone gives back the free store as it was before
    [clone()]: the copy constructor allocates the clones of the operands
    and nothing else, each in a new object, and the destructor of the clone
    releases each of them once. *)
Theorem destroying_a_clone_restores_the_free_store
    (o o' : Object) (h h' : Heap) :
  clone o h = Some (o', h') ->
  exists cleared, Instruction.clear (base o') h' = Some (cleared, h).
Proof.
  intros Hc. apply clone_base, copy_alloc in Hc as (Hnd & Hfresh & Hother).
  pose proof (clear_spec (base o') h') as Hclear.
  destruct (Instruction.clear (base o') h') as [[i' h''] |].
  - destruct Hclear as (_ & _ & Hpt & _). exists i'. do 2 f_equal.
    apply map_eq. intros l. rewrite Hpt. case_decide as Hin.
    + symmetry. by apply Hfresh.
    + by apply Hother.
  - exfalso. destruct Hclear as [Hno | (l & Hl & Hn)]; [done |].
    destruct (Hfresh l Hl) as [_ [x Hx]]. by rewrite Hx in Hn.
Qed.

Lemma destroying_a_clone_restores_the_free_store_witness :
  exists o' h' cleared,
    clone Examples.bitcast Examples.operand_heap = Some (o', h') /\
    Instruction.clear (base o') h' = Some (cleared, Examples.operand_heap).
Proof.
  eexists _, _.
  assert (Hc : clone Examples.bitcast Examples.operand_heap = Some _)
    by (vm_compute; reflexivity).
  destruct (destroying_a_clone_restores_the_free_store _ _ _ _ Hc)
    as [cleared Hd].
  exists cleared. split; [exact Hc | exact Hd].
Defined.

End Release.

(** ** The operand lists and the named fields *)

Section OperandLists.

Import ir.

Lemma clone_operands_length ps : forall h ps' h',
  Instruction.clone_operands ps h = Some (ps', h') -> length ps' = length ps.
Proof.
  induction ps as [| p ps IH]; intros h ps' h' Hc.
  - by injection Hc as <- <-.
  - cbn [Instruction.clone_operands] in Hc.
    apply M_bind_inv in Hc as (c & h1 & Hp & Hc).
    apply M_bind_inv in Hc as (cs & h2 & Hcs & Hc).
    injection Hc as <- <-. cbn. f_equal. eapply IH, Hcs.
Qed.

End OperandLists.

(** Lists of a known length, element by element; the lengths of cloned
    lists; replays of whole lists; and the slots that a copy reads. *)
Ltac list_cases :=
  repeat match goal with
    | H : length ?l = 0 |- _ => apply nil_length_inv in H; subst l
    | H : length ?l = S _ |- _ =>
        is_var l; destruct l; [discriminate H | cbn in H; injection H as H]
    | H : 0 = length ?l |- _ => symmetry in H
    | H : S _ = length ?l |- _ => symmetry in H
    end.

Ltac cloned_lengths :=
  repeat match goal with
    | H : ir.Instruction.clone_operands _ _ = Some _ |- _ =>
        apply clone_operands_length in H
    end.

Ltac keep_lengths :=
  repeat match goal with
    | H : ir.Instruction.clone_operands ?l ?h = Some (?l', _) |- _ =>
        lazymatch goal with
        | _ : length l' = length l |- _ => fail
        | _ => pose proof (clone_operands_length _ _ _ _ H)
        end
    end.

Ltac replayed :=
  repeat match goal with
    | H : ir.replay _ _ _ = Some _ |- _ =>
        rewrite replay_defined in H by (cbn; lia); cbn in H
    end;
  repeat match goal with
    | H : length _ = length _ |- _ => rewrite <- H in *; clear H
    end;
  rewrite !firstn_all in *; simplify_eq.

Ltac slots :=
  cloned_lengths; cbn in *; list_cases;
  unfold ir.at_, ir.back in *; cbn in *; rewrite ?head_lookup; simplify_eq.

Section Layout.

Import ir Views.

Lemma clone_layout o h o' h' :
  layout o -> clone o h = Some (o', h') -> layout o'.
Proof.
  intros Hl Hc.
  destruct o; cbn in Hc; unfold_members; unfold Instruction.copy in *;
    M_inv_all; cbn in *; destruct Hl as [Hr Hw]; cloned_lengths;
    rewrite ?Hr, ?Hw in *; slots; try done.
  replayed. done.
Qed.

Lemma Phi_removeSource_layout b u u' :
  layout (PhiObject u) -> Phi.removeSource b u = Some u' ->
  layout (PhiObject u').
Proof.
  intros [Hr Hw]. unfold Phi.removeSource.
  destruct (list_find _ _) as [[k blk] |]; [| intros [= <-]; done].
  intros Hu. simplify_option_eq.
  repeat match goal with H : erase _ _ = Some _ |- _ =>
    apply erase_inv in H as [_ ->] end.
  cbn in *. split; [| done].
  destruct (Instruction.reads (Phi.base u)); [discriminate Hr | exact Hr].
Qed.

Lemma Psi_removeSource_layout p u u' :
  layout (PsiObject u) -> Psi.removeSource p u = Some u' ->
  layout (PsiObject u').
Proof.
  intros [Hr Hw]. unfold Psi.removeSource.
  destruct (list_find _ _) as [[k blk] |]; [| intros [= <-]; done].
  intros Hu. simplify_option_eq.
  repeat match goal with H : erase _ _ = Some _ |- _ =>
    apply erase_inv in H as [_ ->] end.
  cbn in *. split; [| done].
  destruct (Instruction.reads (Psi.base u)); [discriminate Hr | exact Hr].
Qed.

Lemma perform_layout op o h o' h' :
  layout o -> (forall i, op = assign i -> layout i) ->
  perform op o h = Some (o', h') -> layout o'.
Proof.
  intros Hl Hi Hp.
  destruct op as [p | x | x | x | x | x | x | x b | b | p x | p | i].
  12: { specialize (Hi i eq_refl).
    destruct i, o; cbn in Hp; try discriminate Hp;
      unfold_members; unfold Instruction.assign, Instruction.clear in *;
      M_inv_all; cbn in *; destruct Hi as [Hr Hw]; cloned_lengths;
      rewrite ?Hr, ?Hw in *; slots; try done.
    replayed. done. }
  all: clear Hi; destruct o; cbn in Hp; try discriminate Hp;
    unfold_members; unfold Instruction.setGuard in *; M_inv_all; cbn in *.
  all: try (eapply Phi_removeSource_layout; eassumption).
  all: try (eapply Psi_removeSource_layout; eassumption).
  all: destruct Hl as [Hr Hw].
  all: repeat match goal with
         | H : store _ _ _ = Some _ |- _ => apply store_inv in H as [? ->]
         end.
  all: rewrite ?Hr, ?Hw in *; cbn in *; try done.
  all: match goal with
       | |- context [ head (_ (Instruction.reads ?i)) ] =>
           destruct (Instruction.reads i); cbn in *; simplify_eq; done
       | |- context [ head (Instruction.reads ?i ++ _) ] =>
           destruct (Instruction.reads i); cbn in *; simplify_eq; done
       end.
Qed.

Lemma living_layout o : living o -> layout o.
Proof.
  induction 1 as [o Hc | o h o' h' _ IH Hc | o op h o' h' _ IH _ IHi Hp].
  - destruct Hc; cbn; done.
  - eapply clone_layout; eassumption.
  - eapply perform_layout; eassumption.
Qed.

(** X9. Throughout the life of an instruction object (construction,
    [clone()], the setters, the source and argument operations, and
    assignment from another living object) the two operand lists hold
    exactly the named fields of its class, in constructor order: the guard
    first, then [a], [b], [c] or the target and the arguments among the
    reads, and [d] or the returned values as the writes; a store keeps
    [d] and [a] among its reads and writes nothing. *)
Theorem fields_are_the_operand_slots (o : Object) : living o -> layout o.
Proof. apply living_layout. Qed.

Lemma bitcast_living : living Examples.bitcast.
Proof.
  apply (living_perform Examples.bitcast_2 (setA (Some 3%positive))
           Examples.operand_heap _ Examples.operand_heap);
    [| discriminate | reflexivity].
  apply (living_perform Examples.bitcast_1 (setD (Some 2%positive))
           Examples.operand_heap _ Examples.operand_heap);
    [| discriminate | reflexivity].
  apply (living_perform Examples.bitcast_0 (setGuard (Some 1%positive))
           Examples.operand_heap _ Examples.operand_heap);
    [| discriminate | reflexivity].
  apply living_constructed. constructor.
Defined.

Lemma fields_are_the_operand_slots_witness : layout Examples.bitcast.
Proof. apply fields_are_the_operand_slots. exact bitcast_living. Defined.


Lemma setter_spec (o o' : Object) (op : Operation) (h h' : Heap)
    (is_read : bool) (n : nat) (x : ptr) :
  layout o -> slot op o = Some (is_read, n, x) ->
  perform op o h = Some (o', h') ->
  exists old,
    slots is_read (base o) !! n = Some old /\
    operator_delete old h = Some (tt, h') /\
    slots is_read (base o') = <[n := x]> (slots is_read (base o)) /\
    slots (negb is_read) (base o') = slots (negb is_read) (base o).
Proof.
  intros Hl Hs Hp.
  destruct op as [p | y | y | y | y | y | y | y b | b | p y | p | i];
    destruct o; cbn in Hs; try discriminate Hs; simplify_eq;
    cbn in Hp; try discriminate Hp;
    unfold_members; unfold Instruction.setGuard in *; M_inv_all; cbn in *;
    destruct Hl as [Hr Hw];
    repeat match goal with
      | H : store _ _ _ = Some _ |- _ => apply store_inv in H as [? ->]
      | u : unit |- _ => destruct u
      end;
    rewrite ?Hr, ?Hw in *; cbn in *; try (eexists; done).
  all: rewrite <- head_lookup, Hr; eexists; done.
Qed.

Lemma perform_slot op o h o' h' :
  perform op o h = Some (o', h') -> slot op o' = slot op o.
Proof.
  intros Hp.
  destruct op as [p | y | y | y | y | y | y | y b | b | p y | p | i];
    try reflexivity;
    destruct o; cbn in Hp; try discriminate Hp;
    unfold_members; M_inv_all; reflexivity.
Qed.

Lemma living_edit o op h o' h' :
  living o -> (forall i, op <> assign i) ->
  perform op o h = Some (o', h') -> living o'.
Proof.
  intros Hl Hop Hp. eapply living_perform; [exact Hl | | exact Hp].
  intros i ->. by destruct (Hop i).
Qed.

Lemma slot_not_assign op o r n x :
  slot op o = Some (r, n, x) -> forall i, op <> assign i.
Proof. intros Hs i ->. destruct o; discriminate Hs. Qed.

Lemma held_elem_of ps l : l ∈ held ps <-> Some l ∈ ps.
Proof.
  unfold held. rewrite list_elem_of_omap. split.
  - intros (x & Hx & <-). exact Hx.
  - intros Hin. exists (Some l). done.
Qed.

Lemma slots_operands r i n l :
  slots r i !! n = Some (Some l) -> l ∈ operands i.
Proof.
  intros Hn. apply list_elem_of_lookup_2 in Hn.
  unfold operands. apply held_elem_of, elem_of_app.
  destruct r; [left | right]; exact Hn.
Qed.


(** X7. A setter ([setGuard], [setD], [setA], [setB], [setTarget]) of a
    living object releases exactly the operand that was in the slot it
    writes (nothing when the slot was null), installs the new pointer in
    that slot, and leaves every other slot as it was. *)
Theorem setter_replaces_the_operand_of_its_slot
    (o o' : Object) (op : Operation) (h h' : Heap)
    (is_read : bool) (n : nat) (x : ptr) :
  living o -> slot op o = Some (is_read, n, x) ->
  perform op o h = Some (o', h') ->
  exists old,
    slots is_read (base o) !! n = Some old /\
    operator_delete old h = Some (tt, h') /\
    slots is_read (base o') = <[n := x]> (slots is_read (base o)) /\
    slots (negb is_read) (base o') = slots (negb is_read) (base o).
Proof. intros Hl. apply setter_spec, living_layout, Hl. Qed.

Lemma bitcast_2_living : living Examples.bitcast_2.
Proof.
  apply (living_perform Examples.bitcast_1 (setD (Some 2%positive))
           Examples.operand_heap _ Examples.operand_heap);
    [| discriminate | reflexivity].
  apply (living_perform Examples.bitcast_0 (setGuard (Some 1%positive))
           Examples.operand_heap _ Examples.operand_heap);
    [| discriminate | reflexivity].
  apply living_constructed. constructor.
Defined.

Lemma setter_replaces_the_operand_of_its_slot_witness :
  exists old,
    Instruction.reads (base Examples.bitcast) !! 1 = Some old /\
    operator_delete old Examples.operand_heap
    = Some (tt, delete 3%positive Examples.operand_heap).
Proof.
  destruct (setter_replaces_the_operand_of_its_slot
              Examples.bitcast
              (Unary
                 {| UnaryInstruction.base :=
                      Instruction.mk Instruction.Bitcast (Some 1%positive)
                        None 0 [Some 1%positive; None] [Some 2%positive];
                    UnaryInstruction.d := Some 2%positive;
                    UnaryInstruction.a := None |})
              (setA None) Examples.operand_heap
              (delete 3%positive Examples.operand_heap) true 1 None)
    as (old & Hold & Hdel & _).
  - exact bitcast_living.
  - reflexivity.
  - reflexivity.
  - exists old. split; [exact Hold | exact Hdel].
Defined.

(** X8. A setter does not compare the new pointer with the one in the
    slot: installing the operand that the slot already holds releases it
    and then stores the dangling pointer, after which the destructor of
    the instruction is undefined. *)
Theorem reinstalling_an_operand_leaves_it_dangling
    (o o1 o2 : Object) (op : Operation) (h h1 h2 : Heap)
    (is_read : bool) (n : nat) (l : positive) :
  living o -> slot op o = Some (is_read, n, Some l) ->
  perform op o h = Some (o1, h1) ->
  perform op o1 h1 = Some (o2, h2) ->
  slots is_read (base o2) !! n = Some (Some l) /\
  h2 !! l = None /\
  Instruction.clear (base o2) h2 = None.
Proof.
  intros Hl Hs Hp1 Hp2.
  pose proof (slot_not_assign _ _ _ _ _ Hs) as Hop.
  pose proof (living_edit _ _ _ _ _ Hl Hop Hp1) as Hl1.
  destruct (setter_spec _ _ _ _ _ _ _ _ (living_layout _ Hl) Hs Hp1)
    as (old & Hold & _ & Hs1 & _).
  rewrite <- (perform_slot _ _ _ _ _ Hp1) in Hs.
  destruct (setter_spec _ _ _ _ _ _ _ _ (living_layout _ Hl1) Hs Hp2)
    as (old1 & Hold1 & Hdel & Hs2 & _).
  apply lookup_lt_Some in Hold.
  rewrite Hs1, list_lookup_insert_eq in Hold1 by done.
  injection Hold1 as <-.
  assert (Hslot : slots is_read (base o2) !! n = Some (Some l)).
  { rewrite Hs2, Hs1, list_lookup_insert_eq; [done |].
    by rewrite length_insert. }
  assert (Hgone : h2 !! l = None).
  { cbn in Hdel. destruct (h1 !! l); [| discriminate].
    injection Hdel as <-. apply lookup_delete_eq. }
  split; [exact Hslot |]. split; [exact Hgone |].
  pose proof (clear_spec (base o2) h2) as Hc.
  destruct (Instruction.clear (base o2) h2) as [[i' h'] |]; [| reflexivity].
  destruct Hc as (_ & Hlive & _).
  destruct (Hlive l (slots_operands _ _ _ _ Hslot)) as [x Hx].
  by rewrite Hgone in Hx.
Qed.


Lemma reinstalling_an_operand_leaves_it_dangling_witness :
  exists o2 h2,
    perform (setA (Some 3%positive)) Examples.bitcast Examples.operand_heap
    = Some (o2, h2) /\
    Instruction.reads (base o2) !! 1 = Some (Some 3%positive) /\
    h2 !! 3%positive = None /\
    Instruction.clear (base o2) h2 = None.
Proof.
  eexists _, _.
  assert (Hp : perform (setA (Some 3%positive)) Examples.bitcast
                 Examples.operand_heap = Some _)
    by (vm_compute; reflexivity).
  split; [exact Hp |].
  apply (reinstalling_an_operand_leaves_it_dangling
           Examples.bitcast_2 Examples.bitcast _ (setA (Some 3%positive))
           Examples.operand_heap Examples.operand_heap _ true 1 3%positive).
  - exact bitcast_2_living.
  - reflexivity.
  - reflexivity.
  - exact Hp.
Defined.

End Layout.

(** ** The join forms that were never copied *)

Section Joins.

Import ir Views.

Lemma Phi_removeSource_spec b u :
  mirrored (PhiObject u) ->
  match list_find (fun blk => blk = b) (Phi.blocks u) with
  | None => Phi.removeSource b u = Some u
  | Some (k, _) =>
      Phi.removeSource b u
      = Some {| Phi.base :=
                  Instruction.with_reads
                    (Instruction.guard (Phi.base u)
                       :: delete k (Phi.sources u)) (Phi.base u);
                Phi.d := Phi.d u;
                Phi.sources := delete k (Phi.sources u);
                Phi.blocks := delete k (Phi.blocks u) |}
  end.
Proof.
  intros [Hr Hlen]. unfold Phi.removeSource.
  destruct (list_find _ _) as [[k blk] |] eqn:Hf; [| reflexivity].
  apply list_find_Some in Hf as (Hk & _).
  apply lookup_lt_Some in Hk.
  unfold erase. rewrite Hr. cbn.
  rewrite !decide_True by lia. reflexivity.
Qed.

Lemma Psi_removeSource_spec p u :
  mirrored (PsiObject u) ->
  match list_find (fun q => q = p) (Psi.predicates u) with
  | None => Psi.removeSource p u = Some u
  | Some (k, _) =>
      Psi.removeSource p u
      = Some {| Psi.base :=
                  Instruction.with_reads
                    (Instruction.guard (Psi.base u)
                       :: delete k (Psi.sources u)) (Psi.base u);
                Psi.d := Psi.d u;
                Psi.sources := delete k (Psi.sources u);
                Psi.predicates := delete k (Psi.predicates u) |}
  end.
Proof.
  intros [Hr Hlen]. unfold Psi.removeSource.
  destruct (list_find _ _) as [[k blk] |] eqn:Hf; [| reflexivity].
  apply list_find_Some in Hf as (Hk & _).
  apply lookup_lt_Some in Hk.
  unfold erase. rewrite Hr. cbn.
  rewrite !decide_True by lia. reflexivity.
Qed.

Lemma delete_same_length {A B} (l : list A) (l' : list B) k :
  length l = length l' -> length (delete k l) = length (delete k l').
Proof.
  revert k l'. induction l as [| x l IH]; intros [| k] [| y l'] Hlen;
    cbn in *; try done; try lia.
  f_equal. apply IH. lia.
Qed.

Lemma edited_mirrored o : edited o -> mirrored o.
Proof.
  induction 1 as [o Hc | o op h o' h' _ IH Hop Hp].
  - destruct Hc; cbn; done.
  - destruct op as [p | y | y | y | y | y | y | y b | b | p y | p | i];
      [| | | | | | | | | | | by destruct (Hop i)];
      destruct o; cbn in Hp; try discriminate Hp;
      unfold_members; unfold Instruction.setGuard in *; M_inv_all;
      cbn in *; try done.
    all: repeat match goal with
      | H : store _ _ _ = Some _ |- _ => apply store_inv in H as [? ->]
      end.
    all: try (destruct IH as [Hr Hlen]; rewrite ?Hr in *; cbn in *;
              rewrite ?length_app; cbn; split; [done | lia]).
    + pose proof (Phi_removeSource_spec b u IH) as Hs.
      destruct (list_find _ _) as [[k blk] |]; simplify_eq; [| exact IH].
      cbn. split; [done |]. destruct IH as [_ Hlen].
      by apply delete_same_length.
    + pose proof (Psi_removeSource_spec p u IH) as Hs.
      destruct (list_find _ _) as [[k blk] |]; simplify_eq; [| exact IH].
      cbn. split; [done |]. destruct IH as [_ Hlen].
      by apply delete_same_length.
Qed.

Lemma edited_living o : edited o -> living o.
Proof.
  induction 1 as [o Hc | o op h o' h' _ IH Hop Hp].
  - by apply living_constructed.
  - eapply living_edit; eassumption.
Qed.


(** X10. A phi or psi that was built by its constructor and changed only
    by its own member functions (never copied or assigned) keeps its views
    in step with its reads: [reads] is the guard followed by [sources], and
    there is one block, or one predicate, per source. *)
Theorem join_views_mirror_the_reads (o : Object) : edited o -> mirrored o.
Proof. apply edited_mirrored. Qed.

Lemma phi_of_block_0_edited : edited (PhiObject Examples.phi_of_block_0).
Proof.
  apply (edited_perform (PhiObject (Phi.new None))
           (Phi_addSource (Some 1%positive) (Some 0)) ∅ _ ∅);
    [| discriminate | reflexivity].
  apply edited_constructed. constructor.
Defined.

Lemma join_views_mirror_the_reads_witness :
  mirrored (PhiObject Examples.phi_of_block_0).
Proof. apply join_views_mirror_the_reads. exact phi_of_block_0_edited. Defined.

(** X11. [Phi::removeSource] on a phi that was never copied always
    returns and touches no operand object: without a source from that
    block the phi is unchanged; otherwise the first entry with that block
    leaves [blocks], [sources] and [reads], the entries behind it move up,
    and later entries with the same block stay.  The removed operand is
    not released. *)
Theorem Phi_removeSource_removes_the_first_match
    (u : Phi.t) (b : BasicBlockPtr) (h : Heap) :
  edited (PhiObject u) ->
  exists u',
    perform (Phi_removeSource b) (PhiObject u) h = Some (PhiObject u', h) /\
    Phi.d u' = Phi.d u /\
    Instruction.guard (Phi.base u') = Instruction.guard (Phi.base u) /\
    Instruction.writes (Phi.base u') = Instruction.writes (Phi.base u) /\
    (((b ∉ Phi.blocks u) /\ u' = u) \/
     exists k,
       Phi.blocks u !! k = Some b /\
       (forall j, j < k -> Phi.blocks u !! j <> Some b) /\
       Phi.blocks u' = delete k (Phi.blocks u) /\
       Phi.sources u' = delete k (Phi.sources u) /\
       Instruction.reads (Phi.base u')
       = Instruction.guard (Phi.base u) :: delete k (Phi.sources u)).
Proof.
  intros He. pose proof (Phi_removeSource_spec b u (edited_mirrored _ He)) as Hs.
  cbn [perform]. unfold fmap, M_fmap, bind, lift, ret.
  destruct (list_find _ _) as [[k blk] |] eqn:Hf; rewrite Hs.
  - eexists. split; [reflexivity |]. cbn. repeat split.
    right. exists k.
    apply list_find_Some in Hf as (Hk & -> & Hfirst).
    split; [exact Hk |]. split; [| done].
    intros j Hj Hb. by apply (Hfirst j b).
  - exists u. split; [reflexivity |]. repeat split. left.
    split; [| reflexivity]. intros Hin.
    apply list_find_None in Hf. rewrite Forall_forall in Hf.
    by apply (Hf b).
Qed.



Lemma Phi_removeSource_removes_the_first_match_witness :
  exists u',
    perform (Phi_removeSource (Some 0)) (PhiObject Examples.phi_of_block_0) ∅
    = Some (PhiObject u', ∅) /\
    Phi.sources u' = [] /\
    Instruction.reads (Phi.base u') = [None].
Proof.
  destruct (Phi_removeSource_removes_the_first_match
              Examples.phi_of_block_0 (Some 0) ∅ phi_of_block_0_edited)
    as (u' & Hp & _ & _ & _ & [[Hnot _] | (k & Hk & _ & _ & Hs & Hr)]).
  - exfalso. apply Hnot. compute_done.
  - exists u'. split; [exact Hp |].
    destruct k as [| k]; [| destruct k; discriminate Hk].
    split; [exact Hs | exact Hr].
Defined.

(** X12. [Psi::removeSource] on a psi that was never copied, likewise:
    the first entry guarded by that predicate leaves [predicates],
    [sources] and [reads]; without one, nothing changes; no operand is
    released. *)
Theorem Psi_removeSource_removes_the_first_match
    (u : Psi.t) (p : ptr) (h : Heap) :
  edited (PsiObject u) ->
  exists u',
    perform (Psi_removeSource p) (PsiObject u) h = Some (PsiObject u', h) /\
    Psi.d u' = Psi.d u /\
    Instruction.guard (Psi.base u') = Instruction.guard (Psi.base u) /\
    Instruction.writes (Psi.base u') = Instruction.writes (Psi.base u) /\
    (((p ∉ Psi.predicates u) /\ u' = u) \/
     exists k,
       Psi.predicates u !! k = Some p /\
       (forall j, j < k -> Psi.predicates u !! j <> Some p) /\
       Psi.predicates u' = delete k (Psi.predicates u) /\
       Psi.sources u' = delete k (Psi.sources u) /\
       Instruction.reads (Psi.base u')
       = Instruction.guard (Psi.base u) :: delete k (Psi.sources u)).
Proof.
  intros He. pose proof (Psi_removeSource_spec p u (edited_mirrored _ He)) as Hs.
  cbn [perform]. unfold fmap, M_fmap, bind, lift, ret.
  destruct (list_find _ _) as [[k blk] |] eqn:Hf; rewrite Hs.
  - eexists. split; [reflexivity |]. cbn. repeat split.
    right. exists k.
    apply list_find_Some in Hf as (Hk & -> & Hfirst).
    split; [exact Hk |]. split; [| done].
    intros j Hj Hb. by apply (Hfirst j p).
  - exists u. split; [reflexivity |]. repeat split. left.
    split; [| reflexivity]. intros Hin.
    apply list_find_None in Hf. rewrite Forall_forall in Hf.
    by apply (Hf p).
Qed.



Lemma psi_of_predicate_3_edited :
  edited (PsiObject Examples.psi_of_predicate_3).
Proof.
  apply (edited_perform (PsiObject (Psi.new None))
           (Psi_addSource (Some 3%positive) (Some 1%positive)) ∅ _ ∅);
    [| discriminate | reflexivity].
  apply edited_constructed. constructor.
Defined.

Lemma Psi_removeSource_removes_the_first_match_witness :
  exists u',
    perform (Psi_removeSource (Some 3%positive))
      (PsiObject Examples.psi_of_predicate_3) ∅
    = Some (PsiObject u', ∅) /\
    Psi.sources u' = [] /\
    Instruction.reads (Psi.base u') = [None].
Proof.
  destruct (Psi_removeSource_removes_the_first_match
              Examples.psi_of_predicate_3 (Some 3%positive) ∅
              psi_of_predicate_3_edited)
    as (u' & Hp & _ & _ & _ & [[Hnot _] | (k & Hk & _ & _ & Hs & Hr)]).
  - exfalso. apply Hnot. compute_done.
  - exists u'. split; [exact Hp |].
    destruct k as [| k]; [| destruct k; discriminate Hk].
    split; [exact Hs | exact Hr].
Defined.

End Joins.

(** ** Assignment *)

Section Assignment.

Import ir Views.

#[local] Arguments Instruction.clone_operands : simpl never.

Lemma assign_spec (this i o' : Object) (h h' : Heap) :
  layout i ->
  perform (assign i) this h = Some (o', h') ->
  exists cleared h1 c,
    Instruction.clear (base this) h = Some (cleared, h1) /\
    clone i h1 = Some (c, h') /\
    o' = keep_operation this c.
Proof.
  intros Hl Hp.
  destruct i, this; cbn in Hp; try discriminate Hp;
    unfold_members; unfold Instruction.assign in *; M_inv_all.
  all: match goal with
       | Hc : Instruction.clear _ _ = Some (?c, ?h1) |- _ =>
           exists c, h1; apply clear_reads in Hc as Hempty;
           destruct Hempty as [Hre Hwe]; rewrite Hre, Hwe in *
       end.
  all: eexists; split; [eassumption |].
  all: cbn [clone base]; unfold_members; unfold Instruction.copy.
  all: unfold fmap, M_fmap, mbind, M_bind, bind, mret, M_ret, ret, lift.
  all: keep_lengths; destruct Hl as [Hr Hw]; cbn in Hr, Hw.
  all: rewrite ?Hr, ?Hw in *; cbn in *; list_cases.
  all: repeat match goal with
       | H : Instruction.clone_operands ?l ?h = Some _
         |- context [Instruction.clone_operands ?l ?h] => rewrite H; cbn
       end.
  all: unfold at_, back in *; cbn in *; simplify_eq; try done.
  all: repeat match goal with
       | H : ?x = Some _ |- context [ ?x ] => rewrite H; cbn
       end; done.
Qed.


Lemma assign_defined (this i c : Object) (cleared : Instruction.t)
    (h h1 h' : Heap) :
  layout i -> same_class this i = true ->
  Instruction.clear (base this) h = Some (cleared, h1) ->
  clone i h1 = Some (c, h') ->
  perform (assign i) this h = Some (keep_operation this c, h').
Proof.
  intros Hl Hsame Hclear Hc.
  destruct i, this; try discriminate Hsame; clear Hsame;
    cbn in Hc, Hclear; unfold_members; unfold Instruction.copy in *;
    M_inv Hc.
  all: cbn [perform]; unfold_members; unfold Instruction.assign.
  all: unfold fmap, M_fmap, mbind, M_bind, bind, mret, M_ret, ret, lift.
  all: rewrite Hclear; apply clear_reads in Hclear as [Hre Hwe];
    rewrite Hre, Hwe.
  all: keep_lengths; destruct Hl as [Hr Hw]; cbn in Hr, Hw.
  all: rewrite ?Hr, ?Hw in *; cbn in *; list_cases.
  all: repeat match goal with
       | H : Instruction.clone_operands ?l ?h = Some _
         |- context [Instruction.clone_operands ?l ?h] => rewrite H; cbn
       end.
  all: unfold at_, back in *; cbn in *; simplify_eq; try done.
  all: repeat match goal with
       | H : ?x = Some _ |- context [ ?x ] => rewrite H; cbn
       end; done.
Qed.


(** X13. Assignment between two objects of one class is the destructor
    body followed by the copy constructor: [operator=] releases the
    operands of the target with [clear] and then leaves the target as
    [clone()] would build the copy of the source, in the same free store;
    only an atomic operation keeps its own [operation], which neither copy
    operation transfers.  It is undefined exactly when [clear] or the copy
    is. *)
Theorem assignment_is_destruction_then_copy (this i : Object) (h : Heap) :
  living i -> same_class this i = true ->
  perform (assign i) this h
  = (Instruction.clear (base this) ≫= fun _ => keep_operation this <$> clone i) h.
Proof.
  intros Hl Hsame. apply living_layout in Hl.
  unfold mbind, M_bind, bind, fmap, M_fmap, bind, ret.
  destruct (Instruction.clear (base this) h) as [[cleared h1] |] eqn:Hclear.
  - destruct (clone i h1) as [[c h'] |] eqn:Hc.
    + eapply assign_defined; eassumption.
    + destruct (perform (assign i) this h) as [[o' h'] |] eqn:Hp;
        [| reflexivity].
      destruct (assign_spec _ _ _ _ _ Hl Hp)
        as (cleared' & h1' & c & Hclear' & Hc' & _).
      rewrite Hclear in Hclear'. injection Hclear' as <- <-.
      by rewrite Hc in Hc'.
  - destruct (perform (assign i) this h) as [[o' h'] |] eqn:Hp;
      [| reflexivity].
    destruct (assign_spec _ _ _ _ _ Hl Hp)
      as (cleared' & h1' & c & Hclear' & _).
    by rewrite Hclear in Hclear'.
Qed.

Lemma assignment_is_destruction_then_copy_witness :
  perform (assign Examples.bitcast) Examples.bitcast_0 Examples.operand_heap
  = (Instruction.clear (base Examples.bitcast_0)
       ≫= fun _ => keep_operation Examples.bitcast_0 <$> clone Examples.bitcast)
      Examples.operand_heap.
Proof.
  apply assignment_is_destruction_then_copy.
  - exact bitcast_living.
  - reflexivity.
Defined.

End Assignment.

(** ** The text of an instruction *)

Section Text.

Import ir Views.
Context `{OperandInterface}.

Lemma deref_inv p h o h' :
  deref p h = Some (o, h') -> h' = h /\ exists l, p = Some l /\ h !! l = Some o.
Proof.
  unfold deref. destruct p as [l |]; [| discriminate].
  destruct (h !! l) eqn:E; [| discriminate]. intros [= <- <-]. eauto.
Qed.

Lemma deref_text p h o h' :
  deref p h = Some (o, h') -> operand_text h p = Operand_toString o.
Proof.
  intros (_ & l & -> & Hl)%deref_inv. unfold operand_text. cbn. by rewrite Hl.
Qed.

Lemma live_deref h p : live h p -> exists o, deref p h = Some (o, h).
Proof. intros (l & -> & [o Ho]). exists o. cbn. by rewrite Ho. Qed.

Lemma writes_toString_inv b ws : forall h s h',
  Instruction.writes_toString b ws h = Some (s, h') ->
  h' = h /\ Forall (live h) ws.
Proof.
  induction ws as [| w ws IH]; intros h s h' Hw.
  - injection Hw as <- <-. done.
  - cbn [Instruction.writes_toString] in Hw. M_inv Hw.
    match goal with Hd : deref _ _ = Some _ |- _ =>
      apply deref_inv in Hd as (-> & l & -> & Hl) end.
    match goal with Hr : Instruction.writes_toString _ _ _ = Some _ |- _ =>
      apply IH in Hr as [-> Hall] end.
    split; [done |]. constructor; [| done]. exists l. split; [done | by eexists].
Qed.

Lemma reads_toString_inv b rs : forall first h s h',
  Instruction.reads_toString b first rs h = Some (s, h') ->
  h' = h /\ Forall (fun p => Some p = b \/ live h p) rs.
Proof.
  induction rs as [| r rs IH]; intros first h s h' Hr.
  - injection Hr as <- <-. done.
  - cbn [Instruction.reads_toString] in Hr. case_decide as Hb.
    + apply IH in Hr as [-> Hall]. split; [done |]. constructor; auto.
    + M_inv Hr.
      match goal with Hd : deref _ _ = Some _ |- _ =>
        apply deref_inv in Hd as (-> & l & -> & Hl) end.
      match goal with Hr : Instruction.reads_toString _ _ _ _ = Some _ |- _ =>
        apply IH in Hr as [-> Hall] end.
      split; [done |]. constructor; [| done]. right.
      exists l. split; [done | by eexists].
Qed.

Lemma toString_inv i h text h' :
  aliased i -> Instruction.toString i h = Some (text, h') ->
  h' = h /\ populated h i.
Proof.
  intros Ha Ht. unfold Instruction.toString in Ht. M_inv Ht.
  match goal with Hd : deref _ _ = Some _ |- _ =>
    apply deref_inv in Hd as (-> & l & Hg & Hl) end.
  match goal with Hw : Instruction.writes_toString _ _ _ = Some _ |- _ =>
    apply writes_toString_inv in Hw as [-> Hws] end.
  match goal with Hr : Instruction.reads_toString _ _ _ _ = Some _ |- _ =>
    apply reads_toString_inv in Hr as [-> Hrs] end.
  split; [done |]. split; [| done].
  eapply Forall_impl; [exact Hrs |]. intros p [Hp | Hp]; [| done].
  unfold aliased in Ha. rewrite <- head_lookup, <- Hp in Ha.
  injection Ha as ->. exists l. split; [done | by eexists].
Qed.

Lemma append_nil_r (s : string) : s +:+ "" = s.
Proof.
  induction s as [| c s IH]; [done |].
  change (String c (s +:+ "") = String c s). by rewrite IH.
Qed.

Lemma append_assoc (s1 s2 s3 : string) :
  (s1 +:+ s2) +:+ s3 = s1 +:+ s2 +:+ s3.
Proof.
  induction s1 as [| c s1 IH]; [done |].
  change (String c ((s1 +:+ s2) +:+ s3) = String c (s1 +:+ s2 +:+ s3)).
  by rewrite IH.
Qed.

Lemma concat_foldr sep x l :
  String.concat sep (x :: l)
  = x +:+ foldr (fun y s => sep +:+ y +:+ s) "" l.
Proof.
  revert x. induction l as [| y l IH]; intros x.
  - cbn. by rewrite append_nil_r.
  - cbn [String.concat foldr]. cbn [String.concat] in IH. by rewrite IH.
Qed.

Lemma concat_app sep l1 l2 :
  String.concat sep (l1 ++ l2)
  = String.concat sep l1
      +:+ (if bool_decide (l1 <> []) && bool_decide (l2 <> [])
           then sep else "")
      +:+ String.concat sep l2.
Proof.
  induction l1 as [| x l1 IH].
  - cbn. done.
  - destruct l1 as [| y l1].
    + cbn [app]. destruct l2 as [| z l2]; cbn.
      * by rewrite append_nil_r.
      * done.
    + cbn [app String.concat] in *. rewrite IH, !append_assoc.
      rewrite bool_decide_true by done. done.
Qed.

Lemma writes_toString_rest w0 ws h :
  Forall (live h) ws -> w0 ∉ ws ->
  Instruction.writes_toString (Some w0) ws h
  = Some (foldr (fun y s => ", " +:+ y +:+ s) "" (operand_text h <$> ws), h).
Proof.
  induction ws as [| w ws IH]; intros Hl Hn; [reflexivity |].
  apply Forall_cons in Hl as [Hw Hl].
  apply not_elem_of_cons in Hn as [Hne Hn].
  cbn [Instruction.writes_toString].
  destruct (live_deref h w Hw) as [o Ho].
  erewrite M_bind_Some by exact Ho.
  erewrite M_bind_Some by (apply IH; done).
  rewrite decide_True by congruence.
  cbn. by rewrite (deref_text _ _ _ _ Ho).
Qed.

Lemma writes_toString_spec ws h :
  Forall (live h) ws -> NoDup ws ->
  Instruction.writes_toString (head ws) ws h
  = Some (String.concat ", " (operand_text h <$> ws), h).
Proof.
  destruct ws as [| w0 ws]; [reflexivity |].
  intros [Hw Hl]%Forall_cons [Hn _]%NoDup_cons.
  cbn [head Instruction.writes_toString].
  destruct (live_deref h w0 Hw) as [o Ho].
  erewrite M_bind_Some by exact Ho.
  erewrite M_bind_Some by (apply writes_toString_rest; done).
  rewrite decide_False by (intros Hne; by apply Hne).
  cbn [fmap list_fmap]. rewrite concat_foldr.
  cbn. by rewrite (deref_text _ _ _ _ Ho).
Qed.

Lemma reads_toString_rest r0 rs h :
  Forall (live h) rs -> r0 ∉ rs ->
  Instruction.reads_toString (Some r0) false rs h
  = Some (foldr (fun y s => ", " +:+ y +:+ s) "" (operand_text h <$> rs), h).
Proof.
  induction rs as [| r rs IH]; intros Hl Hn; [reflexivity |].
  apply Forall_cons in Hl as [Hr Hl].
  apply not_elem_of_cons in Hn as [Hne Hn].
  cbn [Instruction.reads_toString].
  rewrite decide_False by congruence.
  destruct (live_deref h r Hr) as [o Ho].
  erewrite M_bind_Some by exact Ho.
  erewrite M_bind_Some by (apply IH; done).
  cbn. by rewrite (deref_text _ _ _ _ Ho).
Qed.

Lemma reads_toString_spec rs h :
  Forall (live h) rs -> NoDup rs ->
  Instruction.reads_toString (head rs) true rs h
  = Some (String.concat ", " (operand_text h <$> tail rs), h).
Proof.
  destruct rs as [| r0 rs]; [reflexivity |].
  intros [_ Hl]%Forall_cons [Hn _]%NoDup_cons.
  cbn [head tail Instruction.reads_toString].
  rewrite decide_True by done.
  destruct rs as [| r rs]; [reflexivity |].
  apply Forall_cons in Hl as [Hr Hl].
  apply not_elem_of_cons in Hn as [Hne Hn].
  cbn [Instruction.reads_toString].
  rewrite decide_False by congruence.
  destruct (live_deref h r Hr) as [o Ho].
  erewrite M_bind_Some by exact Ho.
  erewrite M_bind_Some by (apply reads_toString_rest; done).
  cbn [fmap list_fmap]. rewrite concat_foldr.
  cbn. by rewrite (deref_text _ _ _ _ Ho).
Qed.

Lemma toString_spec i h :
  populated h i -> aliased i -> exclusive i ->
  Instruction.toString i h = Some (rendering h i, h).
Proof.
  intros [Hr Hw] Ha Hex. apply NoDup_app in Hex as (Hndr & _ & Hndw).
  unfold Instruction.toString.
  assert (Hg : live h (Instruction.guard i)).
  { rewrite Forall_forall in Hr. apply Hr.
    eapply list_elem_of_lookup_2, Ha. }
  destruct (live_deref h _ Hg) as [g Hdg].
  erewrite M_bind_Some by exact Hdg.
  erewrite M_bind_Some by (apply writes_toString_spec; done).
  erewrite M_bind_Some by (apply reads_toString_spec; done).
  cbn. do 2 f_equal. unfold rendering, guard_text.
  apply deref_inv in Hdg as (_ & l & -> & Hl). cbn. rewrite Hl.
  rewrite fmap_app, concat_app, !append_assoc.
  assert (Hsep :
    bool_decide (Instruction.writes i <> [])
      && bool_decide (1 < length (Instruction.reads i))
    = bool_decide (operand_text h <$> Instruction.writes i <> [])
      && bool_decide (operand_text h <$> tail (Instruction.reads i) <> [])).
  { destruct (Instruction.writes i), (Instruction.reads i) as [| ? [| ? ?]];
      cbn; repeat case_bool_decide; cbn in *; try done; lia. }
  rewrite Hsep. by destruct (isAlwaysTrue g).
Qed.

Lemma writes_toString_defined b ws h :
  Forall (live h) ws -> is_Some (Instruction.writes_toString b ws h).
Proof.
  induction ws as [| w ws IH]; intros Hl; [by eexists |].
  apply Forall_cons in Hl as [Hw Hl].
  cbn [Instruction.writes_toString].
  destruct (live_deref h w Hw) as [o Ho].
  erewrite M_bind_Some by exact Ho.
  destruct (IH Hl) as [[s h'] Hs].
  pose proof Hs as Hs'. apply writes_toString_inv in Hs' as [-> _].
  erewrite M_bind_Some by exact Hs. by eexists.
Qed.

Lemma reads_toString_defined b rs h : forall first,
  Forall (live h) rs -> is_Some (Instruction.reads_toString b first rs h).
Proof.
  induction rs as [| r rs IH]; intros first Hl; [by eexists |].
  apply Forall_cons in Hl as [Hr Hl].
  cbn [Instruction.reads_toString]. case_decide; [by apply IH |].
  destruct (live_deref h r Hr) as [o Ho].
  erewrite M_bind_Some by exact Ho.
  destruct (IH false Hl) as [[s h'] Hs].
  pose proof Hs as Hs'. apply reads_toString_inv in Hs' as [-> _].
  erewrite M_bind_Some by exact Hs. by eexists.
Qed.

Lemma toString_defined i h :
  aliased i -> populated h i -> is_Some (Instruction.toString i h).
Proof.
  intros Ha [Hr Hw]. unfold Instruction.toString.
  assert (Hg : live h (Instruction.guard i)).
  { rewrite Forall_forall in Hr. apply Hr.
    eapply list_elem_of_lookup_2, Ha. }
  destruct (live_deref h _ Hg) as [g Hdg].
  erewrite M_bind_Some by exact Hdg.
  destruct (writes_toString_defined
              (head (Instruction.writes i)) (Instruction.writes i) h Hw)
    as [[s2 h2] Hs2].
  pose proof Hs2 as Hs2'. apply writes_toString_inv in Hs2' as [-> _].
  erewrite M_bind_Some by exact Hs2.
  destruct (reads_toString_defined
              (head (Instruction.reads i)) (Instruction.reads i) h true Hr)
    as [[s4 h4] Hs4].
  pose proof Hs4 as Hs4'. apply reads_toString_inv in Hs4' as [-> _].
  erewrite M_bind_Some by exact Hs4. by eexists.
Qed.

(** X14. [Instruction::toString] of a living instruction returns exactly
    when every slot of the two operand lists, the guard included, points
    to a live operand, and it leaves the free store as it was.  On an
    instruction with a null slot, such as a newly built one, it
    dereferences a null pointer. *)
Theorem rendering_needs_every_operand (o : Object) (h : Heap) :
  lifetime o ->
  match Instruction.toString (base o) h with
  | Some (_, h') => h' = h /\ populated h (base o)
  | None => ~ populated h (base o)
  end.
Proof.
  intros Hl. apply lifetime_aliased in Hl.
  destruct (Instruction.toString (base o) h) as [[text h'] |] eqn:Ht.
  - eapply toString_inv; eassumption.
  - intros Hp. destruct (toString_defined _ _ Hl Hp) as [r Hr].
    by rewrite Ht in Hr.
Qed.

(** X15. The text: the guard and a space unless the guard is always
    true, the name of the opcode and a space, and then the texts of the
    write operands followed by those of the reads after the guard,
    separated by a comma and a space.  This holds for a living instruction
    whose slots all hold live operands, no operand twice. *)
Theorem rendered_text (o : Object) (h : Heap) :
  lifetime o -> populated h (base o) -> exclusive (base o) ->
  Instruction.toString (base o) h = Some (rendering h (base o), h).
Proof.
  intros Hl Hp Hex. apply toString_spec; [done | | done].
  by apply lifetime_aliased.
Qed.

End Text.

Section TextExamples.

Import ir Views.

Lemma rendering_needs_every_operand_witness :
  ~ populated Examples.operand_heap (base Examples.bitcast_0).
Proof.
  apply (@rendering_needs_every_operand Examples.operands
           Examples.bitcast_0 Examples.operand_heap).
  apply lifetime_constructed. constructor.
Defined.

Lemma rendered_text_witness :
  @Instruction.toString Examples.operands (base Examples.bitcast)
    Examples.operand_heap
  = Some ("Bitcast r0, r1", Examples.operand_heap).
Proof.
  apply (@rendered_text Examples.operands Examples.bitcast
           Examples.operand_heap).
  - exact bitcast_lifetime.
  - split; repeat constructor; eexists; (split; [reflexivity |]);
      vm_compute; eauto.
  - unfold exclusive. compute_done.
Defined.

End TextExamples.

(** * Further properties of the module (Module.cpp) *)

Section Containers.

Import ir.

Lemma find_after_append {A} (P : A -> Prop) `{!forall x, Decision (P x)}
    (l : list A) (x : A) :
  fst <$> list_find P (l ++ [x])
  = match fst <$> list_find P l with
    | Some k => Some k
    | None => if decide (P x) then Some (length l) else None
    end.
Proof.
  destruct (list_find P l) as [[k y] |] eqn:Hf.
  - by rewrite (list_find_app_l _ _ _ _ _ Hf).
  - rewrite (list_find_app_r _ _ _ Hf). cbn. by case_decide.
Qed.


(** X16. A lookup by name after [newFunction] or [newGlobal]: the search
    returns the first entry with that name, so a name that the module
    already had still finds the old entry (the new one is shadowed), the
    new name finds the new entry at the position that the call returned,
    and any other name is still not found.  Functions and globals are
    looked up independently. *)
Theorem lookup_after_new (m : Module_) (n n' : string) (t : Type_)
    (l : Linkage) :
  getFunction n' (newFunction n l m).2
  = match getFunction n' m with
    | Some function => Some function
    | None => if decide (n = n') then Some (newFunction n l m).1 else None
    end /\
  getGlobal n' (newGlobal n t l m).2
  = match getGlobal n' m with
    | Some global => Some global
    | None => if decide (n = n') then Some (newGlobal n t l m).1 else None
    end.
Proof.
  unfold getFunction, getGlobal, newFunction, newGlobal. cbn.
  rewrite !find_after_append. done.
Qed.


Lemma insert_before_erase {A} (l l' : list A) (x : A) position at_x :
  insert_before position x l = Some (at_x, l') ->
  at_x = position /\ position <= length l /\
  length l' = S (length l) /\ l' !! position = Some x /\
  erase l' position = Some l.
Proof.
  unfold insert_before, erase. case_decide as Hle; [| discriminate].
  intros [= <- <-]. split; [done |]. split; [done |].
  assert (Htake : length (take position l) = position)
    by (rewrite length_take; lia).
  assert (Hlen : length (take position l ++ x :: drop position l)
                 = S (length l)).
  { rewrite length_app, Htake. cbn. rewrite length_drop. lia. }
  rewrite Hlen. split; [done |]. split.
  - rewrite lookup_app_r by lia. rewrite Htake. by rewrite Nat.sub_diag.
  - rewrite decide_True by lia. f_equal.
    rewrite <- Htake at 1. rewrite delete_middle. apply take_drop.
Qed.


(** X17. [insertFunction] returns when [position] is an iterator of the
    function list or its end: the new function then sits at the returned
    position, the list is one longer and not empty, and the globals are
    untouched; [removeFunction] at the returned position restores the
    module.  Erasing at [end()] is undefined. *)
Theorem removeFunction_undoes_insertFunction (m : Module_) (f : Function)
    (position : nat) :
  match insertFunction position f m with
  | Some (at_f, m') =>
      at_f = position /\ position <= size m /\
      size m' = S (size m) /\ empty m' = false /\
      _functions m' !! at_f = Some f /\
      _globals m' = _globals m /\
      removeFunction at_f m' = Some (at_f, m) /\
      removeFunction (end_ m') m' = None
  | None => size m < position
  end.
Proof.
  unfold insertFunction, removeFunction, size, empty, end_.
  destruct (insert_before position f (_functions m)) as [[k fs] |] eqn:Hi.
  - cbn. apply insert_before_erase in Hi as (-> & Hle & Hlen & Hk & He).
    rewrite He. cbn. destruct m. cbn in *.
    repeat split; try done.
    + rewrite bool_decide_false; [done |]. intros ->. discriminate Hlen.
    + unfold erase. rewrite decide_False by lia. done.
  - cbn. unfold insert_before in Hi. case_decide; [discriminate | lia].
Qed.

(** X18. [insertGlobal] and [removeGlobal], likewise, on the list of
    globals; the functions are untouched. *)
Theorem removeGlobal_undoes_insertGlobal (m : Module_) (g : Global)
    (position : nat) :
  match insertGlobal position g m with
  | Some (at_g, m') =>
      at_g = position /\ position <= global_size m /\
      global_size m' = S (global_size m) /\ global_empty m' = false /\
      _globals m' !! at_g = Some g /\
      _functions m' = _functions m /\
      removeGlobal at_g m' = Some (at_g, m) /\
      removeGlobal (global_end m') m' = None
  | None => global_size m < position
  end.
Proof.
  unfold insertGlobal, removeGlobal, global_size, global_empty, global_end.
  destruct (insert_before position g (_globals m)) as [[k gs] |] eqn:Hi.
  - cbn. apply insert_before_erase in Hi as (-> & Hle & Hlen & Hk & He).
    rewrite He. cbn. destruct m. cbn in *.
    repeat split; try done.
    + rewrite bool_decide_false; [done |]. intros ->. discriminate Hlen.
    + unfold erase. rewrite decide_False by lia. done.
  - cbn. unfold insert_before in Hi. case_decide; [discriminate | lia].
Qed.

End Containers.

(** * Further properties of the translator *)

(** ** Frame conditions *)

Section Orders.

Import translation Views.

#[export] Instance same_outline_preorder : PreOrder same_outline.
Proof. split; [done |]. intros s1 s2 s3. unfold same_outline. congruence. Qed.

#[export] Instance same_code_preorder : PreOrder same_code.
Proof. split; [done |]. intros s1 s2 s3. unfold same_code. congruence. Qed.

#[export] Instance same_registers_preorder : PreOrder same_registers.
Proof. split; [done |]. intros s1 s2 s3. unfold same_registers. congruence. Qed.

#[export] Instance same_heap_preorder : PreOrder same_heap.
Proof. split; [done |]. intros s1 s2 s3. unfold same_heap. congruence. Qed.

#[export] Instance same_labels_preorder : PreOrder same_labels.
Proof. split; [done |]. intros s1 s2 s3. unfold same_labels. congruence. Qed.

#[export] Instance same_function_preorder : PreOrder same_function.
Proof. split; [done |]. intros s1 s2 s3. unfold same_function. congruence. Qed.

#[export] Instance registers_extend_preorder : PreOrder registers_extend.
Proof.
  split.
  - intros s. split; [done |]. intros rs Hrs. exists []. by rewrite app_nil_r.
  - intros s1 s2 s3 [Hf1 H1] [Hf2 H2]. split; [congruence |].
    intros rs Hrs. destruct (H1 rs Hrs) as [more1 Hm1].
    destruct (H2 _ Hm1) as [more2 Hm2].
    exists (more1 ++ more2)%list. by rewrite app_assoc.
Qed.

#[export] Instance tables_grow_preorder : PreOrder tables_grow.
Proof.
  split; [done |]. intros s1 s2 s3 [? ?] [? ?].
  split; etrans; eassumption.
Qed.

#[export] Instance same_arguments_preorder : PreOrder same_arguments.
Proof.
  split; [done |]. intros s1 s2 s3. unfold same_arguments. congruence.
Qed.

#[export] Instance same_instruction_preorder : PreOrder same_instruction.
Proof.
  split; [done |]. intros s1 s2 s3. unfold same_instruction. congruence.
Qed.

#[export] Instance settled_preorder : PreOrder settled.
Proof.
  split.
  - intros s. do 4 (split; [reflexivity |]). reflexivity.
  - intros s1 s2 s3 (? & ? & ? & ? & ?) (? & ? & ? & ? & ?).
    do 4 (split; [etrans; eassumption |]). etrans; eassumption.
Qed.

End Orders.

Section Frames.

Import translation Views.

Context (R : State -> State -> Prop) `{!PreOrder R}.

Lemma respects_ret {A} (a : A) : respects R (mret a).
Proof. intros s a' s' [= <- <-]. reflexivity. Qed.

Lemma respects_throw {A} what : respects R (@throw A what).
Proof. intros s a s' [=]. Qed.

Lemma respects_assert {A} what : respects R (@assertM_false A what).
Proof. intros s a s' [=]. Qed.

Lemma respects_undefined {A} : respects R (@undefined A).
Proof. intros s a s' [=]. Qed.

Lemma respects_get : respects R get.
Proof. intros s a s' [= <- <-]. reflexivity. Qed.

Lemma respects_bind {A B} (m : T A) (k : A -> T B) :
  respects R m -> (forall a, respects R (k a)) -> respects R (m ≫= k).
Proof.
  intros Hm Hk s b s'' (a & s' & H1 & H2)%T_bind_inv.
  etrans; [eapply Hm, H1 | eapply Hk, H2].
Qed.

Lemma respects_fmap {A B} (f : A -> B) (m : T A) :
  respects R m -> respects R (f <$> m).
Proof. intros Hm s b s' (a & H1 & _)%T_fmap_inv. eapply Hm, H1. Qed.

Lemma respects_for_each {A} (l : list A) (body : A -> T unit) :
  (forall x, respects R (body x)) -> respects R (for_each l body).
Proof.
  intros Hbody. induction l as [| x l IH]; cbn [for_each].
  - apply respects_ret.
  - apply respects_bind; [apply Hbody | intros _; exact IH].
Qed.

Lemma respects_arrow {A} (p : option A) (f : A -> ir.M A) :
  (forall x, respects R (on_heap (f x))) -> respects R (arrow p f).
Proof.
  intros Hf. unfold arrow. destruct p; [| apply respects_undefined].
  apply respects_fmap, Hf.
Qed.

Lemma respects_on_block (f : ir.BasicBlock -> ir.BasicBlock) :
  (forall g : ir.Function -> bool * ir.Function,
      (forall fn, (g fn).2 = fn \/
                  exists k b, ir.blocks fn !! k = Some b /\
                    (g fn).2 = ir.Function_with_block k (f b) fn) ->
      respects R (on_function g)) ->
  respects R (on_block f).
Proof.
  intros Hg. unfold on_block. intros s a s'. rewrite T_bind_get.
  destruct (_block s) as [k |]; [| discriminate].
  apply respects_bind.
  - apply Hg. intros fn. destruct (ir.blocks fn !! k) as [b |] eqn:E; eauto.
  - intros []; [apply respects_ret | apply respects_undefined].
Qed.

End Frames.

Section Primitives.

Import translation Views.

Lemma fmap_insert_same {A B} (g : A -> B) (l : list A) k x y :
  l !! k = Some x -> g y = g x -> g <$> <[k := y]> l = g <$> l.
Proof.
  intros Hk Hg. rewrite list_fmap_insert, Hg.
  apply list_insert_id. by rewrite list_lookup_fmap, Hk.
Qed.

Lemma on_heap_inv {A} (m : ir.M A) s a s' :
  on_heap m s = Returns a s' ->
  m (heap s) = Some (a, heap s') /\
  _module s' = _module s /\ _function s' = _function s /\
  _block s' = _block s /\ _registers s' = _registers s /\
  _specialRegisters s' = _specialRegisters s /\ _blocks s' = _blocks s /\
  _ptxInstruction s' = _ptxInstruction s.
Proof.
  unfold on_heap. destruct (m (heap s)) as [[a' h] |]; [| discriminate].
  intros [= <- <-]. done.
Qed.

(** Each primitive, for each condition. *)
Lemma outline_on_heap {A} (m : ir.M A) : respects same_outline (on_heap m).
Proof.
  intros s a s' (_ & Hm & _ & _ & _ & _ & Hb & _)%on_heap_inv.
  unfold same_outline, outline. by rewrite Hm, Hb.
Qed.

Lemma code_on_heap {A} (m : ir.M A) : respects same_code (on_heap m).
Proof.
  intros s a s' (_ & Hm & Hf & Hb & _)%on_heap_inv.
  unfold same_code, code. by rewrite Hm, Hf, Hb.
Qed.

Lemma registers_on_heap {A} (m : ir.M A) :
  respects same_registers (on_heap m).
Proof. by intros s a s' (_ & _ & _ & _ & Hr & _)%on_heap_inv. Qed.

Lemma tables_on_heap {A} (m : ir.M A) : respects tables_grow (on_heap m).
Proof.
  intros s a s' (_ & _ & _ & _ & Hr & Hs & _)%on_heap_inv.
  unfold tables_grow. by rewrite Hr, Hs.
Qed.

Lemma outline_on_function {A} (f : ir.Function -> A * ir.Function) :
  (forall fn, ir.function_name (f fn).2 = ir.function_name fn /\
              ir.function_linkage (f fn).2 = ir.function_linkage fn) ->
  respects same_outline (on_function f).
Proof.
  intros Hf s a s'
    (k & fn & _ & Hk & _ & Hm & _ & _ & _ & _ & Hb & _)%on_function_inv.
  unfold same_outline, outline. rewrite Hm, Hb. cbn.
  destruct (Hf fn) as [Hn Hl].
  erewrite fmap_insert_same; [done | exact Hk |]. by rewrite Hn, Hl.
Qed.

Lemma code_on_function {A} (f : ir.Function -> A * ir.Function) :
  (forall fn, ir.arguments (f fn).2 = ir.arguments fn /\
              ir.blocks (f fn).2 = ir.blocks fn) ->
  respects same_code (on_function f).
Proof.
  intros Hf s a s'
    (k & fn & _ & Hk & _ & Hm & Hfn & Hbl & _)%on_function_inv.
  unfold same_code, code. rewrite Hm, Hfn, Hbl. cbn.
  destruct (Hf fn) as [Ha Hb].
  erewrite fmap_insert_same; [done | exact Hk |]. by rewrite Ha, Hb.
Qed.

Lemma registers_on_function {A} (f : ir.Function -> A * ir.Function) :
  respects same_registers (on_function f).
Proof.
  by intros s a s' (k & fn & _ & _ & _ & _ & _ & _ & Hr & _)%on_function_inv.
Qed.

Lemma heap_on_function {A} (f : ir.Function -> A * ir.Function) :
  respects same_heap (on_function f).
Proof.
  by intros s a s'
    (k & fn & _ & _ & _ & _ & _ & _ & _ & _ & _ & _ & Hh)%on_function_inv.
Qed.

Lemma tables_on_function {A} (f : ir.Function -> A * ir.Function) :
  respects tables_grow (on_function f).
Proof.
  intros s a s'
    (k & fn & _ & _ & _ & _ & _ & _ & Hr & Hs & _)%on_function_inv.
  unfold tables_grow. by rewrite Hr, Hs.
Qed.

Lemma labels_on_heap {A} (m : ir.M A) : respects same_labels (on_heap m).
Proof. by intros s a s' (_ & _ & _ & _ & _ & _ & Hb & _)%on_heap_inv. Qed.

Lemma labels_on_function {A} (f : ir.Function -> A * ir.Function) :
  respects same_labels (on_function f).
Proof.
  by intros s a s'
    (k & fn & _ & _ & _ & _ & _ & _ & _ & _ & Hb & _)%on_function_inv.
Qed.

Lemma function_on_heap {A} (m : ir.M A) :
  respects same_function (on_heap m).
Proof. by intros s a s' (_ & _ & Hf & _)%on_heap_inv. Qed.

Lemma function_on_function {A} (f : ir.Function -> A * ir.Function) :
  respects same_function (on_function f).
Proof.
  by intros s a s' (k & fn & _ & _ & _ & _ & Hf & _)%on_function_inv.
Qed.

Lemma registers_extend_same s s' :
  _module s' = _module s -> _function s' = _function s ->
  registers_extend s s'.
Proof.
  intros Hm Hf. split; [done |]. intros rs Hrs. exists [].
  unfold current_function in *. by rewrite Hm, Hf, app_nil_r.
Qed.

Lemma extend_on_heap {A} (m : ir.M A) :
  respects registers_extend (on_heap m).
Proof.
  intros s a s' (_ & Hm & Hf & _)%on_heap_inv.
  split; [done |]. intros rs Hrs. exists [].
  unfold current_function in *. by rewrite Hm, Hf, app_nil_r.
Qed.

Lemma extend_on_function {A} (f : ir.Function -> A * ir.Function) :
  (forall fn, exists more,
      ir.registers (f fn).2 = (ir.registers fn ++ more)%list) ->
  respects registers_extend (on_function f).
Proof.
  intros Hf s a s' (k & fn & Hk & Hfn & _ & Hm & Hfs & _)%on_function_inv.
  split; [done |]. intros rs Hrs.
  unfold current_function in *. rewrite Hfs, Hk, Hm in *. cbn in *.
  rewrite Hfn in Hrs. injection Hrs as <-.
  rewrite list_lookup_insert_eq by (eapply lookup_lt_Some, Hfn). cbn.
  destruct (Hf fn) as [more ->]. by exists more.
Qed.

Lemma arguments_on_heap {A} (m : ir.M A) :
  respects same_arguments (on_heap m).
Proof.
  intros s a s' (_ & Hm & _)%on_heap_inv. unfold same_arguments.
  by rewrite Hm.
Qed.

Lemma arguments_on_function {A} (f : ir.Function -> A * ir.Function) :
  (forall fn, ir.arguments (f fn).2 = ir.arguments fn) ->
  respects same_arguments (on_function f).
Proof.
  intros Hf s a s' (k & fn & _ & Hk & _ & Hm & _)%on_function_inv.
  unfold same_arguments. rewrite Hm. cbn.
  erewrite fmap_insert_same; [done | exact Hk | apply Hf].
Qed.

Lemma instruction_on_heap {A} (m : ir.M A) :
  respects same_instruction (on_heap m).
Proof.
  by intros s a s' (_ & _ & _ & _ & _ & _ & _ & Hi)%on_heap_inv.
Qed.

Lemma instruction_on_function {A} (f : ir.Function -> A * ir.Function) :
  respects same_instruction (on_function f).
Proof.
  by intros s a s'
    (k & fn & _ & _ & _ & _ & _ & _ & _ & _ & _ & Hi & _)%on_function_inv.
Qed.

End Primitives.

Create HintDb frames discriminated.

#[export] Hint Resolve outline_on_heap code_on_heap registers_on_heap
  tables_on_heap registers_on_function heap_on_function tables_on_function
  labels_on_heap labels_on_function function_on_heap function_on_function
  extend_on_heap arguments_on_heap instruction_on_heap
  instruction_on_function : frames.

(** A frame condition of a composed computation, from those of its
    parts. *)
Ltac frame :=
  repeat first
    [ solve [eauto with frames]
    | apply respects_ret; apply _
    | apply respects_throw | apply respects_assert
    | apply respects_undefined
    | apply respects_get; apply _
    | apply respects_fmap
    | apply respects_for_each; [apply _ | intros ?]
    | apply respects_arrow; intros ?
    | apply respects_on_block; [apply _ | intros ? ?]
    | apply respects_bind; [apply _ | | intros ?]
    | match goal with
      | |- Views.respects _ (match ?x with _ => _ end) => destruct x
      | |- Views.respects _ (if ?x then _ else _) => destruct x
      end
    | apply outline_on_function; intros ?; split; reflexivity
    | apply outline_on_function;
      match goal with
      | Hg : forall fn, (_ fn).2 = fn \/ _ |- _ =>
          let fn := fresh in
          intros fn;
          destruct (Hg fn) as [-> | (? & ? & _ & ->)]; split; reflexivity
      end
    | apply code_on_function; intros ?; split; reflexivity
    | apply extend_on_function; intros ?;
      first [ eexists; reflexivity
            | exists []; symmetry; apply app_nil_r ]
    | apply extend_on_function;
      match goal with
      | Hg : forall fn, (_ fn).2 = fn \/ _ |- _ =>
          let fn := fresh in
          intros fn; exists [];
          destruct (Hg fn) as [-> | (? & ? & _ & ->)];
          symmetry; apply app_nil_r
      end
    | apply arguments_on_function; intros ?; reflexivity
    | apply arguments_on_function;
      match goal with
      | Hg : forall fn, (_ fn).2 = fn \/ _ |- _ =>
          let fn := fresh in
          intros fn;
          destruct (Hg fn) as [-> | (? & ? & _ & ->)]; reflexivity
      end
    | solve [intros ? ? ? [= <- <-]; red; reflexivity]
    | solve [intros ? ? ? [= <- <-]; red; split; reflexivity]
    | solve [intros ? ? ? [= <- <-]; reflexivity]
    | solve [intros ? ? ? [= <- <-];
             apply registers_extend_same; reflexivity] ].

Section Translation.

Import translation Views.
Context `{Compiler} `{PTXFrontEnd} `{ir.GlobalInterface}.

Ltac unfold_operands :=
  unfold _newTranslatedOperand, _translatePredicateOperand,
    _getSpecialValueOperand, _newTemporaryRegister,
    _getSpecialVirtualRegister, _getArgument, _getGlobal, _getBasicBlock,
    _getRegister, _getType.

Ltac unfold_instructions :=
  unfold _translateInstruction, _translateComplexInstruction,
    _translateSimpleBinaryInstruction, _translateSimpleUnaryInstruction.

(** The lowering of an operand. *)
Lemma outline_newTranslatedOperand ptx :
  respects same_outline (_newTranslatedOperand ptx).
Proof. unfold_operands. frame. Qed.

Lemma code_newTranslatedOperand ptx :
  respects same_code (_newTranslatedOperand ptx).
Proof. unfold_operands. frame. Qed.

Lemma registers_newTranslatedOperand ptx :
  respects same_registers (_newTranslatedOperand ptx).
Proof. unfold_operands. frame. Qed.

Lemma outline_translatePredicateOperand ptx :
  respects same_outline (_translatePredicateOperand ptx).
Proof. unfold_operands. frame. Qed.

Lemma code_translatePredicateOperand ptx :
  respects same_code (_translatePredicateOperand ptx).
Proof. unfold_operands. frame. Qed.

Lemma registers_translatePredicateOperand ptx :
  respects same_registers (_translatePredicateOperand ptx).
Proof. unfold_operands. frame. Qed.

Lemma heap_getRegister id : respects same_heap (_getRegister id).
Proof. unfold_operands. frame. Qed.

Lemma heap_getSpecialVirtualRegister id lane :
  respects same_heap (_getSpecialVirtualRegister id lane).
Proof. unfold_operands. frame. Qed.

Lemma heap_newTemporaryRegister : respects same_heap _newTemporaryRegister.
Proof. unfold_operands. frame. Qed.

Lemma heap_getArgument n : respects same_heap (_getArgument n).
Proof. unfold_operands. frame. Qed.

Lemma heap_getGlobal n : respects same_heap (_getGlobal n).
Proof. unfold_operands. frame. Qed.

Lemma heap_getBasicBlock n : respects same_heap (_getBasicBlock n).
Proof. unfold_operands. frame. Qed.

(** The two functions that write a register table. *)
Lemma getType_inv n s t s' :
  _getType n s = Returns t s' -> getType n = Some t /\ s' = s.
Proof.
  unfold _getType. destruct (getType n); [| discriminate].
  by intros [= <- <-].
Qed.

Lemma getSpecialVirtualRegister_inv id lane s r s' :
  _getSpecialVirtualRegister id lane s = Returns r s' ->
  (_specialRegisters s !! special_hash id lane = Some r /\ s' = s) \/
  (_specialRegisters s !! special_hash id lane = None /\
   exists t k fn,
     getType "i32" = Some t /\
     _function s = Some k /\ ir._functions (_module s) !! k = Some fn /\
     r = length (ir.registers fn) /\
     _specialRegisters s'
     = <[special_hash id lane := r]> (_specialRegisters s) /\
     _module s'
     = ir.Module_with_function k
         (ir.newVirtualRegister t (special_name id lane) fn).2 (_module s) /\
     _function s' = _function s /\ _block s' = _block s /\
     _registers s' = _registers s /\ _blocks s' = _blocks s /\
     _ptxInstruction s' = _ptxInstruction s /\ heap s' = heap s).
Proof.
  unfold _getSpecialVirtualRegister. rewrite T_bind_get.
  destruct (_specialRegisters s !! special_hash id lane) eqn:Hs.
  - intros [= <- <-]. by left.
  - intros (ty & s1 & Hty & Hrest)%T_bind_inv.
    apply T_bind_inv in Hrest as (r1 & s2 & Hr & Hrest).
    rewrite T_bind_get in Hrest.
    apply T_bind_inv in Hrest as ([] & s3 & Hset & Hret).
    injection Hret as <- <-. injection Hset as <-.
    apply getType_inv in Hty as [Hty ->].
    apply on_function_inv in Hr
      as (k & fn & Hk & Hfn & -> & Hm & Hf & Hb & Hrg & Hsp & Hbl & Hpi & Hh).
    right. split; [done |]. exists ty, k, fn. cbn. rewrite Hsp.
    repeat split; done.
Qed.

Lemma translateRegisterValue_inv reg type s s' :
  _translateRegisterValue reg type s = Returns tt s' ->
  _registers s !! reg = None /\
  exists t k fn,
    getType (translateTypeName type) = Some t /\
    _function s = Some k /\ ir._functions (_module s) !! k = Some fn /\
    _registers s' = <[reg := length (ir.registers fn)]> (_registers s) /\
    _module s'
    = ir.Module_with_function k
        (ir.newVirtualRegister t (register_name reg) fn).2 (_module s) /\
    _function s' = _function s /\ _block s' = _block s /\
    _specialRegisters s' = _specialRegisters s /\ _blocks s' = _blocks s /\
    _ptxInstruction s' = _ptxInstruction s /\ heap s' = heap s.
Proof.
  unfold _translateRegisterValue. rewrite T_bind_get.
  destruct (decide _) as [Hd | Hd]; [discriminate |].
  intros (ty & s1 & Hty & Hrest)%T_bind_inv.
  apply T_bind_inv in Hrest as (r1 & s2 & Hr & Hrest).
  rewrite T_bind_get in Hrest. injection Hrest as <-.
  apply getType_inv in Hty as [Hty ->].
  apply on_function_inv in Hr
    as (k & fn & Hk & Hfn & -> & Hm & Hf & Hb & Hrg & Hsp & Hbl & Hpi & Hh).
  split; [by apply eq_None_not_Some |].
  exists ty, k, fn. cbn. rewrite Hrg. repeat split; done.
Qed.

Lemma tables_getSpecialVirtualRegister id lane :
  respects tables_grow (_getSpecialVirtualRegister id lane).
Proof.
  intros s r s' [[_ ->] | (Hn & t & k & fn & _ & _ & _ & _ & Hs & _ & _ & _ & Hr & _)]%getSpecialVirtualRegister_inv;
    [done |].
  split; [by rewrite Hr |]. rewrite Hs. by apply insert_subseteq.
Qed.

Lemma tables_translateRegisterValue reg type :
  respects tables_grow (_translateRegisterValue reg type).
Proof.
  intros s [] s' (Hn & t & k & fn & _ & _ & _ & Hr & _ & _ & _ & Hs & _)%translateRegisterValue_inv.
  split; [| by rewrite Hs]. rewrite Hr. by apply insert_subseteq.
Qed.


#[local] Hint Resolve tables_getSpecialVirtualRegister : frames.

Lemma tables_newTranslatedOperand ptx :
  respects tables_grow (_newTranslatedOperand ptx).
Proof.
  unfold _newTranslatedOperand, _getSpecialValueOperand,
    _newTemporaryRegister, _getArgument, _getGlobal, _getBasicBlock,
    _getRegister, _getType.
  frame.
Qed.

Lemma tables_translatePredicateOperand ptx :
  respects tables_grow (_translatePredicateOperand ptx).
Proof. unfold_operands. frame. Qed.

#[local] Hint Resolve outline_newTranslatedOperand code_newTranslatedOperand
  registers_newTranslatedOperand outline_translatePredicateOperand
  code_translatePredicateOperand registers_translatePredicateOperand
  tables_newTranslatedOperand tables_translatePredicateOperand
  tables_translateRegisterValue : frames.

(** Instructions and blocks. *)
Lemma outline_translateInstruction ptx :
  respects same_outline (_translateInstruction ptx).
Proof. unfold_instructions. frame. Qed.

Lemma registers_translateInstruction ptx :
  respects same_registers (_translateInstruction ptx).
Proof. unfold_instructions. frame. Qed.

Lemma tables_translateInstruction ptx :
  respects tables_grow (_translateInstruction ptx).
Proof. unfold_instructions. frame. Qed.

#[local] Hint Resolve outline_translateInstruction
  registers_translateInstruction tables_translateInstruction : frames.

Lemma extend_newTranslatedOperand ptx :
  respects registers_extend (_newTranslatedOperand ptx).
Proof. unfold_operands. frame. Qed.

Lemma extend_translatePredicateOperand ptx :
  respects registers_extend (_translatePredicateOperand ptx).
Proof. unfold_operands. frame. Qed.

#[local] Hint Resolve extend_newTranslatedOperand
  extend_translatePredicateOperand : frames.

Lemma extend_translateInstruction ptx :
  respects registers_extend (_translateInstruction ptx).
Proof. unfold_instructions. frame. Qed.

#[local] Hint Resolve extend_translateInstruction : frames.

Lemma arguments_newTranslatedOperand ptx :
  respects same_arguments (_newTranslatedOperand ptx).
Proof. unfold_operands. frame. Qed.

Lemma arguments_translatePredicateOperand ptx :
  respects same_arguments (_translatePredicateOperand ptx).
Proof. unfold_operands. frame. Qed.

Lemma instruction_newTranslatedOperand ptx :
  respects same_instruction (_newTranslatedOperand ptx).
Proof. unfold_operands. frame. Qed.

Lemma instruction_translatePredicateOperand ptx :
  respects same_instruction (_translatePredicateOperand ptx).
Proof. unfold_operands. frame. Qed.

#[local] Hint Resolve arguments_newTranslatedOperand
  arguments_translatePredicateOperand : frames.

Lemma arguments_translateInstruction ptx :
  respects same_arguments (_translateInstruction ptx).
Proof. unfold_instructions. frame. Qed.

Lemma settled_on_heap {A} (m : ir.M A) : respects settled (on_heap m).
Proof.
  intros s a s' Hm.
  split; [by eapply outline_on_heap |]. split; [by eapply registers_on_heap |].
  split; [by eapply tables_on_heap |]. split; [by eapply extend_on_heap |].
  by eapply arguments_on_heap.
Qed.

Lemma settled_newTranslatedOperand ptx :
  respects settled (_newTranslatedOperand ptx).
Proof.
  intros s a s' Hm.
  split; [by eapply outline_newTranslatedOperand |].
  split; [by eapply registers_newTranslatedOperand |].
  split; [by eapply tables_newTranslatedOperand |].
  split; [by eapply extend_newTranslatedOperand |].
  by eapply arguments_newTranslatedOperand.
Qed.

Lemma settled_translatePredicateOperand ptx :
  respects settled (_translatePredicateOperand ptx).
Proof.
  intros s a s' Hm.
  split; [by eapply outline_translatePredicateOperand |].
  split; [by eapply registers_translatePredicateOperand |].
  split; [by eapply tables_translatePredicateOperand |].
  split; [by eapply extend_translatePredicateOperand |].
  by eapply arguments_translatePredicateOperand.
Qed.

Lemma settled_translateInstruction ptx :
  respects settled (_translateInstruction ptx).
Proof.
  intros s a s' Hm.
  split; [by eapply outline_translateInstruction |].
  split; [by eapply registers_translateInstruction |].
  split; [by eapply tables_translateInstruction |].
  split; [by eapply extend_translateInstruction |].
  by eapply arguments_translateInstruction.
Qed.

Lemma settled_on_block f : respects settled (on_block f).
Proof.
  intros s a s' Hm.
  split; [revert Hm; apply (respects_on_block same_outline); intros g Hg;
          frame |].
  split; [revert Hm; apply (respects_on_block same_registers); intros g Hg;
          frame |].
  split; [revert Hm; apply (respects_on_block tables_grow); intros g Hg;
          frame |].
  split; [revert Hm; apply (respects_on_block registers_extend); intros g Hg;
          frame |].
  revert Hm; apply (respects_on_block same_arguments); intros g Hg; frame.
Qed.

Lemma outline_translateBasicBlock block :
  respects same_outline (_translateBasicBlock block).
Proof. unfold _translateBasicBlock. frame. Qed.

Lemma registers_translateBasicBlock block :
  respects same_registers (_translateBasicBlock block).
Proof. unfold _translateBasicBlock. frame. Qed.

Lemma tables_translateBasicBlock block :
  respects tables_grow (_translateBasicBlock block).
Proof. unfold _translateBasicBlock. frame. Qed.

Lemma outline_translateRegisterValue reg type :
  respects same_outline (_translateRegisterValue reg type).
Proof. unfold _translateRegisterValue, _getType. frame. Qed.

#[local] Hint Resolve outline_translateBasicBlock
  registers_translateBasicBlock tables_translateBasicBlock
  outline_translateRegisterValue : frames.

Lemma tables_translateKernel kernel :
  respects tables_grow (_translateKernel kernel).
Proof. unfold _translateKernel. frame. Qed.

Lemma tables_translateGlobal global :
  respects tables_grow (_translateGlobal global).
Proof. unfold _translateGlobal, _translateInitializer, _getType. frame. Qed.

#[local] Hint Resolve tables_translateKernel tables_translateGlobal : frames.

Lemma tables_translate m : respects tables_grow (translate m).
Proof. unfold translate, newModule. frame. Qed.

(** Nothing records a block, and only [_translateKernel] moves to
    another function. *)
Lemma labels_newTranslatedOperand ptx :
  respects same_labels (_newTranslatedOperand ptx).
Proof. unfold_operands. frame. Qed.

Lemma labels_translatePredicateOperand ptx :
  respects same_labels (_translatePredicateOperand ptx).
Proof. unfold_operands. frame. Qed.

Lemma function_newTranslatedOperand ptx :
  respects same_function (_newTranslatedOperand ptx).
Proof. unfold_operands. frame. Qed.

Lemma function_translatePredicateOperand ptx :
  respects same_function (_translatePredicateOperand ptx).
Proof. unfold_operands. frame. Qed.

#[local] Hint Resolve labels_newTranslatedOperand
  labels_translatePredicateOperand function_newTranslatedOperand
  function_translatePredicateOperand : frames.

Lemma labels_translateInstruction ptx :
  respects same_labels (_translateInstruction ptx).
Proof. unfold_instructions. frame. Qed.

Lemma function_translateInstruction ptx :
  respects same_function (_translateInstruction ptx).
Proof. unfold_instructions. frame. Qed.

#[local] Hint Resolve labels_translateInstruction
  function_translateInstruction : frames.

Lemma labels_translateBasicBlock block :
  respects same_labels (_translateBasicBlock block).
Proof. unfold _translateBasicBlock. frame. Qed.

Lemma function_translateBasicBlock block :
  respects same_function (_translateBasicBlock block).
Proof. unfold _translateBasicBlock. frame. Qed.

Lemma labels_translateRegisterValue reg type :
  respects same_labels (_translateRegisterValue reg type).
Proof. unfold _translateRegisterValue, _getType. frame. Qed.

Lemma function_translateRegisterValue reg type :
  respects same_function (_translateRegisterValue reg type).
Proof. unfold _translateRegisterValue, _getType. frame. Qed.

#[local] Hint Resolve labels_translateBasicBlock
  function_translateBasicBlock labels_translateRegisterValue
  function_translateRegisterValue : frames.

Lemma labels_translateKernel kernel :
  respects same_labels (_translateKernel kernel).
Proof. unfold _translateKernel. frame. Qed.

Lemma labels_translateGlobal global :
  respects same_labels (_translateGlobal global).
Proof. unfold _translateGlobal, _translateInitializer, _getType. frame. Qed.

#[local] Hint Resolve labels_translateKernel labels_translateGlobal : frames.

Lemma labels_translate m : respects same_labels (translate m).
Proof. unfold translate, newModule. frame. Qed.

(** X21. No step of the translation records a basic block: [translate]
    returns with the block table it started with, and a label operand
    whose name is not in the table (any label, for the empty table of a
    new translator) throws the error of [_getBasicBlock]. *)
Theorem blocks_are_never_recorded :
  (forall m s s', translate m s = Returns tt s' -> _blocks s' = _blocks s) /\
  (forall ptx s,
      PTXOperand.addressMode ptx = PTXOperand.Label ->
      _blocks s !! PTXOperand.identifier ptx = None ->
      _newTranslatedOperand ptx s
      = Throws ("Basic block " +:+ PTXOperand.identifier ptx
                  +:+ " was not declared in this function.")).
Proof.
  split.
  - intros m s s' Ht. exact (labels_translate m s tt s' Ht).
  - intros ptx s Hmode Hnone.
    unfold _newTranslatedOperand, _getBasicBlock. rewrite Hmode.
    apply T_bind_Throws. rewrite T_bind_get, Hnone. reflexivity.
Qed.

(** *** The register table across kernels *)

Lemma register_loop_inv regs : forall s s',
  for_each regs (fun reg => _translateRegisterValue reg.1 reg.2) s
  = Returns tt s' ->
  NoDup regs.*1 /\
  (forall r, r ∈ regs.*1 ->
             _registers s !! r = None /\ is_Some (_registers s' !! r)) /\
  _registers s ⊆ _registers s'.
Proof.
  induction regs as [| [reg type] regs IH]; intros s s'; cbn [for_each].
  - intros [= <-]. split; [constructor |].
    split; [intros r Hr; inversion Hr | done].
  - intros ([] & s1 & Hreg & Hrest)%T_bind_inv. cbn in Hreg.
    apply translateRegisterValue_inv in Hreg
      as (Hnone & t & k & fn & _ & _ & _ & Hr1 & _).
    apply IH in Hrest as (Hnd & Hall & Hsub).
    assert (Hsub1 : _registers s ⊆ _registers s1)
      by (rewrite Hr1; by apply insert_subseteq).
    assert (Hin1 : is_Some (_registers s1 !! reg))
      by (rewrite Hr1, lookup_insert_eq; by eexists).
    cbn. split; [| split].
    + apply NoDup_cons. split; [| done]. intros Hin.
      destruct (Hall reg Hin) as [Hn _]. rewrite Hn in Hin1.
      by destruct Hin1.
    + intros r [-> | Hin]%elem_of_cons.
      * split; [done |]. destruct Hin1 as [x Hx]. exists x.
        eapply lookup_weaken; eassumption.
      * destruct (Hall r Hin) as [Hn Hs]. split; [| done].
        eapply lookup_weaken_None; eassumption.
    + etrans; eassumption.
Qed.

Lemma translateKernel_registers kernel s s' :
  _translateKernel kernel s = Returns tt s' ->
  NoDup (PTXKernel.getReferencedRegisters kernel).*1 /\
  (forall r, r ∈ (PTXKernel.getReferencedRegisters kernel).*1 ->
             _registers s !! r = None /\ is_Some (_registers s' !! r)) /\
  _registers s ⊆ _registers s'.
Proof.
  unfold _translateKernel.
  intros (function & s1 & Hnew & Hrest)%T_bind_inv.
  apply T_bind_inv in Hrest as ([] & s2 & Hset & Hrest).
  apply T_bind_inv in Hrest as ([] & s3 & Hregs & Hrest).
  apply T_bind_inv in Hrest as ([] & s4 & Hfirst & Hsecond).
  assert (H2 : _registers s2 = _registers s).
  { unfold on_module in Hnew. injection Hnew as _ <-.
    injection Hset as <-. reflexivity. }
  assert (H4 : _registers s4 = _registers s3).
  { revert Hfirst. apply (respects_for_each same_registers). intros block.
    frame. }
  assert (H5 : _registers s' = _registers s4).
  { revert Hsecond. apply (respects_for_each same_registers). intros block.
    frame. }
  apply register_loop_inv in Hregs as (Hnd & Hall & Hsub).
  rewrite H5, H4, <- H2. done.
Qed.

Lemma kernel_loop_registers kernels : forall s s',
  for_each kernels _translateKernel s = Returns tt s' ->
  NoDup (kernels ≫= fun kernel => (PTXKernel.getReferencedRegisters kernel).*1)
  /\
  (forall r,
      r ∈ (kernels ≫= fun kernel => (PTXKernel.getReferencedRegisters kernel).*1) ->
      _registers s !! r = None /\ is_Some (_registers s' !! r)).
Proof.
  induction kernels as [| kernel kernels IH]; intros s s'; cbn [for_each].
  - intros _. split; [constructor | intros r Hr; inversion Hr].
  - intros ([] & s1 & Hk & Hrest)%T_bind_inv.
    apply translateKernel_registers in Hk as (Hnd & Hall & Hsub).
    assert (Hsub' : _registers s1 ⊆ _registers s').
    { assert (Hg : tables_grow s1 s').
      { revert Hrest. apply (respects_for_each tables_grow).
        apply tables_translateKernel. }
      apply Hg. }
    apply IH in Hrest as (Hnds & Halls).
    rewrite bind_cons. split.
    + apply NoDup_app. split; [done |]. split; [| done].
      intros r Hr Hrs. destruct (Hall r Hr) as [_ [x Hx]].
      destruct (Halls r Hrs) as [Hn _]. by rewrite Hn in Hx.
    + intros r [Hr | Hrs]%elem_of_app.
      * destruct (Hall r Hr) as [Hn [x Hx]]. split; [done |].
        exists x. eapply lookup_weaken; eassumption.
      * destruct (Halls r Hrs) as [Hn Hs]. split; [| done].
        eapply lookup_weaken_None; eassumption.
Qed.

Lemma tables_newModule name : respects tables_grow (newModule name).
Proof. unfold newModule. frame. Qed.

(** X20. The register table is never cleared, so one translator cannot
    translate two kernels that reference the same PTX register id:
    [translate] returns only if no id is referenced twice, in one kernel
    or in two, and none was declared before the call; every referenced id
    is then declared.  Otherwise the second declaration throws the
    duplicate-register error. *)
Theorem kernels_cannot_share_a_register_id (m : PTXModule) (s s' : State) :
  translate m s = Returns tt s' ->
  NoDup (kernels m
           ≫= fun kernel => (PTXKernel.getReferencedRegisters kernel).*1) /\
  (forall r,
      r ∈ (kernels m
             ≫= fun kernel => (PTXKernel.getReferencedRegisters kernel).*1) ->
      _registers s !! r = None /\ is_Some (_registers s' !! r)).
Proof.
  unfold translate.
  intros ([] & s1 & Hnew & Hrest)%T_bind_inv.
  apply T_bind_inv in Hrest as ([] & s2 & Hglobals & Hkernels).
  assert (Hsub : _registers s ⊆ _registers s2).
  { etrans.
    - apply (tables_newModule _ _ _ _ Hnew).
    - assert (Hg : tables_grow s1 s2).
      { revert Hglobals. apply (respects_for_each tables_grow).
        apply tables_translateGlobal. }
      apply Hg. }
  apply kernel_loop_registers in Hkernels as (Hnd & Hall).
  split; [done |]. intros r Hr. destruct (Hall r Hr) as [Hn Hs].
  split; [| done]. eapply lookup_weaken_None; eassumption.
Qed.

(** *** The special registers across kernels *)

Lemma translateKernel_function kernel s s' :
  _translateKernel kernel s = Returns tt s' ->
  _function s' = Some (length (ir._functions (_module s))).
Proof.
  unfold _translateKernel.
  intros (function & s1 & Hnew & Hrest)%T_bind_inv.
  apply T_bind_inv in Hrest as ([] & s2 & Hset & Hrest).
  assert (H2 : _function s2 = Some (length (ir._functions (_module s)))).
  { unfold on_module in Hnew. injection Hnew as <- <-.
    injection Hset as <-. reflexivity. }
  rewrite <- H2. revert Hrest. apply (respects_bind same_function).
  - frame.
  - intros []. frame.
Qed.

(** X23. The table of special registers is never cleared either: an
    entry made before a kernel is translated (by an earlier kernel, for
    one) is still there afterwards, when the translator has moved on to
    the function of this kernel, and a request for that special register
    and lane returns the register of the earlier function without creating
    one. *)
Theorem special_registers_outlive_their_kernel
    (kernel : PTXKernel.t) (s s' : State) (id lane : N) (r : nat) :
  _translateKernel kernel s = Returns tt s' ->
  _specialRegisters s !! special_hash id lane = Some r ->
  _function s' = Some (length (ir._functions (_module s))) /\
  _getSpecialVirtualRegister id lane s' = Returns r s'.
Proof.
  intros Hk Hr. split; [eapply translateKernel_function, Hk |].
  apply tables_translateKernel in Hk as [_ Hsub].
  unfold _getSpecialVirtualRegister. rewrite T_bind_get.
  by rewrite (lookup_weaken _ _ _ _ Hr Hsub).
Qed.

(** *** Globals, kernels and the module *)

Lemma fmap_eq_Forall2 {A B C} (f : A -> C) (g : B -> C) l1 : forall l2,
  f <$> l1 = g <$> l2 -> Forall2 (fun x y => f x = g y) l1 l2.
Proof.
  induction l1 as [| x l1 IH]; intros [| y l2] Heq; try discriminate Heq.
  - constructor.
  - injection Heq as Hx Hl. constructor; [done | by apply IH].
Qed.

Lemma translateKernel_outline kernel s s' :
  _translateKernel kernel s = Returns tt s' ->
  outline s'
  = (_blocks s, ir.module_name (_module s), ir._globals (_module s),
     (((fun f => (ir.function_name f, ir.function_linkage f))
         <$> ir._functions (_module s))
        ++ [(PTXKernel.name kernel,
             _translateLinkingDirective
               (PTXKernel.linkingDirective kernel))])%list).
Proof.
  unfold _translateKernel.
  intros (function & s1 & Hnew & Hrest)%T_bind_inv.
  apply T_bind_inv in Hrest as ([] & s2 & Hset & Hrest).
  assert (Hout : same_outline s2 s').
  { revert Hrest. apply (respects_bind same_outline).
    - frame.
    - intros []. frame. }
  rewrite Hout. unfold on_module in Hnew. injection Hnew as <- <-.
  injection Hset as <-. unfold outline. cbn. by rewrite fmap_app.
Qed.

Lemma translateGlobal_inv global s s' :
  _translateGlobal global s = Returns tt s' ->
  PTXGlobal.initializedBytes global = 0%N /\
  exists t,
    getType (translateTypeName (PTXGlobal.type global)) = Some t /\
    _module s'
    = (ir.newGlobal (PTXGlobal.name global) t
         (_translateLinkage (PTXGlobal.attribute global)) (_module s)).2.
Proof.
  unfold _translateGlobal.
  intros (t & s1 & Ht & Hrest)%T_bind_inv.
  apply getType_inv in Ht as [Ht ->].
  apply T_bind_inv in Hrest as (g & s2 & Hnew & Hrest).
  case_decide as Hinit.
  - apply T_bind_inv in Hrest as (c & s3 & Hc & _).
    unfold _translateInitializer in Hc.
    apply T_bind_inv in Hc as (? & ? & [=] & _).
  - injection Hrest as <-. split.
    { destruct (decide (PTXGlobal.initializedBytes global = 0%N));
        [done | contradiction]. }
    exists t. split; [done |].
    unfold on_module in Hnew. by injection Hnew as _ <-.
Qed.

Lemma global_loop_inv globals : forall s s',
  for_each globals _translateGlobal s = Returns tt s' ->
  ir.module_name (_module s') = ir.module_name (_module s) /\
  ir._functions (_module s') = ir._functions (_module s) /\
  exists vs,
    ir._globals (_module s') = (ir._globals (_module s) ++ vs)%list /\
    Forall2 (fun g v =>
               ir.global_name v = PTXGlobal.name g /\
               getType (translateTypeName (PTXGlobal.type g))
               = Some (ir.global_type v) /\
               ir.global_linkage v = _translateLinkage (PTXGlobal.attribute g) /\
               PTXGlobal.initializedBytes g = 0%N)
            globals vs.
Proof.
  induction globals as [| g globals IH]; intros s s'; cbn [for_each].
  - intros [= <-]. split; [done |]. split; [done |].
    exists []. by rewrite app_nil_r.
  - intros ([] & s1 & Hg & Hrest)%T_bind_inv.
    apply translateGlobal_inv in Hg as (Hinit & t & Ht & Hm).
    apply IH in Hrest as (Hn & Hf & vs & Hgs & Hall).
    rewrite Hn, Hf, Hgs, Hm. cbn. split; [done |]. split; [done |].
    eexists (_ :: vs). rewrite <- app_assoc. split; [reflexivity |].
    constructor; [| done]. cbn. done.
Qed.

Lemma kernel_loop_outline kernels : forall s s',
  for_each kernels _translateKernel s = Returns tt s' ->
  outline s'
  = (_blocks s, ir.module_name (_module s), ir._globals (_module s),
     (((fun f => (ir.function_name f, ir.function_linkage f))
         <$> ir._functions (_module s))
        ++ ((fun kernel =>
               (PTXKernel.name kernel,
                _translateLinkingDirective
                  (PTXKernel.linkingDirective kernel)))
              <$> kernels))%list).
Proof.
  induction kernels as [| kernel kernels IH]; intros s s'; cbn [for_each].
  - intros [= <-]. unfold outline. cbn. by rewrite app_nil_r.
  - intros ([] & s1 & Hk & Hrest)%T_bind_inv.
    apply translateKernel_outline in Hk. apply IH in Hrest.
    rewrite Hrest. unfold outline in Hk. injection Hk as -> -> -> ->.
    cbn. by rewrite <- app_assoc.
Qed.

(** X19. When [translate] returns, the translator holds a module named
    after the path of the PTX module, with one global per PTX global and
    one function per kernel, in the order of the source: a global has the
    name of its source, the type that the compiler has for the translated
    type name, and external linkage exactly for the [Extern] attribute; a
    function has the name of its kernel and external linkage exactly for
    the [Extern] linking directive.  It returns only if no global has
    initialised bytes. *)
Theorem translate_builds_the_module (m : PTXModule) (s s' : State) :
  translate m s = Returns tt s' ->
  ir.module_name (_module s') = path m /\
  Forall2 (fun g v =>
             ir.global_name v = PTXGlobal.name g /\
             getType (translateTypeName (PTXGlobal.type g))
             = Some (ir.global_type v) /\
             ir.global_linkage v
             = (if decide (PTXGlobal.attribute g = PTXGlobal.Extern)
                then ir.ExternalLinkage else ir.PrivateLinkage) /\
             PTXGlobal.initializedBytes g = 0%N)
          (globals m) (ir._globals (_module s')) /\
  Forall2 (fun kernel f =>
             ir.function_name f = PTXKernel.name kernel /\
             ir.function_linkage f
             = match PTXKernel.linkingDirective kernel with
               | PTXKernel.Extern => ir.ExternalLinkage
               | _ => ir.PrivateLinkage
               end)
          (kernels m) (ir._functions (_module s')).
Proof.
  unfold translate.
  intros ([] & s1 & Hnew & Hrest)%T_bind_inv.
  apply T_bind_inv in Hrest as ([] & s2 & Hglobals & Hkernels).
  unfold newModule, on_module in Hnew. injection Hnew as <-.
  apply global_loop_inv in Hglobals as (Hn & Hf & vs & Hgs & Hall).
  apply kernel_loop_outline in Hkernels. cbn in Hn, Hf, Hgs.
  unfold outline in Hkernels. rewrite Hn, Hf, Hgs in Hkernels.
  injection Hkernels as _ Hname Hglob Hfun. cbn in Hfun.
  rewrite Hname, Hglob. split; [done |]. split; [exact Hall |].
  apply Forall2_flip. apply fmap_eq_Forall2 in Hfun.
  eapply Forall2_impl; [exact Hfun |]. cbn. intros f kernel [= -> ->]. done.
Qed.

(** *** Stores *)

(** X22. A PTX store is accepted by [isSimpleUnaryInstruction], but
    [newUnaryInstruction] has no case for it and returns the null pointer:
    the translation of a store never returns and never reaches the
    assertion of [_translateInstruction].  It throws when the guard names
    an undeclared register, and otherwise calls [setGuard] through the
    null pointer. *)
Theorem store_is_never_lowered (ptx : PTXInstruction.t) (s : State) :
  PTXInstruction.opcode ptx = PTXInstruction.St ->
  _translateInstruction ptx s
  = if bool_decide (PTXOperand.condition (PTXInstruction.pg ptx)
                    <> PTXOperand.PT)
       && bool_decide (PTXOperand.condition (PTXInstruction.pg ptx)
                       <> PTXOperand.nPT)
    then match _registers s !! PTXOperand.reg (PTXInstruction.pg ptx) with
         | Some _ => UndefinedBehaviour
         | None =>
             Throws ("PTX register "
                       +:+ register_name (PTXOperand.reg (PTXInstruction.pg ptx))
                       +:+ " used without declaration.")
         end
    else UndefinedBehaviour.
Proof.
  intros Hop.
  unfold _translateInstruction, _translateComplexInstruction,
    _translateSimpleBinaryInstruction, _translateSimpleUnaryInstruction,
    isSimpleBinaryInstruction, isSimpleUnaryInstruction,
    newUnaryInstruction, _translatePredicateOperand, _getRegister.
  rewrite Hop. cbn [negb].
  unfold mbind, mret, fmap, T_mbind, T_mret, T_fmap, T_bind, T_ret, get,
    throw, on_heap, ir.new, set_ptxInstruction, arrow, undefined.
  cbn.
  destruct (bool_decide _ && bool_decide _); cbn;
    [destruct (_registers s !! _) |]; reflexivity.
Qed.

(** *** What the lowering of an instruction builds *)

Lemma on_heap_new_inv x s p s' :
  on_heap (ir.new x) s = Returns p s' ->
  exists l, p = Some l /\ heap s !! l = None /\ heap s' = <[l := x]> (heap s).
Proof.
  intros (Hn & _)%on_heap_inv.
  apply new_fresh in Hn as (l & -> & Hl & ->). eauto.
Qed.

Lemma alloc_after {A} (pre : T A) (x : A -> ir.Operand) s p s' :
  respects same_heap pre ->
  (pre ≫= fun v => on_heap (ir.new (x v))) s = Returns p s' ->
  exists l o,
    p = Some l /\ heap s !! l = None /\ heap s' = <[l := o]> (heap s).
Proof.
  intros Hpre (v & s1 & Hv & Hn)%T_bind_inv.
  apply Hpre in Hv. apply on_heap_new_inv in Hn as (l & -> & Hl & ->).
  rewrite Hv in *. eauto.
Qed.

Lemma newTranslatedOperand_alloc ptx s p s' :
  _newTranslatedOperand ptx s = Returns p s' ->
  exists l o,
    p = Some l /\ heap s !! l = None /\ heap s' = <[l := o]> (heap s).
Proof.
  unfold _newTranslatedOperand, _getSpecialValueOperand.
  destruct (PTXOperand.addressMode ptx).
  - apply alloc_after, heap_getRegister.
  - apply alloc_after, heap_getRegister.
  - intros (l & -> & Hl & ->)%on_heap_new_inv. eauto.
  - rewrite T_bind_get. destruct (_ptxInstruction s); [| discriminate].
    destruct (_ && _).
    + apply alloc_after, heap_getArgument.
    + apply alloc_after, heap_getGlobal.
  - apply alloc_after, heap_getBasicBlock.
  - apply alloc_after, heap_getSpecialVirtualRegister.
  - apply alloc_after, heap_newTemporaryRegister.
  - discriminate.
Qed.

Lemma translatePredicateOperand_alloc ptx s p s' :
  _translatePredicateOperand ptx s = Returns p s' ->
  exists l o,
    p = Some l /\ heap s !! l = None /\ heap s' = <[l := o]> (heap s).
Proof.
  unfold _translatePredicateOperand. apply alloc_after.
  destruct (_ && _); frame.
Qed.

Lemma getRegister_inv id s r s' :
  _getRegister id s = Returns r s' -> _registers s !! id = Some r /\ s' = s.
Proof.
  unfold _getRegister. rewrite T_bind_get.
  destruct (_registers s !! id); [| discriminate]. by intros [= <- <-].
Qed.

Lemma newTranslatedOperand_spec ptx i s p s' :
  _ptxInstruction s = Some i ->
  _newTranslatedOperand ptx s = Returns p s' ->
  exists l v,
    p = Some l /\ heap s !! l = None /\ heap s' = <[l := v]> (heap s) /\
    operand_lowered s' (PTXInstruction.addressSpace i) ptx v.
Proof.
  intros Hi Ht.
  destruct (newTranslatedOperand_alloc _ _ _ _ Ht) as (l & v & -> & Hl & Hh).
  exists l, v. split; [done |]. split; [done |]. split; [done |].
  assert (Hv : heap s' !! l = Some v) by (rewrite Hh; apply lookup_insert_eq).
  revert Ht. unfold _newTranslatedOperand, operand_lowered.
  destruct (PTXOperand.addressMode ptx).
  - intros (reg & s1 & [Hreg ->]%getRegister_inv & Hn)%T_bind_inv.
    pose proof (registers_on_heap _ _ _ _ Hn) as Hr.
    apply on_heap_new_inv in Hn as (l' & [= <-] & _ & Hh').
    exists reg. rewrite Hr. split; [done |].
    rewrite Hh', lookup_insert_eq in Hv. congruence.
  - intros (reg & s1 & [Hreg ->]%getRegister_inv & Hn)%T_bind_inv.
    pose proof (registers_on_heap _ _ _ _ Hn) as Hr.
    apply on_heap_new_inv in Hn as (l' & [= <-] & _ & Hh').
    exists reg. rewrite Hr. split; [done |].
    rewrite Hh', lookup_insert_eq in Hv. congruence.
  - intros Hn. apply on_heap_new_inv in Hn as (l' & [= <-] & _ & Hh').
    rewrite Hh', lookup_insert_eq in Hv. congruence.
  - rewrite T_bind_get, Hi.
    destruct (bool_decide _ && PTXOperand.isArgument ptx).
    + intros (argument & s1 & Harg & Hn)%T_bind_inv.
      unfold _getArgument in Harg.
      apply T_bind_inv in Harg as (fn & s0 & Hfn & Harg).
      apply on_function_inv in Hfn
        as (k & fn0 & Hk & Hfn0 & [= <-] & Hm & Hf & _).
      destruct (list_find _ _) as [[arg a] |] eqn:Hfind; [| discriminate].
      injection Harg as <- <-.
      pose proof (on_heap_inv _ _ _ _ Hn) as (_ & Hm' & Hf' & _).
      apply on_heap_new_inv in Hn as (l' & [= <-] & _ & Hh').
      exists fn, arg, a. split; [| split; [exact Hfind |]].
      * unfold current_function. rewrite Hf', Hm', Hf, Hk, Hm. cbn.
        apply list_lookup_insert_eq. eapply lookup_lt_Some, Hfn0.
      * rewrite Hh', lookup_insert_eq in Hv. congruence.
    + intros (global & s1 & Hg & Hn)%T_bind_inv.
      unfold _getGlobal in Hg. rewrite T_bind_get in Hg.
      destruct (ir.getGlobal _ _) as [g |] eqn:Hget; [| discriminate].
      injection Hg as <- <-.
      pose proof (on_heap_inv _ _ _ _ Hn) as (_ & Hm' & _).
      apply on_heap_new_inv in Hn as (l' & [= <-] & _ & Hh').
      exists g. rewrite Hm'. split; [done |].
      rewrite Hh', lookup_insert_eq in Hv. congruence.
  - intros (block & s1 & Hb & Hn)%T_bind_inv.
    unfold _getBasicBlock in Hb. rewrite T_bind_get in Hb.
    destruct (_blocks s !! _) as [b |] eqn:Hget; [| discriminate].
    injection Hb as <- <-.
    pose proof (on_heap_inv _ _ _ _ Hn) as (_ & _ & _ & _ & _ & _ & Hb' & _).
    apply on_heap_new_inv in Hn as (l' & [= <-] & _ & Hh').
    exists b. rewrite Hb'. split; [done |].
    rewrite Hh', lookup_insert_eq in Hv. congruence.
  - unfold _getSpecialValueOperand.
    intros (reg & s1 & Hreg & Hn)%T_bind_inv.
    pose proof (on_heap_inv _ _ _ _ Hn) as (_ & _ & _ & _ & _ & Hs' & _).
    apply on_heap_new_inv in Hn as (l' & [= <-] & _ & Hh').
    exists reg. rewrite Hs'. split.
    + apply getSpecialVirtualRegister_inv in Hreg
        as [[Hsome ->] | (_ & t & k & fn & _ & _ & _ & _ & Hsp & _)];
        [done |].
      rewrite Hsp. apply lookup_insert_eq.
    + rewrite Hh', lookup_insert_eq in Hv. congruence.
  - intros (reg & s1 & Hreg & Hn)%T_bind_inv.
    unfold _newTemporaryRegister in Hreg.
    apply T_bind_inv in Hreg as (t & s0 & [Ht ->]%getType_inv & Hreg).
    apply on_function_inv in Hreg
      as (k & fn & Hk & Hfn & -> & Hm & Hf & _).
    pose proof (on_heap_inv _ _ _ _ Hn) as (_ & Hm' & Hf' & _).
    apply on_heap_new_inv in Hn as (l' & [= <-] & _ & Hh').
    exists (length (ir.registers fn)),
      {| ir.vr_id := fresh (ir.vr_id <$> ir.registers fn);
         ir.vr_type := t; ir.vr_name := "" |}.
    split; [| split; [| split; [exact Ht |]]].
    + unfold register_at, current_function. rewrite Hf', Hm', Hf, Hk, Hm.
      cbn. rewrite list_lookup_insert_eq by (eapply lookup_lt_Some, Hfn).
      cbn. rewrite lookup_app_r by done. rewrite Nat.sub_diag. reflexivity.
    + reflexivity.
    + rewrite Hh', lookup_insert_eq in Hv. cbn in Hv. congruence.
  - discriminate.
Qed.

Lemma translatePredicateOperand_spec ptx s p s' :
  _translatePredicateOperand ptx s = Returns p s' ->
  exists l v,
    p = Some l /\ heap s !! l = None /\ heap s' = <[l := v]> (heap s) /\
    guard_lowered s' ptx v.
Proof.
  intros Ht.
  destruct (translatePredicateOperand_alloc _ _ _ _ Ht)
    as (l & v & -> & Hl & Hh).
  exists l, v. split; [done |]. split; [done |]. split; [done |].
  assert (Hv : heap s' !! l = Some v) by (rewrite Hh; apply lookup_insert_eq).
  revert Ht. unfold _translatePredicateOperand, guard_lowered.
  intros (r & s1 & Hr & Hn)%T_bind_inv.
  pose proof (registers_on_heap _ _ _ _ Hn) as Hrs.
  apply on_heap_new_inv in Hn as (l' & [= <-] & _ & Hh').
  rewrite Hh', lookup_insert_eq in Hv. injection Hv as <-.
  destruct (bool_decide _ && bool_decide _).
  - apply T_fmap_inv in Hr as (reg & [Hreg ->]%getRegister_inv & ->).
    exists reg. rewrite Hrs. done.
  - injection Hr as <- <-. done.
Qed.

Lemma current_function_settled s s' fn :
  settled s s' -> current_function s = Some fn ->
  exists fn', current_function s' = Some fn' /\
              ir.arguments fn' = ir.arguments fn.
Proof.
  intros (_ & _ & _ & [Hf _] & Ha). unfold current_function. rewrite Hf.
  destruct (_function s) as [k |]; [| discriminate]. cbn. intros Hk.
  unfold same_arguments in Ha.
  apply (f_equal (fun l => l !! k)) in Ha.
  rewrite !list_lookup_fmap, Hk in Ha. cbn in Ha.
  destruct (ir._functions (_module s') !! k) as [fn' |]; [| discriminate].
  exists fn'. split; [done |]. by injection Ha.
Qed.

Lemma operand_lowered_settled s s' space ptx v :
  settled s s' -> operand_lowered s space ptx v ->
  operand_lowered s' space ptx v.
Proof.
  intros Hs. pose proof Hs as (Ho & Hr & [_ Hsp] & [Hf Hext] & Ha).
  unfold operand_lowered. unfold same_outline, outline in Ho.
  injection Ho as Hb _ Hg _. unfold same_registers in Hr.
  destruct (PTXOperand.addressMode ptx); try done.
  - rewrite Hr. done.
  - rewrite Hr. done.
  - destruct (_ && _).
    + intros (fn & argument & a & Hfn & Hfind & ->).
      destruct (current_function_settled _ _ _ Hs Hfn) as (fn' & Hfn' & Harg).
      exists fn', argument, a. rewrite Harg. done.
    + intros (global & Hget & ->). exists global. split; [| done].
      unfold ir.getGlobal in *. by rewrite Hg.
  - rewrite Hb. done.
  - intros (reg & Hreg & ->). exists reg. split; [| done].
    eapply lookup_weaken; eassumption.
  - intros (reg & vr & Hreg & Hrest). exists reg, vr. split; [| done].
    unfold register_at in *.
    destruct (current_function s) as [fn |] eqn:Hfn; [| discriminate].
    cbn in Hreg.
    destruct (Hext (ir.registers fn)) as [more Hmore]; [done |].
    destruct (current_function s') as [fn' |]; [| discriminate].
    cbn in *. injection Hmore as ->. by apply lookup_app_l_Some.
Qed.

Lemma guard_lowered_settled s s' ptx v :
  settled s s' -> guard_lowered s ptx v -> guard_lowered s' ptx v.
Proof.
  intros (_ & Hr & _). unfold guard_lowered, same_registers in *.
  by rewrite Hr.
Qed.

Lemma holds_settled (h h' : gmap positive ir.Operand) p
    (P Q : ir.Operand -> Prop) :
  h ⊆ h' -> (forall v, P v -> Q v) -> holds h p P -> holds h' p Q.
Proof.
  intros Hsub HPQ (l & v & -> & Hv & HP). exists l, v.
  split; [done |]. split; [eapply lookup_weaken; eassumption | by apply HPQ].
Qed.

Lemma operands_lowered_settled s s' ptx o :
  settled s s' -> heap s ⊆ heap s' ->
  operands_lowered s ptx o -> operands_lowered s' ptx o.
Proof.
  intros Hs Hsub. unfold operands_lowered.
  destruct o; try done.
  - intros (Hg & Hd & Ha).
    split; [| split]; (eapply holds_settled; [exact Hsub | | eassumption]);
      intros v; first [apply guard_lowered_settled, Hs
                      | apply operand_lowered_settled, Hs].
  - intros (Hg & Hd & Ha & Hb).
    split; [| split; [| split]];
      (eapply holds_settled; [exact Hsub | | eassumption]);
      intros v; first [apply guard_lowered_settled, Hs
                      | apply operand_lowered_settled, Hs].
Qed.

Lemma arrow_settled {A} (p : option A) (f : A -> ir.M A) s r s' :
  arrow p f s = Returns r s' -> settled s s' /\ same_instruction s s'.
Proof.
  intros Ha. split.
  - revert Ha. apply (respects_arrow settled). intros x.
    apply settled_on_heap.
  - revert Ha. apply (respects_arrow same_instruction). intros x.
    apply instruction_on_heap.
Qed.

Lemma insert_at_same (h0 : gmap positive ir.Operand) l x y :
  <[l := x]> h0 = <[l := y]> h0 -> x = y.
Proof.
  intros Heq. apply (f_equal (fun h => h !! l)) in Heq.
  rewrite !lookup_insert_eq in Heq. by injection Heq.
Qed.

Lemma newUnaryInstruction_new ptx u :
  newUnaryInstruction ptx = Some u ->
  u = ir.UnaryInstruction.new
        (ir.Instruction.opcode (ir.UnaryInstruction.base u)) None.
Proof.
  unfold newUnaryInstruction.
  repeat case_match; intros [= <-]; reflexivity.
Qed.

Lemma newBinaryInstruction_new ptx u :
  newBinaryInstruction ptx = Some u ->
  u = ir.BinaryInstruction.new
        (ir.Instruction.opcode (ir.BinaryInstruction.base u)) None.
Proof.
  unfold newBinaryInstruction.
  repeat case_match; intros [= <-]; reflexivity.
Qed.

Lemma arrow_frames {A} (p : option A) (f : A -> ir.M A) s r s' :
  arrow p f s = Returns r s' ->
  same_code s s' /\ same_function s s' /\
  exists x x', p = Some x /\ r = Some x' /\ f x (heap s) = Some (x', heap s').
Proof.
  intros Ha. split; [| split].
  - revert Ha. apply (respects_arrow same_code). intros x. apply code_on_heap.
  - revert Ha. apply (respects_arrow same_function). intros x.
    apply function_on_heap.
  - by apply arrow_inv.
Qed.

Lemma same_code_current s s' :
  same_code s s' ->
  _function s' = _function s /\ _block s' = _block s /\
  current_blocks s' = current_blocks s.
Proof.
  unfold same_code, code. intros [= Hf Hb Hbs]. split; [done |].
  split; [done |]. unfold current_blocks, current_function. rewrite Hf.
  destruct (_function s) as [k |]; [| done]. cbn.
  apply (f_equal (fun l => snd <$> l !! k)) in Hbs.
  rewrite !list_lookup_fmap in Hbs.
  destruct (ir._functions (_module s') !! k),
    (ir._functions (_module s) !! k); cbn in *; congruence.
Qed.

Lemma NoDup_3 {A} (x y z : A) :
  x <> y -> x <> z -> y <> z -> NoDup [x; y; z].
Proof.
  intros Hxy Hxz Hyz. repeat (apply NoDup_cons; split);
    rewrite ?elem_of_cons, ?elem_of_nil; try tauto. constructor.
Qed.

Lemma NoDup_4 {A} (w x y z : A) :
  w <> x -> w <> y -> w <> z -> x <> y -> x <> z -> y <> z ->
  NoDup [w; x; y; z].
Proof.
  intros Hwx Hwy Hwz Hxy Hxz Hyz. repeat (apply NoDup_cons; split);
    rewrite ?elem_of_cons, ?elem_of_nil; try tauto. constructor.
Qed.

Lemma fresh_after_insert (h : gmap positive ir.Operand) l l' x :
  <[l := x]> h !! l' = None -> l' <> l /\ h !! l' = None.
Proof.
  intros Hn. destruct (decide (l' = l)) as [-> | Hne].
  - by rewrite lookup_insert_eq in Hn.
  - by rewrite lookup_insert_ne in Hn.
Qed.

Lemma translateSimpleUnaryInstruction_inv ptx s r s' :
  _translateSimpleUnaryInstruction ptx s = Returns r s' ->
  (r = false /\ isSimpleUnaryInstruction ptx = false /\ s' = s) \/
  (r = true /\ isSimpleUnaryInstruction ptx = true /\
   exists u s6,
     unary_opcode ptx
     = Some (ir.Instruction.opcode (ir.UnaryInstruction.base u)) /\
     same_code s s6 /\ heap s ⊆ heap s6 /\
     layout (ir.Unary u) /\
     populated (heap s6) (ir.UnaryInstruction.base u) /\
     exclusive (ir.UnaryInstruction.base u) /\
     (forall l, l ∈ operands (ir.UnaryInstruction.base u) ->
                heap s !! l = None) /\
     (_ptxInstruction s = Some ptx -> operands_lowered s6 ptx (ir.Unary u)) /\
     on_block (ir.push_back (ir.Unary u)) s6 = Returns tt s').
Proof.
  unfold _translateSimpleUnaryInstruction.
  destruct (isSimpleUnaryInstruction ptx) eqn:Hsimple; cbn [negb].
  2: { intros [= <- <-]. by left. }
  intros Ht. right.
  apply T_bind_inv in Ht as (p & s1 & Hp & Ht).
  apply T_bind_inv in Ht as (v1 & s2 & Hv1 & Ht).
  apply T_bind_inv in Ht as (d & s3 & Hd & Ht).
  apply T_bind_inv in Ht as (v2 & s4 & Hv2 & Ht).
  apply T_bind_inv in Ht as (a & s5 & Ha & Ht).
  apply T_bind_inv in Ht as (v3 & s6 & Hv3 & Ht).
  pose proof (translatePredicateOperand_spec _ _ _ _ Hp) as HPp.
  pose proof (instruction_translatePredicateOperand _ _ _ _ Hp) as HIp.
  pose proof (arrow_settled _ _ _ _ _ Hv1) as [HS1 HI1].
  pose proof (fun i Hi => newTranslatedOperand_spec _ i _ _ _ Hi Hd) as HPd.
  pose proof (settled_newTranslatedOperand _ _ _ _ Hd) as HSd.
  pose proof (instruction_newTranslatedOperand _ _ _ _ Hd) as HId.
  pose proof (arrow_settled _ _ _ _ _ Hv2) as [HS2 HI2].
  pose proof (fun i Hi => newTranslatedOperand_spec _ i _ _ _ Hi Ha) as HPa.
  pose proof (settled_newTranslatedOperand _ _ _ _ Ha) as HSa.
  pose proof (arrow_settled _ _ _ _ _ Hv3) as [HS3 _].
  apply arrow_frames in Hv1 as (Hc1 & _ & u0 & u1 & Hnew & -> & Hg).
  apply arrow_frames in Hv2 as (Hc2 & _ & ? & u2 & [= <-] & -> & Hsd).
  apply arrow_frames in Hv3 as (Hc3 & _ & ? & u3 & [= <-] & -> & Hsa).
  apply T_bind_inv in Ht as ([] & s7 & Hpush & Ht).
  injection Ht as <- <-.
  pose proof (code_translatePredicateOperand _ _ _ _ Hp) as Hcp.
  pose proof (code_newTranslatedOperand _ _ _ _ Hd) as Hcd.
  pose proof (code_newTranslatedOperand _ _ _ _ Ha) as Hca.
  apply translatePredicateOperand_alloc in Hp as (lp & xp & -> & Hlp & Hh1).
  apply newTranslatedOperand_alloc in Hd as (ld & xd & -> & Hld & Hh3).
  apply newTranslatedOperand_alloc in Ha as (la & xa & -> & Hla & Hh5).
  pose proof (newUnaryInstruction_new _ _ Hnew) as Hu0.
  rewrite Hu0 in Hg.
  cbn in Hg. injection Hg as <- Hh2.
  cbn in Hsd. injection Hsd as <- Hh4.
  cbn in Hsa. injection Hsa as <- Hh6.
  rewrite <- Hh2, Hh1 in Hld. apply fresh_after_insert in Hld as [Hdp Hld].
  rewrite <- Hh4, Hh3, <- Hh2, Hh1 in Hla.
  apply fresh_after_insert in Hla as [Had Hla].
  apply fresh_after_insert in Hla as [Hap Hla].
  assert (Hh : heap s6 = <[la := xa]> (<[ld := xd]> (<[lp := xp]> (heap s))))
    by congruence.
  split; [done |]. split; [done |].
  eexists _, s6. split; [| split; [| split; [| split; [| split;
    [| split; [| split; [| split; [| exact Hpush]]]]]]]].
  - unfold unary_opcode. rewrite Hnew. reflexivity.
  - unfold same_code in *. congruence.
  - rewrite Hh. etrans; [| apply insert_subseteq].
    + etrans; [| apply insert_subseteq].
      * by apply insert_subseteq.
      * by rewrite lookup_insert_ne.
    + rewrite lookup_insert_ne by done. by rewrite lookup_insert_ne.
  - done.
  - rewrite Hh. split; cbn; repeat constructor; eexists; (split; [done |]).
    + rewrite lookup_insert_ne by done. rewrite lookup_insert_ne by done.
      rewrite lookup_insert_eq. by eexists.
    + rewrite lookup_insert_eq. by eexists.
    + rewrite lookup_insert_ne by done. rewrite lookup_insert_eq. by eexists.
  - unfold exclusive. cbn. apply NoDup_3; congruence.
  - unfold operands, held. cbn. intros l Hl.
    repeat (apply elem_of_cons in Hl as [-> | Hl]); try done.
    inversion Hl.
  - intros Hptx.
    assert (Hi2 : _ptxInstruction s2 = Some ptx)
      by (unfold same_instruction in *; congruence).
    assert (Hi4 : _ptxInstruction s4 = Some ptx)
      by (unfold same_instruction in *; congruence).
    destruct HPp as (? & vp & [= <-] & _ & Hh1' & Hgp).
    destruct (HPd _ Hi2) as (? & vd & [= <-] & _ & Hh3' & Hgd).
    destruct (HPa _ Hi4) as (? & va & [= <-] & _ & Hh5' & Hga).
    rewrite Hh1 in Hh1'. apply insert_at_same in Hh1' as <-.
    rewrite Hh3 in Hh3'. apply insert_at_same in Hh3' as <-.
    rewrite Hh5 in Hh5'. apply insert_at_same in Hh5' as <-.
    assert (H16 : settled s1 s6)
      by (etrans; [exact HS1 |]; etrans; [exact HSd |];
          etrans; [exact HS2 |]; etrans; [exact HSa | exact HS3]).
    assert (H36 : settled s3 s6)
      by (etrans; [exact HS2 |]; etrans; [exact HSa | exact HS3]).
    cbn. rewrite Hh. split; [| split].
    + exists lp, xp. split; [done |]. split.
      * rewrite lookup_insert_ne by done. rewrite lookup_insert_ne by done.
        apply lookup_insert_eq.
      * eapply guard_lowered_settled; [exact H16 | exact Hgp].
    + exists ld, xd. split; [done |]. split.
      * rewrite lookup_insert_ne by done. apply lookup_insert_eq.
      * eapply operand_lowered_settled; [exact H36 | exact Hgd].
    + exists la, xa. split; [done |]. split.
      * apply lookup_insert_eq.
      * eapply operand_lowered_settled; [exact HS3 | exact Hga].
Qed.

Lemma translateSimpleBinaryInstruction_inv ptx s r s' :
  _translateSimpleBinaryInstruction ptx s = Returns r s' ->
  (r = false /\ isSimpleBinaryInstruction ptx = false /\ s' = s) \/
  (r = true /\ isSimpleBinaryInstruction ptx = true /\
   exists u s8,
     binary_opcode ptx
     = Some (ir.Instruction.opcode (ir.BinaryInstruction.base u)) /\
     same_code s s8 /\ heap s ⊆ heap s8 /\
     layout (ir.Binary u) /\
     populated (heap s8) (ir.BinaryInstruction.base u) /\
     exclusive (ir.BinaryInstruction.base u) /\
     (forall l, l ∈ operands (ir.BinaryInstruction.base u) ->
                heap s !! l = None) /\
     (_ptxInstruction s = Some ptx -> operands_lowered s8 ptx (ir.Binary u)) /\
     on_block (ir.push_back (ir.Binary u)) s8 = Returns tt s').
Proof.
  unfold _translateSimpleBinaryInstruction.
  destruct (isSimpleBinaryInstruction ptx) eqn:Hsimple; cbn [negb].
  2: { intros [= <- <-]. by left. }
  intros Ht. right.
  apply T_bind_inv in Ht as (p & s1 & Hp & Ht).
  apply T_bind_inv in Ht as (v1 & s2 & Hv1 & Ht).
  apply T_bind_inv in Ht as (d & s3 & Hd & Ht).
  apply T_bind_inv in Ht as (v2 & s4 & Hv2 & Ht).
  apply T_bind_inv in Ht as (a & s5 & Ha & Ht).
  apply T_bind_inv in Ht as (v3 & s6 & Hv3 & Ht).
  apply T_bind_inv in Ht as (b & s7 & Hb & Ht).
  apply T_bind_inv in Ht as (v4 & s8 & Hv4 & Ht).
  pose proof (translatePredicateOperand_spec _ _ _ _ Hp) as HPp.
  pose proof (instruction_translatePredicateOperand _ _ _ _ Hp) as HIp.
  pose proof (arrow_settled _ _ _ _ _ Hv1) as [HS1 HI1].
  pose proof (fun i Hi => newTranslatedOperand_spec _ i _ _ _ Hi Hd) as HPd.
  pose proof (settled_newTranslatedOperand _ _ _ _ Hd) as HSd.
  pose proof (instruction_newTranslatedOperand _ _ _ _ Hd) as HId.
  pose proof (arrow_settled _ _ _ _ _ Hv2) as [HS2 HI2].
  pose proof (fun i Hi => newTranslatedOperand_spec _ i _ _ _ Hi Ha) as HPa.
  pose proof (settled_newTranslatedOperand _ _ _ _ Ha) as HSa.
  pose proof (instruction_newTranslatedOperand _ _ _ _ Ha) as HIa.
  pose proof (arrow_settled _ _ _ _ _ Hv3) as [HS3 HI3].
  pose proof (fun i Hi => newTranslatedOperand_spec _ i _ _ _ Hi Hb) as HPb.
  pose proof (settled_newTranslatedOperand _ _ _ _ Hb) as HSb.
  pose proof (arrow_settled _ _ _ _ _ Hv4) as [HS4 _].
  apply arrow_frames in Hv1 as (Hc1 & _ & u0 & u1 & Hnew & -> & Hg).
  apply arrow_frames in Hv2 as (Hc2 & _ & ? & u2 & [= <-] & -> & Hsd).
  apply arrow_frames in Hv3 as (Hc3 & _ & ? & u3 & [= <-] & -> & Hsa).
  apply arrow_frames in Hv4 as (Hc4 & _ & ? & u4 & [= <-] & -> & Hsb).
  apply T_bind_inv in Ht as ([] & s9 & Hpush & Ht).
  injection Ht as <- <-.
  pose proof (code_translatePredicateOperand _ _ _ _ Hp) as Hcp.
  pose proof (code_newTranslatedOperand _ _ _ _ Hd) as Hcd.
  pose proof (code_newTranslatedOperand _ _ _ _ Ha) as Hca.
  pose proof (code_newTranslatedOperand _ _ _ _ Hb) as Hcb.
  apply translatePredicateOperand_alloc in Hp as (lp & xp & -> & Hlp & Hh1).
  apply newTranslatedOperand_alloc in Hd as (ld & xd & -> & Hld & Hh3).
  apply newTranslatedOperand_alloc in Ha as (la & xa & -> & Hla & Hh5).
  apply newTranslatedOperand_alloc in Hb as (lb & xb & -> & Hlb & Hh7).
  pose proof (newBinaryInstruction_new _ _ Hnew) as Hu0.
  rewrite Hu0 in Hg.
  cbn in Hg. injection Hg as <- Hh2.
  cbn in Hsd. injection Hsd as <- Hh4.
  cbn in Hsa. injection Hsa as <- Hh6.
  cbn in Hsb. injection Hsb as <- Hh8.
  rewrite <- Hh2, Hh1 in Hld. apply fresh_after_insert in Hld as [Hdp Hld].
  rewrite <- Hh4, Hh3, <- Hh2, Hh1 in Hla.
  apply fresh_after_insert in Hla as [Had Hla].
  apply fresh_after_insert in Hla as [Hap Hla].
  rewrite <- Hh6, Hh5, <- Hh4, Hh3, <- Hh2, Hh1 in Hlb.
  apply fresh_after_insert in Hlb as [Hba Hlb].
  apply fresh_after_insert in Hlb as [Hbd Hlb].
  apply fresh_after_insert in Hlb as [Hbp Hlb].
  assert (Hh : heap s8
               = <[lb := xb]>
                   (<[la := xa]> (<[ld := xd]> (<[lp := xp]> (heap s)))))
    by congruence.
  split; [done |]. split; [done |].
  eexists _, s8. split; [| split; [| split; [| split; [| split;
    [| split; [| split; [| split; [| exact Hpush]]]]]]]].
  - unfold binary_opcode. rewrite Hnew. reflexivity.
  - unfold same_code in *. congruence.
  - rewrite Hh. etrans; [| apply insert_subseteq].
    + etrans; [| apply insert_subseteq].
      * etrans; [| apply insert_subseteq].
        -- by apply insert_subseteq.
        -- by rewrite lookup_insert_ne.
      * rewrite lookup_insert_ne by done. by rewrite lookup_insert_ne.
    + rewrite lookup_insert_ne by done. rewrite lookup_insert_ne by done.
      by rewrite lookup_insert_ne.
  - done.
  - rewrite Hh. split; cbn; repeat constructor; eexists; (split; [done |]).
    + rewrite lookup_insert_ne by done. rewrite lookup_insert_ne by done.
      rewrite lookup_insert_ne by done. rewrite lookup_insert_eq.
      by eexists.
    + rewrite lookup_insert_ne by done. rewrite lookup_insert_eq.
      by eexists.
    + rewrite lookup_insert_eq. by eexists.
    + rewrite lookup_insert_ne by done. rewrite lookup_insert_ne by done.
      rewrite lookup_insert_eq. by eexists.
  - unfold exclusive. cbn. apply NoDup_4; congruence.
  - unfold operands, held. cbn. intros l Hl.
    repeat (apply elem_of_cons in Hl as [-> | Hl]); try done.
    inversion Hl.
  - intros Hptx.
    assert (Hi2 : _ptxInstruction s2 = Some ptx)
      by (unfold same_instruction in *; congruence).
    assert (Hi4 : _ptxInstruction s4 = Some ptx)
      by (unfold same_instruction in *; congruence).
    assert (Hi6 : _ptxInstruction s6 = Some ptx)
      by (unfold same_instruction in *; congruence).
    destruct HPp as (? & vp & [= <-] & _ & Hh1' & Hgp).
    destruct (HPd _ Hi2) as (? & vd & [= <-] & _ & Hh3' & Hgd).
    destruct (HPa _ Hi4) as (? & va & [= <-] & _ & Hh5' & Hga).
    destruct (HPb _ Hi6) as (? & vb & [= <-] & _ & Hh7' & Hgb).
    rewrite Hh1 in Hh1'. apply insert_at_same in Hh1' as <-.
    rewrite Hh3 in Hh3'. apply insert_at_same in Hh3' as <-.
    rewrite Hh5 in Hh5'. apply insert_at_same in Hh5' as <-.
    rewrite Hh7 in Hh7'. apply insert_at_same in Hh7' as <-.
    assert (H58 : settled s5 s8)
      by (etrans; [exact HS3 |]; etrans; [exact HSb | exact HS4]).
    assert (H38 : settled s3 s8)
      by (etrans; [exact HS2 |]; etrans; [exact HSa | exact H58]).
    assert (H18 : settled s1 s8)
      by (etrans; [exact HS1 |]; etrans; [exact HSd | exact H38]).
    cbn. rewrite Hh. split; [| split; [| split]].
    + exists lp, xp. split; [done |]. split.
      * rewrite lookup_insert_ne by done. rewrite lookup_insert_ne by done.
        rewrite lookup_insert_ne by done. apply lookup_insert_eq.
      * eapply guard_lowered_settled; [exact H18 | exact Hgp].
    + exists ld, xd. split; [done |]. split.
      * rewrite lookup_insert_ne by done. rewrite lookup_insert_ne by done.
        apply lookup_insert_eq.
      * eapply operand_lowered_settled; [exact H38 | exact Hgd].
    + exists la, xa. split; [done |]. split.
      * rewrite lookup_insert_ne by done. apply lookup_insert_eq.
      * eapply operand_lowered_settled; [exact H58 | exact Hga].
    + exists lb, xb. split; [done |]. split.
      * apply lookup_insert_eq.
      * eapply operand_lowered_settled; [exact HS4 | exact Hgb].
Qed.

Lemma on_block_inv' f s s' :
  on_block f s = Returns tt s' ->
  exists k bs b,
    _block s = Some k /\ current_blocks s = Some bs /\ bs !! k = Some b /\
    _function s' = _function s /\ _block s' = Some k /\
    current_blocks s' = Some (<[k := f b]> bs) /\
    heap s' = heap s.
Proof.
  intros Hb.
  assert (Hh : same_heap s s').
  { revert Hb. apply (respects_on_block same_heap). intros g _.
    apply heap_on_function. }
  assert (Hf : same_function s s').
  { revert Hb. apply (respects_on_block same_function). intros g _.
    apply function_on_function. }
  apply on_block_inv in Hb as (k & fn & b & Hk & Hfn & Hbk & Hk' & Hfn').
  exists k, (ir.blocks fn), b. unfold current_blocks. rewrite Hfn, Hfn'.
  done.
Qed.

Lemma instruction_appended ptx s s' :
  _translateInstruction ptx s = Returns tt s' ->
  exists k bs b o,
    _block s = Some k /\ current_blocks s = Some bs /\ bs !! k = Some b /\
    _function s' = _function s /\ _block s' = Some k /\
    current_blocks s' = Some (<[k := ir.push_back o b]> bs) /\
    lowered ptx o /\ layout o /\
    populated (heap s') (ir.base o) /\ exclusive (ir.base o) /\
    (forall l, l ∈ operands (ir.base o) -> heap s !! l = None) /\
    heap s ⊆ heap s' /\
    operands_lowered s' ptx o.
Proof.
  unfold _translateInstruction, _translateComplexInstruction.
  intros ([] & s0 & Hset & Ht)%T_bind_inv.
  assert (Hs0 : same_code s s0 /\ heap s0 = heap s /\
                _ptxInstruction s0 = Some ptx)
    by (injection Hset as <-; done).
  destruct Hs0 as (Hc0 & Hh0 & Hi0).
  apply T_bind_inv in Ht as (complex & ? & [= <- <-] & Ht).
  apply T_bind_inv in Ht as (binary & s1 & Hbin & Ht).
  apply translateSimpleBinaryInstruction_inv in Hbin
    as [(-> & Hnb & ->)
       | (-> & Hb & u & s8 & Hop & Hc & Hsub & Hl & Hp & Hex & Hfr & Hpr
          & Hpush)].
  - apply T_bind_inv in Ht as (unary & s2 & Hun & Ht).
    apply translateSimpleUnaryInstruction_inv in Hun
      as [(-> & Hnu & ->)
         | (-> & Hu & u & s6 & Hop & Hc & Hsub & Hl & Hp & Hex & Hfr & Hpr
            & Hpush)];
      [discriminate Ht |].
    injection Ht as <-.
    pose proof (settled_on_block _ _ _ _ Hpush) as Hst.
    apply on_block_inv' in Hpush
      as (k & bs & b & Hk & Hbs & Hbk & Hf' & Hk' & Hbs' & Hh').
    assert (Hlow : operands_lowered s2 ptx (ir.Unary u)).
    { eapply operands_lowered_settled; [exact Hst | by rewrite Hh' |].
      apply Hpr, Hi0. }
    assert (Hc' : same_code s s6) by (unfold same_code in *; congruence).
    apply same_code_current in Hc' as (Hcf & Hcb & Hcbs).
    exists k, bs, b, (ir.Unary u).
    rewrite <- Hcb, <- Hcbs, Hf', Hcf, Hh', <- Hh0.
    do 10 (split; [first [done | congruence | assumption] |]).
    split; [exact Hfr |]. split; [done | exact Hlow].
  - injection Ht as <-.
    pose proof (settled_on_block _ _ _ _ Hpush) as Hst.
    apply on_block_inv' in Hpush
      as (k & bs & b & Hk & Hbs & Hbk & Hf' & Hk' & Hbs' & Hh').
    assert (Hlow : operands_lowered s1 ptx (ir.Binary u)).
    { eapply operands_lowered_settled; [exact Hst | by rewrite Hh' |].
      apply Hpr, Hi0. }
    assert (Hc' : same_code s s8) by (unfold same_code in *; congruence).
    apply same_code_current in Hc' as (Hcf & Hcb & Hcbs).
    exists k, bs, b, (ir.Binary u).
    rewrite <- Hcb, <- Hcbs, Hf', Hcf, Hh', <- Hh0.
    do 10 (split; [first [done | congruence | assumption] |]).
    split; [exact Hfr |]. split; [done | exact Hlow].
Qed.

Lemma live_weaken (h h' : gmap positive ir.Operand) p :
  h ⊆ h' -> live h p -> live h' p.
Proof.
  intros Hsub (l & -> & [x Hx]). exists l. split; [done |].
  exists x. eapply lookup_weaken; eassumption.
Qed.

Lemma populated_weaken (h h' : gmap positive ir.Operand) i :
  h ⊆ h' -> populated h i -> populated h' i.
Proof.
  intros Hsub [Hr Hw].
  split; (eapply Forall_impl; [eassumption |]); intros p;
    by apply live_weaken.
Qed.

Lemma populated_operands h i l :
  populated h i -> l ∈ operands i -> is_Some (h !! l).
Proof.
  intros [Hr Hw] Hl. unfold operands in Hl.
  apply held_elem_of, elem_of_app in Hl.
  rewrite Forall_forall in Hr, Hw.
  destruct Hl as [Hl | Hl]; [apply Hr in Hl | apply Hw in Hl];
    destruct Hl as (l' & [= <-] & Hs); exact Hs.
Qed.

Lemma NoDup_held ps : NoDup ps -> NoDup (held ps).
Proof.
  induction 1 as [| p ps Hp Hnd IH]; [constructor |].
  destruct p as [l |]; [| exact IH]. unfold held in *. cbn.
  apply NoDup_cons. split; [| exact IH].
  intros Hin. apply Hp. by apply held_elem_of.
Qed.

Lemma instruction_loop ptxs : forall s s' k bs b,
  _block s = Some k -> current_blocks s = Some bs -> bs !! k = Some b ->
  for_each ptxs _translateInstruction s = Returns tt s' ->
  exists os,
    _function s' = _function s /\ _block s' = Some k /\
    current_blocks s'
    = Some (<[k := {| ir.block_name := ir.block_name b;
                      ir.instructions := ir.instructions b ++ os |}]> bs) /\
    Forall2 lowered ptxs os /\
    Forall (fun o => layout o /\ populated (heap s') (ir.base o) /\
                     exclusive (ir.base o)) os /\
    NoDup (os ≫= fun o => operands (ir.base o)) /\
    (forall l, l ∈ (os ≫= fun o => operands (ir.base o)) ->
               heap s !! l = None /\ is_Some (heap s' !! l)) /\
    heap s ⊆ heap s' /\
    Forall2 (operands_lowered s') ptxs os.
Proof.
  induction ptxs as [| ptx ptxs IH]; intros s s' k bs b Hk Hbs Hbk;
    cbn [for_each].
  - intros [= <-]. exists []. rewrite app_nil_r.
    split; [done |]. split; [done |]. split.
    { rewrite Hbs. f_equal. symmetry. apply list_insert_id.
      rewrite Hbk. by destruct b. }
    split; [constructor |]. split; [constructor |].
    split; [constructor |]. split; [| split; [done | constructor]].
    intros l Hl. inversion Hl.
  - intros ([] & s1 & Hi & Hrest)%T_bind_inv.
    assert (Hst : settled s1 s').
    { revert Hrest. apply (respects_for_each settled).
      apply settled_translateInstruction. }
    apply instruction_appended in Hi
      as (k' & bs' & b' & o & Hk1 & Hbs1 & Hbk1 & Hf1 & Hk1' & Hbs1'
          & Hlow & Hlay & Hpop & Hex & Hfr & Hsub & Hops).
    rewrite Hk in Hk1. injection Hk1 as <-.
    rewrite Hbs in Hbs1. injection Hbs1 as <-.
    rewrite Hbk in Hbk1. injection Hbk1 as <-.
    assert (Hlt : k < length bs) by (eapply lookup_lt_Some, Hbk).
    eapply IH in Hrest
      as (os & Hf2 & Hk2 & Hbs2 & Hall & Hwf & Hnd & Hfr2 & Hsub2 & Hops2);
      [| exact Hk1' | exact Hbs1' | by apply list_lookup_insert_eq].
    exists (o :: os). rewrite Hf2, Hf1, Hbs2, list_insert_insert_eq. cbn.
    rewrite <- app_assoc. cbn.
    split; [done |]. split; [done |]. split; [done |].
    split; [by constructor |]. split.
    { constructor; [| done]. split; [done |]. split; [| done].
      eapply populated_weaken; eassumption. }
    split.
    { apply NoDup_app. split; [by apply NoDup_held |]. split; [| done].
      intros l Hl Hl'. destruct (Hfr2 l Hl') as [Hn _].
      destruct (populated_operands _ _ _ Hpop Hl) as [x Hx].
      by rewrite Hx in Hn. }
    split; [| split; [etrans; eassumption |]].
    + intros l [Hl | Hl]%elem_of_app.
      * split; [by apply Hfr |].
        destruct (populated_operands _ _ _ Hpop Hl) as [x Hx].
        exists x. eapply lookup_weaken; eassumption.
      * destruct (Hfr2 l Hl) as [Hn Hs]. split; [| done].
        eapply lookup_weaken_None; eassumption.
    + constructor; [| exact Hops2].
      eapply operands_lowered_settled; [exact Hst | exact Hsub2 | exact Hops].
Qed.

Lemma translateBasicBlock_spec (basicBlock : PTXBasicBlock)
    (s s' : State) :
  _translateBasicBlock basicBlock s = Returns tt s' ->
  exists bs os,
    current_blocks s = Some bs /\
    _function s' = _function s /\ _block s' = Some (length bs) /\
    current_blocks s'
    = Some (bs ++ [{| ir.block_name := ptx_label basicBlock;
                      ir.instructions := os |}])%list /\
    Forall2 lowered (ptx_instructions basicBlock) os /\
    Forall (fun o => layout o /\ populated (heap s') (ir.base o) /\
                     exclusive (ir.base o)) os /\
    NoDup (os ≫= fun o => operands (ir.base o)) /\
    (forall l, l ∈ (os ≫= fun o => operands (ir.base o)) ->
               heap s !! l = None) /\
    heap s ⊆ heap s' /\
    Forall2 (operands_lowered s') (ptx_instructions basicBlock) os.
Proof.
  unfold _translateBasicBlock.
  intros (block & s1 & Hnew & Hrest)%T_bind_inv.
  apply T_bind_inv in Hrest as ([] & s2 & Hset & Hloop).
  apply on_function_inv in Hnew
    as (kf & fn & Hkf & Hfn & -> & Hm & Hf1 & _ & _ & _ & _ & _ & Hh1).
  injection Hset as <-.
  eapply (instruction_loop _ _ _ (length (ir.blocks fn))
            (ir.blocks fn
               ++ [{| ir.block_name := ptx_label basicBlock;
                      ir.instructions := [] |}])%list
            {| ir.block_name := ptx_label basicBlock;
               ir.instructions := [] |}) in Hloop
    as (os & Hf2 & Hk2 & Hbs2 & Hall & Hwf & Hnd & Hfr & Hsub & Hops).
  - exists (ir.blocks fn), os. cbn in *.
    split.
    { unfold current_blocks, current_function. rewrite Hkf. cbn.
      by rewrite Hfn. }
    split; [congruence |]. split; [done |]. split.
    { rewrite Hbs2. f_equal. rewrite insert_app_r_alt by done.
      rewrite Nat.sub_diag. done. }
    split; [done |]. split; [done |]. split; [done |].
    rewrite <- Hh1. split; [| done]. intros l Hl. by apply Hfr.
  - reflexivity.
  - unfold current_blocks, current_function. cbn. rewrite Hf1, Hkf, Hm. cbn.
    rewrite list_lookup_insert_eq by (eapply lookup_lt_Some, Hfn). done.
  - cbn. rewrite lookup_app_r by done. by rewrite Nat.sub_diag.
Qed.

(** X24. When the translation of an instruction returns, exactly one
    instruction has been appended to the current block, and nothing else
    in the blocks of the function has changed: a binary instruction when
    the binary classifier accepts the PTX instruction, otherwise a unary
    one, with the opcode that the selection function gives.  Its guard and
    operands are objects that did not exist before, each in the slot of its
    named field and in no other, all live in the new free store, which
    extends the old one. *)
Theorem instruction_is_appended_well_formed
    (ptx : PTXInstruction.t) (s s' : State) :
  _translateInstruction ptx s = Returns tt s' ->
  exists k bs b o,
    _block s = Some k /\ current_blocks s = Some bs /\ bs !! k = Some b /\
    _function s' = _function s /\ _block s' = Some k /\
    current_blocks s' = Some (<[k := ir.push_back o b]> bs) /\
    lowered ptx o /\ layout o /\
    populated (heap s') (ir.base o) /\ exclusive (ir.base o) /\
    (forall l, l ∈ operands (ir.base o) -> heap s !! l = None) /\
    heap s ⊆ heap s'.
Proof.
  intros (k & bs & b & o & Hk & Hbs & Hb & Hf & Hk' & Hbs' & Hlow & Hlay
          & Hpop & Hex & Hfr & Hsub & _)%instruction_appended.
  exists k, bs, b, o.
  do 10 (split; [assumption |]). split; assumption.
Qed.

(** X25. When the translation of a basic block returns, the current
    function has one more block, placed after the blocks it had, which is
    now the current block: it has the label of the PTX block and one
    instruction per PTX instruction, in order, each built as the simple
    lowering prescribes: the class and the opcode are those of the
    selection functions, and the guard, [d], [a] and (in a binary
    instruction) [b] hold the lowering of the PTX operands [pg], [d], [a]
    and [b], each resolved as its address mode says.  All slots are
    populated by operands of the instruction's own: no operand object is
    shared between two instructions or existed before. *)
Theorem block_is_lowered_in_order (basicBlock : PTXBasicBlock)
    (s s' : State) :
  _translateBasicBlock basicBlock s = Returns tt s' ->
  exists bs os,
    current_blocks s = Some bs /\
    _function s' = _function s /\ _block s' = Some (length bs) /\
    current_blocks s'
    = Some (bs ++ [{| ir.block_name := ptx_label basicBlock;
                      ir.instructions := os |}])%list /\
    Forall2 lowered (ptx_instructions basicBlock) os /\
    Forall (fun o => layout o /\ populated (heap s') (ir.base o) /\
                     exclusive (ir.base o)) os /\
    NoDup (os ≫= fun o => operands (ir.base o)) /\
    (forall l, l ∈ (os ≫= fun o => operands (ir.base o)) ->
               heap s !! l = None) /\
    heap s ⊆ heap s' /\
    Forall2 (operands_lowered s') (ptx_instructions basicBlock) os.
Proof. apply translateBasicBlock_spec. Qed.

(** *** The function of a kernel *)

Lemma code_translateRegisterValue reg type :
  respects same_code (_translateRegisterValue reg type).
Proof. unfold _translateRegisterValue, _getType. frame. Qed.

Lemma extend_translateBasicBlock block :
  respects registers_extend (_translateBasicBlock block).
Proof. unfold _translateBasicBlock. frame. Qed.

#[local] Hint Resolve extend_translateBasicBlock : frames.

Lemma register_loop_function regs : forall s s' rs0,
  current_registers s = Some rs0 ->
  for_each regs (fun reg => _translateRegisterValue reg.1 reg.2) s
  = Returns tt s' ->
  exists rs,
    current_registers s' = Some (rs0 ++ rs)%list /\
    Forall2 (fun reg vr =>
               ir.vr_name vr = register_name reg.1 /\
               getType (translateTypeName reg.2) = Some (ir.vr_type vr))
            regs rs /\
    (forall i reg,
        regs !! i = Some reg ->
        _registers s' !! reg.1 = Some (length rs0 + i)).
Proof.
  induction regs as [| [reg type] regs IH]; intros s s' rs0 Hrs0;
    cbn [for_each].
  - intros [= <-]. exists []. rewrite app_nil_r. split; [done |].
    split; [constructor |]. intros i r Hi. inversion Hi.
  - intros ([] & s1 & Hreg & Hrest)%T_bind_inv. cbn in Hreg.
    assert (Hgrow : tables_grow s1 s').
    { revert Hrest. apply (respects_for_each tables_grow). intros r.
      apply tables_translateRegisterValue. }
    apply translateRegisterValue_inv in Hreg
      as (Hnone & t & k & fn & Ht & Hk & Hfn & Hr1 & Hm1 & Hf1 & _).
    assert (Hfn0 : rs0 = ir.registers fn).
    { unfold current_registers, current_function in Hrs0.
      rewrite Hk in Hrs0. cbn in Hrs0. rewrite Hfn in Hrs0.
      by injection Hrs0. }
    subst rs0.
    eapply IH in Hrest as (rs & Hrs & Hall & Hidx).
    2: { unfold current_registers, current_function.
         rewrite Hf1, Hk, Hm1. cbn.
         rewrite list_lookup_insert_eq by (eapply lookup_lt_Some, Hfn).
         reflexivity. }
    cbn in Hrs. eexists (_ :: rs). rewrite Hrs, <- app_assoc. cbn.
    split; [reflexivity |]. split; [constructor; [done | exact Hall] |].
    intros [| i] r Hi; cbn in Hi.
    + injection Hi as <-. cbn. rewrite Nat.add_0_r.
      destruct Hgrow as [Hsub _]. eapply lookup_weaken; [| exact Hsub].
      rewrite Hr1. apply lookup_insert_eq.
    + pose proof (Hidx i r Hi) as Hri.
      cbn in Hri. rewrite length_app in Hri. cbn in Hri.
      replace (length (ir.registers fn) + S i)
        with (length (ir.registers fn) + 1 + i) by lia. done.
Qed.

Lemma translateKernel_registers_spec kernel s s' :
  _translateKernel kernel s = Returns tt s' ->
  exists rs more,
    current_registers s' = Some (rs ++ more)%list /\
    Forall2 (fun reg vr =>
               ir.vr_name vr = register_name reg.1 /\
               getType (translateTypeName reg.2) = Some (ir.vr_type vr))
            (PTXKernel.getReferencedRegisters kernel) rs /\
    (forall i reg,
        PTXKernel.getReferencedRegisters kernel !! i = Some reg ->
        _registers s' !! reg.1 = Some i).
Proof.
  unfold _translateKernel.
  intros (function & s1 & Hnew & Hrest)%T_bind_inv.
  apply T_bind_inv in Hrest as ([] & s2 & Hset & Hrest).
  apply T_bind_inv in Hrest as ([] & s3 & Hregs & Hrest).
  assert (H2 : current_registers s2 = Some []).
  { unfold on_module, ir.newFunction in Hnew. injection Hnew as <- <-.
    injection Hset as <-. unfold current_registers, current_function. cbn.
    rewrite lookup_app_r, Nat.sub_diag by done. reflexivity. }
  apply (register_loop_function _ _ _ _ H2) in Hregs
    as (rs & Hrs & Hall & Hidx).
  assert (Hext : registers_extend s3 s').
  { revert Hrest. apply (respects_bind registers_extend).
    - frame.
    - intros []. frame. }
  assert (Hsame : same_registers s3 s').
  { revert Hrest. apply (respects_bind same_registers).
    - frame.
    - intros []. frame. }
  destruct Hext as [_ Hext]. destruct (Hext _ Hrs) as [more Hmore].
  exists rs, more. split; [exact Hmore |]. split; [exact Hall |].
  intros i reg Hi. rewrite Hsame. exact (Hidx i reg Hi).
Qed.


(** X26. When the translation of a kernel returns, every PTX register
    that the kernel references has an entry in the register table: the
    entry points to a virtual register of the function of the kernel that
    is named with the letter r and the PTX id and has the type that the
    compiler has for the translated type name, and no other referenced id
    has the same entry. *)
Theorem kernel_registers_are_declared
    (kernel : PTXKernel.t) (s s' : State) :
  _translateKernel kernel s = Returns tt s' ->
  forall reg type,
    (reg, type) ∈ PTXKernel.getReferencedRegisters kernel ->
    exists r vr,
      _registers s' !! reg = Some r /\
      register_at s' r = Some vr /\
      ir.vr_name vr = register_name reg /\
      getType (translateTypeName type) = Some (ir.vr_type vr) /\
      (forall reg',
          reg' ∈ (PTXKernel.getReferencedRegisters kernel).*1 ->
          _registers s' !! reg' = Some r -> reg' = reg).
Proof.
  intros (rs & more & Hrs & Hall & Hidx)%translateKernel_registers_spec
    reg type [i Hi]%list_elem_of_lookup.
  destruct (Forall2_lookup_l _ _ _ _ _ Hall Hi) as (vr & Hvr & Hname & Htype).
  exists i, vr. split; [exact (Hidx i _ Hi) |]. split.
  { unfold register_at. unfold current_registers in Hrs.
    destruct (current_function s') as [fn |]; [| discriminate].
    cbn in *. injection Hrs as ->. by apply lookup_app_l_Some. }
  split; [exact Hname |]. split; [exact Htype |].
  intros reg' [j Hj]%list_elem_of_lookup Hreg'.
  rewrite list_lookup_fmap in Hj.
  destruct (PTXKernel.getReferencedRegisters kernel !! j)
    as [[reg'' type'] |] eqn:Hj'; [| discriminate].
  injection Hj as <-. pose proof (Hidx j _ Hj') as Hjj. cbn in Hjj.
  rewrite Hjj in Hreg'. injection Hreg' as ->.
  rewrite Hi in Hj'. by injection Hj'.
Qed.

Lemma block_lowered_weaken (h h' : gmap positive ir.Operand) basicBlock b :
  h ⊆ h' -> block_lowered h basicBlock b -> block_lowered h' basicBlock b.
Proof.
  intros Hsub (Hn & Hl & Hw). split; [done |]. split; [done |].
  eapply Forall_impl; [exact Hw |]. intros o (? & ? & ?).
  split; [done |]. split; [| done]. eapply populated_weaken; eassumption.
Qed.

Lemma block_loop_spec kernel sequence : forall s s' bs,
  current_blocks s = Some bs ->
  for_each sequence
    (fun block =>
       if decide (ptx_block_id block = get_entry_block (PTXKernel.cfg kernel))
       then mret tt
       else if decide (ptx_block_id block
                         = get_exit_block (PTXKernel.cfg kernel))
       then mret tt
       else _translateBasicBlock block) s = Returns tt s' ->
  exists new,
    current_blocks s' = Some (bs ++ new)%list /\
    heap s ⊆ heap s' /\
    Forall2 (block_lowered (heap s'))
      (filter (fun block =>
                 ptx_block_id block <> get_entry_block (PTXKernel.cfg kernel) /\
                 ptx_block_id block <> get_exit_block (PTXKernel.cfg kernel))
              sequence) new.
Proof.
  induction sequence as [| block rest IH]; intros s s' bs Hbs;
    cbn [for_each].
  - intros [= <-]. exists []. rewrite app_nil_r. split; [done |].
    split; [done |]. constructor.
  - intros ([] & s1 & Hbody & Hrest)%T_bind_inv.
    destruct (decide (ptx_block_id block = _)) as [He | He].
    { injection Hbody as <-. rewrite filter_cons_False by tauto. eauto. }
    destruct (decide (ptx_block_id block = _)) as [Hx | Hx].
    { injection Hbody as <-. rewrite filter_cons_False by tauto. eauto. }
    rewrite filter_cons_True by tauto.
    apply translateBasicBlock_spec in Hbody
      as (bs' & os & Hbs' & _ & _ & Hbs1 & Hlow & Hwf & _ & _ & Hsub1 & _).
    rewrite Hbs in Hbs'. injection Hbs' as <-.
    destruct (IH _ _ _ Hbs1 Hrest) as (new & Hnew & Hsub2 & Hall).
    eexists (_ :: new). rewrite Hnew, <- app_assoc. cbn.
    split; [reflexivity |]. split; [etrans; eassumption |].
    constructor; [| exact Hall].
    eapply block_lowered_weaken; [exact Hsub2 |]. done.
Qed.

Lemma translateKernel_blocks_spec kernel s s' :
  _translateKernel kernel s = Returns tt s' ->
  exists first second,
    current_blocks s' = Some (first ++ second)%list /\
    Forall2 (block_lowered (heap s')) (translated_blocks kernel) first /\
    Forall2 (block_lowered (heap s')) (translated_blocks kernel) second.
Proof.
  unfold _translateKernel.
  intros (function & s1 & Hnew & Hrest)%T_bind_inv.
  apply T_bind_inv in Hrest as ([] & s2 & Hset & Hrest).
  apply T_bind_inv in Hrest as ([] & s3 & Hregs & Hrest).
  apply T_bind_inv in Hrest as ([] & s4 & Hfirst & Hsecond).
  assert (H2 : current_blocks s2 = Some []).
  { unfold on_module, ir.newFunction in Hnew. injection Hnew as <- <-.
    injection Hset as <-. unfold current_blocks, current_function. cbn.
    rewrite lookup_app_r, Nat.sub_diag by done. reflexivity. }
  assert (H3 : current_blocks s3 = Some []).
  { assert (Hc : same_code s2 s3).
    { revert Hregs. apply (respects_for_each same_code). intros reg.
      apply code_translateRegisterValue. }
    apply same_code_current in Hc as (_ & _ & ->). exact H2. }
  destruct (block_loop_spec _ _ _ _ _ H3 Hfirst) as (first & H4 & _ & Hf).
  destruct (block_loop_spec _ _ _ _ _ H4 Hsecond)
    as (second & H5 & Hsub & Hs).
  exists first, second. split; [exact H5 |]. split; [| exact Hs].
  eapply Forall2_impl; [exact Hf |]. intros bb b.
  by apply block_lowered_weaken.
Qed.

(** X27. When the translation of a kernel returns, the blocks of its
    function are the lowering of the executable PTX blocks other than the
    entry and the exit block, in order, followed by a second lowering of
    the same blocks: each block has the label of its source and one
    instruction per PTX instruction, in order, with the opcode of the
    selection functions and all operand slots populated in the final free
    store. *)
Theorem kernel_blocks_are_lowered_in_order
    (kernel : PTXKernel.t) (s s' : State) :
  _translateKernel kernel s = Returns tt s' ->
  exists first second,
    current_blocks s' = Some (first ++ second)%list /\
    Forall2 (block_lowered (heap s')) (translated_blocks kernel) first /\
    Forall2 (block_lowered (heap s')) (translated_blocks kernel) second.
Proof. apply translateKernel_blocks_spec. Qed.

End Translation.

(** ** The history of the guard slot *)

Section GuardHistory.

Import ir Views.








Lemma setGuard_keeps_guard p i h i' h' :
  Instruction.setGuard p i h = Some (i', h') -> Instruction.guard i' = p.
Proof. unfold Instruction.setGuard. intros Hs. M_inv Hs. reflexivity. Qed.






End GuardHistory.

(** ** Register declarations during a translation *)

Section RegisterErrors.

Import translation Views.
Context `{Compiler} `{PTXFrontEnd}.

Lemma for_each_app {A} (l1 l2 : list A) (body : A -> T unit) s :
  for_each (l1 ++ l2) body s = (for_each l1 body;; for_each l2 body) s.
Proof.
  revert s. induction l1 as [| x l1 IH]; intros s; cbn [app for_each].
  - reflexivity.
  - unfold mbind, T_mbind, T_bind in *.
    destruct (body x s) as [[] s1 | | |]; [apply IH | done..].
Qed.

Lemma tables_step c : respects tables_grow (step c).
Proof.
  destruct c; cbn [step].
  - apply tables_translateRegisterValue.
  - apply (respects_bind tables_grow);
      [apply tables_newTranslatedOperand | intros ?; apply respects_ret, _].
  - apply (respects_bind tables_grow);
      [apply tables_translatePredicateOperand
      | intros ?; apply respects_ret, _].
  - apply tables_translateInstruction.
  - apply tables_translateBasicBlock.
  - apply tables_translateKernel.
Qed.

Lemma register_loop_other regs id : forall s s',
  id ∉ regs.*1 ->
  for_each regs (fun reg => _translateRegisterValue reg.1 reg.2) s
  = Returns tt s' ->
  _registers s !! id = None -> _registers s' !! id = None.
Proof.
  induction regs as [| [reg type] regs IH]; intros s s' Hid; cbn [for_each].
  - by intros [= <-].
  - cbn in Hid. apply not_elem_of_cons in Hid as [Hne Hid].
    intros ([] & s1 & Hreg & Hrest)%T_bind_inv Hnone.
    eapply IH; [exact Hid | exact Hrest |].
    eapply undeclared_after_other_declaration; [| exact Hreg | exact Hnone].
    cbn. congruence.
Qed.

Lemma translateKernel_other kernel id s s' :
  id ∉ (PTXKernel.getReferencedRegisters kernel).*1 ->
  _translateKernel kernel s = Returns tt s' ->
  _registers s !! id = None -> _registers s' !! id = None.
Proof.
  unfold _translateKernel. intros Hid Hk Hnone.
  apply T_bind_inv in Hk as (function & s1 & Hnew & Hrest).
  apply T_bind_inv in Hrest as ([] & s2 & Hset & Hrest).
  apply T_bind_inv in Hrest as ([] & s3 & Hregs & Hrest).
  apply T_bind_inv in Hrest as ([] & s4 & Hfirst & Hsecond).
  assert (H2 : _registers s2 = _registers s).
  { unfold on_module in Hnew. injection Hnew as _ <-.
    injection Hset as <-. reflexivity. }
  assert (H4 : _registers s4 = _registers s3).
  { revert Hfirst. apply (respects_for_each same_registers). intros block.
    repeat case_decide; first [apply respects_ret, _
                              | apply registers_translateBasicBlock]. }
  assert (H5 : _registers s' = _registers s4).
  { revert Hsecond. apply (respects_for_each same_registers). intros block.
    repeat case_decide; first [apply respects_ret, _
                              | apply registers_translateBasicBlock]. }
  rewrite H5, H4. eapply register_loop_other; [exact Hid | exact Hregs |].
  by rewrite H2.
Qed.

Lemma undeclared_step c id s s' :
  id ∉ declares c -> step c s = Returns tt s' ->
  _registers s !! id = None -> _registers s' !! id = None.
Proof.
  destruct c; cbn [step declares]; intros Hid Hc Hnone.
  - eapply undeclared_after_other_declaration; [| exact Hc | exact Hnone].
    intros ->. apply Hid, list_elem_of_here.
  - apply T_bind_inv in Hc as (p & s1 & Hp & [= <-]).
    apply registers_newTranslatedOperand in Hp. by rewrite Hp.
  - apply T_bind_inv in Hc as (p & s1 & Hp & [= <-]).
    apply registers_translatePredicateOperand in Hp. by rewrite Hp.
  - apply registers_translateInstruction in Hc. by rewrite Hc.
  - apply registers_translateBasicBlock in Hc. by rewrite Hc.
  - eapply translateKernel_other; eassumption.
Qed.

Lemma undeclared_steps calls id : forall s s',
  id ∉ calls ≫= declares -> for_each calls step s = Returns tt s' ->
  _registers s !! id = None -> _registers s' !! id = None.
Proof.
  induction calls as [| c calls IH]; intros s s' Hid; cbn [for_each].
  - by intros [= <-].
  - rewrite bind_cons in Hid. apply not_elem_of_app in Hid as [Hc Hid].
    intros ([] & s1 & H1 & Hrest)%T_bind_inv Hnone.
    eapply IH; [exact Hid | exact Hrest |].
    eapply undeclared_step; eassumption.
Qed.

(** The declaration of a fresh id with a type that the compiler knows
    returns. *)
Lemma translateRegisterValue_defined reg type t fn s :
  _registers s !! reg = None ->
  getType (translateTypeName type) = Some t ->
  current_function s = Some fn ->
  exists s',
    _translateRegisterValue reg type s = Returns tt s' /\
    _registers s' = <[reg := length (ir.registers fn)]> (_registers s) /\
    is_Some (current_function s').
Proof.
  intros Hnone Ht Hfn.
  unfold current_function in Hfn.
  destruct (_function s) as [k |] eqn:Hk; [| discriminate]. cbn in Hfn.
  unfold _translateRegisterValue. rewrite T_bind_get.
  rewrite decide_False by (rewrite Hnone; by intros [? ?]).
  unfold _getType. rewrite Ht.
  unfold mbind, mret, T_mbind, T_mret, T_bind, T_ret, get, on_function,
    on_module, set_registers.
  eexists. rewrite Hk, Hfn. cbn.
  split; [reflexivity |]. cbn. split; [reflexivity |].
  unfold current_function. cbn.
  rewrite list_lookup_insert_eq by (eapply lookup_lt_Some, Hfn). by eexists.
Qed.

Lemma register_loop_defined regs : forall s,
  NoDup regs.*1 ->
  (forall r, r ∈ regs.*1 -> _registers s !! r = None) ->
  Forall (fun reg => is_Some (getType (translateTypeName reg.2))) regs ->
  is_Some (current_function s) ->
  exists s',
    for_each regs (fun reg => _translateRegisterValue reg.1 reg.2) s
    = Returns tt s' /\
    (forall r, r ∈ regs.*1 -> is_Some (_registers s' !! r)) /\
    _registers s ⊆ _registers s' /\
    is_Some (current_function s').
Proof.
  induction regs as [| [reg type] regs IH]; intros s Hnd Hnone Hty Hfn;
    cbn [for_each].
  - exists s. split; [reflexivity |].
    split; [intros r Hr; inversion Hr | done].
  - cbn in Hnd. apply NoDup_cons in Hnd as [Hnot Hnd].
    apply Forall_cons in Hty as [[t Ht] Hty]. destruct Hfn as [fn Hfn].
    destruct (translateRegisterValue_defined reg type t fn s)
      as (s1 & H1 & Hr1 & Hfn1);
      [apply Hnone, list_elem_of_here | exact Ht | exact Hfn |].
    destruct (IH s1) as (s' & Hrest & Hall & Hsub & Hfn'); [done | | done..|].
    { intros r Hr. rewrite Hr1, lookup_insert_ne by (intros <-; done).
      apply Hnone. by apply list_elem_of_further. }
    exists s'. split; [| split; [| split; [| done]]].
    + erewrite T_bind_Returns by exact H1. exact Hrest.
    + intros r [-> | Hr]%elem_of_cons; [| by apply Hall].
      exists (length (ir.registers fn)).
      eapply lookup_weaken; [| exact Hsub].
      rewrite Hr1. apply lookup_insert_eq.
    + etrans; [| exact Hsub]. rewrite Hr1. apply insert_subseteq.
      apply Hnone, list_elem_of_here.
Qed.

Lemma translateKernel_duplicate kernel s pre reg type rest :
  PTXKernel.getReferencedRegisters kernel = (pre ++ (reg, type) :: rest)%list ->
  NoDup pre.*1 ->
  (forall r, r ∈ pre.*1 -> _registers s !! r = None) ->
  Forall (fun reg => is_Some (getType (translateTypeName reg.2))) pre ->
  reg ∈ pre.*1 \/ is_Some (_registers s !! reg) ->
  _translateKernel kernel s
  = Throws ("Added duplicate virtual register '"
              +:+ register_name reg +:+ "'").
Proof.
  intros Hregs Hnd Hnone Hty Hdup.
  unfold _translateKernel. rewrite Hregs.
  set (s2 :=
         {| _module :=
              (ir.newFunction (PTXKernel.name kernel)
                 (_translateLinkingDirective
                    (PTXKernel.linkingDirective kernel)) (_module s)).2;
            _function := Some (length (ir._functions (_module s)));
            _block := _block s; _registers := _registers s;
            _specialRegisters := _specialRegisters s;
            _blocks := _blocks s; _ptxInstruction := _ptxInstruction s;
            heap := heap s |}).
  destruct (register_loop_defined pre s2) as (s3 & Hpre & Hall & Hsub & _);
    [done | done | done | |].
  { unfold current_function, s2. cbn.
    rewrite lookup_app_r, Nat.sub_diag by done. by eexists. }
  assert (Hin : is_Some (_registers s3 !! reg)).
  { destruct Hdup as [Hin | [x Hx]]; [by apply Hall |].
    exists x. eapply lookup_weaken; [exact Hx | exact Hsub]. }
  unfold mbind at 1, T_mbind, T_bind, on_module. cbn.
  unfold mbind at 1, T_mbind, T_bind, set_function. cbn.
  change {| _module := _; _function := _; _block := _; _registers := _;
            _specialRegisters := _; _blocks := _; _ptxInstruction := _;
            heap := _ |} with s2.
  apply T_bind_Throws. rewrite for_each_app.
  erewrite T_bind_Returns by exact Hpre.
  cbn [for_each]. apply T_bind_Throws. cbn.
  apply redeclaration_throws, Hin.
Qed.

Lemma undeclared_guard_throws ptx s :
  PTXOperand.condition ptx <> PTXOperand.PT ->
  PTXOperand.condition ptx <> PTXOperand.nPT ->
  _registers s !! PTXOperand.reg ptx = None ->
  _translatePredicateOperand ptx s
  = Throws ("PTX register " +:+ register_name (PTXOperand.reg ptx)
              +:+ " used without declaration.").
Proof.
  intros Hpt Hnpt Hreg. unfold _translatePredicateOperand.
  rewrite !bool_decide_eq_true_2 by done. cbn [andb].
  apply T_bind_Throws.
  unfold fmap, T_fmap. apply (T_bind_Throws (_getRegister _)).
  apply undeclared_register_throws, Hreg.
Qed.

Lemma undeclared_guard_is_fatal ptx s :
  isSimpleBinaryInstruction ptx || isSimpleUnaryInstruction ptx = true ->
  PTXOperand.condition (PTXInstruction.pg ptx) <> PTXOperand.PT ->
  PTXOperand.condition (PTXInstruction.pg ptx) <> PTXOperand.nPT ->
  _registers s !! PTXOperand.reg (PTXInstruction.pg ptx) = None ->
  _translateInstruction ptx s
  = Throws ("PTX register "
              +:+ register_name (PTXOperand.reg (PTXInstruction.pg ptx))
              +:+ " used without declaration.").
Proof.
  intros Hsimple Hpt Hnpt Hreg.
  unfold _translateInstruction, _translateComplexInstruction.
  erewrite T_bind_Returns by reflexivity.
  erewrite T_bind_Returns by reflexivity.
  unfold _translateSimpleBinaryInstruction, _translateSimpleUnaryInstruction.
  destruct (isSimpleBinaryInstruction ptx); cbn [negb].
  - apply T_bind_Throws, T_bind_Throws.
    by apply undeclared_guard_throws.
  - cbn in Hsimple. rewrite Hsimple. cbn [negb].
    erewrite T_bind_Returns by reflexivity.
    apply T_bind_Throws, T_bind_Throws.
    by apply undeclared_guard_throws.
Qed.
(** C9. Declaring a source register id a second time throws the
    duplicate-declaration error: at once, after any calls of the
    translator in between, and out of [_translateKernel] when the register
    list of the kernel repeats an id (or names one that is in the table
    already) behind declarations that succeed.  Lowering a register
    operand, an indirect operand or a guard whose register id is not
    declared throws the undeclared-register error, and the id stays
    undeclared through every call that does not declare it; the error of
    a guard leaves [_translateInstruction], which lowers the guard before
    anything else.  Both messages contain the register name, the letter r
    followed by the id in decimal. *)
Theorem register_declaration_errors :
  (forall s s' reg type type',
      _translateRegisterValue reg type s = Returns tt s' ->
      _translateRegisterValue reg type' s'
      = Throws ("Added duplicate virtual register '"
                  +:+ ("r" +:+ pretty reg) +:+ "'")) /\
  (forall s s' s'' reg type type' calls,
      _translateRegisterValue reg type s = Returns tt s' ->
      for_each calls step s' = Returns tt s'' ->
      _translateRegisterValue reg type' s''
      = Throws ("Added duplicate virtual register '"
                  +:+ ("r" +:+ pretty reg) +:+ "'")) /\
  (forall kernel s pre reg type rest,
      PTXKernel.getReferencedRegisters kernel
      = (pre ++ (reg, type) :: rest)%list ->
      NoDup pre.*1 ->
      (forall r, r ∈ pre.*1 -> _registers s !! r = None) ->
      Forall (fun reg => is_Some (getType (translateTypeName reg.2))) pre ->
      reg ∈ pre.*1 \/ is_Some (_registers s !! reg) ->
      _translateKernel kernel s
      = Throws ("Added duplicate virtual register '"
                  +:+ ("r" +:+ pretty reg) +:+ "'")) /\
  (forall s ptx,
      PTXOperand.addressMode ptx = PTXOperand.Register ->
      _registers s !! PTXOperand.reg ptx = None ->
      _newTranslatedOperand ptx s
      = Throws ("PTX register " +:+ ("r" +:+ pretty (PTXOperand.reg ptx))
                  +:+ " used without declaration.")) /\
  (forall s ptx,
      PTXOperand.addressMode ptx = PTXOperand.Indirect ->
      _registers s !! PTXOperand.reg ptx = None ->
      _newTranslatedOperand ptx s
      = Throws ("PTX register " +:+ ("r" +:+ pretty (PTXOperand.reg ptx))
                  +:+ " used without declaration.")) /\
  (forall s ptx,
      PTXOperand.condition ptx <> PTXOperand.PT ->
      PTXOperand.condition ptx <> PTXOperand.nPT ->
      _registers s !! PTXOperand.reg ptx = None ->
      _translatePredicateOperand ptx s
      = Throws ("PTX register " +:+ ("r" +:+ pretty (PTXOperand.reg ptx))
                  +:+ " used without declaration.")) /\
  (forall s s' reg type id,
      reg <> id ->
      _translateRegisterValue reg type s = Returns tt s' ->
      _registers s !! id = None -> _registers s' !! id = None) /\
  (forall s s' calls ptx,
      PTXOperand.addressMode ptx = PTXOperand.Register ->
      _registers s !! PTXOperand.reg ptx = None ->
      PTXOperand.reg ptx ∉ calls ≫= declares ->
      for_each calls step s = Returns tt s' ->
      _newTranslatedOperand ptx s'
      = Throws ("PTX register " +:+ ("r" +:+ pretty (PTXOperand.reg ptx))
                  +:+ " used without declaration.")) /\
  (forall s ptx,
      isSimpleBinaryInstruction ptx || isSimpleUnaryInstruction ptx = true ->
      PTXOperand.condition (PTXInstruction.pg ptx) <> PTXOperand.PT ->
      PTXOperand.condition (PTXInstruction.pg ptx) <> PTXOperand.nPT ->
      _registers s !! PTXOperand.reg (PTXInstruction.pg ptx) = None ->
      _translateInstruction ptx s
      = Throws ("PTX register "
                  +:+ ("r" +:+ pretty (PTXOperand.reg (PTXInstruction.pg ptx)))
                  +:+ " used without declaration.")).
Proof.
  assert (Hundeclared : forall s ptx,
             PTXOperand.addressMode ptx = PTXOperand.Register ->
             _registers s !! PTXOperand.reg ptx = None ->
             _newTranslatedOperand ptx s
             = Throws ("PTX register "
                         +:+ ("r" +:+ pretty (PTXOperand.reg ptx))
                         +:+ " used without declaration.")).
  { intros s ptx Hmode Hreg. unfold _newTranslatedOperand. rewrite Hmode.
    apply T_bind_Throws. apply undeclared_register_throws, Hreg. }
  split; [| split; [| split; [| split; [| split; [| split; [| split;
    [| split]]]]]]].
  - intros s s' reg type type' Hfirst.
    apply redeclaration_throws.
    eapply declared_after_declaration, Hfirst.
  - intros s s' s'' reg type type' calls Hfirst Hcalls.
    apply redeclaration_throws.
    destruct (declared_after_declaration _ _ _ _ Hfirst) as [x Hx].
    exists x.
    assert (Hgrow : tables_grow s' s'').
    { revert Hcalls. apply (respects_for_each tables_grow), tables_step. }
    eapply lookup_weaken; [exact Hx | apply Hgrow].
  - apply translateKernel_duplicate.
  - exact Hundeclared.
  - intros s ptx Hmode Hreg. unfold _newTranslatedOperand. rewrite Hmode.
    apply T_bind_Throws. apply undeclared_register_throws, Hreg.
  - intros s ptx. apply undeclared_guard_throws.
  - apply undeclared_after_other_declaration.
  - intros s s' calls ptx Hmode Hnone Hnot Hcalls.
    apply Hundeclared; [exact Hmode |].
    eapply undeclared_steps; eassumption.
  - intros s ptx. apply undeclared_guard_is_fatal.
Qed.

End RegisterErrors.

Section RegisterExamples.

Import translation Views.
#[local] Existing Instances Examples.compiler Examples.front_end.

Lemma register_declaration_errors_witness :
  (exists s',
      _translateRegisterValue 1 PTXOperand.s32 Examples.in_kernel
        = Returns tt s' /\
      _translateRegisterValue 1 PTXOperand.f32 s'
        = Throws "Added duplicate virtual register 'r1'" /\
      _registers s' !! 2%N = None) /\
  _newTranslatedOperand (Examples.register PTXOperand.s32 2) Examples.in_kernel
    = Throws "PTX register r2 used without declaration." /\
  _translateKernel Examples.r1_r2_r1_kernel Examples.new_translator
    = Throws "Added duplicate virtual register 'r1'".
Proof.
  destruct (@register_declaration_errors Examples.compiler Examples.front_end)
    as (Hdup & _ & Hkernel & Hundeclared & _ & _ & Hother & _).
  destruct (_translateRegisterValue 1 PTXOperand.s32 Examples.in_kernel)
    as [[] s' | | |] eqn:Hfirst; try (vm_compute in Hfirst; discriminate).
  split; [| split].
  - exists s'. split; [reflexivity |]. split.
    + exact (Hdup _ _ _ _ PTXOperand.f32 Hfirst).
    + apply (Hother _ _ 1%N PTXOperand.s32 2%N ltac:(discriminate) Hfirst).
      reflexivity.
  - apply (Hundeclared Examples.in_kernel
             (Examples.register PTXOperand.s32 2)); reflexivity.
  - apply (Hkernel Examples.r1_r2_r1_kernel Examples.new_translator
             [(1%N, PTXOperand.s32); (2%N, PTXOperand.f32)]
             1%N PTXOperand.u32 []).
    + reflexivity.
    + compute_done.
    + intros r _. reflexivity.
    + repeat constructor; by eexists.
    + left. compute_done.
Defined.

End RegisterExamples.

Section TranslationExamples.

Import translation Views.
#[local] Existing Instances Examples.compiler Examples.front_end
  Examples.no_initializers.

Lemma kernels_cannot_share_a_register_id_witness :
  exists s',
    translate Examples.a_module Examples.new_translator = Returns tt s' /\
    NoDup [1%N] /\ is_Some (_registers s' !! 1%N).
Proof.
  destruct (translate Examples.a_module Examples.new_translator)
    as [[] s' | | |] eqn:Hs'; try (vm_compute in Hs'; discriminate).
  destruct (kernels_cannot_share_a_register_id _ _ _ Hs') as [Hnd Hall].
  exists s'. split; [reflexivity |]. split; [exact Hnd |].
  apply Hall. compute_done.
Defined.

Lemma special_registers_outlive_their_kernel_witness :
  exists s',
    _translateKernel Examples.empty_kernel Examples.after_tid_kernel
    = Returns tt s' /\
    _function s' = Some 1 /\
    _getSpecialVirtualRegister 0 1 s' = Returns 1 s'.
Proof.
  destruct (_translateKernel Examples.empty_kernel Examples.after_tid_kernel)
    as [[] s' | | |] eqn:Hs'; try (vm_compute in Hs'; discriminate).
  exists s'. split; [reflexivity |].
  apply (special_registers_outlive_their_kernel _ _ _ 0%N 1%N 1 Hs').
  vm_compute. reflexivity.
Defined.

Lemma translate_builds_the_module_witness :
  exists s',
    translate Examples.a_module Examples.new_translator = Returns tt s' /\
    ir.module_name (_module s') = "module.ptx" /\
    ir.global_linkage <$> ir._globals (_module s') = [ir.ExternalLinkage] /\
    ir.function_name <$> ir._functions (_module s') = ["kernel"].
Proof.
  destruct (translate Examples.a_module Examples.new_translator)
    as [[] s' | | |] eqn:Hs'; try (vm_compute in Hs'; discriminate).
  destruct (translate_builds_the_module _ _ _ Hs') as (Hn & Hg & Hf).
  exists s'. split; [reflexivity |]. split; [exact Hn |].
  cbn in Hg, Hf.
  apply Forall2_cons_inv_l in Hg as (v & vs & (_ & _ & Hl & _) & Hvs & ->).
  apply Forall2_nil_inv_l in Hvs as ->.
  apply Forall2_cons_inv_l in Hf as (f & fs & (Hname & _) & Hfs & ->).
  apply Forall2_nil_inv_l in Hfs as ->.
  clear Hs'. cbn. rewrite Hl, Hname. split; reflexivity.
Defined.

Lemma store_is_never_lowered_witness :
  _translateInstruction Examples.st_u32 Examples.in_kernel
  = UndefinedBehaviour.
Proof.
  rewrite (store_is_never_lowered Examples.st_u32 Examples.in_kernel eq_refl).
  reflexivity.
Defined.

Lemma instruction_is_appended_well_formed_witness :
  exists s' k bs b o,
    _translateInstruction Examples.cvt_f64_f32 Examples.in_block
    = Returns tt s' /\
    current_blocks Examples.in_block = Some bs /\ bs !! k = Some b /\
    current_blocks s' = Some (<[k := ir.push_back o b]> bs) /\
    lowered Examples.cvt_f64_f32 o /\
    populated (heap s') (ir.base o).
Proof.
  destruct (_translateInstruction Examples.cvt_f64_f32 Examples.in_block)
    as [[] s' | | |] eqn:Hs'; try (vm_compute in Hs'; discriminate).
  destruct (instruction_is_appended_well_formed _ _ _ Hs')
    as (k & bs & b & o & _ & Hbs & Hb & _ & _ & Hbs' & Hlow & _ & Hpop & _).
  exists s', k, bs, b, o. clear Hs'.
  split; [reflexivity |]. split; [exact Hbs |]. split; [exact Hb |].
  split; [exact Hbs' |]. split; [exact Hlow | exact Hpop].
Defined.

Lemma block_is_lowered_in_order_witness :
  exists s' bs os,
    _translateBasicBlock
      {| ptx_block_id := 1; ptx_label := "BB1";
         ptx_instructions := [Examples.cvt_f64_f32] |} Examples.in_block
    = Returns tt s' /\
    current_blocks s'
    = Some (bs ++ [{| ir.block_name := "BB1"; ir.instructions := os |}])%list /\
    Forall2 lowered [Examples.cvt_f64_f32] os /\
    Forall2 (operands_lowered s') [Examples.cvt_f64_f32] os.
Proof.
  destruct (_translateBasicBlock
              {| ptx_block_id := 1; ptx_label := "BB1";
                 ptx_instructions := [Examples.cvt_f64_f32] |}
              Examples.in_block)
    as [[] s' | | |] eqn:Hs'; try (vm_compute in Hs'; discriminate).
  destruct (block_is_lowered_in_order _ _ _ Hs')
    as (bs & os & _ & _ & _ & Hbs' & Hlow & _ & _ & _ & _ & Hops).
  exists s', bs, os. clear Hs'.
  split; [reflexivity |]. split; [exact Hbs' |].
  split; [exact Hlow | exact Hops].
Defined.

Lemma kernel_registers_are_declared_witness :
  exists s' r vr,
    _translateKernel Examples.one_block_kernel Examples.new_translator
    = Returns tt s' /\
    _registers s' !! 1%N = Some r /\
    register_at s' r = Some vr /\
    ir.vr_name vr = "r1" /\ ir.vr_type vr = "i32".
Proof.
  destruct (_translateKernel Examples.one_block_kernel
              Examples.new_translator)
    as [[] s' | | |] eqn:Hs'; try (vm_compute in Hs'; discriminate).
  destruct (kernel_registers_are_declared _ _ _ Hs' 1%N PTXOperand.s32)
    as (r & vr & Hr & Hvr & Hname & Htype & _).
  - apply list_elem_of_here.
  - exists s', r, vr. clear Hs'.
    split; [reflexivity |]. split; [exact Hr |]. split; [exact Hvr |].
    split; [exact Hname |]. cbn in Htype. by injection Htype.
Defined.

Lemma kernel_blocks_are_lowered_in_order_witness :
  exists s' first second,
    _translateKernel Examples.one_block_kernel Examples.new_translator
    = Returns tt s' /\
    current_blocks s' = Some (first ++ second)%list /\
    ir.block_name <$> first = ["BB0"] /\
    ir.block_name <$> second = ["BB0"].
Proof.
  destruct (_translateKernel Examples.one_block_kernel
              Examples.new_translator)
    as [[] s' | | |] eqn:Hs'; try (vm_compute in Hs'; discriminate).
  destruct (kernel_blocks_are_lowered_in_order _ _ _ Hs')
    as (first & second & Hbs & Hf & Hs).
  exists s', first, second. split; [reflexivity |]. split; [exact Hbs |].
  clear Hs'.
  change (translated_blocks Examples.one_block_kernel)
    with [ {| ptx_block_id := 1; ptx_label := "BB0";
              ptx_instructions := [Examples.add_s32] |} ] in Hf, Hs.
  apply Forall2_cons_inv_l in Hf as (b1 & bs1 & (Hn1 & _) & Hbs1 & ->).
  apply Forall2_nil_inv_l in Hbs1 as ->.
  apply Forall2_cons_inv_l in Hs as (b2 & bs2 & (Hn2 & _) & Hbs2 & ->).
  apply Forall2_nil_inv_l in Hbs2 as ->.
  cbn. rewrite Hn1, Hn2. split; reflexivity.
Defined.

End TranslationExamples.
